(** * Cauchy: state-based CRDTs, verified against the C sources

    A shallow embedding of the vector clock, UID generator, G-Counter,
    LWW-Register, G-Set, 2P-Set and OR-Set of the cauchy library
    (src/core/vclock.c, src/core/cauchy.c, src/crdt/*.c and the headers under
    include/cauchy/), followed by the properties stated about them.

    Conventions of the embedding.
    - [u8], [u32], [u64] and [usize] values are [Z]s; where the C code can
      wrap around, the reduction modulo 2^w is written out ([wrap64]).
      [usize] is 64 bits wide (the x86_64 / arm64 targets of platform.h) and
      integers are stored least significant byte first.
    - A fixed C array ([u64 entries[CAUCHY_MAX_NODES]], [u8 value[256]]) is a
      [list Z] read with [!!!] and written with [<[i:=v]>]; an index outside
      the array is undefined behaviour in C, so the statements about arrays
      assume the struct is valid (the array has its declared length and the
      count field does not exceed it).
    - A pointer to a struct that the code tests against NULL is an [option];
      [None] is the NULL pointer.  A function that mutates [*dst] returns the
      new contents of [*dst]; an [_init] function is the struct it writes.
    - A [for (u32 i = 0; i < n; i++)] loop is a left fold over [zrange n]; a
      loop that walks a chain recurses on the chain.
    - The allocator is an input: an operation that allocates takes the
      outcome of its allocations as an argument and returns
      [CAUCHY_ERR_NOMEM] where the C code does.  The constructors ([_init],
      [_create]) are given for the case where their allocations succeed. *)

From Stdlib Require Import ZArith List Bool Lia.
From stdpp Require Import base numbers list.

Local Open Scope Z_scope.

(** ** Machine integers and loops *)

Definition wrap64 (z : Z) : Z := z mod 2 ^ 64.

Definition zrange (n : Z) : list Z := map Z.of_nat (seq 0 (Z.to_nat n)).

Definition for_loop {S : Type} (n : Z) (body : S -> Z -> S) (s : S) : S :=
  fold_left body (zrange n) s.

(** ** include/cauchy/types.h *)

Inductive cauchy_result_t : Type :=
  | CAUCHY_OK
  | CAUCHY_ERR_NOMEM
  | CAUCHY_ERR_INVALID
  | CAUCHY_ERR_NOTFOUND
  | CAUCHY_ERR_EXISTS
  | CAUCHY_ERR_FULL
  | CAUCHY_ERR_EMPTY
  | CAUCHY_ERR_TIMEOUT
  | CAUCHY_ERR_CONCURRENT
  | CAUCHY_ERR_CAUSAL
  | CAUCHY_ERR_NETWORK
  | CAUCHY_ERR_INTERNAL.

Inductive cauchy_causality_t : Type :=
  | CAUCHY_HAPPENS_BEFORE
  | CAUCHY_CONCURRENT
  | CAUCHY_HAPPENS_AFTER
  | CAUCHY_EQUAL.

Record cauchy_uid_t : Type := mk_uid {
  uid_node_id : Z;
  uid_timestamp : Z
}.

Definition cauchy_uid_create (node ts : Z) : cauchy_uid_t :=
  {| uid_node_id := node; uid_timestamp := ts |}.

Definition cauchy_uid_compare (a b : cauchy_uid_t) : Z :=
  if negb (uid_timestamp a =? uid_timestamp b) then
    (if uid_timestamp a <? uid_timestamp b then -1 else 1)
  else if negb (uid_node_id a =? uid_node_id b) then
    (if uid_node_id a <? uid_node_id b then -1 else 1)
  else 0.

Definition cauchy_uid_equals (a b : cauchy_uid_t) : bool :=
  (uid_node_id a =? uid_node_id b) && (uid_timestamp a =? uid_timestamp b).

(** ** Byte buffers and [memcpy] *)

Module Mem.

(** [memcpy(dst + off, src, length src)] on a byte buffer [dst]. *)
Definition memcpy_to (dst : list Z) (off : nat) (src : list Z) : list Z :=
  take off dst ++ src ++ drop (off + length src) dst.

(** The [n] bytes found at [buf + off]. *)
Definition bytes_at (buf : list Z) (off n : nat) : list Z :=
  take n (drop off buf).

(** Object representation of a [w]-byte unsigned integer, least significant
    byte first (the host order the wire formats assume). *)
Fixpoint le_bytes (w : nat) (v : Z) : list Z :=
  match w with
  | O => []
  | S w' => v mod 256 :: le_bytes w' (v / 256)
  end.

Fixpoint le_value (bs : list Z) : Z :=
  match bs with
  | [] => 0
  | b :: bs' => b + 256 * le_value bs'
  end.

(** Object representation of a [u64] array, and its inverse on [n] words. *)
Definition u64s_bytes (l : list Z) : list Z := flat_map (le_bytes 8) l.

Fixpoint bytes_u64s (n : nat) (bs : list Z) : list Z :=
  match n with
  | O => []
  | S n' => le_value (take 8 bs) :: bytes_u64s n' (drop 8 bs)
  end.

(** [memcpy(arr, words, 8 * length words)] on a [u64] array [arr]. *)
Definition store_u64s (arr words : list Z) : list Z :=
  words ++ drop (length words) arr.

(** [memcmp(a, b, n) == 0]. *)
Fixpoint memcmp_eq (a b : list Z) (n : nat) {struct n} : bool :=
  match n with
  | O => true
  | S n' =>
      match a, b with
      | x :: a', y :: b' => if x =? y then memcmp_eq a' b' n' else false
      | _, _ => false
      end
  end.

(** [strlen]: the number of bytes before the first NUL of the memory a
    [const char*] points to. *)
Fixpoint strlen (s : list Z) : nat :=
  match s with
  | [] => O
  | c :: s' => if c =? 0 then O else S (strlen s')
  end.

(** The bytes a [_string] wrapper passes on: the characters and the
    terminating NUL ([strlen(str) + 1] bytes). *)
Definition c_string (s : list Z) : list Z := take (strlen s + 1) s.

(** The values an [unsigned char] holds. *)
Definition is_byte (b : Z) : Prop := 0 <= b < 256.

End Mem.

(** ** include/cauchy/vclock.h, src/core/vclock.c *)

Definition CAUCHY_MAX_NODES : Z := 64.

Module VClock.

Record cauchy_vclock_t : Type := mk_vclock {
  entries : list Z;
  num_nodes : Z
}.

(** The struct as the C type has it: 64 [u64] entries and a [u32] count that
    stays within the array. *)
Definition valid (vc : cauchy_vclock_t) : Prop :=
  length (entries vc) = Z.to_nat CAUCHY_MAX_NODES /\
  Forall (fun x => 0 <= x < 2 ^ 64) (entries vc) /\
  0 <= num_nodes vc <= CAUCHY_MAX_NODES.

Definition cauchy_vclock_init (num : Z) : cauchy_vclock_t :=
  {| entries := replicate (Z.to_nat CAUCHY_MAX_NODES) 0;
     num_nodes := if num <=? CAUCHY_MAX_NODES then num else CAUCHY_MAX_NODES |}.

Definition cauchy_vclock_increment (vc : option cauchy_vclock_t) (node_id : Z)
  : option cauchy_vclock_t :=
  match vc with
  | None => None
  | Some v =>
      if node_id >=? num_nodes v then Some v
      else Some {| entries := <[Z.to_nat node_id :=
                                 wrap64 (entries v !!! Z.to_nat node_id + 1)]>
                               (entries v);
                   num_nodes := num_nodes v |}
  end.

Definition cauchy_vclock_get (vc : option cauchy_vclock_t) (node_id : Z) : Z :=
  match vc with
  | None => 0
  | Some v =>
      if node_id >=? num_nodes v then 0 else entries v !!! Z.to_nat node_id
  end.

Definition cauchy_vclock_set (vc : option cauchy_vclock_t) (node_id value : Z)
  : option cauchy_vclock_t :=
  match vc with
  | None => None
  | Some v =>
      if node_id >=? num_nodes v then Some v
      else Some {| entries := <[Z.to_nat node_id := value]> (entries v);
                   num_nodes := num_nodes v |}
  end.

(** The value the comparison loop reads at index [i]: the entry when [i] is
    below the side's [num_nodes], zero otherwise. *)
Definition entry_or_zero (vc : cauchy_vclock_t) (i : Z) : Z :=
  if i <? num_nodes vc then entries vc !!! Z.to_nat i else 0.

(** One iteration of the loop of [cauchy_vclock_compare]; the state is the
    pair [(a_less, a_greater)]. *)
Definition compare_body (a b : cauchy_vclock_t) (st : bool * bool) (i : Z)
  : bool * bool :=
  let av := entry_or_zero a i in
  let bv := entry_or_zero b i in
  let a_less := if av <? bv then true else fst st in
  let a_greater := if av >? bv then true else snd st in
  (a_less, a_greater).

Definition cauchy_vclock_compare (a b : option cauchy_vclock_t)
  : cauchy_causality_t :=
  match a, b with
  | Some a, Some b =>
      let max_nodes :=
        if num_nodes a >? num_nodes b then num_nodes a else num_nodes b in
      let '(a_less, a_greater) :=
        for_loop max_nodes (compare_body a b) (false, false) in
      if negb a_less && negb a_greater then CAUCHY_EQUAL
      else if a_less && negb a_greater then CAUCHY_HAPPENS_BEFORE
      else if negb a_less && a_greater then CAUCHY_HAPPENS_AFTER
      else CAUCHY_CONCURRENT
  | _, _ => CAUCHY_CONCURRENT
  end.

Definition cauchy_vclock_happens_before (a b : option cauchy_vclock_t) : bool :=
  match cauchy_vclock_compare a b with CAUCHY_HAPPENS_BEFORE => true | _ => false end.

Definition cauchy_vclock_concurrent (a b : option cauchy_vclock_t) : bool :=
  match cauchy_vclock_compare a b with CAUCHY_CONCURRENT => true | _ => false end.

Definition cauchy_vclock_equals (a b : option cauchy_vclock_t) : bool :=
  match cauchy_vclock_compare a b with CAUCHY_EQUAL => true | _ => false end.

(** One iteration of the loop of [cauchy_vclock_merge]; the state is
    [dst->entries]. *)
Definition merge_body (src : cauchy_vclock_t) (dst_entries : list Z) (i : Z)
  : list Z :=
  if entries src !!! Z.to_nat i >? dst_entries !!! Z.to_nat i
  then <[Z.to_nat i := entries src !!! Z.to_nat i]> dst_entries
  else dst_entries.

Definition cauchy_vclock_merge (dst src : option cauchy_vclock_t)
  : option cauchy_vclock_t :=
  match dst, src with
  | Some d, Some s =>
      let max_nodes :=
        if num_nodes d >? num_nodes s then num_nodes d else num_nodes s in
      let entries' := for_loop max_nodes (merge_body s) (entries d) in
      Some {| entries := entries';
              num_nodes := if num_nodes s >? num_nodes d
                           then num_nodes s else num_nodes d |}
  | _, _ => dst
  end.

Definition cauchy_vclock_serialized_size (vc : option cauchy_vclock_t) : Z :=
  match vc with
  | None => 0
  | Some v => 4 + num_nodes v * 8
  end.

(** Returns the byte count and the new contents of [buffer]. *)
Definition cauchy_vclock_serialize (vc : option cauchy_vclock_t)
  (buffer : option (list Z)) (buffer_size : Z) : Z * option (list Z) :=
  match vc, buffer with
  | Some v, Some buf =>
      let needed := cauchy_vclock_serialized_size vc in
      if buffer_size <? needed then (0, buffer)
      else
        let buf1 := Mem.memcpy_to buf 0 (Mem.le_bytes 4 (num_nodes v)) in
        let buf2 := Mem.memcpy_to buf1 4
                      (Mem.u64s_bytes (take (Z.to_nat (num_nodes v)) (entries v))) in
        (needed, Some buf2)
  | _, _ => (0, buffer)
  end.

Definition cauchy_vclock_deserialize (vc : option cauchy_vclock_t)
  (buffer : option (list Z)) (buffer_size : Z)
  : cauchy_result_t * option cauchy_vclock_t :=
  match vc, buffer with
  | Some _, Some buf =>
      if buffer_size <? 4 then (CAUCHY_ERR_INVALID, vc)
      else
        let num := Mem.le_value (Mem.bytes_at buf 0 4) in
        if num >? CAUCHY_MAX_NODES then (CAUCHY_ERR_INVALID, vc)
        else if buffer_size <? 4 + num * 8 then (CAUCHY_ERR_INVALID, vc)
        else
          let v := cauchy_vclock_init num in
          let words :=
            Mem.bytes_u64s (Z.to_nat num)
              (Mem.bytes_at buf 4 (Z.to_nat (num * 8))) in
          (CAUCHY_OK,
           Some {| entries := Mem.store_u64s (entries v) words;
                   num_nodes := num_nodes v |})
  | _, _ => (CAUCHY_ERR_INVALID, vc)
  end.

(** The causality relations of two clocks, entries at or beyond a side's
    [num_nodes] reading as zero. *)
Definition all_equal (a b : cauchy_vclock_t) : Prop :=
  forall i, 0 <= i < CAUCHY_MAX_NODES -> entry_or_zero a i = entry_or_zero b i.

Definition dominated_by (x y : cauchy_vclock_t) : Prop :=
  (forall i, 0 <= i < CAUCHY_MAX_NODES -> entry_or_zero x i <= entry_or_zero y i) /\
  (exists i, 0 <= i < CAUCHY_MAX_NODES /\ entry_or_zero x i < entry_or_zero y i).

(** A clock with [num_nodes = length l] whose first entries are [l]. *)
Definition of_list (l : list Z) : cauchy_vclock_t :=
  {| entries := l ++ replicate (Z.to_nat CAUCHY_MAX_NODES - length l) 0;
     num_nodes := Z.of_nat (length l) |}.

Definition cauchy_vclock_copy (dst src : option cauchy_vclock_t)
  : option cauchy_vclock_t :=
  match dst, src with
  | Some _, Some s => Some s
  | _, _ => dst
  end.

(** The loop of [cauchy_vclock_is_empty], which returns at the first entry
    that is not zero. *)
Fixpoint is_empty_loop (vc : cauchy_vclock_t) (l : list Z) : bool :=
  match l with
  | [] => true
  | i :: l' =>
      if negb (entries vc !!! Z.to_nat i =? 0) then false
      else is_empty_loop vc l'
  end.

Definition cauchy_vclock_is_empty (vc : option cauchy_vclock_t) : bool :=
  match vc with
  | None => true
  | Some v => is_empty_loop v (zrange (num_nodes v))
  end.

Definition cauchy_vclock_sum (vc : option cauchy_vclock_t) : Z :=
  match vc with
  | None => 0
  | Some v =>
      for_loop (num_nodes v)
        (fun sum i => wrap64 (sum + entries v !!! Z.to_nat i)) 0
  end.

(** One iteration of the loop of [cauchy_vclock_min]; the state is
    [dst->entries]. *)
Definition min_body (src : cauchy_vclock_t) (dst_entries : list Z) (i : Z)
  : list Z :=
  if entries src !!! Z.to_nat i <? dst_entries !!! Z.to_nat i
  then <[Z.to_nat i := entries src !!! Z.to_nat i]> dst_entries
  else dst_entries.

(** The loop runs while [i < dst->num_nodes && i < src->num_nodes], that is
    for every [i] below the smaller of the two counts. *)
Definition cauchy_vclock_min (dst src : option cauchy_vclock_t)
  : option cauchy_vclock_t :=
  match dst, src with
  | Some d, Some s =>
      let bound :=
        if num_nodes d <? num_nodes s then num_nodes d else num_nodes s in
      Some {| entries := for_loop bound (min_body s) (entries d);
              num_nodes := num_nodes d |}
  | _, _ => dst
  end.

(** Every entry at an index at or beyond [num_nodes] is zero, as
    [cauchy_vclock_init] leaves it. *)
Definition zero_beyond (vc : cauchy_vclock_t) : Prop :=
  forall i, num_nodes vc <= i < CAUCHY_MAX_NODES -> entries vc !!! Z.to_nat i = 0.

(** [x] is at most [y] at every index, entries at or beyond a side's
    [num_nodes] reading as zero. *)
Definition below (x y : cauchy_vclock_t) : Prop :=
  forall i, 0 <= i < CAUCHY_MAX_NODES -> entry_or_zero x i <= entry_or_zero y i.

(** [cauchy_vclock_compare] reports [x] as equal to or before [y]. *)
Definition leq (x y : cauchy_vclock_t) : bool :=
  match cauchy_vclock_compare (Some x) (Some y) with
  | CAUCHY_EQUAL | CAUCHY_HAPPENS_BEFORE => true
  | _ => false
  end.

End VClock.

(** ** include/cauchy/crdt/g_counter.h, src/crdt/g_counter.c *)

Module GCounter.

Record cauchy_gcounter_t : Type := mk_gcounter {
  counts : list Z;
  num_nodes : Z
}.

Definition valid (gc : cauchy_gcounter_t) : Prop :=
  length (counts gc) = Z.to_nat CAUCHY_MAX_NODES /\
  Forall (fun x => 0 <= x < 2 ^ 64) (counts gc) /\
  0 <= num_nodes gc <= CAUCHY_MAX_NODES.

(** Every entry at an index at or beyond [num_nodes] is zero. *)
Definition zero_beyond (gc : cauchy_gcounter_t) : Prop :=
  forall i, num_nodes gc <= i < CAUCHY_MAX_NODES -> counts gc !!! Z.to_nat i = 0.

Definition cauchy_gcounter_init (num : Z) : cauchy_gcounter_t :=
  {| counts := replicate (Z.to_nat CAUCHY_MAX_NODES) 0;
     num_nodes := if num <=? CAUCHY_MAX_NODES then num else CAUCHY_MAX_NODES |}.

Definition cauchy_gcounter_increment (gc : option cauchy_gcounter_t) (node_id : Z)
  : option cauchy_gcounter_t :=
  match gc with
  | None => None
  | Some g =>
      if node_id >=? num_nodes g then Some g
      else Some {| counts := <[Z.to_nat node_id :=
                                wrap64 (counts g !!! Z.to_nat node_id + 1)]>
                              (counts g);
                   num_nodes := num_nodes g |}
  end.

Definition cauchy_gcounter_add (gc : option cauchy_gcounter_t) (node_id delta : Z)
  : option cauchy_gcounter_t :=
  match gc with
  | None => None
  | Some g =>
      if node_id >=? num_nodes g then Some g
      else Some {| counts := <[Z.to_nat node_id :=
                                wrap64 (counts g !!! Z.to_nat node_id + delta)]>
                              (counts g);
                   num_nodes := num_nodes g |}
  end.

Definition cauchy_gcounter_value (gc : option cauchy_gcounter_t) : Z :=
  match gc with
  | None => 0
  | Some g =>
      for_loop (num_nodes g)
        (fun sum i => wrap64 (sum + counts g !!! Z.to_nat i)) 0
  end.

Definition cauchy_gcounter_get (gc : option cauchy_gcounter_t) (node_id : Z) : Z :=
  match gc with
  | None => 0
  | Some g =>
      if node_id >=? num_nodes g then 0 else counts g !!! Z.to_nat node_id
  end.

(** One iteration of the loop of [cauchy_gcounter_merge]; the state is
    [dst->counts]. *)
Definition merge_body (src : cauchy_gcounter_t) (dst_counts : list Z) (i : Z)
  : list Z :=
  if (i <? num_nodes src) &&
     (counts src !!! Z.to_nat i >? dst_counts !!! Z.to_nat i)
  then <[Z.to_nat i := counts src !!! Z.to_nat i]> dst_counts
  else dst_counts.

Definition cauchy_gcounter_merge (dst src : option cauchy_gcounter_t)
  : option cauchy_gcounter_t :=
  match dst, src with
  | Some d, Some s =>
      let max_nodes :=
        if num_nodes d >? num_nodes s then num_nodes d else num_nodes s in
      let counts' := for_loop max_nodes (merge_body s) (counts d) in
      Some {| counts := counts';
              num_nodes := if num_nodes s >? num_nodes d
                           then num_nodes s else num_nodes d |}
  | _, _ => dst
  end.

(** The loop of [cauchy_gcounter_equals], which returns at the first
    difference. *)
Fixpoint equals_loop (a b : cauchy_gcounter_t) (l : list Z) : bool :=
  match l with
  | [] => true
  | i :: l' =>
      if negb (counts a !!! Z.to_nat i =? counts b !!! Z.to_nat i) then false
      else equals_loop a b l'
  end.

Definition cauchy_gcounter_equals (a b : option cauchy_gcounter_t) : bool :=
  match a, b with
  | Some a, Some b =>
      if negb (num_nodes a =? num_nodes b) then false
      else equals_loop a b (zrange (num_nodes a))
  | None, None => true
  | _, _ => false
  end.

Definition cauchy_gcounter_copy (dst src : option cauchy_gcounter_t)
  : option cauchy_gcounter_t :=
  match dst, src with
  | Some _, Some s => Some s
  | _, _ => dst
  end.

Definition cauchy_gcounter_serialized_size (gc : option cauchy_gcounter_t) : Z :=
  match gc with
  | None => 0
  | Some g => 4 + num_nodes g * 8
  end.

(** Returns the byte count and the new contents of [buffer]. *)
Definition cauchy_gcounter_serialize (gc : option cauchy_gcounter_t)
  (buffer : option (list Z)) (size : Z) : Z * option (list Z) :=
  match gc, buffer with
  | Some g, Some buf =>
      let needed := cauchy_gcounter_serialized_size gc in
      if size <? needed then (0, buffer)
      else
        let buf1 := Mem.memcpy_to buf 0 (Mem.le_bytes 4 (num_nodes g)) in
        let buf2 := Mem.memcpy_to buf1 4
                      (Mem.u64s_bytes (take (Z.to_nat (num_nodes g)) (counts g))) in
        (needed, Some buf2)
  | _, _ => (0, buffer)
  end.

Definition cauchy_gcounter_deserialize (gc : option cauchy_gcounter_t)
  (buffer : option (list Z)) (size : Z)
  : cauchy_result_t * option cauchy_gcounter_t :=
  match gc, buffer with
  | Some _, Some buf =>
      if size <? 4 then (CAUCHY_ERR_INVALID, gc)
      else
        let num := Mem.le_value (Mem.bytes_at buf 0 4) in
        if num >? CAUCHY_MAX_NODES then (CAUCHY_ERR_INVALID, gc)
        else if size <? 4 + num * 8 then (CAUCHY_ERR_INVALID, gc)
        else
          let g := cauchy_gcounter_init num in
          let words :=
            Mem.bytes_u64s (Z.to_nat num)
              (Mem.bytes_at buf 4 (Z.to_nat (num * 8))) in
          (CAUCHY_OK,
           Some {| counts := Mem.store_u64s (counts g) words;
                   num_nodes := num_nodes g |})
  | _, _ => (CAUCHY_ERR_INVALID, gc)
  end.

(** A counter with [num_nodes = length l] whose first entries are [l], the
    rest zero (what [cauchy_gcounter_init] followed by [cauchy_gcounter_add]s
    builds). *)
Definition of_list (l : list Z) : cauchy_gcounter_t :=
  {| counts := l ++ replicate (Z.to_nat CAUCHY_MAX_NODES - length l) 0;
     num_nodes := Z.of_nat (length l) |}.

(** The value the loop of [cauchy_gcounter_compare] reads at index [i]. *)
Definition count_or_zero (gc : cauchy_gcounter_t) (i : Z) : Z :=
  if i <? num_nodes gc then counts gc !!! Z.to_nat i else 0.

(** One iteration of that loop; the state is [(a_less, a_greater)]. *)
Definition compare_body (a b : cauchy_gcounter_t) (st : bool * bool) (i : Z)
  : bool * bool :=
  let av := count_or_zero a i in
  let bv := count_or_zero b i in
  let a_less := if av <? bv then true else fst st in
  let a_greater := if av >? bv then true else snd st in
  (a_less, a_greater).

Definition cauchy_gcounter_compare (a b : option cauchy_gcounter_t)
  : cauchy_causality_t :=
  match a, b with
  | Some a, Some b =>
      let max_nodes :=
        if num_nodes a >? num_nodes b then num_nodes a else num_nodes b in
      let '(a_less, a_greater) :=
        for_loop max_nodes (compare_body a b) (false, false) in
      if negb a_less && negb a_greater then CAUCHY_EQUAL
      else if a_less && negb a_greater then CAUCHY_HAPPENS_BEFORE
      else if negb a_less && a_greater then CAUCHY_HAPPENS_AFTER
      else CAUCHY_CONCURRENT
  | _, _ => CAUCHY_CONCURRENT
  end.

(** The sum of the first [num_nodes] counts, as an unbounded integer. *)
Definition total (gc : cauchy_gcounter_t) : Z :=
  fold_right Z.add 0 (take (Z.to_nat (num_nodes gc)) (counts gc)).

End GCounter.

(** ** include/cauchy/crdt/pn_counter.h, src/crdt/pn_counter.c *)

Module PNCounter.

(** The two G-Counters are embedded in the struct, so [&pn->positive] and
    [&pn->negative] are never NULL; [default] only unwraps what the G-Counter
    operations return for them. *)
Record cauchy_pncounter_t : Type := mk_pncounter {
  positive : GCounter.cauchy_gcounter_t;
  negative : GCounter.cauchy_gcounter_t
}.

Definition valid (pn : cauchy_pncounter_t) : Prop :=
  GCounter.valid (positive pn) /\ GCounter.valid (negative pn).

Definition cauchy_pncounter_init (num : Z) : cauchy_pncounter_t :=
  {| positive := GCounter.cauchy_gcounter_init num;
     negative := GCounter.cauchy_gcounter_init num |}.

Definition cauchy_pncounter_increment (pn : option cauchy_pncounter_t)
  (node_id : Z) : option cauchy_pncounter_t :=
  match pn with
  | None => None
  | Some p =>
      Some {| positive :=
                default (positive p)
                  (GCounter.cauchy_gcounter_increment (Some (positive p)) node_id);
              negative := negative p |}
  end.

Definition cauchy_pncounter_decrement (pn : option cauchy_pncounter_t)
  (node_id : Z) : option cauchy_pncounter_t :=
  match pn with
  | None => None
  | Some p =>
      Some {| positive := positive p;
              negative :=
                default (negative p)
                  (GCounter.cauchy_gcounter_increment (Some (negative p)) node_id) |}
  end.

(** [delta] is an [i64]; [(u64)delta] is [delta] itself when it is not
    negative, and [(u64)(-delta)] is [wrap64 (- delta)]. *)
Definition cauchy_pncounter_add (pn : option cauchy_pncounter_t)
  (node_id delta : Z) : option cauchy_pncounter_t :=
  match pn with
  | None => None
  | Some p =>
      if delta >=? 0 then
        Some {| positive :=
                  default (positive p)
                    (GCounter.cauchy_gcounter_add (Some (positive p)) node_id delta);
                negative := negative p |}
      else
        Some {| positive := positive p;
                negative :=
                  default (negative p)
                    (GCounter.cauchy_gcounter_add (Some (negative p)) node_id
                       (wrap64 (- delta))) |}
  end.

(** The [(i64)] cast of a [u64]. *)
Definition to_i64 (z : Z) : Z := if z <? 2 ^ 63 then z else z - 2 ^ 64.

(** The difference of the two casts.  C leaves the subtraction undefined
    when the result is outside [i64]; the statements about the value assume
    both sums are below [2 ^ 63], where it cannot be. *)
Definition cauchy_pncounter_value (pn : option cauchy_pncounter_t) : Z :=
  match pn with
  | None => 0
  | Some p =>
      to_i64 (GCounter.cauchy_gcounter_value (Some (positive p))) -
      to_i64 (GCounter.cauchy_gcounter_value (Some (negative p)))
  end.

Definition cauchy_pncounter_positive (pn : option cauchy_pncounter_t) : Z :=
  match pn with
  | None => 0
  | Some p => GCounter.cauchy_gcounter_value (Some (positive p))
  end.

Definition cauchy_pncounter_negative (pn : option cauchy_pncounter_t) : Z :=
  match pn with
  | None => 0
  | Some p => GCounter.cauchy_gcounter_value (Some (negative p))
  end.

Definition cauchy_pncounter_merge (dst src : option cauchy_pncounter_t)
  : option cauchy_pncounter_t :=
  match dst, src with
  | Some d, Some s =>
      Some {| positive :=
                default (positive d)
                  (GCounter.cauchy_gcounter_merge (Some (positive d))
                     (Some (positive s)));
              negative :=
                default (negative d)
                  (GCounter.cauchy_gcounter_merge (Some (negative d))
                     (Some (negative s))) |}
  | _, _ => dst
  end.

Definition cauchy_pncounter_equals (a b : option cauchy_pncounter_t) : bool :=
  match a, b with
  | Some a, Some b =>
      GCounter.cauchy_gcounter_equals (Some (positive a)) (Some (positive b)) &&
      GCounter.cauchy_gcounter_equals (Some (negative a)) (Some (negative b))
  | None, None => true
  | _, _ => false
  end.

Definition cauchy_pncounter_copy (dst src : option cauchy_pncounter_t)
  : option cauchy_pncounter_t :=
  match dst, src with
  | Some d, Some s =>
      Some {| positive :=
                default (positive d)
                  (GCounter.cauchy_gcounter_copy (Some (positive d))
                     (Some (positive s)));
              negative :=
                default (negative d)
                  (GCounter.cauchy_gcounter_copy (Some (negative d))
                     (Some (negative s))) |}
  | _, _ => dst
  end.

Definition cauchy_pncounter_serialized_size (pn : option cauchy_pncounter_t) : Z :=
  match pn with
  | None => 0
  | Some p =>
      GCounter.cauchy_gcounter_serialized_size (Some (positive p)) +
      GCounter.cauchy_gcounter_serialized_size (Some (negative p))
  end.

(** The second G-Counter is written at [buffer + pos_size]: the serializer
    sees the buffer from that offset on, and the bytes below it stay.
    Returns the byte count and the new contents of [buffer]. *)
Definition cauchy_pncounter_serialize (pn : option cauchy_pncounter_t)
  (buffer : option (list Z)) (size : Z) : Z * option (list Z) :=
  match pn, buffer with
  | Some p, Some buf =>
      let needed := cauchy_pncounter_serialized_size pn in
      if size <? needed then (0, buffer)
      else
        let '(pos_size, buf1) :=
          GCounter.cauchy_gcounter_serialize (Some (positive p)) (Some buf) size in
        if pos_size =? 0 then (0, buf1)
        else
          let b1 := default buf buf1 in
          let '(neg_size, rest) :=
            GCounter.cauchy_gcounter_serialize (Some (negative p))
              (Some (drop (Z.to_nat pos_size) b1)) (size - pos_size) in
          let buf2 :=
            Some (take (Z.to_nat pos_size) b1 ++
                  default (drop (Z.to_nat pos_size) b1) rest) in
          if neg_size =? 0 then (0, buf2) else (pos_size + neg_size, buf2)
  | _, _ => (0, buffer)
  end.

(** [size - pos_size] cannot wrap: the first call has checked
    [size >= pos_size] before it returned [CAUCHY_OK]. *)
Definition cauchy_pncounter_deserialize (pn : option cauchy_pncounter_t)
  (buffer : option (list Z)) (size : Z)
  : cauchy_result_t * option cauchy_pncounter_t :=
  match pn, buffer with
  | Some p, Some buf =>
      if size <? 4 * 2 then (CAUCHY_ERR_INVALID, pn)
      else
        let '(res, pos') :=
          GCounter.cauchy_gcounter_deserialize (Some (positive p)) (Some buf) size in
        let p1 := {| positive := default (positive p) pos';
                     negative := negative p |} in
        match res with
        | CAUCHY_OK =>
            let pos_size :=
              GCounter.cauchy_gcounter_serialized_size (Some (positive p1)) in
            let '(res2, neg') :=
              GCounter.cauchy_gcounter_deserialize (Some (negative p1))
                (Some (drop (Z.to_nat pos_size) buf)) (size - pos_size) in
            (res2, Some {| positive := positive p1;
                           negative := default (negative p1) neg' |})
        | _ => (res, Some p1)
        end
  | _, _ => (CAUCHY_ERR_INVALID, pn)
  end.

End PNCounter.

(** ** include/cauchy/crdt/lww_register.h, src/crdt/lww_register.c *)

Module LWW.

Definition CAUCHY_LWW_MAX_VALUE_SIZE : Z := 256.

Record cauchy_lww_register_t : Type := mk_lww {
  value : list Z;
  value_size : Z;
  timestamp : Z;
  node_id : Z
}.

Definition valid (r : cauchy_lww_register_t) : Prop :=
  length (value r) = Z.to_nat CAUCHY_LWW_MAX_VALUE_SIZE /\
  0 <= value_size r <= CAUCHY_LWW_MAX_VALUE_SIZE /\
  0 <= timestamp r < 2 ^ 64 /\
  0 <= node_id r < 2 ^ 64.

(** The register that [cauchy_lww_init] leaves behind ([memset] to zero). *)
Definition cauchy_lww_init : cauchy_lww_register_t :=
  {| value := replicate (Z.to_nat CAUCHY_LWW_MAX_VALUE_SIZE) 0;
     value_size := 0; timestamp := 0; node_id := 0 |}.

(** [v] is the buffer behind the [value] pointer ([None] for NULL); the call
    reads its first [size] bytes. *)
Definition cauchy_lww_set (reg : option cauchy_lww_register_t)
  (v : option (list Z)) (size ts node : Z)
  : cauchy_result_t * option cauchy_lww_register_t :=
  match reg with
  | None => (CAUCHY_ERR_INVALID, None)
  | Some r =>
      if size >? CAUCHY_LWW_MAX_VALUE_SIZE then (CAUCHY_ERR_FULL, Some r)
      else if (ts >? timestamp r) ||
              ((ts =? timestamp r) && (node >? node_id r)) then
        let value' :=
          match v with
          | Some bytes =>
              if size >? 0
              then Mem.memcpy_to (value r) 0 (take (Z.to_nat size) bytes)
              else value r
          | None => value r
          end in
        (CAUCHY_OK,
         Some {| value := value'; value_size := size;
                 timestamp := ts; node_id := node |})
      else (CAUCHY_OK, Some r)
  end.

(** The bytes [cauchy_lww_get] exposes: [None] for the NULL it returns on an
    empty register, else the first [value_size] bytes of the buffer. *)
Definition cauchy_lww_get (reg : option cauchy_lww_register_t) : option (list Z) :=
  match reg with
  | None => None
  | Some r =>
      if value_size r =? 0 then None
      else Some (take (Z.to_nat (value_size r)) (value r))
  end.

Definition cauchy_lww_timestamp (reg : option cauchy_lww_register_t) : Z :=
  match reg with None => 0 | Some r => timestamp r end.

Definition cauchy_lww_copy (dst src : option cauchy_lww_register_t)
  : option cauchy_lww_register_t :=
  match dst, src with
  | Some _, Some s => Some s
  | _, _ => dst
  end.

Definition cauchy_lww_merge (dst src : option cauchy_lww_register_t)
  : option cauchy_lww_register_t :=
  match dst, src with
  | Some d, Some s =>
      if (timestamp s >? timestamp d) ||
         ((timestamp s =? timestamp d) && (node_id s >? node_id d))
      then cauchy_lww_copy dst src
      else dst
  | _, _ => dst
  end.

Definition cauchy_lww_equals (a b : option cauchy_lww_register_t) : bool :=
  match a, b with
  | Some a, Some b =>
      if negb (timestamp a =? timestamp b) then false
      else if negb (node_id a =? node_id b) then false
      else if negb (value_size a =? value_size b) then false
      else Mem.memcmp_eq (value a) (value b) (Z.to_nat (value_size a))
  | None, None => true
  | _, _ => false
  end.

Definition cauchy_lww_serialized_size (reg : option cauchy_lww_register_t) : Z :=
  match reg with
  | None => 0
  | Some r => 8 + 8 + 8 + value_size r
  end.

(** Returns the byte count and the new contents of [buffer]. *)
Definition cauchy_lww_serialize (reg : option cauchy_lww_register_t)
  (buffer : option (list Z)) (size : Z) : Z * option (list Z) :=
  match reg, buffer with
  | Some r, Some buf =>
      let needed := cauchy_lww_serialized_size reg in
      if size <? needed then (0, buffer)
      else
        let buf1 := Mem.memcpy_to buf 0 (Mem.le_bytes 8 (timestamp r)) in
        let buf2 := Mem.memcpy_to buf1 8 (Mem.le_bytes 8 (node_id r)) in
        let buf3 := Mem.memcpy_to buf2 16 (Mem.le_bytes 8 (value_size r)) in
        let buf4 :=
          if value_size r >? 0
          then Mem.memcpy_to buf3 24 (take (Z.to_nat (value_size r)) (value r))
          else buf3 in
        (needed, Some buf4)
  | _, _ => (0, buffer)
  end.

(** The three header fields are stored into [*reg] before the size checks,
    so a rejected input still leaves them overwritten. *)
Definition cauchy_lww_deserialize (reg : option cauchy_lww_register_t)
  (buffer : option (list Z)) (size : Z)
  : cauchy_result_t * option cauchy_lww_register_t :=
  match reg, buffer with
  | Some r, Some buf =>
      let min_size := 8 + 8 + 8 in
      if size <? min_size then (CAUCHY_ERR_INVALID, reg)
      else
        let r1 := {| value := value r;
                     value_size := Mem.le_value (Mem.bytes_at buf 16 8);
                     timestamp := Mem.le_value (Mem.bytes_at buf 0 8);
                     node_id := Mem.le_value (Mem.bytes_at buf 8 8) |} in
        if value_size r1 >? CAUCHY_LWW_MAX_VALUE_SIZE
        then (CAUCHY_ERR_INVALID, Some r1)
        else if size <? 24 + value_size r1 then (CAUCHY_ERR_INVALID, Some r1)
        else if value_size r1 >? 0 then
          (CAUCHY_OK,
           Some {| value := Mem.memcpy_to (value r1) 0
                              (Mem.bytes_at buf 24 (Z.to_nat (value_size r1)));
                   value_size := value_size r1;
                   timestamp := timestamp r1;
                   node_id := node_id r1 |})
        else (CAUCHY_OK, Some r1)
  | _, _ => (CAUCHY_ERR_INVALID, reg)
  end.

(** [(ts, node)] pairs in lexicographic order, timestamp first. *)
Definition lex_gt (ts node ts' node' : Z) : Prop :=
  ts' < ts \/ (ts = ts' /\ node' < node).

Definition lex_le (ts node ts' node' : Z) : Prop :=
  ts < ts' \/ (ts = ts' /\ node <= node').

(** The three writes of the tie-break scenario, as NUL-terminated strings. *)
Definition v1 : list Z := [118; 49; 0].
Definition v2 : list Z := [118; 50; 0].
Definition v3 : list Z := [118; 51; 0].

Definition cauchy_lww_has_value (reg : option cauchy_lww_register_t) : bool :=
  match reg with
  | None => false
  | Some r => value_size r >? 0
  end.

(** [&value] points to the eight bytes of the [u64] argument. *)
Definition cauchy_lww_set_u64 (reg : option cauchy_lww_register_t)
  (v ts node : Z) : cauchy_result_t * option cauchy_lww_register_t :=
  cauchy_lww_set reg (Some (Mem.le_bytes 8 v)) 8 ts node.

(** [size] is the [value_size] that [cauchy_lww_get] hands out beside the
    pointer. *)
Definition cauchy_lww_get_u64 (reg : option cauchy_lww_register_t) : Z :=
  match reg, cauchy_lww_get reg with
  | Some r, Some val =>
      if negb (value_size r =? 8) then 0 else Mem.le_value (take 8 val)
  | _, _ => 0
  end.

(** [v] is the memory behind the [const char*], [None] for NULL. *)
Definition cauchy_lww_set_string (reg : option cauchy_lww_register_t)
  (v : option (list Z)) (ts node : Z)
  : cauchy_result_t * option cauchy_lww_register_t :=
  cauchy_lww_set reg v
    (match v with
     | Some s => Z.of_nat (Mem.strlen s) + 1
     | None => 0
     end) ts node.

(** The pointer [cauchy_lww_get] returns, read as a [const char*]: the
    whole [value] buffer, or [None] for the NULL of an empty register. *)
Definition cauchy_lww_get_string (reg : option cauchy_lww_register_t)
  : option (list Z) :=
  match reg with
  | None => None
  | Some r => if value_size r =? 0 then None else Some (value r)
  end.

End LWW.

(** ** include/cauchy/cauchy.h, src/core/cauchy.c *)

Module Context.

(** [mem_pool] and [hazard_domain] are handles that the operations below
    never read; they are left out of the record. *)
Record cauchy_context_t : Type := mk_context {
  node_id : Z;
  local_clock : VClock.cauchy_vclock_t;
  op_counter : Z
}.

(** A context as [cauchy_context_create] returns it when its allocations
    succeed. *)
Definition cauchy_context_create (node : Z) : option cauchy_context_t :=
  Some {| node_id := node;
          local_clock := VClock.cauchy_vclock_init CAUCHY_MAX_NODES;
          op_counter := 0 |}.

(** [&ctx->local_clock] is never NULL, so [cauchy_vclock_increment] returns a
    clock; [default] only unwraps it. *)
Definition cauchy_context_gen_uid (ctx : option cauchy_context_t)
  : cauchy_uid_t * option cauchy_context_t :=
  match ctx with
  | None => ({| uid_node_id := 0; uid_timestamp := 0 |}, None)
  | Some c =>
      let clock' :=
        VClock.cauchy_vclock_increment (Some (local_clock c)) (node_id c) in
      let c' := {| node_id := node_id c;
                   local_clock := default (local_clock c) clock';
                   op_counter := wrap64 (op_counter c + 1) |} in
      (cauchy_uid_create (node_id c)
         (VClock.cauchy_vclock_get (Some (local_clock c')) (node_id c')),
       Some c')
  end.

Definition cauchy_context_get_timestamp (ctx : option cauchy_context_t) : Z :=
  match ctx with
  | None => 0
  | Some c => VClock.cauchy_vclock_get (Some (local_clock c)) (node_id c)
  end.

Definition cauchy_context_tick (ctx : option cauchy_context_t)
  : option cauchy_context_t :=
  match ctx with
  | None => None
  | Some c =>
      let clock' :=
        VClock.cauchy_vclock_increment (Some (local_clock c)) (node_id c) in
      Some {| node_id := node_id c;
              local_clock := default (local_clock c) clock';
              op_counter := op_counter c |}
  end.

(** Two consecutive calls of [cauchy_context_gen_uid]. *)
Definition gen_uid_twice (ctx : option cauchy_context_t)
  : cauchy_uid_t * cauchy_uid_t :=
  let '(u1, ctx1) := cauchy_context_gen_uid ctx in
  let '(u2, _) := cauchy_context_gen_uid ctx1 in
  (u1, u2).

Definition cauchy_context_merge_clock (ctx : option cauchy_context_t)
  (remote : option VClock.cauchy_vclock_t) : option cauchy_context_t :=
  match ctx, remote with
  | Some c, Some _ =>
      let merged :=
        default (local_clock c)
          (VClock.cauchy_vclock_merge (Some (local_clock c)) remote) in
      let clock' :=
        default merged (VClock.cauchy_vclock_increment (Some merged) (node_id c)) in
      Some {| node_id := node_id c;
              local_clock := clock';
              op_counter := op_counter c |}
  | _, _ => ctx
  end.

(** [n] consecutive calls of [cauchy_context_gen_uid]: the UIDs they return,
    in order, and the context after the last one. *)
Fixpoint gen_uids (n : nat) (ctx : option cauchy_context_t)
  : list cauchy_uid_t * option cauchy_context_t :=
  match n with
  | O => ([], ctx)
  | S n' =>
      let '(u, ctx1) := cauchy_context_gen_uid ctx in
      let '(us, ctx2) := gen_uids n' ctx1 in
      (u :: us, ctx2)
  end.

End Context.

(** ** Hash tables of byte payloads

    Conventions shared by the three set types.
    - A payload [(data, size)] is one byte list; [size] is its length, so
      the test [size == 0] is the test for the empty list.
    - A bucket chain (the [next] links) is a list, head first; the bucket
      array is a list of chains.
    - The pool and [malloc] are not modelled; a function that allocates takes
      the outcome of its allocations as an argument. *)

(** FNV-1a, the [static hash_data] of g_set.c and or_set.c. *)
Definition hash_data (data : list Z) : Z :=
  fold_left (fun hash b => wrap64 (Z.lxor hash b * 1099511628211))
            data 14695981039346656037.

(** [size_a == size_b && memcmp(a, b, size_b) == 0]. *)
Definition same_bytes (a b : list Z) : bool :=
  (Z.of_nat (length a) =? Z.of_nat (length b)) && Mem.memcmp_eq a b (length b).

(** ** include/cauchy/crdt/g_set.h, src/crdt/g_set.c *)

Module GSet.

Record cauchy_gset_elem_t : Type := mk_elem {
  data : list Z;
  hash : Z
}.

Record cauchy_gset_t : Type := mk_gset {
  buckets : list (list cauchy_gset_elem_t);
  num_buckets : Z;
  count : Z
}.

(** The bucket array has [num_buckets] chains and at least one. *)
Definition valid (s : cauchy_gset_t) : Prop :=
  0 < num_buckets s /\ Z.of_nat (length (buckets s)) = num_buckets s.

(** The set [cauchy_gset_init] builds when its allocations succeed. *)
Definition cauchy_gset_init (initial_capacity : Z) : cauchy_gset_t :=
  let capacity := if initial_capacity =? 0 then 16 else initial_capacity in
  {| buckets := replicate (Z.to_nat capacity) [];
     num_buckets := capacity;
     count := 0 |}.

Definition elem_matches (h : Z) (d : list Z) (elem : cauchy_gset_elem_t) : bool :=
  (hash elem =? h) && same_bytes (data elem) d.

(** The chain scan of [cauchy_gset_add] and [cauchy_gset_contains]. *)
Fixpoint chain_has (chain : list cauchy_gset_elem_t) (h : Z) (d : list Z) : bool :=
  match chain with
  | [] => false
  | elem :: next => if elem_matches h d elem then true else chain_has next h d
  end.

Definition cauchy_gset_add (set : option cauchy_gset_t) (d : list Z)
  (alloc_ok : bool) : cauchy_result_t * option cauchy_gset_t :=
  match set with
  | None => (CAUCHY_ERR_INVALID, None)
  | Some s =>
      if (length d =? 0)%nat then (CAUCHY_ERR_INVALID, set)
      else
        let h := hash_data d in
        let idx := Z.to_nat (h mod num_buckets s) in
        let chain := buckets s !!! idx in
        if chain_has chain h d then (CAUCHY_OK, set)
        else if negb alloc_ok then (CAUCHY_ERR_NOMEM, set)
        else
          let new_elem := {| data := d; hash := h |} in
          (CAUCHY_OK,
           Some {| buckets := <[idx := new_elem :: chain]> (buckets s);
                   num_buckets := num_buckets s;
                   count := wrap64 (count s + 1) |})
  end.

Definition cauchy_gset_contains (set : option cauchy_gset_t) (d : list Z) : bool :=
  match set with
  | None => false
  | Some s =>
      if (length d =? 0)%nat then false
      else
        let h := hash_data d in
        let idx := Z.to_nat (h mod num_buckets s) in
        chain_has (buckets s !!! idx) h d
  end.

Definition cauchy_gset_count (set : option cauchy_gset_t) : Z :=
  match set with None => 0 | Some s => count s end.

(** The iterator: [current] is the rest of the chain it points into. *)
Record cauchy_gset_iter_t : Type := mk_iter {
  bucket_idx : Z;
  current : list cauchy_gset_elem_t
}.

(** [while (!current && bucket_idx < num_buckets - 1) { bucket_idx++;
    current = buckets[bucket_idx]; }].  [remaining] is
    [num_buckets - 1 - bucket_idx], the number of iterations the second
    condition still allows. *)
Fixpoint skip_empty (s : cauchy_gset_t) (remaining : nat)
  (it : cauchy_gset_iter_t) : cauchy_gset_iter_t :=
  match current it, remaining with
  | [], S remaining' =>
      skip_empty s remaining'
        {| bucket_idx := bucket_idx it + 1;
           current := buckets s !!! Z.to_nat (bucket_idx it + 1) |}
  | _, _ => it
  end.

Definition advance (s : cauchy_gset_t) (it : cauchy_gset_iter_t)
  : cauchy_gset_iter_t :=
  skip_empty s (Z.to_nat (num_buckets s - 1 - bucket_idx it)) it.

Definition cauchy_gset_iter_init (set : option cauchy_gset_t)
  : cauchy_gset_iter_t :=
  match set with
  | None => {| bucket_idx := 0; current := [] |}
  | Some s => advance s {| bucket_idx := 0; current := buckets s !!! 0%nat |}
  end.

(** Returns the payload it yields ([None] for [false]) and the iterator. *)
Definition cauchy_gset_iter_next (set : option cauchy_gset_t)
  (it : cauchy_gset_iter_t) : option (list Z) * cauchy_gset_iter_t :=
  match set with
  | None => (None, it)
  | Some s =>
      match current it with
      | [] => (None, it)
      | elem :: next =>
          (Some (data elem),
           advance s {| bucket_idx := bucket_idx it; current := next |})
      end
  end.

(** All elements, in bucket order. *)
Definition elements (s : cauchy_gset_t) : list cauchy_gset_elem_t :=
  concat (buckets s).

Definition cauchy_gset_is_empty (set : option cauchy_gset_t) : bool :=
  match set with
  | None => true
  | Some s => count s =? 0
  end.

(** The inner [while (elem)] loop of [cauchy_gset_merge] over one source
    chain.  [outcomes] lists what the allocator answers to the calls of
    [cauchy_gset_add], one answer per call, in order; a call beyond the end
    of the list finds no memory. *)
Fixpoint merge_chain (dst : option cauchy_gset_t)
  (chain : list cauchy_gset_elem_t) (outcomes : list bool)
  : cauchy_result_t * option cauchy_gset_t * list bool :=
  match chain with
  | [] => (CAUCHY_OK, dst, outcomes)
  | elem :: next =>
      match cauchy_gset_add dst (data elem) (hd false outcomes) with
      | (CAUCHY_OK, dst') => merge_chain dst' next (tl outcomes)
      | (res, dst') => (res, dst', tl outcomes)
      end
  end.

(** The outer [for] loop, over the bucket indices of [src]. *)
Fixpoint merge_buckets (dst : option cauchy_gset_t) (src : cauchy_gset_t)
  (indices : list Z) (outcomes : list bool)
  : cauchy_result_t * option cauchy_gset_t * list bool :=
  match indices with
  | [] => (CAUCHY_OK, dst, outcomes)
  | i :: rest =>
      match merge_chain dst (buckets src !!! Z.to_nat i) outcomes with
      | (CAUCHY_OK, dst', outcomes') => merge_buckets dst' src rest outcomes'
      | failed => failed
      end
  end.

Definition cauchy_gset_merge (dst src : option cauchy_gset_t)
  (outcomes : list bool) : cauchy_result_t * option cauchy_gset_t :=
  match dst, src with
  | Some _, Some s =>
      let '(res, dst', _) :=
        merge_buckets dst s (zrange (num_buckets s)) outcomes in
      (res, dst')
  | _, _ => (CAUCHY_ERR_INVALID, dst)
  end.

(** The two loops of [cauchy_gset_subset], which return at the first
    element of [a] that [b] does not contain. *)
Fixpoint subset_chain (chain : list cauchy_gset_elem_t)
  (b : option cauchy_gset_t) : bool :=
  match chain with
  | [] => true
  | elem :: next =>
      if negb (cauchy_gset_contains b (data elem)) then false
      else subset_chain next b
  end.

Fixpoint subset_buckets (a : cauchy_gset_t) (b : option cauchy_gset_t)
  (indices : list Z) : bool :=
  match indices with
  | [] => true
  | i :: rest =>
      if subset_chain (buckets a !!! Z.to_nat i) b
      then subset_buckets a b rest
      else false
  end.

Definition cauchy_gset_subset (a b : option cauchy_gset_t) : bool :=
  match a, b with
  | Some x, Some _ => subset_buckets x b (zrange (num_buckets x))
  | _, _ => false
  end.

Definition cauchy_gset_equals (a b : option cauchy_gset_t) : bool :=
  match a, b with
  | Some x, Some y =>
      if negb (count x =? count y) then false
      else cauchy_gset_subset a b && cauchy_gset_subset b a
  | None, None => true
  | _, _ => false
  end.

(** Every element carries the hash of its payload and sits in the bucket of
    that hash, as [cauchy_gset_add] places it. *)
Definition placed (s : cauchy_gset_t) : Prop :=
  forall (i : nat) chain e,
    buckets s !! i = Some chain -> In e chain ->
    hash e = hash_data (data e) /\ i = Z.to_nat (hash e mod num_buckets s).

(** What [cauchy_gset_init] establishes and [cauchy_gset_add] keeps: the
    elements are placed, no payload is stored twice, no payload is empty,
    and [count] is the number of elements (as a [usize]). *)
Definition inv (s : cauchy_gset_t) : Prop :=
  valid s /\ placed s /\
  List.NoDup (map data (elements s)) /\
  (forall e, In e (elements s) -> data e <> []) /\
  count s = wrap64 (Z.of_nat (length (elements s))).

(** The table after [cauchy_gset_add] has linked a new element for [d] at
    the head of its bucket. *)
Definition inserted (s : cauchy_gset_t) (d : list Z) : cauchy_gset_t :=
  let idx := Z.to_nat (hash_data d mod num_buckets s) in
  {| buckets := <[idx := {| data := d; hash := hash_data d |}
                         :: (buckets s !!! idx)]> (buckets s);
     num_buckets := num_buckets s;
     count := wrap64 (count s + 1) |}.

(** The allocator answers the first [n] calls with memory. *)
Definition all_true (outcomes : list bool) (n : nat) : Prop :=
  (n <= length outcomes)%nat /\ forall i, (i < n)%nat -> outcomes !! i = Some true.

End GSet.

(** ** include/cauchy/crdt/2p_set.h, src/crdt/2p_set.c *)

Module TwoPSet.

(** [added] and [removed] are the two G-Sets that [cauchy_2pset_init]
    creates; both pointers are non-NULL in an initialised set. *)
Record cauchy_2pset_t : Type := mk_2pset {
  added : GSet.cauchy_gset_t;
  removed : GSet.cauchy_gset_t
}.

Definition valid (s : cauchy_2pset_t) : Prop :=
  GSet.valid (added s) /\ GSet.valid (removed s).

Definition cauchy_2pset_init (initial_capacity : Z) : cauchy_2pset_t :=
  {| added := GSet.cauchy_gset_init initial_capacity;
     removed := GSet.cauchy_gset_init initial_capacity |}.

Definition cauchy_2pset_add (set : option cauchy_2pset_t) (d : list Z)
  (alloc_ok : bool) : cauchy_result_t * option cauchy_2pset_t :=
  match set with
  | None => (CAUCHY_ERR_INVALID, None)
  | Some s =>
      if GSet.cauchy_gset_contains (Some (removed s)) d then (CAUCHY_OK, set)
      else
        let '(res, added') := GSet.cauchy_gset_add (Some (added s)) d alloc_ok in
        (res, Some {| added := default (added s) added'; removed := removed s |})
  end.

Definition cauchy_2pset_remove (set : option cauchy_2pset_t) (d : list Z)
  (alloc_ok : bool) : cauchy_result_t * option cauchy_2pset_t :=
  match set with
  | None => (CAUCHY_ERR_INVALID, None)
  | Some s =>
      if negb (GSet.cauchy_gset_contains (Some (added s)) d)
      then (CAUCHY_ERR_NOTFOUND, set)
      else
        let '(res, removed') := GSet.cauchy_gset_add (Some (removed s)) d alloc_ok in
        (res, Some {| added := added s; removed := default (removed s) removed' |})
  end.

Definition cauchy_2pset_contains (set : option cauchy_2pset_t) (d : list Z) : bool :=
  match set with
  | None => false
  | Some s =>
      GSet.cauchy_gset_contains (Some (added s)) d &&
      negb (GSet.cauchy_gset_contains (Some (removed s)) d)
  end.

(** The loop of [cauchy_2pset_count].  Each iteration that does not leave
    the loop consumes one element of [added], so [fuel] bounds the number
    of iterations; [cauchy_2pset_count] starts it with one more than the
    number of elements. *)
Fixpoint count_loop (fuel : nat) (s : cauchy_2pset_t)
  (it : GSet.cauchy_gset_iter_t) (count : Z) : Z :=
  match fuel with
  | O => count
  | S fuel' =>
      match GSet.cauchy_gset_iter_next (Some (added s)) it with
      | (None, _) => count
      | (Some d, it') =>
          count_loop fuel' s it'
            (if negb (GSet.cauchy_gset_contains (Some (removed s)) d)
             then wrap64 (count + 1) else count)
      end
  end.

Definition cauchy_2pset_count (set : option cauchy_2pset_t) : Z :=
  match set with
  | None => 0
  | Some s =>
      count_loop (S (length (GSet.elements (added s)))) s
        (GSet.cauchy_gset_iter_init (Some (added s))) 0
  end.

(** The elements of [added] that count: those not found in [removed]. *)
Definition live (s : cauchy_2pset_t) (e : GSet.cauchy_gset_elem_t) : bool :=
  negb (GSet.cauchy_gset_contains (Some (removed s)) (GSet.data e)).

(** The payload ["x"] of the scenario, as [cauchy_2pset_add_string] passes
    it: the characters and the terminating NUL. *)
Definition str_x : list Z := [120; 0].

Definition cauchy_2pset_was_added (set : option cauchy_2pset_t) (d : list Z)
  : bool :=
  match set with
  | None => false
  | Some s => GSet.cauchy_gset_contains (Some (added s)) d
  end.

Definition cauchy_2pset_was_removed (set : option cauchy_2pset_t) (d : list Z)
  : bool :=
  match set with
  | None => false
  | Some s => GSet.cauchy_gset_contains (Some (removed s)) d
  end.

Definition cauchy_2pset_is_empty (set : option cauchy_2pset_t) : bool :=
  cauchy_2pset_count set =? 0.

(** [outcomes_added] and [outcomes_removed] are the allocator's answers
    during the first and the second [cauchy_gset_merge]. *)
Definition cauchy_2pset_merge (dst src : option cauchy_2pset_t)
  (outcomes_added outcomes_removed : list bool)
  : cauchy_result_t * option cauchy_2pset_t :=
  match dst, src with
  | Some d, Some s =>
      let '(res, added') :=
        GSet.cauchy_gset_merge (Some (added d)) (Some (added s)) outcomes_added in
      let d1 := {| added := default (added d) added'; removed := removed d |} in
      match res with
      | CAUCHY_OK =>
          let '(res2, removed') :=
            GSet.cauchy_gset_merge (Some (removed d1)) (Some (removed s))
              outcomes_removed in
          (res2, Some {| added := added d1;
                         removed := default (removed d1) removed' |})
      | _ => (res, Some d1)
      end
  | _, _ => (CAUCHY_ERR_INVALID, dst)
  end.

Definition cauchy_2pset_equals (a b : option cauchy_2pset_t) : bool :=
  match a, b with
  | Some x, Some y =>
      GSet.cauchy_gset_equals (Some (added x)) (Some (added y)) &&
      GSet.cauchy_gset_equals (Some (removed x)) (Some (removed y))
  | None, None => true
  | _, _ => false
  end.

(** Both tables keep the G-Set invariant. *)
Definition inv (s : cauchy_2pset_t) : Prop :=
  GSet.inv (added s) /\ GSet.inv (removed s).

(** One call of a function that changes a 2P-Set, with its arguments and
    the allocator's answers during the call. *)
Inductive cauchy_2pset_call : Type :=
  | call_add (d : list Z) (alloc_ok : bool)
  | call_remove (d : list Z) (alloc_ok : bool)
  | call_merge (src : option cauchy_2pset_t)
      (outcomes_added outcomes_removed : list bool).

(** The set a call leaves behind, whatever it returns. *)
Definition do_call (set : option cauchy_2pset_t) (c : cauchy_2pset_call)
  : option cauchy_2pset_t :=
  match c with
  | call_add d alloc_ok => snd (cauchy_2pset_add set d alloc_ok)
  | call_remove d alloc_ok => snd (cauchy_2pset_remove set d alloc_ok)
  | call_merge src oa or => snd (cauchy_2pset_merge set src oa or)
  end.

(** A sequence of calls on one set, in order. *)
Definition do_calls (calls : list cauchy_2pset_call)
  (set : option cauchy_2pset_t) : option cauchy_2pset_t :=
  fold_left do_call calls set.

End TwoPSet.

(** ** include/cauchy/crdt/or_set.h, src/crdt/or_set.c *)

Module ORSet.

Record cauchy_orset_entry_t : Type := mk_entry {
  data : list Z;
  hash : Z;
  tag : cauchy_uid_t;
  removed : bool
}.

Record cauchy_orset_t : Type := mk_orset {
  buckets : list (list cauchy_orset_entry_t);
  num_buckets : Z;
  entry_count : Z;
  active_count : Z;
  node_id : Z;
  timestamp : Z
}.

(** The set [cauchy_orset_init] builds when its allocations succeed. *)
Definition cauchy_orset_init (initial_capacity node : Z) : cauchy_orset_t :=
  let capacity := if initial_capacity =? 0 then 16 else initial_capacity in
  {| buckets := replicate (Z.to_nat capacity) [];
     num_buckets := capacity;
     entry_count := 0;
     active_count := 0;
     node_id := node;
     timestamp := 0 |}.

(** [buckets[idx] = entry] after [entry->next = buckets[idx]], with the two
    counters as given. *)
Definition push_entry (s : cauchy_orset_t) (idx : nat)
  (entry : cauchy_orset_entry_t) (entries' active' ts' : Z) : cauchy_orset_t :=
  {| buckets := <[idx := entry :: (buckets s !!! idx)]> (buckets s);
     num_buckets := num_buckets s;
     entry_count := entries';
     active_count := active';
     node_id := node_id s;
     timestamp := ts' |}.

Definition cauchy_orset_add (set : option cauchy_orset_t) (d : list Z)
  (alloc_ok : bool) : cauchy_result_t * option cauchy_orset_t :=
  match set with
  | None => (CAUCHY_ERR_INVALID, None)
  | Some s =>
      if (length d =? 0)%nat then (CAUCHY_ERR_INVALID, set)
      else
        let h := hash_data d in
        let idx := Z.to_nat (h mod num_buckets s) in
        if negb alloc_ok then (CAUCHY_ERR_NOMEM, set)
        else
          let ts := wrap64 (timestamp s + 1) in
          let entry := {| data := d; hash := h;
                          tag := cauchy_uid_create (node_id s) ts;
                          removed := false |} in
          (CAUCHY_OK,
           Some (push_entry s idx entry (wrap64 (entry_count s + 1))
                   (wrap64 (active_count s + 1)) ts))
  end.

Definition set_removed (e : cauchy_orset_entry_t) : cauchy_orset_entry_t :=
  {| data := data e; hash := hash e; tag := tag e; removed := true |}.

(** The test of [cauchy_orset_remove] and [cauchy_orset_contains]. *)
Definition entry_matches (h : Z) (d : list Z) (e : cauchy_orset_entry_t) : bool :=
  negb (removed e) && (hash e =? h) && same_bytes (data e) d.

(** The chain walk of [cauchy_orset_remove]: the new chain, [active_count]
    and [found]. *)
Fixpoint remove_chain (chain : list cauchy_orset_entry_t) (h : Z) (d : list Z)
  (active : Z) (found : bool) : list cauchy_orset_entry_t * Z * bool :=
  match chain with
  | [] => ([], active, found)
  | e :: next =>
      if entry_matches h d e then
        let '(next', active', found') :=
          remove_chain next h d (wrap64 (active - 1)) true in
        (set_removed e :: next', active', found')
      else
        let '(next', active', found') := remove_chain next h d active found in
        (e :: next', active', found')
  end.

Definition cauchy_orset_remove (set : option cauchy_orset_t) (d : list Z)
  : cauchy_result_t * option cauchy_orset_t :=
  match set with
  | None => (CAUCHY_ERR_INVALID, None)
  | Some s =>
      if (length d =? 0)%nat then (CAUCHY_ERR_INVALID, set)
      else
        let h := hash_data d in
        let idx := Z.to_nat (h mod num_buckets s) in
        let '(chain', active', found) :=
          remove_chain (buckets s !!! idx) h d (active_count s) false in
        (if found then CAUCHY_OK else CAUCHY_ERR_NOTFOUND,
         Some {| buckets := <[idx := chain']> (buckets s);
                 num_buckets := num_buckets s;
                 entry_count := entry_count s;
                 active_count := active';
                 node_id := node_id s;
                 timestamp := timestamp s |})
  end.

Fixpoint chain_has (chain : list cauchy_orset_entry_t) (h : Z) (d : list Z) : bool :=
  match chain with
  | [] => false
  | e :: next => if entry_matches h d e then true else chain_has next h d
  end.

Definition cauchy_orset_contains (set : option cauchy_orset_t) (d : list Z) : bool :=
  match set with
  | None => false
  | Some s =>
      if (length d =? 0)%nat then false
      else
        let h := hash_data d in
        let idx := Z.to_nat (h mod num_buckets s) in
        chain_has (buckets s !!! idx) h d
  end.

Definition cauchy_orset_count (set : option cauchy_orset_t) : Z :=
  match set with None => 0 | Some s => active_count s end.

(** [find_entry_by_tag]: the entry found and its position in the chain (the
    pointer the C function returns), or [None] for NULL. *)
Fixpoint find_in_chain (chain : list cauchy_orset_entry_t) (h : Z)
  (t : cauchy_uid_t) (pos : nat) : option (nat * cauchy_orset_entry_t) :=
  match chain with
  | [] => None
  | e :: next =>
      if (hash e =? h) && cauchy_uid_equals (tag e) t then Some (pos, e)
      else find_in_chain next h t (S pos)
  end.

Definition find_entry_by_tag (s : cauchy_orset_t) (h : Z) (t : cauchy_uid_t)
  : option (nat * cauchy_orset_entry_t) :=
  find_in_chain (buckets s !!! Z.to_nat (h mod num_buckets s)) h t 0.

(** [existing->removed = true; dst->active_count--;] for the entry at
    position [pos] of bucket [idx]. *)
Definition mark_removed (s : cauchy_orset_t) (idx pos : nat)
  (existing : cauchy_orset_entry_t) : cauchy_orset_t :=
  {| buckets := <[idx := <[pos := set_removed existing]> (buckets s !!! idx)]>
                  (buckets s);
     num_buckets := num_buckets s;
     entry_count := entry_count s;
     active_count := wrap64 (active_count s - 1);
     node_id := node_id s;
     timestamp := timestamp s |}.

(** The copy of [src_entry] that merge links into [dst]. *)
Definition insert_copy (dst : cauchy_orset_t) (src_entry : cauchy_orset_entry_t)
  : cauchy_orset_t :=
  let idx := Z.to_nat (hash src_entry mod num_buckets dst) in
  let new_entry := {| data := data src_entry; hash := hash src_entry;
                      tag := tag src_entry; removed := removed src_entry |} in
  push_entry dst idx new_entry (wrap64 (entry_count dst + 1))
    (if negb (removed new_entry) then wrap64 (active_count dst + 1)
     else active_count dst)
    (timestamp dst).

(** The inner [while (src_entry)] loop of [cauchy_orset_merge] over one
    source chain.  [avail] is the number of entries the allocator can still
    provide; the loop returns [CAUCHY_ERR_NOMEM] where it needs one more. *)
Fixpoint merge_chain (dst : cauchy_orset_t) (chain : list cauchy_orset_entry_t)
  (avail : nat) : cauchy_result_t * cauchy_orset_t * nat :=
  match chain with
  | [] => (CAUCHY_OK, dst, avail)
  | src_entry :: next =>
      match find_entry_by_tag dst (hash src_entry) (tag src_entry) with
      | Some (pos, existing) =>
          if removed src_entry && negb (removed existing) then
            merge_chain
              (mark_removed dst (Z.to_nat (hash src_entry mod num_buckets dst))
                 pos existing)
              next avail
          else merge_chain dst next avail
      | None =>
          match avail with
          | O => (CAUCHY_ERR_NOMEM, dst, O)
          | S avail' => merge_chain (insert_copy dst src_entry) next avail'
          end
      end
  end.

(** The outer [for] loop, over the bucket indices of [src]. *)
Fixpoint merge_buckets (dst src : cauchy_orset_t) (indices : list Z)
  (avail : nat) : cauchy_result_t * cauchy_orset_t * nat :=
  match indices with
  | [] => (CAUCHY_OK, dst, avail)
  | i :: rest =>
      match merge_chain dst (buckets src !!! Z.to_nat i) avail with
      | (CAUCHY_OK, dst', avail') => merge_buckets dst' src rest avail'
      | failed => failed
      end
  end.

Definition cauchy_orset_merge (dst src : option cauchy_orset_t) (avail : nat)
  : cauchy_result_t * option cauchy_orset_t :=
  match dst, src with
  | Some d, Some s =>
      let '(res, d', _) := merge_buckets d s (zrange (num_buckets s)) avail in
      (res, Some d')
  | _, _ => (CAUCHY_ERR_INVALID, dst)
  end.

Definition cauchy_orset_is_empty (set : option cauchy_orset_t) : bool :=
  match set with
  | None => true
  | Some s => active_count s =? 0
  end.

(** The inner [while (entry)] loop of [cauchy_orset_equals] over one chain
    of [a]: [false] at the first live entry whose payload [b] does not
    contain. *)
Fixpoint equals_chain (chain : list cauchy_orset_entry_t)
  (b : option cauchy_orset_t) : bool :=
  match chain with
  | [] => true
  | entry :: next =>
      if negb (removed entry) && negb (cauchy_orset_contains b (data entry))
      then false
      else equals_chain next b
  end.

(** The outer [for] loop, over the bucket indices of [a]. *)
Fixpoint equals_buckets (a : cauchy_orset_t) (b : option cauchy_orset_t)
  (indices : list Z) : bool :=
  match indices with
  | [] => true
  | i :: rest =>
      if equals_chain (buckets a !!! Z.to_nat i) b
      then equals_buckets a b rest
      else false
  end.

Definition cauchy_orset_equals (a b : option cauchy_orset_t) : bool :=
  match a, b with
  | Some x, Some y =>
      if negb (active_count x =? active_count y) then false
      else equals_buckets x b (zrange (num_buckets x))
  | None, None => true
  | _, _ => false
  end.

(** All entries, tombstones included, in bucket order. *)
Definition entries (s : cauchy_orset_t) : list cauchy_orset_entry_t :=
  concat (buckets s).

(** The bucket array has [num_buckets] chains and at least one. *)
Definition shape (s : cauchy_orset_t) : Prop :=
  0 < num_buckets s /\ Z.of_nat (length (buckets s)) = num_buckets s.

(** Every entry carries the hash of its payload and sits in the bucket of
    that hash, as [cauchy_orset_add] and [cauchy_orset_merge] place it. *)
Definition placed (s : cauchy_orset_t) : Prop :=
  forall (i : nat) chain e,
    buckets s !! i = Some chain -> In e chain ->
    hash e = hash_data (data e) /\ i = Z.to_nat (hash e mod num_buckets s).

Definition wf (s : cauchy_orset_t) : Prop := shape s /\ placed s.

(** The entries of payload [k], and those of them that are not tombstones. *)
Definition is_k (k : list Z) (e : cauchy_orset_entry_t) : bool :=
  same_bytes (data e) k.

Definition active_k (k : list Z) (e : cauchy_orset_entry_t) : bool :=
  is_k k e && negb (removed e).

(** The number of elements of [l] that satisfy [P]. *)
Definition count_if {A : Type} (P : A -> bool) (l : list A) : nat :=
  length (List.filter P l).

(** The entries that carry tag [t]. *)
Definition tagged (t : cauchy_uid_t) (e : cauchy_orset_entry_t) : bool :=
  cauchy_uid_equals (tag e) t.

(** The tag the next [cauchy_orset_add] on [s] issues. *)
Definition minted (s : cauchy_orset_t) : cauchy_uid_t :=
  cauchy_uid_create (node_id s) (wrap64 (timestamp s + 1)).

(** The number of distinct payloads (by byte content) that have an entry
    with [removed == false]. *)
Definition distinct_payloads (l : list cauchy_orset_entry_t) : nat :=
  length (nodup (List.list_eq_dec Z.eq_dec)
            (map data (List.filter (fun e => negb (removed e)) l))).

(** The entries that are not tombstones. *)
Definition live (e : cauchy_orset_entry_t) : bool := negb (removed e).

(** The two counters agree with the table: [active_count] is the number of
    live entries and [entry_count] the number of all entries, both modulo
    2^64. *)
Definition counted (s : cauchy_orset_t) : Prop :=
  shape s /\
  active_count s = wrap64 (Z.of_nat (count_if live (entries s))) /\
  entry_count s = wrap64 (Z.of_nat (length (entries s))).

(** The payload ["k"] as [cauchy_orset_add_string] passes it, and the two
    replicas of the add-wins scenario: node 1 adds ["k"], node 2 receives it
    by merge. *)
Definition str_k : list Z := [107; 0].

Definition scenario_R1 : cauchy_orset_t :=
  default (cauchy_orset_init 0 1)
    (snd (cauchy_orset_add (Some (cauchy_orset_init 0 1)) str_k true)).

Definition scenario_R2 : cauchy_orset_t :=
  default (cauchy_orset_init 0 2)
    (snd (cauchy_orset_merge (Some (cauchy_orset_init 0 2)) (Some scenario_R1) 1)).

End ORSet.

(** * Properties *)

(** ** Loops and UIDs *)

Lemma elem_of_zrange (n i : Z) : In i (zrange n) <-> 0 <= i < n.
Proof.
  unfold zrange. rewrite in_map_iff. split.
  - intros (k & <- & Hk). apply in_seq in Hk. lia.
  - intros Hi. exists (Z.to_nat i). split; [lia|]. apply in_seq. lia.
Qed.

Lemma cauchy_uid_equals_spec (a b : cauchy_uid_t) :
  cauchy_uid_equals a b = true <-> a = b.
Proof.
  destruct a as [na ta], b as [nb tb]. unfold cauchy_uid_equals. simpl.
  rewrite andb_true_iff, !Z.eqb_eq. split.
  - intros [-> ->]. reflexivity.
  - intros [= -> ->]. auto.
Qed.

(** ** Byte buffers *)

Module MemFacts.
Import Mem.

Lemma length_le_bytes (w : nat) (v : Z) : length (le_bytes w v) = w.
Proof. revert v. induction w as [|w IH]; intros v; simpl; [|rewrite IH]; reflexivity. Qed.

Lemma le_value_le_bytes (w : nat) (v : Z) :
  0 <= v < 256 ^ Z.of_nat w -> le_value (le_bytes w v) = v.
Proof.
  revert v. induction w as [|w IH]; intros v Hv.
  - simpl in *. lia.
  - cbn [le_bytes le_value]. rewrite IH.
    + pose proof (Z.div_mod v 256 ltac:(lia)). lia.
    + rewrite Nat2Z.inj_succ, Z.pow_succ_r in Hv by lia.
      split; [apply Z.div_pos; lia | apply Z.div_lt_upper_bound; lia].
Qed.

Lemma length_memcpy_to (dst src : list Z) (off : nat) :
  (off + length src <= length dst)%nat ->
  length (memcpy_to dst off src) = length dst.
Proof.
  intros H. unfold memcpy_to.
  rewrite !length_app, length_take, length_drop. lia.
Qed.

(** Reading back what [memcpy] has just written. *)
Lemma bytes_at_memcpy_to (dst src : list Z) (off : nat) :
  (off <= length dst)%nat ->
  bytes_at (memcpy_to dst off src) off (length src) = src.
Proof.
  intros H. unfold bytes_at, memcpy_to.
  rewrite drop_app_length' by (rewrite length_take; lia).
  apply take_app_length.
Qed.

Lemma bytes_at_memcpy_to_len (dst src : list Z) (off k : nat) :
  length src = k -> (off <= length dst)%nat ->
  bytes_at (memcpy_to dst off src) off k = src.
Proof. intros <-. apply bytes_at_memcpy_to. Qed.

(** A [memcpy] at [off] leaves the bytes below [off] alone. *)
Lemma bytes_at_memcpy_to_below (dst src : list Z) (off off' n : nat) :
  (off' + n <= off)%nat -> (off <= length dst)%nat ->
  bytes_at (memcpy_to dst off src) off' n = bytes_at dst off' n.
Proof.
  intros H1 H2. unfold bytes_at, memcpy_to.
  rewrite drop_app_le by (rewrite length_take; lia).
  rewrite take_app_le by (rewrite length_drop, length_take; lia).
  rewrite <- (take_drop off dst) at 2.
  rewrite drop_app_le by (rewrite length_take; lia).
  rewrite take_app_le by (rewrite length_drop, length_take; lia).
  reflexivity.
Qed.

Lemma length_u64s_bytes (l : list Z) :
  length (u64s_bytes l) = (8 * length l)%nat.
Proof.
  unfold u64s_bytes. induction l as [|x l IH]; [reflexivity|].
  cbn [flat_map]. rewrite length_app, length_le_bytes, IH. simpl. lia.
Qed.

Lemma bytes_u64s_u64s_bytes (l : list Z) :
  Forall (fun x => 0 <= x < 2 ^ 64) l ->
  bytes_u64s (length l) (u64s_bytes l) = l.
Proof.
  unfold u64s_bytes. induction 1 as [|x l Hx Hl IH]; [reflexivity|].
  cbn [flat_map length bytes_u64s].
  rewrite (take_app_length' (le_bytes 8 x)) by (now rewrite length_le_bytes).
  rewrite (drop_app_length' (le_bytes 8 x)) by (now rewrite length_le_bytes).
  rewrite IH, le_value_le_bytes; [reflexivity|].
  change (256 ^ Z.of_nat 8) with (2 ^ 64). exact Hx.
Qed.

Lemma memcmp_eq_take (n : nat) :
  forall a b : list Z,
  (n <= length a)%nat -> take n a = take n b -> memcmp_eq a b n = true.
Proof.
  induction n as [|n IH]; intros a b Hlen Heq; [reflexivity|].
  destruct a as [|x a]; [simpl in Hlen; lia|].
  destruct b as [|y b]; [discriminate|].
  simpl in *. injection Heq as -> Heq. rewrite Z.eqb_refl.
  apply IH; [lia | exact Heq].
Qed.

Section Array.
(** The wire image of a [u32] count [n] followed by the first [n] words of a
    [u64] array, written into [buf] as the vector clock and G-Counter
    serializers do. *)
Variables (n : Z) (arr buf : list Z).
Hypothesis Hn : 0 <= n <= CAUCHY_MAX_NODES.
Hypothesis Harr : length arr = Z.to_nat CAUCHY_MAX_NODES.
Hypothesis Hrange : Forall (fun x => 0 <= x < 2 ^ 64) arr.
Hypothesis Hbuf : 4 + n * 8 <= Z.of_nat (length buf).

Definition array_image : list Z :=
  memcpy_to (memcpy_to buf 0 (le_bytes 4 n)) 4
    (u64s_bytes (take (Z.to_nat n) arr)).

Lemma length_words : length (take (Z.to_nat n) arr) = Z.to_nat n.
Proof. rewrite length_take, Harr. unfold CAUCHY_MAX_NODES in Hn |- *. lia. Qed.

Lemma array_image_count : le_value (bytes_at array_image 0 4) = n.
Proof.
  unfold array_image.
  rewrite bytes_at_memcpy_to_below;
    [| lia | rewrite length_memcpy_to; rewrite ?length_le_bytes; simpl; lia].
  rewrite bytes_at_memcpy_to_len by (rewrite ?length_le_bytes; lia).
  apply le_value_le_bytes. unfold CAUCHY_MAX_NODES in Hn. simpl. lia.
Qed.

Lemma array_image_words :
  bytes_u64s (Z.to_nat n) (bytes_at array_image 4 (Z.to_nat (n * 8)))
  = take (Z.to_nat n) arr.
Proof.
  unfold array_image.
  replace (Z.to_nat (n * 8)) with (length (u64s_bytes (take (Z.to_nat n) arr)))
    by (rewrite length_u64s_bytes, length_words; lia).
  rewrite bytes_at_memcpy_to
    by (rewrite length_memcpy_to; rewrite ?length_le_bytes; simpl; lia).
  rewrite <- length_words at 1.
  apply bytes_u64s_u64s_bytes.
  apply Forall_take, Hrange.
Qed.

End Array.

(** The array a deserializer rebuilds agrees with [arr] below [n]. *)
Lemma store_words_lookup (n : Z) (arr zeros : list Z) (i : Z) :
  n <= Z.of_nat (length arr) -> 0 <= i < n ->
  store_u64s zeros (take (Z.to_nat n) arr) !!! Z.to_nat i = arr !!! Z.to_nat i.
Proof.
  intros Hn Hi. unfold store_u64s.
  rewrite lookup_total_app_l by (rewrite length_take; lia).
  apply lookup_total_take_lt. lia.
Qed.

Lemma store_words_length (n : Z) (arr zeros : list Z) :
  0 <= n <= Z.of_nat (length arr) -> length zeros = length arr ->
  length (store_u64s zeros (take (Z.to_nat n) arr)) = length arr.
Proof.
  intros Hn Hz. unfold store_u64s.
  rewrite length_app, length_drop, length_take, Hz. lia.
Qed.

End MemFacts.

(** ** Vector clock comparison *)

Module VClockFacts.
Import VClock.

Section Compare.
Variables a b : cauchy_vclock_t.

Definition lt_at (i : Z) : bool := entry_or_zero a i <? entry_or_zero b i.
Definition gt_at (i : Z) : bool := entry_or_zero a i >? entry_or_zero b i.

(** The loop computes two existential flags over the indices it visits. *)
Lemma compare_loop (l : list Z) (st : bool * bool) :
  fold_left (compare_body a b) l st =
  (fst st || existsb lt_at l, snd st || existsb gt_at l).
Proof.
  revert st. induction l as [|i l IH]; intros [x y]; simpl.
  - now rewrite !orb_false_r.
  - rewrite IH. unfold compare_body, lt_at, gt_at. simpl.
    destruct (entry_or_zero a i <? entry_or_zero b i),
             (entry_or_zero a i >? entry_or_zero b i); simpl;
      rewrite ?orb_true_r, ?orb_false_r; reflexivity.
Qed.

Definition max_nodes : Z :=
  if num_nodes a >? num_nodes b then num_nodes a else num_nodes b.

Hypothesis Ha : valid a.
Hypothesis Hb : valid b.

Lemma max_nodes_bound : 0 <= max_nodes <= CAUCHY_MAX_NODES.
Proof.
  destruct Ha as (_ & _ & ?), Hb as (_ & _ & ?). unfold max_nodes.
  destruct (num_nodes a >? num_nodes b); lia.
Qed.

Lemma beyond_max_nodes (i : Z) :
  max_nodes <= i -> entry_or_zero a i = 0 /\ entry_or_zero b i = 0.
Proof.
  unfold max_nodes, entry_or_zero. intros Hi.
  destruct (Z.gtb_spec (num_nodes a) (num_nodes b));
    destruct (Z.ltb_spec i (num_nodes a)), (Z.ltb_spec i (num_nodes b));
    split; try reflexivity; lia.
Qed.

Lemma a_less_iff :
  existsb lt_at (zrange max_nodes) = true <->
  exists i, 0 <= i < CAUCHY_MAX_NODES /\ entry_or_zero a i < entry_or_zero b i.
Proof.
  pose proof max_nodes_bound as Hm.
  rewrite existsb_exists. unfold lt_at. split.
  - intros (i & Hi & Hlt). apply elem_of_zrange in Hi. apply Z.ltb_lt in Hlt.
    exists i. split; [lia | exact Hlt].
  - intros (i & Hi & Hlt). exists i. rewrite elem_of_zrange, Z.ltb_lt.
    split; [|exact Hlt].
    destruct (Z.lt_ge_cases i max_nodes) as [?|Hge]; [lia|].
    destruct (beyond_max_nodes i Hge) as [E1 E2]. lia.
Qed.

Lemma a_greater_iff :
  existsb gt_at (zrange max_nodes) = true <->
  exists i, 0 <= i < CAUCHY_MAX_NODES /\ entry_or_zero b i < entry_or_zero a i.
Proof.
  pose proof max_nodes_bound as Hm.
  rewrite existsb_exists. unfold gt_at. split.
  - intros (i & Hi & Hgt). apply elem_of_zrange in Hi.
    rewrite Z.gtb_ltb in Hgt. apply Z.ltb_lt in Hgt.
    exists i. split; [lia | exact Hgt].
  - intros (i & Hi & Hgt). exists i. rewrite elem_of_zrange, Z.gtb_ltb, Z.ltb_lt.
    split; [|exact Hgt].
    destruct (Z.lt_ge_cases i max_nodes) as [?|Hge]; [lia|].
    destruct (beyond_max_nodes i Hge) as [E1 E2]. lia.
Qed.

Lemma compare_flags :
  cauchy_vclock_compare (Some a) (Some b) =
  match existsb lt_at (zrange max_nodes), existsb gt_at (zrange max_nodes) with
  | false, false => CAUCHY_EQUAL
  | true, false => CAUCHY_HAPPENS_BEFORE
  | false, true => CAUCHY_HAPPENS_AFTER
  | true, true => CAUCHY_CONCURRENT
  end.
Proof.
  unfold cauchy_vclock_compare, for_loop. fold max_nodes.
  rewrite compare_loop. simpl.
  destruct (existsb lt_at _), (existsb gt_at _); reflexivity.
Qed.

Lemma no_less_iff :
  existsb lt_at (zrange max_nodes) = false <->
  forall i, 0 <= i < CAUCHY_MAX_NODES -> entry_or_zero b i <= entry_or_zero a i.
Proof.
  rewrite <- not_true_iff_false, a_less_iff. split.
  - intros Hn i Hi. destruct (Z.le_gt_cases (entry_or_zero b i) (entry_or_zero a i));
      [assumption|]. exfalso. apply Hn. exists i. split; [assumption | lia].
  - intros Hall (i & Hi & Hlt). specialize (Hall i Hi). lia.
Qed.

Lemma no_greater_iff :
  existsb gt_at (zrange max_nodes) = false <->
  forall i, 0 <= i < CAUCHY_MAX_NODES -> entry_or_zero a i <= entry_or_zero b i.
Proof.
  rewrite <- not_true_iff_false, a_greater_iff. split.
  - intros Hn i Hi. destruct (Z.le_gt_cases (entry_or_zero a i) (entry_or_zero b i));
      [assumption|]. exfalso. apply Hn. exists i. split; [assumption | lia].
  - intros Hall (i & Hi & Hlt). specialize (Hall i Hi). lia.
Qed.

Lemma compare_equal_iff :
  cauchy_vclock_compare (Some a) (Some b) = CAUCHY_EQUAL <-> all_equal a b.
Proof.
  rewrite compare_flags. unfold all_equal.
  destruct (existsb lt_at _) eqn:El, (existsb gt_at _) eqn:Eg.
  - split; [discriminate|]. intros H. apply a_less_iff in El as (i & Hi & Hlt).
    specialize (H i Hi). lia.
  - split; [discriminate|]. intros H. apply a_less_iff in El as (i & Hi & Hlt).
    specialize (H i Hi). lia.
  - split; [discriminate|]. intros H. apply a_greater_iff in Eg as (i & Hi & Hlt).
    specialize (H i Hi). lia.
  - split; [|reflexivity]. intros _ i Hi.
    pose proof (proj1 no_less_iff El i Hi). pose proof (proj1 no_greater_iff Eg i Hi).
    lia.
Qed.

Lemma compare_before_iff :
  cauchy_vclock_compare (Some a) (Some b) = CAUCHY_HAPPENS_BEFORE <-> dominated_by a b.
Proof.
  rewrite compare_flags. unfold dominated_by.
  destruct (existsb lt_at _) eqn:El, (existsb gt_at _) eqn:Eg.
  - split; [discriminate|]. intros [H _]. apply a_greater_iff in Eg as (i & Hi & Hlt).
    specialize (H i Hi). lia.
  - split; [|reflexivity]. intros _. split.
    + apply no_greater_iff, Eg.
    + apply a_less_iff, El.
  - split; [discriminate|]. intros [H _]. apply a_greater_iff in Eg as (i & Hi & Hlt).
    specialize (H i Hi). lia.
  - split; [discriminate|]. intros [_ H]. apply a_less_iff in H. congruence.
Qed.

Lemma compare_after_iff :
  cauchy_vclock_compare (Some a) (Some b) = CAUCHY_HAPPENS_AFTER <-> dominated_by b a.
Proof.
  rewrite compare_flags. unfold dominated_by.
  destruct (existsb lt_at _) eqn:El, (existsb gt_at _) eqn:Eg.
  - split; [discriminate|]. intros [H _]. apply a_less_iff in El as (i & Hi & Hlt).
    specialize (H i Hi). lia.
  - split; [discriminate|]. intros [H _]. apply a_less_iff in El as (i & Hi & Hlt).
    specialize (H i Hi). lia.
  - split; [|reflexivity]. intros _. split.
    + apply no_less_iff, El.
    + apply a_greater_iff, Eg.
  - split; [discriminate|]. intros [_ H]. apply a_greater_iff in H. congruence.
Qed.

Lemma compare_concurrent_iff :
  cauchy_vclock_compare (Some a) (Some b) = CAUCHY_CONCURRENT <->
  ~ all_equal a b /\ ~ dominated_by a b /\ ~ dominated_by b a.
Proof.
  rewrite <- compare_equal_iff, <- compare_before_iff, <- compare_after_iff.
  destruct (cauchy_vclock_compare (Some a) (Some b)); split;
    try discriminate; try tauto; intros _; repeat split; discriminate.
Qed.

End Compare.

Lemma vclock_of_list_valid (l : list Z) :
  (length l <= Z.to_nat CAUCHY_MAX_NODES)%nat ->
  Forall (fun x => 0 <= x < 2 ^ 64) l ->
  valid (of_list l).
Proof.
  intros Hlen Hall. unfold valid, of_list. simpl. repeat split.
  - rewrite length_app, length_replicate. lia.
  - apply Forall_app. split; [exact Hall|].
    apply Forall_forall. intros x Hx. apply elem_of_replicate in Hx as [-> _]. lia.
  - lia.
  - unfold CAUCHY_MAX_NODES in *. lia.
Qed.

(** C3.  For valid clocks [a] and [b], [cauchy_vclock_compare] returns EQUAL
    iff all entries agree, HAPPENS_BEFORE iff every entry of [a] is at most
    the entry of [b] and one is strictly less, HAPPENS_AFTER in the symmetric
    case, and CONCURRENT otherwise, entries at or beyond a side's [num_nodes]
    reading as zero; and for A={3,2,0}, B={3,2,1}, B'={3,3,0}, C={4,1,0} it
    returns before, before and concurrent for (A,B), (A,B') and (A,C). *)
Theorem vclock_compare_causality (a b : cauchy_vclock_t) :
  valid a -> valid b ->
  (cauchy_vclock_compare (Some a) (Some b) = CAUCHY_EQUAL <-> all_equal a b) /\
  (cauchy_vclock_compare (Some a) (Some b) = CAUCHY_HAPPENS_BEFORE <->
     dominated_by a b) /\
  (cauchy_vclock_compare (Some a) (Some b) = CAUCHY_HAPPENS_AFTER <->
     dominated_by b a) /\
  (cauchy_vclock_compare (Some a) (Some b) = CAUCHY_CONCURRENT <->
     ~ all_equal a b /\ ~ dominated_by a b /\ ~ dominated_by b a) /\
  cauchy_vclock_compare (Some (of_list [3; 2; 0])) (Some (of_list [3; 2; 1]))
    = CAUCHY_HAPPENS_BEFORE /\
  cauchy_vclock_compare (Some (of_list [3; 2; 0])) (Some (of_list [3; 3; 0]))
    = CAUCHY_HAPPENS_BEFORE /\
  cauchy_vclock_compare (Some (of_list [3; 2; 0])) (Some (of_list [4; 1; 0]))
    = CAUCHY_CONCURRENT.
Proof.
  intros Ha Hb. split; [|split; [|split; [|split]]].
  - apply compare_equal_iff; assumption.
  - apply compare_before_iff; assumption.
  - apply compare_after_iff; assumption.
  - apply compare_concurrent_iff; assumption.
  - repeat split; vm_compute; reflexivity.
Qed.

Lemma vclock_compare_causality_witness :
  valid (of_list [3; 2; 0]) /\ valid (of_list [4; 1; 0]) /\
  cauchy_vclock_compare (Some (of_list [3; 2; 0])) (Some (of_list [4; 1; 0]))
    = CAUCHY_CONCURRENT.
Proof.
  assert (Ha : valid (of_list [3; 2; 0])).
  { apply vclock_of_list_valid; [vm_compute; lia | repeat constructor; lia]. }
  assert (Hb : valid (of_list [4; 1; 0])).
  { apply vclock_of_list_valid; [vm_compute; lia | repeat constructor; lia]. }
  split; [exact Ha | split; [exact Hb|]].
  apply (vclock_compare_causality _ _ Ha Hb).
Defined.

End VClockFacts.

(** ** G-Counter merge *)

Module GCounterFacts.
Import GCounter.

(** What the merge loop leaves at index [j] of [dst->counts]. *)
Definition merged_at (src : cauchy_gcounter_t) (c : list Z) (j : nat) : Z :=
  if (Z.of_nat j <? num_nodes src) && (counts src !!! j >? c !!! j)
  then counts src !!! j else c !!! j.

Lemma merge_body_length (src : cauchy_gcounter_t) (c : list Z) (i : Z) :
  length (merge_body src c i) = length c.
Proof.
  unfold merge_body. destruct (_ && _); [apply length_insert | reflexivity].
Qed.

Lemma merge_body_lookup (src : cauchy_gcounter_t) (c : list Z) (i : Z) (j : nat) :
  0 <= i -> (Z.to_nat i < length c)%nat ->
  merge_body src c i !!! j =
  if decide (Z.to_nat i = j) then merged_at src c j else c !!! j.
Proof.
  intros Hi Hlen. unfold merge_body, merged_at.
  destruct (decide (Z.to_nat i = j)) as [<-|Hne].
  - rewrite Z2Nat.id by assumption.
    destruct (_ && _); [|reflexivity].
    now rewrite list_lookup_total_insert_eq.
  - destruct (_ && _); [|reflexivity].
    now rewrite list_lookup_total_insert_ne.
Qed.

Lemma merged_at_idem (src : cauchy_gcounter_t) (c c' : list Z) (j : nat) :
  c' !!! j = merged_at src c j -> merged_at src c' j = merged_at src c j.
Proof.
  unfold merged_at. intros ->.
  destruct (Z.of_nat j <? num_nodes src); simpl; [|reflexivity].
  destruct (Z.gtb_spec (counts src !!! j) (c !!! j)).
  - now rewrite Z.gtb_ltb, Z.ltb_irrefl.
  - destruct (Z.gtb_spec (counts src !!! j) (c !!! j)); [lia | reflexivity].
Qed.

(** The loop, over any list of in-range indices: visited indices hold the
    merged value, the others are untouched. *)
Lemma merge_loop_lookup (src : cauchy_gcounter_t) (l : list Z) :
  forall (c : list Z) (j : nat),
  Forall (fun i => 0 <= i /\ (Z.to_nat i < length c)%nat) l ->
  fold_left (merge_body src) l c !!! j =
  if existsb (fun i => Z.to_nat i =? j)%nat l then merged_at src c j else c !!! j.
Proof.
  induction l as [|i l IH]; intros c j Hall; simpl; [reflexivity|].
  apply Forall_cons in Hall as [[Hi Hlen] Hall].
  rewrite IH.
  2:{ eapply Forall_impl; [exact Hall|]. intros x [? ?].
      rewrite merge_body_length. auto. }
  pose proof (merge_body_lookup src c i j Hi Hlen) as Hstep.
  destruct (Nat.eqb_spec (Z.to_nat i) j) as [E|NE]; simpl.
  - rewrite decide_True in Hstep by assumption.
    destruct (existsb _ l); [apply merged_at_idem|]; exact Hstep.
  - rewrite decide_False in Hstep by assumption.
    destruct (existsb _ l); [|exact Hstep].
    unfold merged_at. now rewrite Hstep.
Qed.

Lemma existsb_zrange (n : Z) (j : nat) :
  existsb (fun i => Z.to_nat i =? j)%nat (zrange n) = (Z.of_nat j <? n).
Proof.
  apply eq_true_iff_eq. rewrite existsb_exists, Z.ltb_lt. split.
  - intros (i & Hi & E). apply elem_of_zrange in Hi. apply Nat.eqb_eq in E. lia.
  - intros Hj. exists (Z.of_nat j). split.
    + apply elem_of_zrange. lia.
    + apply Nat.eqb_eq. lia.
Qed.

Lemma merge_loop_length (src : cauchy_gcounter_t) (l : list Z) (c : list Z) :
  length (fold_left (merge_body src) l c) = length c.
Proof.
  revert c. induction l as [|i l IH]; intros c; simpl; [reflexivity|].
  now rewrite IH, merge_body_length.
Qed.

Lemma equals_loop_true (a b : cauchy_gcounter_t) (l : list Z) :
  equals_loop a b l = true <->
  forall i, In i l -> counts a !!! Z.to_nat i = counts b !!! Z.to_nat i.
Proof.
  induction l as [|i l IH]; simpl.
  - split; [intros _ ? [] | reflexivity].
  - destruct (Z.eqb_spec (counts a !!! Z.to_nat i) (counts b !!! Z.to_nat i)) as [E|NE];
      simpl.
    + rewrite IH. split.
      * intros H k [<-|Hk]; auto.
      * intros H k Hk. apply H. now right.
    + split; [discriminate|]. intros H. exfalso. apply NE, H. now left.
Qed.

Lemma counts_nonneg (g : cauchy_gcounter_t) (i : Z) :
  valid g -> 0 <= i < CAUCHY_MAX_NODES -> 0 <= counts g !!! Z.to_nat i < 2 ^ 64.
Proof.
  intros (Hlen & Hall & _) Hi.
  rewrite Forall_forall in Hall. apply Hall.
  apply list_elem_of_lookup_total_2. unfold CAUCHY_MAX_NODES in *. lia.
Qed.

(** Merging [src] into (a copy of) [dst] leaves the element-wise maximum. *)
Lemma merge_into (dst src : cauchy_gcounter_t) :
  valid dst -> valid src -> zero_beyond dst -> zero_beyond src ->
  exists m,
    cauchy_gcounter_merge (Some dst) (Some src) = Some m /\
    num_nodes m = Z.max (num_nodes dst) (num_nodes src) /\
    forall i, 0 <= i < CAUCHY_MAX_NODES ->
      counts m !!! Z.to_nat i =
      Z.max (counts dst !!! Z.to_nat i) (counts src !!! Z.to_nat i).
Proof.
  intros Hd Hs Zd Zs. eexists. split; [reflexivity|]. simpl. split.
  - destruct (Z.gtb_spec (num_nodes src) (num_nodes dst)); lia.
  - intros i Hi. unfold for_loop.
    pose proof (counts_nonneg dst i Hd Hi) as Rd.
    pose proof (counts_nonneg src i Hs Hi) as Rs.
    destruct Hd as (Ld & _ & Nd), Hs as (Ls & _ & Ns).
    rewrite merge_loop_lookup.
    2:{ apply List.Forall_forall. intros k Hk. apply elem_of_zrange in Hk.
        rewrite Ld. unfold CAUCHY_MAX_NODES in *.
        destruct (num_nodes dst >? num_nodes src); lia. }
    rewrite existsb_zrange, Z2Nat.id by lia. unfold merged_at.
    rewrite Z2Nat.id by lia.
    destruct (Z.ltb_spec i (num_nodes src)) as [Hin|Hout]; simpl.
    + replace (i <? _) with true.
      2:{ symmetry. apply Z.ltb_lt. destruct (num_nodes dst >? num_nodes src) eqn:E; lia. }
      destruct (Z.gtb_spec (counts src !!! Z.to_nat i) (counts dst !!! Z.to_nat i)); lia.
    + rewrite (Zs i) by lia.
      destruct (i <? _); lia.
Qed.

Lemma gcounter_of_list_valid (l : list Z) :
  (length l <= Z.to_nat CAUCHY_MAX_NODES)%nat ->
  Forall (fun x => 0 <= x < 2 ^ 64) l ->
  valid (of_list l).
Proof.
  intros Hlen Hall. unfold valid, of_list. simpl. repeat split.
  - rewrite length_app, length_replicate. lia.
  - apply Forall_app. split; [exact Hall|].
    apply Forall_forall. intros x Hx. apply elem_of_replicate in Hx as [-> _]. lia.
  - lia.
  - unfold CAUCHY_MAX_NODES in *. lia.
Qed.

Lemma gcounter_of_list_zero_beyond (l : list Z) : zero_beyond (of_list l).
Proof.
  intros i Hi. unfold of_list in *. simpl in *.
  rewrite lookup_total_app_r by lia.
  apply lookup_total_replicate_2. unfold CAUCHY_MAX_NODES in *. lia.
Qed.

(** C2.  For valid G-Counters [a] and [b] whose entries at or beyond their
    [num_nodes] are zero, merging [b] into a copy of [a] and [a] into a copy
    of [b] gives two states that [cauchy_gcounter_equals] accepts as equal;
    both have [num_nodes = max (num_nodes a) (num_nodes b)] and the
    element-wise maximum of the entries. *)
Theorem gcounter_merge_commutative (a b ab0 ba0 : cauchy_gcounter_t) :
  valid a -> valid b -> zero_beyond a -> zero_beyond b ->
  exists ab ba,
    cauchy_gcounter_merge (cauchy_gcounter_copy (Some ab0) (Some a)) (Some b)
      = Some ab /\
    cauchy_gcounter_merge (cauchy_gcounter_copy (Some ba0) (Some b)) (Some a)
      = Some ba /\
    cauchy_gcounter_equals (Some ab) (Some ba) = true /\
    num_nodes ab = Z.max (num_nodes a) (num_nodes b) /\
    num_nodes ba = Z.max (num_nodes a) (num_nodes b) /\
    forall i, 0 <= i < CAUCHY_MAX_NODES ->
      counts ab !!! Z.to_nat i =
        Z.max (counts a !!! Z.to_nat i) (counts b !!! Z.to_nat i) /\
      counts ba !!! Z.to_nat i =
        Z.max (counts a !!! Z.to_nat i) (counts b !!! Z.to_nat i).
Proof.
  intros Ha Hb Za Zb.
  destruct (merge_into a b Ha Hb Za Zb) as (ab & Eab & Nab & Cab).
  destruct (merge_into b a Hb Ha Zb Za) as (ba & Eba & Nba & Cba).
  exists ab, ba. simpl. repeat split; try assumption; try lia.
  - unfold cauchy_gcounter_equals.
    replace (num_nodes ab =? num_nodes ba) with true by (symmetry; apply Z.eqb_eq; lia).
    simpl. apply equals_loop_true. intros i Hi. apply elem_of_zrange in Hi.
    destruct Ha as (_ & _ & ?), Hb as (_ & _ & ?).
    rewrite Cab, Cba by lia. lia.
  - now apply Cab.
  - rewrite Cba by assumption. lia.
Qed.

Lemma gcounter_merge_commutative_witness :
  exists ab ba,
    cauchy_gcounter_merge
      (cauchy_gcounter_copy (Some (cauchy_gcounter_init 0)) (Some (of_list [5; 3; 0])))
      (Some (of_list [0; 7; 2])) = Some ab /\
    cauchy_gcounter_merge
      (cauchy_gcounter_copy (Some (cauchy_gcounter_init 0)) (Some (of_list [0; 7; 2])))
      (Some (of_list [5; 3; 0])) = Some ba /\
    cauchy_gcounter_equals (Some ab) (Some ba) = true.
Proof.
  assert (Ha : valid (of_list [5; 3; 0])).
  { apply gcounter_of_list_valid; [vm_compute; lia | repeat constructor; lia]. }
  assert (Hb : valid (of_list [0; 7; 2])).
  { apply gcounter_of_list_valid; [vm_compute; lia | repeat constructor; lia]. }
  destruct (gcounter_merge_commutative (of_list [5; 3; 0]) (of_list [0; 7; 2])
              (cauchy_gcounter_init 0) (cauchy_gcounter_init 0) Ha Hb
              (gcounter_of_list_zero_beyond _) (gcounter_of_list_zero_beyond _))
    as (ab & ba & H1 & H2 & H3 & _).
  exists ab, ba. auto.
Defined.

End GCounterFacts.

(** ** LWW-Register: accept rule and size ceiling *)

Module LWWFacts.
Import LWW.

Lemma lex_total (ts node ts' node' : Z) :
  lex_gt ts node ts' node' \/ lex_le ts node ts' node'.
Proof. unfold lex_gt, lex_le. lia. Qed.

Lemma lex_gt_not_le (ts node ts' node' : Z) :
  lex_gt ts node ts' node' <-> ~ lex_le ts node ts' node'.
Proof. unfold lex_gt, lex_le. lia. Qed.

(** The guard of [cauchy_lww_set] and [cauchy_lww_merge] is the
    lexicographic order on [(timestamp, node_id)]. *)
Lemma guard_true_iff (ts node ts' node' : Z) :
  (ts >? ts') || ((ts =? ts') && (node >? node')) = true <->
  lex_gt ts node ts' node'.
Proof.
  unfold lex_gt.
  rewrite orb_true_iff, andb_true_iff, !Z.gtb_ltb, !Z.ltb_lt, Z.eqb_eq. tauto.
Qed.

Lemma guard_false_iff (ts node ts' node' : Z) :
  (ts >? ts') || ((ts =? ts') && (node >? node')) = false <->
  lex_le ts node ts' node'.
Proof.
  rewrite <- not_true_iff_false, guard_true_iff, lex_gt_not_le.
  unfold lex_le. lia.
Qed.

(** The order of the guard is the total order of UIDs of types.h. *)
Lemma lex_gt_uid_compare (ts node ts' node' : Z) :
  lex_gt ts node ts' node' <->
  cauchy_uid_compare (cauchy_uid_create node ts) (cauchy_uid_create node' ts') = 1.
Proof.
  unfold lex_gt, cauchy_uid_compare, cauchy_uid_create. simpl.
  destruct (Z.eqb_spec ts ts'), (Z.ltb_spec ts ts'),
           (Z.eqb_spec node node'), (Z.ltb_spec node node'); simpl; lia.
Qed.

Lemma memcpy_to_prefix (dst src : list Z) :
  take (length src) (Mem.memcpy_to dst 0 src) = src.
Proof.
  unfold Mem.memcpy_to. rewrite take_0. simpl. apply take_app_length.
Qed.

Lemma set_accepts (r : cauchy_lww_register_t) (v : option (list Z))
  (size ts node : Z) :
  size <= CAUCHY_LWW_MAX_VALUE_SIZE ->
  lex_gt ts node (timestamp r) (node_id r) ->
  exists r',
    cauchy_lww_set (Some r) v size ts node = (CAUCHY_OK, Some r') /\
    value_size r' = size /\ timestamp r' = ts /\ node_id r' = node /\
    (forall bytes, v = Some bytes -> 0 < size <= Z.of_nat (length bytes) ->
       take (Z.to_nat size) (value r') = take (Z.to_nat size) bytes).
Proof.
  intros Hsize Hgt. unfold cauchy_lww_set.
  destruct (Z.gtb_spec size CAUCHY_LWW_MAX_VALUE_SIZE); [lia|].
  apply guard_true_iff in Hgt. rewrite Hgt.
  eexists. split; [reflexivity|]. simpl. repeat split.
  intros bytes -> Hb.
  destruct (Z.gtb_spec size 0); [|lia].
  set (src := take (Z.to_nat size) bytes).
  replace (Z.to_nat size) with (length src) at 1.
  - apply memcpy_to_prefix.
  - unfold src. rewrite length_take. lia.
Qed.

Lemma set_drops (r : cauchy_lww_register_t) (v : option (list Z))
  (size ts node : Z) :
  size <= CAUCHY_LWW_MAX_VALUE_SIZE ->
  lex_le ts node (timestamp r) (node_id r) ->
  cauchy_lww_set (Some r) v size ts node = (CAUCHY_OK, Some r).
Proof.
  intros Hsize Hle. unfold cauchy_lww_set.
  destruct (Z.gtb_spec size CAUCHY_LWW_MAX_VALUE_SIZE); [lia|].
  apply guard_false_iff in Hle. now rewrite Hle.
Qed.

Lemma merge_accepts (d s : cauchy_lww_register_t) :
  lex_gt (timestamp s) (node_id s) (timestamp d) (node_id d) ->
  cauchy_lww_merge (Some d) (Some s) = Some s.
Proof.
  intros Hgt. unfold cauchy_lww_merge. apply guard_true_iff in Hgt.
  now rewrite Hgt.
Qed.

Lemma merge_drops (d s : cauchy_lww_register_t) :
  lex_le (timestamp s) (node_id s) (timestamp d) (node_id d) ->
  cauchy_lww_merge (Some d) (Some s) = Some d.
Proof.
  intros Hle. unfold cauchy_lww_merge. apply guard_false_iff in Hle.
  now rewrite Hle.
Qed.

(** C4.  [cauchy_lww_set] (with [size <= 256]) and [cauchy_lww_merge]
    replace the stored value, [value_size], [timestamp] and [node_id] when
    the incoming [(timestamp, node_id)] is lexicographically greater than the
    stored pair, ties on the timestamp going to the higher [node_id], and
    leave the register as it is when the incoming pair is less or equal; the
    two cases are exhaustive.  From an empty register, set(v1, 5, 2) then
    set(v2, 5, 1) leaves v1, and set(v3, 5, 3) then stores v3. *)
Theorem lww_accept_rule :
  (forall r v size ts node,
     size <= CAUCHY_LWW_MAX_VALUE_SIZE ->
     (lex_gt ts node (timestamp r) (node_id r) ->
      exists r',
        cauchy_lww_set (Some r) v size ts node = (CAUCHY_OK, Some r') /\
        value_size r' = size /\ timestamp r' = ts /\ node_id r' = node /\
        (forall bytes, v = Some bytes -> 0 < size <= Z.of_nat (length bytes) ->
           take (Z.to_nat size) (value r') = take (Z.to_nat size) bytes)) /\
     (lex_le ts node (timestamp r) (node_id r) ->
      cauchy_lww_set (Some r) v size ts node = (CAUCHY_OK, Some r)) /\
     (lex_gt ts node (timestamp r) (node_id r) \/
      lex_le ts node (timestamp r) (node_id r))) /\
  (forall d s,
     (lex_gt (timestamp s) (node_id s) (timestamp d) (node_id d) ->
      cauchy_lww_merge (Some d) (Some s) = Some s) /\
     (lex_le (timestamp s) (node_id s) (timestamp d) (node_id d) ->
      cauchy_lww_merge (Some d) (Some s) = Some d)) /\
  (let r1 := snd (cauchy_lww_set (Some cauchy_lww_init) (Some v1) 3 5 2) in
   let r2 := snd (cauchy_lww_set r1 (Some v2) 3 5 1) in
   let r3 := snd (cauchy_lww_set r2 (Some v3) 3 5 3) in
   cauchy_lww_get r1 = Some v1 /\
   r2 = r1 /\
   cauchy_lww_get r3 = Some v3 /\
   cauchy_lww_timestamp r3 = 5 /\
   (node_id <$> r3) = Some 3).
Proof.
  split; [|split].
  - intros r v size ts node Hsize. split; [|split].
    + now apply set_accepts.
    + now apply set_drops.
    + apply lex_total.
  - intros d s. split; [apply merge_accepts | apply merge_drops].
  - vm_compute. repeat split.
Qed.

Lemma lww_accept_rule_witness :
  cauchy_lww_set (Some cauchy_lww_init) (Some v1) 3 0 0
    = (CAUCHY_OK, Some cauchy_lww_init) /\
  exists r',
    cauchy_lww_set (Some cauchy_lww_init) (Some v1) 3 5 2 = (CAUCHY_OK, Some r') /\
    value_size r' = 3.
Proof.
  destruct lww_accept_rule as (Hset & _ & _).
  destruct (Hset cauchy_lww_init (Some v1) 3 0 0 ltac:(vm_compute; discriminate))
    as (_ & Hdrop & _).
  destruct (Hset cauchy_lww_init (Some v1) 3 5 2 ltac:(vm_compute; discriminate))
    as (Hacc & _ & _).
  split.
  - apply Hdrop. right. simpl. lia.
  - destruct (Hacc ltac:(left; simpl; lia)) as (r' & E & Hs & _).
    exists r'. auto.
Defined.

(** C9.  With [value_size > 256], [cauchy_lww_set] returns
    [CAUCHY_ERR_FULL] and leaves every field of the register as it was; with
    [value_size <= 256] it never returns [CAUCHY_ERR_FULL]. *)
Theorem lww_size_ceiling (r : cauchy_lww_register_t) (v : option (list Z))
  (size ts node : Z) :
  (size > CAUCHY_LWW_MAX_VALUE_SIZE ->
   cauchy_lww_set (Some r) v size ts node = (CAUCHY_ERR_FULL, Some r)) /\
  (size <= CAUCHY_LWW_MAX_VALUE_SIZE ->
   fst (cauchy_lww_set (Some r) v size ts node) <> CAUCHY_ERR_FULL).
Proof.
  unfold cauchy_lww_set.
  destruct (Z.gtb_spec size CAUCHY_LWW_MAX_VALUE_SIZE) as [Hgt|Hle]; split;
    intros H; try lia; try reflexivity.
  destruct (_ || _); simpl; discriminate.
Qed.

Lemma lww_size_ceiling_witness :
  cauchy_lww_set (Some cauchy_lww_init) (Some (replicate 300 7)) 257 9 1
    = (CAUCHY_ERR_FULL, Some cauchy_lww_init) /\
  fst (cauchy_lww_set (Some cauchy_lww_init) (Some (replicate 300 7)) 256 9 1)
    <> CAUCHY_ERR_FULL.
Proof.
  split.
  - apply (lww_size_ceiling cauchy_lww_init (Some (replicate 300 7)) 257 9 1).
    vm_compute. reflexivity.
  - apply (lww_size_ceiling cauchy_lww_init (Some (replicate 300 7)) 256 9 1).
    vm_compute. discriminate.
Defined.

(** C10.  A [cauchy_lww_set] with [value_size <= 256] whose
    [(timestamp, node_id)] is lexicographically less than or equal to the
    register's returns [CAUCHY_OK], the code an accepted write returns, and
    leaves value, [value_size], [timestamp] and [node_id] unchanged. *)
Theorem lww_dropped_write_returns_ok (r : cauchy_lww_register_t)
  (v : option (list Z)) (size ts node : Z) :
  size <= CAUCHY_LWW_MAX_VALUE_SIZE ->
  lex_le ts node (timestamp r) (node_id r) ->
  cauchy_lww_set (Some r) v size ts node = (CAUCHY_OK, Some r).
Proof.
  intros Hsize Hle. unfold cauchy_lww_set.
  destruct (Z.gtb_spec size CAUCHY_LWW_MAX_VALUE_SIZE); [lia|].
  destruct (guard_false_iff ts node (timestamp r) (node_id r)) as [_ G].
  now rewrite (G Hle).
Qed.

Lemma lww_dropped_write_returns_ok_witness :
  cauchy_lww_set (Some (mk_lww (v1 ++ replicate 253 0) 3 5 2)) (Some v2) 3 5 1
    = (CAUCHY_OK, Some (mk_lww (v1 ++ replicate 253 0) 3 5 2)).
Proof.
  apply lww_dropped_write_returns_ok.
  - vm_compute. discriminate.
  - right. simpl. lia.
Defined.

End LWWFacts.

(** ** UID generation *)

Module ContextFacts.
Import Context.

(** Where the node id indexes the clock and the entry does not wrap, the
    second UID is the greater one. *)
Lemma gen_uid_increases_in_range (c : cauchy_context_t) :
  VClock.valid (local_clock c) ->
  0 <= node_id c < VClock.num_nodes (local_clock c) ->
  VClock.entries (local_clock c) !!! Z.to_nat (node_id c) + 2 < 2 ^ 64 ->
  let '(u1, u2) := gen_uid_twice (Some c) in
  cauchy_uid_compare u2 u1 = 1 /\
  uid_timestamp u2 = uid_timestamp u1 + 1.
Proof.
  intros (Hlen & Hall & Hn) Hid Hmax.
  unfold gen_uid_twice, cauchy_context_gen_uid, VClock.cauchy_vclock_increment,
    VClock.cauchy_vclock_get, cauchy_uid_compare, cauchy_uid_create. simpl.
  destruct (Z.geb_spec (node_id c) (VClock.num_nodes (local_clock c))); [lia|].
  simpl.
  destruct (Z.geb_spec (node_id c) (VClock.num_nodes (local_clock c))); [lia|].
  simpl.
  destruct (Z.geb_spec (node_id c) (VClock.num_nodes (local_clock c))); [lia|].
  assert (Hidx : (Z.to_nat (node_id c) < length (VClock.entries (local_clock c)))%nat).
  { rewrite Hlen. unfold CAUCHY_MAX_NODES in *. lia. }
  rewrite !list_lookup_total_insert_eq by (rewrite ?length_insert; exact Hidx).
  assert (Hnn : 0 <= VClock.entries (local_clock c) !!! Z.to_nat (node_id c)).
  { rewrite Forall_forall in Hall.
    apply (Hall _ (list_elem_of_lookup_total_2 _ _ Hidx)). }
  set (e := VClock.entries (local_clock c) !!! Z.to_nat (node_id c)) in *.
  unfold wrap64.
  rewrite (Z.mod_small (e + 1)) by lia.
  rewrite (Z.mod_small (e + 1 + 1)) by lia.
  destruct (Z.eqb_spec (e + 1 + 1) (e + 1)); [lia|]. simpl.
  destruct (Z.ltb_spec (e + 1 + 1) (e + 1)); [lia|]. split; reflexivity.
Qed.

Lemma increment_beyond (v : VClock.cauchy_vclock_t) (n : Z) :
  VClock.num_nodes v <= n -> VClock.cauchy_vclock_increment (Some v) n = Some v.
Proof.
  intros H. unfold VClock.cauchy_vclock_increment.
  destruct (Z.geb_spec n (VClock.num_nodes v)); [reflexivity | lia].
Qed.

Lemma get_beyond (v : VClock.cauchy_vclock_t) (n : Z) :
  VClock.num_nodes v <= n -> VClock.cauchy_vclock_get (Some v) n = 0.
Proof.
  intros H. unfold VClock.cauchy_vclock_get.
  destruct (Z.geb_spec n (VClock.num_nodes v)); [reflexivity | lia].
Qed.

(** With a node id at or beyond the clock's [num_nodes], a call leaves the
    clock alone and returns timestamp 0. *)
Lemma gen_uid_beyond (c : cauchy_context_t) :
  VClock.num_nodes (local_clock c) <= node_id c ->
  cauchy_context_gen_uid (Some c) =
  (cauchy_uid_create (node_id c) 0,
   Some {| node_id := node_id c; local_clock := local_clock c;
           op_counter := wrap64 (op_counter c + 1) |}).
Proof.
  intros H. unfold cauchy_context_gen_uid.
  rewrite increment_beyond by exact H. cbn [node_id local_clock default from_option id].
  now rewrite get_beyond.
Qed.

(** C8 fails on the code.  [cauchy_context_create] accepts any node id, the
    clock it builds has [CAUCHY_MAX_NODES] entries, and
    [cauchy_vclock_increment] and [cauchy_vclock_get] ignore an id at or
    beyond that count: for such a node every call of
    [cauchy_context_gen_uid] returns the same UID [(node_id, 0)], so the
    second UID is equal to the first under [cauchy_uid_compare], not
    greater. *)
Theorem gen_uid_repeats_beyond_max_nodes (node : Z) :
  CAUCHY_MAX_NODES <= node ->
  let '(u1, u2) := gen_uid_twice (cauchy_context_create node) in
  u1 = cauchy_uid_create node 0 /\
  u2 = cauchy_uid_create node 0 /\
  cauchy_uid_compare u2 u1 = 0.
Proof.
  intros Hnode.
  unfold gen_uid_twice, cauchy_context_create.
  rewrite gen_uid_beyond by exact Hnode.
  rewrite gen_uid_beyond by exact Hnode.
  cbn [node_id]. repeat split.
  unfold cauchy_uid_compare, cauchy_uid_create. cbn [uid_timestamp uid_node_id].
  now rewrite !Z.eqb_refl.
Qed.

Lemma gen_uid_repeats_beyond_max_nodes_witness :
  gen_uid_twice (cauchy_context_create 64)
    = (cauchy_uid_create 64 0, cauchy_uid_create 64 0) /\
  cauchy_uid_compare (cauchy_uid_create 64 0) (cauchy_uid_create 64 0) = 0.
Proof.
  pose proof (gen_uid_repeats_beyond_max_nodes 64 ltac:(vm_compute; discriminate))
    as H.
  destruct (gen_uid_twice (cauchy_context_create 64)) as [u1 u2].
  destruct H as (-> & -> & H). split; [reflexivity | exact H].
Defined.

End ContextFacts.

(** ** Serialization round trips *)

Module SerializationFacts.
Import Mem MemFacts.

Lemma init_num_nodes (n : Z) :
  n <= CAUCHY_MAX_NODES ->
  (if n <=? CAUCHY_MAX_NODES then n else CAUCHY_MAX_NODES) = n.
Proof. intros H. destruct (Z.leb_spec n CAUCHY_MAX_NODES); [reflexivity | lia]. Qed.

Lemma vclock_roundtrip (x x0 : VClock.cauchy_vclock_t) (buf : list Z) (size : Z) :
  VClock.valid x ->
  VClock.cauchy_vclock_serialized_size (Some x) <= size <= Z.of_nat (length buf) ->
  exists n buf' y,
    VClock.cauchy_vclock_serialize (Some x) (Some buf) size = (n, Some buf') /\
    n <> 0 /\
    VClock.cauchy_vclock_deserialize (Some x0) (Some buf') n = (CAUCHY_OK, Some y) /\
    VClock.cauchy_vclock_equals (Some x) (Some y) = true /\
    VClock.num_nodes y = VClock.num_nodes x /\
    forall i, 0 <= i < VClock.num_nodes x ->
      VClock.entries y !!! Z.to_nat i = VClock.entries x !!! Z.to_nat i.
Proof.
  intros Hx Hsize. pose proof Hx as (Hlen & Hrange & Hn).
  unfold VClock.cauchy_vclock_serialized_size in Hsize.
  set (n := VClock.num_nodes x) in *.
  assert (Hbuf : 4 + n * 8 <= Z.of_nat (length buf)) by lia.
  pose proof (array_image_count n (VClock.entries x) buf Hn Hlen Hbuf) as Hcount.
  pose proof (array_image_words n (VClock.entries x) buf Hn Hlen Hrange Hbuf) as Hwords.
  unfold array_image in Hcount, Hwords.
  unfold VClock.cauchy_vclock_serialize, VClock.cauchy_vclock_serialized_size.
  fold n. destruct (Z.ltb_spec size (4 + n * 8)); [lia|].
  eexists _, _, _. split; [reflexivity|]. split; [lia|].
  unfold VClock.cauchy_vclock_deserialize.
  destruct (Z.ltb_spec (4 + n * 8) 4); [lia|].
  rewrite Hcount.
  destruct (Z.gtb_spec n CAUCHY_MAX_NODES); [lia|].
  rewrite Z.ltb_irrefl, Hwords.
  split; [reflexivity|].
  cbn [VClock.cauchy_vclock_init VClock.entries VClock.num_nodes].
  rewrite init_num_nodes by lia.
  assert (Hent : forall i, 0 <= i < n ->
    store_u64s (replicate (Z.to_nat CAUCHY_MAX_NODES) 0)
      (take (Z.to_nat n) (VClock.entries x)) !!! Z.to_nat i
    = VClock.entries x !!! Z.to_nat i).
  { intros i Hi. apply store_words_lookup; [|exact Hi].
    unfold CAUCHY_MAX_NODES in *. lia. }
  split; [|split; [reflexivity | exact Hent]].
  unfold VClock.cauchy_vclock_equals.
  match goal with |- match ?c with _ => _ end = true =>
    assert (Hc : c = CAUCHY_EQUAL); [|now rewrite Hc] end.
  apply VClockFacts.compare_equal_iff.
  - exact Hx.
  - repeat split; cbn [VClock.entries VClock.num_nodes]; try lia.
    + rewrite store_words_length; rewrite ?length_replicate; unfold CAUCHY_MAX_NODES in *; lia.
    + unfold store_u64s. apply Forall_app. split.
      * apply Forall_take, Hrange.
      * apply Forall_drop, Forall_replicate. lia.
  - intros i Hi. unfold VClock.entry_or_zero. cbn [VClock.entries VClock.num_nodes].
    fold n. destruct (Z.ltb_spec i n); [|reflexivity].
    symmetry. apply Hent. lia.
Qed.

Lemma gcounter_roundtrip (x x0 : GCounter.cauchy_gcounter_t) (buf : list Z) (size : Z) :
  GCounter.valid x ->
  GCounter.cauchy_gcounter_serialized_size (Some x) <= size <= Z.of_nat (length buf) ->
  exists n buf' y,
    GCounter.cauchy_gcounter_serialize (Some x) (Some buf) size = (n, Some buf') /\
    n <> 0 /\
    GCounter.cauchy_gcounter_deserialize (Some x0) (Some buf') n = (CAUCHY_OK, Some y) /\
    GCounter.cauchy_gcounter_equals (Some x) (Some y) = true /\
    GCounter.num_nodes y = GCounter.num_nodes x /\
    forall i, 0 <= i < GCounter.num_nodes x ->
      GCounter.counts y !!! Z.to_nat i = GCounter.counts x !!! Z.to_nat i.
Proof.
  intros Hx Hsize. pose proof Hx as (Hlen & Hrange & Hn).
  unfold GCounter.cauchy_gcounter_serialized_size in Hsize.
  set (n := GCounter.num_nodes x) in *.
  assert (Hbuf : 4 + n * 8 <= Z.of_nat (length buf)) by lia.
  pose proof (array_image_count n (GCounter.counts x) buf Hn Hlen Hbuf) as Hcount.
  pose proof (array_image_words n (GCounter.counts x) buf Hn Hlen Hrange Hbuf) as Hwords.
  unfold array_image in Hcount, Hwords.
  unfold GCounter.cauchy_gcounter_serialize, GCounter.cauchy_gcounter_serialized_size.
  fold n. destruct (Z.ltb_spec size (4 + n * 8)); [lia|].
  eexists _, _, _. split; [reflexivity|]. split; [lia|].
  unfold GCounter.cauchy_gcounter_deserialize.
  destruct (Z.ltb_spec (4 + n * 8) 4); [lia|].
  rewrite Hcount.
  destruct (Z.gtb_spec n CAUCHY_MAX_NODES); [lia|].
  rewrite Z.ltb_irrefl, Hwords.
  split; [reflexivity|].
  cbn [GCounter.cauchy_gcounter_init GCounter.counts GCounter.num_nodes].
  rewrite init_num_nodes by lia.
  assert (Hent : forall i, 0 <= i < n ->
    store_u64s (replicate (Z.to_nat CAUCHY_MAX_NODES) 0)
      (take (Z.to_nat n) (GCounter.counts x)) !!! Z.to_nat i
    = GCounter.counts x !!! Z.to_nat i).
  { intros i Hi. apply store_words_lookup; [|exact Hi].
    unfold CAUCHY_MAX_NODES in *. lia. }
  split; [|split; [reflexivity | exact Hent]].
  unfold GCounter.cauchy_gcounter_equals. cbn [GCounter.counts GCounter.num_nodes].
  fold n. rewrite Z.eqb_refl. cbn [negb].
  apply GCounterFacts.equals_loop_true. intros i Hi. apply elem_of_zrange in Hi.
  cbn [GCounter.counts]. symmetry. now apply Hent.
Qed.

Lemma lww_roundtrip (x x0 : LWW.cauchy_lww_register_t) (buf : list Z) (size : Z) :
  LWW.valid x ->
  LWW.cauchy_lww_serialized_size (Some x) <= size <= Z.of_nat (length buf) ->
  exists n buf' y,
    LWW.cauchy_lww_serialize (Some x) (Some buf) size = (n, Some buf') /\
    n <> 0 /\
    LWW.cauchy_lww_deserialize (Some x0) (Some buf') n = (CAUCHY_OK, Some y) /\
    LWW.cauchy_lww_equals (Some x) (Some y) = true /\
    LWW.timestamp y = LWW.timestamp x /\
    LWW.node_id y = LWW.node_id x /\
    LWW.value_size y = LWW.value_size x /\
    take (Z.to_nat (LWW.value_size x)) (LWW.value y)
      = take (Z.to_nat (LWW.value_size x)) (LWW.value x).
Proof.
  intros (Hlen & Hvs & Hts & Hnode) Hsize.
  unfold LWW.cauchy_lww_serialized_size in Hsize.
  unfold LWW.CAUCHY_LWW_MAX_VALUE_SIZE in *.
  set (vs := LWW.value_size x) in *.
  set (bytes := take (Z.to_nat vs) (LWW.value x)).
  assert (Hbytes : length bytes = Z.to_nat vs)
    by (unfold bytes; rewrite length_take; lia).
  set (buf1 := memcpy_to buf 0 (le_bytes 8 (LWW.timestamp x))).
  set (buf2 := memcpy_to buf1 8 (le_bytes 8 (LWW.node_id x))).
  set (buf3 := memcpy_to buf2 16 (le_bytes 8 vs)).
  set (buf4 := if vs >? 0 then memcpy_to buf3 24 bytes else buf3).
  assert (L1 : length buf1 = length buf)
    by (apply length_memcpy_to; rewrite length_le_bytes; lia).
  assert (L2 : length buf2 = length buf)
    by (unfold buf2; rewrite length_memcpy_to; rewrite ?length_le_bytes; lia).
  assert (L3 : length buf3 = length buf)
    by (unfold buf3; rewrite length_memcpy_to; rewrite ?length_le_bytes; lia).
  assert (B4 : forall off k, (off + k <= 24)%nat ->
            bytes_at buf4 off k = bytes_at buf3 off k).
  { intros off k Hk. unfold buf4. destruct (vs >? 0); [|reflexivity].
    apply bytes_at_memcpy_to_below; lia. }
  assert (Ets : le_value (bytes_at buf4 0 8) = LWW.timestamp x).
  { rewrite B4 by lia.
    unfold buf3. rewrite bytes_at_memcpy_to_below by lia.
    unfold buf2. rewrite bytes_at_memcpy_to_below by lia.
    unfold buf1. rewrite bytes_at_memcpy_to_len by (rewrite ?length_le_bytes; lia).
    now apply le_value_le_bytes. }
  assert (Enode : le_value (bytes_at buf4 8 8) = LWW.node_id x).
  { rewrite B4 by lia. unfold buf3.
    rewrite bytes_at_memcpy_to_below by lia.
    unfold buf2. rewrite bytes_at_memcpy_to_len by (rewrite ?length_le_bytes; lia).
    now apply le_value_le_bytes. }
  assert (Evs : le_value (bytes_at buf4 16 8) = vs).
  { rewrite B4 by lia.
    unfold buf3. rewrite bytes_at_memcpy_to_len by (rewrite ?length_le_bytes; lia).
    apply le_value_le_bytes. change (256 ^ Z.of_nat 8) with (2 ^ 64). lia. }
  assert (Eval : 0 < vs -> bytes_at buf4 24 (Z.to_nat vs) = bytes).
  { intros Hpos. unfold buf4. destruct (Z.gtb_spec vs 0); [|lia].
    apply bytes_at_memcpy_to_len; [exact Hbytes | lia]. }
  assert (Hser : LWW.cauchy_lww_serialize (Some x) (Some buf) size
                 = (24 + vs, Some buf4)).
  { unfold LWW.cauchy_lww_serialize, LWW.cauchy_lww_serialized_size.
    fold vs. destruct (Z.ltb_spec size (8 + 8 + 8 + vs)); [lia|]. reflexivity. }
  assert (Hdes : LWW.cauchy_lww_deserialize (Some x0) (Some buf4) (24 + vs)
                 = (CAUCHY_OK,
                    Some {| LWW.value := if vs >? 0
                                         then memcpy_to (LWW.value x0) 0 bytes
                                         else LWW.value x0;
                            LWW.value_size := vs;
                            LWW.timestamp := LWW.timestamp x;
                            LWW.node_id := LWW.node_id x |})).
  { unfold LWW.cauchy_lww_deserialize.
    destruct (Z.ltb_spec (24 + vs) (8 + 8 + 8)); [lia|].
    cbv zeta. cbn [LWW.value LWW.value_size LWW.timestamp LWW.node_id].
    rewrite Ets, Enode, Evs. unfold LWW.CAUCHY_LWW_MAX_VALUE_SIZE.
    destruct (Z.gtb_spec vs 256); [lia|].
    rewrite Z.ltb_irrefl.
    destruct (Z.gtb_spec vs 0) as [Hpos|Hzero]; [|reflexivity].
    rewrite Eval by lia. reflexivity. }
  assert (Hpre : take (Z.to_nat vs)
                   (if vs >? 0 then memcpy_to (LWW.value x0) 0 bytes
                    else LWW.value x0)
                 = take (Z.to_nat vs) (LWW.value x)).
  { destruct (Z.gtb_spec vs 0) as [Hpos|Hzero].
    - rewrite <- Hbytes at 1. apply LWWFacts.memcpy_to_prefix.
    - replace (Z.to_nat vs) with 0%nat by lia. reflexivity. }
  eexists _, _, _. split; [exact Hser|]. split; [lia|]. split; [exact Hdes|].
  cbn [LWW.value LWW.value_size LWW.timestamp LWW.node_id].
  fold vs. repeat split; try exact Hpre.
  unfold LWW.cauchy_lww_equals.
  cbn [LWW.value LWW.value_size LWW.timestamp LWW.node_id].
  rewrite !Z.eqb_refl. cbn [negb]. fold vs.
  apply memcmp_eq_take; [lia | now rewrite Hpre].
Qed.

(** C5.  For every valid vector clock, G-Counter and LWW-Register [x] and a
    buffer of at least [serialized_size x] bytes, serialize returns a nonzero
    byte count, deserializing that many bytes into any instance [x0] returns
    [CAUCHY_OK], and the resulting state equals [x] under the type's
    equality: same [num_nodes] and entries for the clock and the counter;
    same timestamp, [node_id], [value_size] and first [value_size] value
    bytes for the register. *)
Theorem serialization_roundtrip :
  (forall (x x0 : VClock.cauchy_vclock_t) (buf : list Z) (size : Z),
     VClock.valid x ->
     VClock.cauchy_vclock_serialized_size (Some x) <= size <= Z.of_nat (length buf) ->
     exists n buf' y,
       VClock.cauchy_vclock_serialize (Some x) (Some buf) size = (n, Some buf') /\
       n <> 0 /\
       VClock.cauchy_vclock_deserialize (Some x0) (Some buf') n
         = (CAUCHY_OK, Some y) /\
       VClock.cauchy_vclock_equals (Some x) (Some y) = true /\
       VClock.num_nodes y = VClock.num_nodes x /\
       forall i, 0 <= i < VClock.num_nodes x ->
         VClock.entries y !!! Z.to_nat i = VClock.entries x !!! Z.to_nat i) /\
  (forall (x x0 : GCounter.cauchy_gcounter_t) (buf : list Z) (size : Z),
     GCounter.valid x ->
     GCounter.cauchy_gcounter_serialized_size (Some x) <= size
       <= Z.of_nat (length buf) ->
     exists n buf' y,
       GCounter.cauchy_gcounter_serialize (Some x) (Some buf) size
         = (n, Some buf') /\
       n <> 0 /\
       GCounter.cauchy_gcounter_deserialize (Some x0) (Some buf') n
         = (CAUCHY_OK, Some y) /\
       GCounter.cauchy_gcounter_equals (Some x) (Some y) = true /\
       GCounter.num_nodes y = GCounter.num_nodes x /\
       forall i, 0 <= i < GCounter.num_nodes x ->
         GCounter.counts y !!! Z.to_nat i = GCounter.counts x !!! Z.to_nat i) /\
  (forall (x x0 : LWW.cauchy_lww_register_t) (buf : list Z) (size : Z),
     LWW.valid x ->
     LWW.cauchy_lww_serialized_size (Some x) <= size <= Z.of_nat (length buf) ->
     exists n buf' y,
       LWW.cauchy_lww_serialize (Some x) (Some buf) size = (n, Some buf') /\
       n <> 0 /\
       LWW.cauchy_lww_deserialize (Some x0) (Some buf') n = (CAUCHY_OK, Some y) /\
       LWW.cauchy_lww_equals (Some x) (Some y) = true /\
       LWW.timestamp y = LWW.timestamp x /\
       LWW.node_id y = LWW.node_id x /\
       LWW.value_size y = LWW.value_size x /\
       take (Z.to_nat (LWW.value_size x)) (LWW.value y)
         = take (Z.to_nat (LWW.value_size x)) (LWW.value x)).
Proof.
  split; [|split].
  - exact vclock_roundtrip.
  - exact gcounter_roundtrip.
  - exact lww_roundtrip.
Qed.

Lemma serialization_roundtrip_witness :
  (exists n buf' y,
     VClock.cauchy_vclock_serialize (Some (VClock.of_list [3; 2; 1]))
       (Some (replicate 64 0)) 64 = (n, Some buf') /\
     n <> 0 /\
     VClock.cauchy_vclock_deserialize (Some (VClock.cauchy_vclock_init 0))
       (Some buf') n = (CAUCHY_OK, Some y) /\
     VClock.cauchy_vclock_equals (Some (VClock.of_list [3; 2; 1])) (Some y) = true) /\
  (exists n buf' y,
     GCounter.cauchy_gcounter_serialize (Some (GCounter.of_list [100; 200; 300]))
       (Some (replicate 256 0)) 256 = (n, Some buf') /\
     n <> 0 /\
     GCounter.cauchy_gcounter_deserialize (Some (GCounter.cauchy_gcounter_init 0))
       (Some buf') n = (CAUCHY_OK, Some y) /\
     GCounter.cauchy_gcounter_equals (Some (GCounter.of_list [100; 200; 300]))
       (Some y) = true) /\
  (exists n buf' y,
     LWW.cauchy_lww_serialize
       (Some (LWW.mk_lww (LWW.v1 ++ replicate 253 0) 3 5 2))
       (Some (replicate 32 0)) 32 = (n, Some buf') /\
     n <> 0 /\
     LWW.cauchy_lww_deserialize (Some LWW.cauchy_lww_init) (Some buf') n
       = (CAUCHY_OK, Some y) /\
     LWW.cauchy_lww_equals
       (Some (LWW.mk_lww (LWW.v1 ++ replicate 253 0) 3 5 2)) (Some y) = true).
Proof.
  destruct serialization_roundtrip as (Hv & Hg & Hl).
  split; [|split].
  - assert (Hx : VClock.valid (VClock.of_list [3; 2; 1])).
    { apply VClockFacts.vclock_of_list_valid;
        [vm_compute; lia | repeat constructor; lia]. }
    destruct (Hv (VClock.of_list [3; 2; 1]) (VClock.cauchy_vclock_init 0)
                (replicate 64 0) 64 Hx ltac:(vm_compute; split; discriminate))
      as (n & buf' & y & H1 & H2 & H3 & H4 & _).
    exists n, buf', y. auto.
  - assert (Hx : GCounter.valid (GCounter.of_list [100; 200; 300])).
    { apply GCounterFacts.gcounter_of_list_valid;
        [vm_compute; lia | repeat constructor; lia]. }
    destruct (Hg (GCounter.of_list [100; 200; 300]) (GCounter.cauchy_gcounter_init 0)
                (replicate 256 0) 256 Hx ltac:(vm_compute; split; discriminate))
      as (n & buf' & y & H1 & H2 & H3 & H4 & _).
    exists n, buf', y. auto.
  - assert (Hx : LWW.valid (LWW.mk_lww (LWW.v1 ++ replicate 253 0) 3 5 2)).
    { unfold LWW.valid. simpl. repeat split; try lia; vm_compute; discriminate. }
    destruct (Hl (LWW.mk_lww (LWW.v1 ++ replicate 253 0) 3 5 2)
                LWW.cauchy_lww_init (replicate 32 0) 32 Hx
                ltac:(vm_compute; split; discriminate))
      as (n & buf' & y & H1 & H2 & H3 & H4 & _).
    exists n, buf', y. auto.
Defined.

End SerializationFacts.

(** ** G-Set iteration and the 2P-Set tombstone *)

Module GSetFacts.
Import GSet.

Lemma memcmp_eq_same_length (a b : list Z) :
  length a = length b -> (Mem.memcmp_eq a b (length b) = true <-> a = b).
Proof.
  revert b. induction a as [|x a IH]; intros [|y b] Hlen; simpl in *;
    try discriminate.
  - tauto.
  - destruct (Z.eqb_spec x y) as [->|Hne].
    + rewrite IH by lia. split; [intros ->; reflexivity | intros [= ->]; reflexivity].
    + split; [discriminate | intros [= -> ->]; contradiction].
Qed.

Lemma same_bytes_spec (a b : list Z) : same_bytes a b = true <-> a = b.
Proof.
  unfold same_bytes. rewrite andb_true_iff, Z.eqb_eq. split.
  - intros [Hlen Hcmp]. apply memcmp_eq_same_length; [lia | exact Hcmp].
  - intros ->. split; [reflexivity|]. now apply memcmp_eq_same_length.
Qed.

(** The elements the iterator has still to yield. *)
Definition pending (s : cauchy_gset_t) (it : cauchy_gset_iter_t)
  : list cauchy_gset_elem_t :=
  current it ++ concat (drop (S (Z.to_nat (bucket_idx it))) (buckets s)).

(** The iterator sits on an element unless nothing is left. *)
Definition settled (s : cauchy_gset_t) (it : cauchy_gset_iter_t) : Prop :=
  0 <= bucket_idx it /\ (current it = [] -> pending s it = []).

Lemma skip_empty_spec (s : cauchy_gset_t) (remaining : nat) :
  forall it,
  0 <= bucket_idx it ->
  Z.of_nat remaining = Z.of_nat (length (buckets s)) - 1 - bucket_idx it ->
  pending s (skip_empty s remaining it) = pending s it /\
  settled s (skip_empty s remaining it).
Proof.
  induction remaining as [|r IH]; intros [idx cur] Hidx Hrem; simpl in *.
  - destruct cur as [|e cur]; simpl.
    + unfold settled, pending. simpl.
      rewrite drop_ge by lia. repeat split; auto.
    + unfold settled. simpl. repeat split; [assumption | discriminate].
  - destruct cur as [|e cur]; simpl.
    + destruct (IH {| bucket_idx := idx + 1;
                      current := buckets s !!! Z.to_nat (idx + 1) |})
        as [Hp Hs]; simpl; [lia | lia |].
      split; [|exact Hs]. rewrite Hp. unfold pending. simpl.
      replace (Z.to_nat (idx + 1)) with (S (Z.to_nat idx)) by lia.
      assert (Hlt : (S (Z.to_nat idx) < length (buckets s))%nat) by lia.
      destruct (lookup_lt_is_Some_2 _ _ Hlt) as [c Hc].
      rewrite (drop_S _ _ _ Hc). simpl.
      now rewrite (list_lookup_total_correct _ _ _ Hc).
    + unfold settled. simpl. repeat split; [assumption | discriminate].
Qed.

Lemma advance_spec (s : cauchy_gset_t) (it : cauchy_gset_iter_t) :
  valid s -> 0 <= bucket_idx it < num_buckets s ->
  pending s (advance s it) = pending s it /\ settled s (advance s it).
Proof.
  intros [Hnb Hlen] Hidx. unfold advance. apply skip_empty_spec; lia.
Qed.

Lemma skip_empty_idx (s : cauchy_gset_t) (remaining : nat) :
  forall it,
  bucket_idx it <= bucket_idx (skip_empty s remaining it)
    <= bucket_idx it + Z.of_nat remaining.
Proof.
  induction remaining as [|r IH]; intros [idx cur]; simpl.
  - destruct cur; simpl; lia.
  - destruct cur; simpl; [|lia].
    specialize (IH {| bucket_idx := idx + 1;
                      current := buckets s !!! Z.to_nat (idx + 1) |}).
    simpl in IH. lia.
Qed.

Lemma advance_idx (s : cauchy_gset_t) (it : cauchy_gset_iter_t) :
  0 <= bucket_idx it < num_buckets s ->
  0 <= bucket_idx (advance s it) < num_buckets s.
Proof.
  intros Hidx. unfold advance.
  pose proof (skip_empty_idx s (Z.to_nat (num_buckets s - 1 - bucket_idx it)) it).
  lia.
Qed.

Lemma iter_init_spec (s : cauchy_gset_t) :
  valid s ->
  let it := cauchy_gset_iter_init (Some s) in
  pending s it = elements s /\ settled s it /\
  0 <= bucket_idx it < num_buckets s.
Proof.
  intros Hv. pose proof Hv as [Hnb Hlen]. simpl.
  set (it0 := {| bucket_idx := 0; current := buckets s !!! 0%nat |}).
  destruct (advance_spec s it0 Hv) as [Hp Hs]; [simpl; lia|].
  split; [|split; [exact Hs | apply advance_idx; simpl; lia]].
  rewrite Hp. unfold pending, elements, it0. simpl.
  destruct (buckets s) as [|c bks]; [simpl in Hlen; lia | reflexivity].
Qed.

Lemma iter_next_spec (s : cauchy_gset_t) (it : cauchy_gset_iter_t) :
  valid s -> settled s it -> 0 <= bucket_idx it < num_buckets s ->
  match pending s it with
  | [] => cauchy_gset_iter_next (Some s) it = (None, it)
  | e :: rest =>
      exists it',
        cauchy_gset_iter_next (Some s) it = (Some (data e), it') /\
        pending s it' = rest /\ settled s it' /\
        0 <= bucket_idx it' < num_buckets s
  end.
Proof.
  intros Hv [Hidx Hset] Hrange. unfold cauchy_gset_iter_next.
  destruct (current it) as [|e next] eqn:Hcur.
  - rewrite (Hset eq_refl). reflexivity.
  - unfold pending at 1. rewrite Hcur. simpl.
    set (it1 := {| bucket_idx := bucket_idx it; current := next |}).
    destruct (advance_spec s it1 Hv Hrange) as [Hp Hs].
    exists (advance s it1).
    split; [reflexivity|]. split; [rewrite Hp; reflexivity|].
    split; [exact Hs|]. apply (advance_idx s it1 Hrange).
Qed.

End GSetFacts.

(** ** OR-Set *)

Module ORSetFacts.
Import ORSet.

(** *** Counting entries *)

Definition indicator (b : bool) : nat := if b then 1%nat else 0%nat.

Lemma count_if_cons {A : Type} (P : A -> bool) (x : A) (l : list A) :
  count_if P (x :: l) = (indicator (P x) + count_if P l)%nat.
Proof. unfold count_if. simpl. destruct (P x); reflexivity. Qed.

Lemma count_if_app {A : Type} (P : A -> bool) (l1 l2 : list A) :
  count_if P (l1 ++ l2) = (count_if P l1 + count_if P l2)%nat.
Proof. unfold count_if. now rewrite List.filter_app, length_app. Qed.

Lemma count_if_zero {A : Type} (P : A -> bool) (l : list A) :
  count_if P l = 0%nat <-> forall x, In x l -> P x = false.
Proof.
  induction l as [|y l IH]; [split; [intros _ x [] | reflexivity]|].
  rewrite count_if_cons. split.
  - intros H x [<-|Hx].
    + destruct (P y); [simpl in H; lia | reflexivity].
    + apply IH; [lia | exact Hx].
  - intros H. rewrite (H y) by now left. simpl. apply IH. intros x Hx.
    apply H. now right.
Qed.

Lemma count_if_pos {A : Type} (P : A -> bool) (l : list A) (x : A) :
  In x l -> P x = true -> (1 <= count_if P l)%nat.
Proof.
  intros Hx HP. destruct (count_if P l) eqn:E; [|lia].
  rewrite (proj1 (count_if_zero P l) E x Hx) in HP. discriminate.
Qed.

Lemma count_if_le {A : Type} (P Q : A -> bool) (l : list A) :
  (forall x, In x l -> P x = true -> Q x = true) ->
  (count_if P l <= count_if Q l)%nat.
Proof.
  induction l as [|y l IH]; intros H; [reflexivity|].
  rewrite !count_if_cons.
  assert (count_if P l <= count_if Q l)%nat
    by (apply IH; intros x Hx; apply H; now right).
  specialize (H y (or_introl eq_refl)).
  destruct (P y), (Q y); simpl; first [lia | discriminate (H eq_refl)].
Qed.

Lemma count_if_ext {A : Type} (P Q : A -> bool) (l : list A) :
  (forall x, In x l -> P x = Q x) -> count_if P l = count_if Q l.
Proof. intros H. unfold count_if. now rewrite (List.filter_ext_in P Q l H). Qed.

Lemma count_if_split {A : Type} (P Q : A -> bool) (l : list A) :
  count_if P l =
  (count_if (fun x => P x && Q x) l + count_if (fun x => P x && negb (Q x)) l)%nat.
Proof.
  induction l as [|y l IH]; [reflexivity|].
  rewrite !count_if_cons, IH. destruct (P y), (Q y); simpl; lia.
Qed.

Lemma count_if_map {A B : Type} (P : B -> bool) (f : A -> B) (l : list A) :
  count_if P (map f l) = count_if (fun x => P (f x)) l.
Proof.
  induction l as [|y l IH]; [reflexivity|].
  cbn [map]. now rewrite !count_if_cons, IH.
Qed.

Lemma count_if_filter {A : Type} (P Q : A -> bool) (l : list A) :
  count_if P (List.filter Q l) = count_if (fun x => Q x && P x) l.
Proof.
  induction l as [|y l IH]; [reflexivity|].
  cbn [List.filter]. rewrite count_if_cons. destruct (Q y); simpl.
  - now rewrite count_if_cons, IH.
  - exact IH.
Qed.

(** A list with exactly one element satisfying [P] has it as its filter. *)
Lemma count_if_one {A : Type} (P : A -> bool) (l : list A) :
  count_if P l = 1%nat -> exists x, List.filter P l = [x].
Proof.
  unfold count_if. destruct (List.filter P l) as [|x [|y r]]; simpl; try lia.
  intros _. now exists x.
Qed.

Lemma filter_singleton_split {A : Type} (P : A -> bool) (l : list A) (x : A) :
  List.filter P l = [x] ->
  exists l1 l2, l = l1 ++ x :: l2 /\
    (forall y, In y l1 -> P y = false) /\ (forall y, In y l2 -> P y = false).
Proof.
  induction l as [|y l IH]; [discriminate|].
  cbn [List.filter]. destruct (P y) eqn:Py.
  - intros [= -> Hl]. exists [], l. split; [reflexivity|]. split; [intros ? []|].
    intros z Hz. destruct (P z) eqn:Pz; [|reflexivity].
    assert (In z (List.filter P l)) by (apply List.filter_In; auto).
    rewrite Hl in H. destruct H.
  - intros Hl. destruct (IH Hl) as (l1 & l2 & -> & H1 & H2).
    exists (y :: l1), l2. split; [reflexivity|]. split; [|exact H2].
    intros z [<-|Hz]; auto.
Qed.

Definition cnt (P : cauchy_orset_entry_t -> bool) (s : cauchy_orset_t) : nat :=
  count_if P (entries s).

(** *** The bucket array under an update of one chain *)

Lemma concat_lookup {A : Type} (bks : list (list A)) (i : nat) (c : list A) :
  bks !! i = Some c ->
  concat bks = concat (take i bks) ++ c ++ concat (drop (S i) bks).
Proof.
  intros H. rewrite <- (take_drop_middle bks i c H) at 1.
  now rewrite concat_app.
Qed.

Lemma concat_insert {A : Type} (bks : list (list A)) (i : nat) (c' : list A) :
  (i < length bks)%nat ->
  concat (<[i := c']> bks) = concat (take i bks) ++ c' ++ concat (drop (S i) bks).
Proof.
  intros H. rewrite insert_take_drop by exact H. now rewrite concat_app.
Qed.

Lemma lookup_total_Some {A : Type} `{!Inhabited A} (l : list A) (i : nat) :
  (i < length l)%nat -> l !! i = Some (l !!! i).
Proof.
  intros H. destruct (lookup_lt_is_Some_2 _ _ H) as [x Hx].
  now rewrite (list_lookup_total_correct _ _ _ Hx).
Qed.

Lemma bucket_index_bound (s : cauchy_orset_t) (h : Z) :
  shape s -> (Z.to_nat (h mod num_buckets s) < length (buckets s))%nat.
Proof.
  intros [Hnb Hlen]. pose proof (Z.mod_pos_bound h (num_buckets s) Hnb). lia.
Qed.

Lemma entries_push (s : cauchy_orset_t) (idx : nat) (e : cauchy_orset_entry_t)
  (a b c : Z) :
  (idx < length (buckets s))%nat ->
  entries (push_entry s idx e a b c) =
  concat (take idx (buckets s)) ++ e :: concat (drop idx (buckets s)).
Proof.
  intros H. unfold entries, push_entry. cbn [buckets].
  rewrite concat_insert by exact H.
  rewrite (drop_S _ _ _ (lookup_total_Some _ _ H)). reflexivity.
Qed.

Lemma entries_take_drop (s : cauchy_orset_t) (idx : nat) :
  entries s = concat (take idx (buckets s)) ++ concat (drop idx (buckets s)).
Proof. unfold entries. now rewrite <- concat_app, take_drop. Qed.

Lemma cnt_push (P : cauchy_orset_entry_t -> bool) (s : cauchy_orset_t)
  (idx : nat) (e : cauchy_orset_entry_t) (a b c : Z) :
  (idx < length (buckets s))%nat ->
  cnt P (push_entry s idx e a b c) = (cnt P s + indicator (P e))%nat.
Proof.
  intros H. unfold cnt. rewrite entries_push by exact H.
  rewrite (entries_take_drop s idx), !count_if_app, count_if_cons. lia.
Qed.

Lemma in_entries_push (s : cauchy_orset_t) (idx : nat)
  (e y : cauchy_orset_entry_t) (a b c : Z) :
  (idx < length (buckets s))%nat ->
  In y (entries (push_entry s idx e a b c)) <-> y = e \/ In y (entries s).
Proof.
  intros H. rewrite entries_push by exact H.
  rewrite (entries_take_drop s idx), !in_app_iff. simpl. intuition auto.
Qed.

Lemma chain_middle {A : Type} (chain : list A) (pos : nat) (x : A) :
  chain !! pos = Some x -> chain = take pos chain ++ x :: drop (S pos) chain.
Proof. intros H. symmetry. now apply take_drop_middle. Qed.

Lemma cnt_mark (P : cauchy_orset_entry_t -> bool) (s : cauchy_orset_t)
  (idx pos : nat) (x : cauchy_orset_entry_t) :
  (idx < length (buckets s))%nat ->
  (buckets s !!! idx) !! pos = Some x ->
  (cnt P (mark_removed s idx pos x) + indicator (P x) =
   cnt P s + indicator (P (set_removed x)))%nat.
Proof.
  intros Hidx Hpos. unfold cnt, entries, mark_removed. cbn [buckets].
  rewrite concat_insert by exact Hidx.
  rewrite (concat_lookup (buckets s) idx _ (lookup_total_Some _ _ Hidx)).
  rewrite insert_take_drop by (eapply lookup_lt_Some; exact Hpos).
  rewrite (chain_middle _ _ _ Hpos) at 3.
  rewrite !count_if_app, !count_if_cons. lia.
Qed.

Lemma in_entries_mark (s : cauchy_orset_t) (idx pos : nat)
  (x y : cauchy_orset_entry_t) :
  (idx < length (buckets s))%nat ->
  (buckets s !!! idx) !! pos = Some x ->
  In y (entries (mark_removed s idx pos x)) ->
  y = set_removed x \/ In y (entries s).
Proof.
  intros Hidx Hpos. unfold entries, mark_removed. cbn [buckets].
  rewrite concat_insert by exact Hidx.
  rewrite (concat_lookup (buckets s) idx _ (lookup_total_Some _ _ Hidx)).
  rewrite insert_take_drop by (eapply lookup_lt_Some; exact Hpos).
  rewrite (chain_middle _ _ _ Hpos) at 3.
  rewrite !in_app_iff. cbn [In]. rewrite ?in_app_iff. cbn [In]. intuition auto.
Qed.

Lemma in_chain_entries (s : cauchy_orset_t) (i : nat)
  (chain : list cauchy_orset_entry_t) (e : cauchy_orset_entry_t) :
  buckets s !! i = Some chain -> In e chain -> In e (entries s).
Proof.
  intros Hc He. unfold entries. apply in_concat. exists chain. split; [|exact He].
  apply list_elem_of_In. eapply list_elem_of_lookup_2. exact Hc.
Qed.

Lemma in_entries_chain (s : cauchy_orset_t) (e : cauchy_orset_entry_t) :
  In e (entries s) ->
  exists i chain, buckets s !! i = Some chain /\ In e chain.
Proof.
  unfold entries. intros H. apply in_concat in H as (chain & Hc & He).
  apply list_elem_of_In, list_elem_of_lookup_1 in Hc as [i Hi]. eauto.
Qed.

(** *** Searching by tag *)

Definition keyed (h : Z) (t : cauchy_uid_t) (e : cauchy_orset_entry_t) : bool :=
  (hash e =? h) && cauchy_uid_equals (tag e) t.

Lemma keyed_spec (h : Z) (t : cauchy_uid_t) (e : cauchy_orset_entry_t) :
  keyed h t e = true <-> hash e = h /\ tag e = t.
Proof.
  unfold keyed. now rewrite andb_true_iff, Z.eqb_eq, cauchy_uid_equals_spec.
Qed.

Lemma keyed_set_removed (h : Z) (t : cauchy_uid_t) (e : cauchy_orset_entry_t) :
  keyed h t (set_removed e) = keyed h t e.
Proof. reflexivity. Qed.

Lemma find_in_chain_Some (chain : list cauchy_orset_entry_t) (h : Z)
  (t : cauchy_uid_t) :
  forall p0 p x,
  find_in_chain chain h t p0 = Some (p, x) ->
  exists q, p = (p0 + q)%nat /\ chain !! q = Some x /\ keyed h t x = true.
Proof.
  induction chain as [|e chain IH]; intros p0 p x; simpl; [discriminate|].
  fold (keyed h t e). destruct (keyed h t e) eqn:K.
  - intros [= <- <-]. exists 0%nat. split; [lia | split; [reflexivity | exact K]].
  - intros H. destruct (IH _ _ _ H) as (q & -> & Hq & Kx).
    exists (S q). split; [lia | split; [exact Hq | exact Kx]].
Qed.

Lemma find_in_chain_None (chain : list cauchy_orset_entry_t) (h : Z)
  (t : cauchy_uid_t) :
  forall p0,
  find_in_chain chain h t p0 = None ->
  forall x, In x chain -> keyed h t x = false.
Proof.
  induction chain as [|e chain IH]; intros p0; simpl; [intros _ x []|].
  fold (keyed h t e). destruct (keyed h t e) eqn:K; [discriminate|].
  intros H x [<-|Hx]; [exact K | eapply IH; eauto].
Qed.

Lemma find_entry_Some (s : cauchy_orset_t) (h : Z) (t : cauchy_uid_t)
  (pos : nat) (x : cauchy_orset_entry_t) :
  shape s ->
  find_entry_by_tag s h t = Some (pos, x) ->
  (buckets s !!! Z.to_nat (h mod num_buckets s)) !! pos = Some x /\
  keyed h t x = true /\ In x (entries s).
Proof.
  intros Hs H. unfold find_entry_by_tag in H.
  apply find_in_chain_Some in H as (q & -> & Hq & K). simpl.
  split; [exact Hq | split; [exact K|]].
  eapply in_chain_entries.
  - apply lookup_total_Some, bucket_index_bound, Hs.
  - apply list_elem_of_In. eapply list_elem_of_lookup_2. exact Hq.
Qed.

Lemma find_entry_None (s : cauchy_orset_t) (h : Z) (t : cauchy_uid_t) :
  wf s -> find_entry_by_tag s h t = None -> cnt (keyed h t) s = 0%nat.
Proof.
  intros [Hs Hp] H. apply count_if_zero. intros x Hx.
  destruct (keyed h t x) eqn:K; [|reflexivity].
  apply keyed_spec in K as [Hh Ht].
  apply in_entries_chain in Hx as (i & chain & Hc & Hin).
  destruct (Hp i chain x Hc Hin) as [_ Hi].
  unfold find_entry_by_tag in H.
  rewrite <- Hh, <- Hi, (list_lookup_total_correct _ _ _ Hc) in H.
  pose proof (find_in_chain_None _ _ _ _ H x Hin) as K.
  assert (keyed (hash x) t x = true) by (apply keyed_spec; auto). congruence.
Qed.

(** *** Well-formedness is kept by the two updates *)

Lemma in_insert {A : Type} (l : list A) (pos : nat) (v y : A) :
  In y (<[pos := v]> l) -> y = v \/ In y l.
Proof.
  revert pos. induction l as [|a l IH]; intros [|pos]; simpl; auto.
  - intros [<-|H]; auto.
  - intros [<-|H]; auto. destruct (IH _ H); auto.
Qed.

Lemma wf_push (s : cauchy_orset_t) (e : cauchy_orset_entry_t) (a b c : Z) :
  wf s -> hash e = hash_data (data e) ->
  wf (push_entry s (Z.to_nat (hash e mod num_buckets s)) e a b c).
Proof.
  intros [Hs Hp] He. pose proof (bucket_index_bound s (hash e) Hs) as Hidx.
  split.
  - destruct Hs as [Hnb Hlen]. split; simpl; [exact Hnb|].
    now rewrite length_insert.
  - intros i chain y. unfold push_entry. cbn [buckets num_buckets].
    rewrite list_lookup_insert. case_decide as Hi.
    + destruct Hi as [<- _]. intros [= <-] [<-|Hy]; [auto|].
      eapply Hp; [|exact Hy]. now apply lookup_total_Some.
    + apply Hp.
Qed.

Lemma wf_mark (s : cauchy_orset_t) (idx pos : nat) (x : cauchy_orset_entry_t) :
  wf s -> (idx < length (buckets s))%nat ->
  (buckets s !!! idx) !! pos = Some x ->
  wf (mark_removed s idx pos x).
Proof.
  intros [Hs Hp] Hidx Hpos. split.
  - destruct Hs as [Hnb Hlen]. split; simpl; [exact Hnb|].
    now rewrite length_insert.
  - intros i chain y. unfold mark_removed. cbn [buckets num_buckets].
    rewrite list_lookup_insert. case_decide as Hi.
    + destruct Hi as [<- _]. intros [= <-] Hy.
      pose proof (lookup_total_Some _ _ Hidx) as Hc.
      apply in_insert in Hy as [->|Hy].
      * apply (Hp idx _ x Hc).
        apply list_elem_of_In. eapply list_elem_of_lookup_2. exact Hpos.
      * apply (Hp idx _ y Hc Hy).
    + apply Hp.
Qed.

(** *** One source entry merged into [dst] *)

(** The body of the inner loop of [cauchy_orset_merge] when the allocator
    provides the entry it asks for. *)
Definition merge_step (dst : cauchy_orset_t) (e : cauchy_orset_entry_t)
  : cauchy_orset_t :=
  match find_entry_by_tag dst (hash e) (tag e) with
  | Some (pos, existing) =>
      if removed e && negb (removed existing)
      then mark_removed dst (Z.to_nat (hash e mod num_buckets dst)) pos existing
      else dst
  | None => insert_copy dst e
  end.

Lemma merge_chain_fold (chain : list cauchy_orset_entry_t) :
  forall dst avail,
  (length chain <= avail)%nat ->
  exists avail',
    merge_chain dst chain avail = (CAUCHY_OK, fold_left merge_step chain dst, avail') /\
    (avail <= avail' + length chain)%nat.
Proof.
  induction chain as [|e chain IH]; intros dst avail Hlen; simpl in *.
  - exists avail. split; [reflexivity | lia].
  - unfold merge_step at 2.
    destruct (find_entry_by_tag dst (hash e) (tag e)) as [[pos existing]|].
    + destruct (removed e && negb (removed existing)).
      * destruct (IH (mark_removed dst (Z.to_nat (hash e mod num_buckets dst))
                        pos existing) avail ltac:(lia)) as (a' & -> & Ha).
        exists a'. split; [reflexivity | lia].
      * destruct (IH dst avail ltac:(lia)) as (a' & -> & Ha).
        exists a'. split; [reflexivity | lia].
    + destruct avail as [|avail]; [lia|].
      destruct (IH (insert_copy dst e) avail ltac:(lia)) as (a' & -> & Ha).
      exists a'. split; [reflexivity | lia].
Qed.

Lemma merge_buckets_fold (src : cauchy_orset_t) (indices : list Z) :
  forall dst avail,
  let chains := map (fun i => buckets src !!! Z.to_nat i) indices in
  (length (concat chains) <= avail)%nat ->
  exists avail',
    merge_buckets dst src indices avail =
      (CAUCHY_OK, fold_left merge_step (concat chains) dst, avail') /\
    (avail <= avail' + length (concat chains))%nat.
Proof.
  induction indices as [|i rest IH]; intros dst avail; cbn zeta; simpl.
  - intros _. exists avail. split; [reflexivity | lia].
  - rewrite length_app. intros Hlen.
    destruct (merge_chain_fold (buckets src !!! Z.to_nat i) dst avail ltac:(lia))
      as (a1 & -> & Ha1).
    destruct (IH (fold_left merge_step (buckets src !!! Z.to_nat i) dst) a1
                ltac:(cbn zeta; lia)) as (a2 & -> & Ha2).
    exists a2. rewrite fold_left_app. split; [reflexivity | cbn zeta in Ha2; lia].
Qed.

Lemma lookups_seq {A : Type} `{!Inhabited A} (l : list A) :
  map (fun j => l !!! j) (seq 0 (length l)) = l.
Proof.
  induction l as [|x l IH]; [reflexivity|].
  cbn [length seq map]. f_equal.
  rewrite <- seq_shift, map_map. exact IH.
Qed.

Lemma chains_zrange (s : cauchy_orset_t) :
  shape s ->
  map (fun i => buckets s !!! Z.to_nat i) (zrange (num_buckets s)) = buckets s.
Proof.
  intros [Hnb Hlen]. unfold zrange. rewrite map_map.
  replace (Z.to_nat (num_buckets s)) with (length (buckets s)) by lia.
  etransitivity; [|apply lookups_seq].
  apply map_ext. intros j. now rewrite Nat2Z.id.
Qed.

(** With enough memory for every source entry, merge returns [CAUCHY_OK]
    after folding [merge_step] over the source entries in bucket order. *)
Lemma merge_ok (dst src : cauchy_orset_t) (avail : nat) :
  shape src -> (length (entries src) <= avail)%nat ->
  cauchy_orset_merge (Some dst) (Some src) avail =
  (CAUCHY_OK, Some (fold_left merge_step (entries src) dst)).
Proof.
  intros Hs Hlen. unfold cauchy_orset_merge.
  destruct (merge_buckets_fold src (zrange (num_buckets src)) dst avail)
    as (a' & E & _).
  - cbn zeta. now rewrite chains_zrange.
  - cbn zeta in E. rewrite chains_zrange in E by exact Hs.
    unfold entries. now rewrite E.
Qed.

(** What one step does to [dst], in terms of entry counts: the source entry
    is found and nothing changes, or the entry found is tombstoned, or a copy
    of the source entry is linked in. *)
Inductive step_effect (d : cauchy_orset_t) (e : cauchy_orset_entry_t)
  (d' : cauchy_orset_t) : Prop :=
  | effect_kept (x : cauchy_orset_entry_t) :
      In x (entries d) -> keyed (hash e) (tag e) x = true ->
      removed e && negb (removed x) = false ->
      d' = d ->
      step_effect d e d'
  | effect_marked (x : cauchy_orset_entry_t) :
      In x (entries d) -> keyed (hash e) (tag e) x = true ->
      removed e = true -> removed x = false ->
      (forall P, (cnt P d' + indicator (P x) =
                  cnt P d + indicator (P (set_removed x)))%nat) ->
      step_effect d e d'
  | effect_inserted :
      cnt (keyed (hash e) (tag e)) d = 0%nat ->
      (forall P, cnt P d' = (cnt P d + indicator (P e))%nat) ->
      step_effect d e d'.

Lemma entry_eta (e : cauchy_orset_entry_t) :
  {| data := data e; hash := hash e; tag := tag e; removed := removed e |} = e.
Proof. now destruct e. Qed.

Lemma merge_step_effect (d : cauchy_orset_t) (e : cauchy_orset_entry_t) :
  wf d -> hash e = hash_data (data e) ->
  step_effect d e (merge_step d e) /\ wf (merge_step d e).
Proof.
  intros Hwf He. pose proof Hwf as [Hs Hp].
  pose proof (bucket_index_bound d (hash e) Hs) as Hidx.
  unfold merge_step.
  destruct (find_entry_by_tag d (hash e) (tag e)) as [[pos x]|] eqn:Hfind.
  - destruct (find_entry_Some d _ _ _ _ Hs Hfind) as (Hpos & K & Hin).
    destruct (removed e && negb (removed x)) eqn:Hm.
    + apply andb_true_iff in Hm as [Hre Hrx]. apply negb_true_iff in Hrx.
      split; [|now apply wf_mark].
      apply (effect_marked _ _ _ x); try assumption.
      intros P. now apply cnt_mark.
    + split; [|exact Hwf]. now apply (effect_kept _ _ _ x).
  - split.
    + apply effect_inserted; [now apply find_entry_None|].
      intros P. unfold insert_copy. rewrite entry_eta. now apply cnt_push.
    + unfold insert_copy. rewrite entry_eta. now apply wf_push.
Qed.

Lemma fold_invariant (Inv : cauchy_orset_t -> Prop)
  (C : cauchy_orset_entry_t -> Prop) :
  (forall d e, Inv d -> C e -> Inv (merge_step d e)) ->
  forall es d, (forall e, In e es -> C e) -> Inv d ->
  Inv (fold_left merge_step es d).
Proof.
  intros Hstep es. induction es as [|e es IH]; intros d HC Hd; [exact Hd|].
  simpl. apply IH.
  - intros x Hx. apply HC. now right.
  - apply Hstep; [exact Hd | apply HC; now left].
Qed.

(** *** Concurrent add and remove of one payload *)

Lemma tagged_spec (t : cauchy_uid_t) (e : cauchy_orset_entry_t) :
  tagged t e = true <-> tag e = t.
Proof. apply cauchy_uid_equals_spec. Qed.

Lemma tagged_false (t : cauchy_uid_t) (e : cauchy_orset_entry_t) :
  tag e <> t -> tagged t e = false.
Proof.
  intros H. destruct (tagged t e) eqn:E; [|reflexivity].
  now apply tagged_spec in E.
Qed.

Lemma is_k_spec (k : list Z) (e : cauchy_orset_entry_t) :
  is_k k e = true <-> data e = k.
Proof. apply GSetFacts.same_bytes_spec. Qed.

Lemma active_k_spec (k : list Z) (e : cauchy_orset_entry_t) :
  active_k k e = true <-> data e = k /\ removed e = false.
Proof.
  unfold active_k. now rewrite andb_true_iff, is_k_spec, negb_true_iff.
Qed.

Lemma active_k_set_removed (k : list Z) (e : cauchy_orset_entry_t) :
  active_k k (set_removed e) = false.
Proof. unfold active_k. simpl. apply andb_false_r. Qed.

Section AddWins.
Variable k : list Z.
Variables T0 T2 : cauchy_uid_t.
Hypothesis T2_T0 : T2 <> T0.

(** [key0]: found by a search for tag [T0] under the hash of [k]. *)
Definition key0 : cauchy_orset_entry_t -> bool := keyed (hash_data k) T0.
Definition act_t2 (e : cauchy_orset_entry_t) : bool := active_k k e && tagged T2 e.
Definition act_other (e : cauchy_orset_entry_t) : bool := active_k k e && negb (key0 e).
Definition act_key0 (e : cauchy_orset_entry_t) : bool := active_k k e && key0 e.
Definition live_key0 (e : cauchy_orset_entry_t) : bool := key0 e && negb (removed e).

(** Source entries that leave the outcome for [k] alone: none carries [T2],
    and one for [k] is a tombstone or carries [T0]. *)
Definition benign (e : cauchy_orset_entry_t) : Prop :=
  hash e = hash_data (data e) /\ tag e <> T2 /\
  (data e = k -> removed e = true \/ tag e = T0).

Definition quiet (e : cauchy_orset_entry_t) : Prop :=
  hash e = hash_data (data e) /\ tag e <> T2 /\
  (data e = k -> removed e = true).

Lemma quiet_benign (e : cauchy_orset_entry_t) : quiet e -> benign e.
Proof. intros (H1 & H2 & H3). repeat split; auto. Qed.

(** No live entry for [k] yet, [T2] unknown, [T0] known. *)
Definition awaiting (d : cauchy_orset_t) : Prop :=
  wf d /\ cnt (active_k k) d = 0%nat /\ cnt (tagged T2) d = 0%nat /\
  (1 <= cnt key0 d)%nat.

(** Exactly one live entry for [k], the one tagged [T2]. *)
Definition settled (d : cauchy_orset_t) : Prop :=
  wf d /\ cnt (active_k k) d = 1%nat /\ cnt act_t2 d = 1%nat.

(** One live entry for [k] tagged [T2], none under another key than [T0]'s,
    and one entry under [T0]'s key. *)
Definition pending (d : cauchy_orset_t) : Prop :=
  wf d /\ cnt act_t2 d = 1%nat /\ cnt act_other d = 1%nat /\ cnt key0 d = 1%nat.

Lemma act_t2_le (d : cauchy_orset_t) : (cnt act_t2 d <= cnt (active_k k) d)%nat.
Proof.
  apply count_if_le. intros x _. unfold act_t2. now intros [H _]%andb_true_iff.
Qed.

Lemma act_t2_le_other (d : cauchy_orset_t) : (cnt act_t2 d <= cnt act_other d)%nat.
Proof.
  apply count_if_le. intros x _. unfold act_t2, act_other.
  intros [Ha Ht]%andb_true_iff. rewrite Ha. simpl. apply negb_true_iff.
  apply tagged_spec in Ht. destruct (key0 x) eqn:K; [|reflexivity].
  apply keyed_spec in K as [_ K]. congruence.
Qed.

Lemma act_t2_false (e : cauchy_orset_entry_t) : tag e <> T2 -> act_t2 e = false.
Proof. intros H. unfold act_t2. rewrite (tagged_false _ _ H). apply andb_false_r. Qed.

Lemma key_is_key0 (e : cauchy_orset_entry_t) :
  hash e = hash_data (data e) -> data e = k -> tag e = T0 ->
  keyed (hash e) (tag e) = key0.
Proof. intros -> -> ->. reflexivity. Qed.

Lemma key0_key (e : cauchy_orset_entry_t) :
  key0 e = true -> keyed (hash e) (tag e) = key0.
Proof. intros [-> ->]%keyed_spec. reflexivity. Qed.

(** A benign entry that is inserted is not a live entry for [k]: it would
    have been found under [T0]'s key. *)
Lemma benign_inserted_dead (d : cauchy_orset_t) (e : cauchy_orset_entry_t) :
  benign e -> (1 <= cnt key0 d)%nat ->
  cnt (keyed (hash e) (tag e)) d = 0%nat ->
  active_k k e = false.
Proof.
  intros (Hh & _ & Hk) H0 Hnone.
  destruct (active_k k e) eqn:A; [|reflexivity].
  apply active_k_spec in A as [Hd Hr].
  destruct (Hk Hd) as [?|Ht]; [congruence|].
  rewrite (key_is_key0 e Hh Hd Ht) in Hnone. lia.
Qed.

Lemma awaiting_step (d : cauchy_orset_t) (e : cauchy_orset_entry_t) :
  awaiting d -> benign e -> awaiting (merge_step d e).
Proof.
  intros (Hwf & Ha & Ht & H0) Hb. pose proof Hb as (Hh & Hne & _).
  destruct (merge_step_effect d e Hwf Hh) as [Heff Hwf'].
  split; [exact Hwf'|].
  destruct Heff as [x _ _ _ ->|x Hx K _ _ Hc|Hnone Hc].
  - auto.
  - pose proof (Hc (active_k k)) as C1. rewrite active_k_set_removed in C1.
    pose proof (Hc (tagged T2)) as C2. pose proof (Hc key0) as C3.
    change (tagged T2 (set_removed x)) with (tagged T2 x) in C2.
    change (key0 (set_removed x)) with (key0 x) in C3.
    unfold indicator in *. destruct (active_k k x); repeat split; lia.
  - rewrite (Hc (active_k k)), (Hc (tagged T2)), (Hc key0).
    rewrite (benign_inserted_dead d e Hb H0 Hnone), (tagged_false _ _ Hne).
    unfold indicator. simpl. repeat split; lia.
Qed.

Lemma settled_step (d : cauchy_orset_t) (e : cauchy_orset_entry_t) :
  (settled d /\ (1 <= cnt key0 d)%nat) -> benign e ->
  settled (merge_step d e) /\ (1 <= cnt key0 (merge_step d e))%nat.
Proof.
  intros [(Hwf & Ha & Ht) H0] Hb. pose proof Hb as (Hh & Hne & _).
  destruct (merge_step_effect d e Hwf Hh) as [Heff Hwf'].
  pose proof (act_t2_le (merge_step d e)) as Hle.
  unfold settled.
  enough (cnt (active_k k) (merge_step d e) = 1%nat /\
          cnt act_t2 (merge_step d e) = 1%nat /\
          (1 <= cnt key0 (merge_step d e))%nat) by tauto.
  destruct Heff as [x _ _ _ E|x Hx K _ _ Hc|Hnone Hc].
  - rewrite E. auto.
  - apply keyed_spec in K as [_ Kt].
    pose proof (Hc (active_k k)) as C1. rewrite active_k_set_removed in C1.
    pose proof (Hc act_t2) as C2. pose proof (Hc key0) as C3.
    rewrite !act_t2_false in C2 by (simpl; congruence).
    change (key0 (set_removed x)) with (key0 x) in C3.
    unfold indicator in *. simpl in *.
    destruct (active_k k x); lia.
  - pose proof (Hc (active_k k)) as C1. pose proof (Hc act_t2) as C2.
    pose proof (Hc key0) as C3.
    rewrite (benign_inserted_dead d e Hb H0 Hnone) in C1.
    rewrite (act_t2_false e Hne) in C2.
    unfold indicator in *. simpl in *. lia.
Qed.

(** The entry the concurrent add has created. *)
Definition e2 : cauchy_orset_entry_t :=
  {| data := k; hash := hash_data k; tag := T2; removed := false |}.

Lemma awaiting_e2 (d : cauchy_orset_t) :
  awaiting d ->
  settled (merge_step d e2) /\ (1 <= cnt key0 (merge_step d e2))%nat.
Proof.
  intros (Hwf & Ha & Ht & H0).
  destruct (merge_step_effect d e2 Hwf eq_refl) as [Heff Hwf'].
  assert (Hfound : forall x, In x (entries d) ->
            keyed (hash e2) (tag e2) x = true -> False).
  { intros x Hx [_ K]%keyed_spec.
    pose proof (count_if_pos (tagged T2) (entries d) x Hx
                  (proj2 (tagged_spec T2 x) K)). unfold cnt in Ht. lia. }
  unfold settled.
  enough (cnt (active_k k) (merge_step d e2) = 1%nat /\
          cnt act_t2 (merge_step d e2) = 1%nat /\
          (1 <= cnt key0 (merge_step d e2))%nat) by tauto.
  destruct Heff as [x Hx K _ _|x Hx K _ _ _|Hnone Hc].
  - destruct (Hfound x Hx K).
  - destruct (Hfound x Hx K).
  - pose proof (act_t2_le d) as Hle.
    pose proof (Hc (active_k k)) as C1. pose proof (Hc act_t2) as C2.
    pose proof (Hc key0) as C3.
    assert (A1 : active_k k e2 = true) by (apply active_k_spec; auto).
    assert (A2 : act_t2 e2 = true).
    { unfold act_t2. rewrite A1. simpl. now apply tagged_spec. }
    rewrite A1 in C1. rewrite A2 in C2.
    unfold indicator in *. lia.
Qed.

Lemma quiet_inserted (d : cauchy_orset_t) (e : cauchy_orset_entry_t) :
  quiet e -> cnt key0 d = 1%nat ->
  cnt (keyed (hash e) (tag e)) d = 0%nat ->
  active_k k e = false /\ key0 e = false.
Proof.
  intros (Hh & _ & Hk) H0 Hnone. split.
  - destruct (active_k k e) eqn:A; [|reflexivity].
    apply active_k_spec in A as [Hd Hr]. specialize (Hk Hd). congruence.
  - destruct (key0 e) eqn:K; [|reflexivity].
    rewrite (key0_key e K) in Hnone. lia.
Qed.

Lemma pending_step (d : cauchy_orset_t) (e : cauchy_orset_entry_t) :
  pending d -> quiet e -> pending (merge_step d e).
Proof.
  intros (Hwf & Ht & Ho & H0) Hq. pose proof Hq as (Hh & Hne & _).
  destruct (merge_step_effect d e Hwf Hh) as [Heff Hwf'].
  pose proof (act_t2_le_other (merge_step d e)) as Hle.
  split; [exact Hwf'|].
  destruct Heff as [x _ _ _ ->|x Hx K _ _ Hc|Hnone Hc].
  - auto.
  - apply keyed_spec in K as [_ Kt].
    pose proof (Hc act_t2) as C1. pose proof (Hc act_other) as C2.
    pose proof (Hc key0) as C3.
    rewrite !act_t2_false in C1 by (simpl; congruence).
    change (key0 (set_removed x)) with (key0 x) in C3.
    assert (O1 : act_other (set_removed x) = false)
      by (unfold act_other; now rewrite active_k_set_removed).
    rewrite O1 in C2.
    unfold indicator in *. simpl in *.
    repeat split; destruct (act_other x); lia.
  - destruct (quiet_inserted d e Hq H0 Hnone) as [A K0].
    pose proof (Hc act_t2) as C1. pose proof (Hc act_other) as C2.
    pose proof (Hc key0) as C3.
    rewrite (act_t2_false e Hne) in C1.
    assert (O1 : act_other e = false) by (unfold act_other; now rewrite A).
    rewrite O1 in C2. rewrite K0 in C3.
    unfold indicator in *. simpl in *. repeat split; lia.
Qed.

(** Once the tombstone of [T0] has been merged, no entry under [T0]'s key is
    live. *)
Definition cleared (d : cauchy_orset_t) : Prop :=
  pending d /\ cnt live_key0 d = 0%nat.

Lemma live_key0_le (d : cauchy_orset_t) : (cnt live_key0 d <= cnt key0 d)%nat.
Proof.
  apply count_if_le. intros x _. unfold live_key0. now intros [H _]%andb_true_iff.
Qed.

Lemma cleared_step (d : cauchy_orset_t) (e : cauchy_orset_entry_t) :
  cleared d -> quiet e -> cleared (merge_step d e).
Proof.
  intros [Hp Hl] Hq. split; [now apply pending_step|].
  destruct Hp as (Hwf & _ & _ & H0). pose proof Hq as (Hh & _ & _).
  destruct (merge_step_effect d e Hwf Hh) as [Heff _].
  destruct Heff as [x _ _ _ ->|x Hx K _ _ Hc|Hnone Hc].
  - exact Hl.
  - pose proof (Hc live_key0) as C.
    assert (live_key0 (set_removed x) = false)
      by (unfold live_key0; simpl; apply andb_false_r).
    rewrite H in C. unfold indicator in *. destruct (live_key0 x); lia.
  - destruct (quiet_inserted d e Hq H0 Hnone) as [_ K0].
    rewrite (Hc live_key0). unfold live_key0 at 2. rewrite K0. simpl. lia.
Qed.

(** The tombstone that the remove has left for [T0]. *)
Definition e0r : cauchy_orset_entry_t :=
  {| data := k; hash := hash_data k; tag := T0; removed := true |}.

Lemma e0r_quiet : quiet e0r.
Proof. repeat split; simpl; auto. Qed.

Lemma pending_e0r (d : cauchy_orset_t) :
  pending d -> cleared (merge_step d e0r).
Proof.
  intros Hp. split; [apply pending_step; [exact Hp | apply e0r_quiet]|].
  destruct Hp as (Hwf & _ & _ & H0).
  destruct (merge_step_effect d e0r Hwf eq_refl) as [Heff _].
  pose proof (live_key0_le d) as Hle.
  destruct Heff as [x Hx K Hr ->|x Hx K _ Hr Hc|Hnone Hc].
  - simpl in Hr. apply negb_false_iff in Hr.
    change (keyed (hash e0r) (tag e0r)) with key0 in K.
    pose proof (count_if_split key0 (fun y => negb (removed y)) (entries d)) as Hs.
    assert (Hpos : (1 <= count_if (fun y => key0 y && negb (negb (removed y)))
                          (entries d))%nat).
    { apply (count_if_pos _ _ x Hx). simpl. now rewrite K, Hr. }
    unfold cnt, live_key0 in *. lia.
  - change (keyed (hash e0r) (tag e0r)) with key0 in K.
    pose proof (Hc live_key0) as C.
    assert (L1 : live_key0 x = true) by (unfold live_key0; now rewrite K, Hr).
    assert (L2 : live_key0 (set_removed x) = false)
      by (unfold live_key0; simpl; apply andb_false_r).
    rewrite L1, L2 in C. unfold indicator in C. lia.
  - change (keyed (hash e0r) (tag e0r)) with key0 in Hnone. lia.
Qed.

Lemma cleared_settled (d : cauchy_orset_t) : cleared d -> settled d.
Proof.
  intros [(Hwf & Ht & Ho & H0) Hl].
  split; [exact Hwf | split; [|exact Ht]].
  pose proof (count_if_split (active_k k) key0 (entries d)) as Hs.
  assert (Hle : (count_if (fun x => active_k k x && key0 x) (entries d)
                 <= count_if live_key0 (entries d))%nat).
  { apply count_if_le. intros x _ [A K]%andb_true_iff.
    apply active_k_spec in A as [_ Hr]. unfold live_key0. now rewrite K, Hr. }
  unfold cnt, act_other in *. lia.
Qed.

End AddWins.

(** *** What add and remove do to the entries *)

Lemma nonempty_length (k : list Z) : k <> [] -> (length k =? 0)%nat = false.
Proof. destruct k; [congruence | reflexivity]. Qed.

Lemma add_spec (s : cauchy_orset_t) (k : list Z) :
  k <> [] ->
  cauchy_orset_add (Some s) k true =
  (CAUCHY_OK,
   Some (push_entry s (Z.to_nat (hash_data k mod num_buckets s))
           (e2 k (minted s)) (wrap64 (entry_count s + 1))
           (wrap64 (active_count s + 1)) (wrap64 (timestamp s + 1)))).
Proof.
  intros Hk. unfold cauchy_orset_add. now rewrite (nonempty_length k Hk).
Qed.

(** [cauchy_orset_remove] turns the live entries for [k] into tombstones. *)
Definition tombstone (k : list Z) (e : cauchy_orset_entry_t) : cauchy_orset_entry_t :=
  if active_k k e then set_removed e else e.

Lemma remove_chain_spec (chain : list cauchy_orset_entry_t) (h : Z) (d : list Z) :
  forall active found,
  exists active',
    remove_chain chain h d active found =
    (map (fun e => if entry_matches h d e then set_removed e else e) chain,
     active', found || existsb (entry_matches h d) chain).
Proof.
  induction chain as [|e chain IH]; intros active found; simpl.
  - exists active. now rewrite orb_false_r.
  - destruct (entry_matches h d e).
    + destruct (IH (wrap64 (active - 1)) true) as (a' & ->).
      exists a'. simpl. now rewrite orb_true_r.
    + destruct (IH active found) as (a' & ->). exists a'. reflexivity.
Qed.

Lemma entry_matches_placed (k : list Z) (e : cauchy_orset_entry_t) :
  hash e = hash_data (data e) ->
  entry_matches (hash_data k) k e = active_k k e.
Proof.
  intros Hh. unfold entry_matches, active_k, is_k.
  destruct (same_bytes (data e) k) eqn:E.
  - apply GSetFacts.same_bytes_spec in E. rewrite Hh, E, Z.eqb_refl.
    now destruct (removed e).
  - now rewrite andb_false_r.
Qed.

Lemma map_chains_insert {A : Type} (f : A -> A) (bks : list (list A)) :
  forall idx : nat,
  (idx < length bks)%nat ->
  (forall i c, bks !! i = Some c -> i <> idx -> map f c = c) ->
  map (map f) bks = <[idx := map f (bks !!! idx)]> bks.
Proof.
  induction bks as [|c bks IH]; intros idx Hidx Hother; [simpl in Hidx; lia|].
  destruct idx as [|idx]; simpl.
  - f_equal. clear IH Hidx. induction bks as [|c' bks IH]; [reflexivity|].
    simpl. f_equal.
    + apply (Hother 1%nat c'); [reflexivity | lia].
    + apply IH. intros [|i] c0 Hc Hi; [lia|].
      destruct i as [|i]; simpl in Hc.
      * apply (Hother 2%nat c0); [exact Hc | lia].
      * apply (Hother (S (S (S i))) c0); [exact Hc | lia].
  - f_equal.
    + apply (Hother 0%nat c); [reflexivity | lia].
    + apply IH; [simpl in Hidx; lia|].
      intros i c0 Hc Hi. apply (Hother (S i) c0); [exact Hc | lia].
Qed.

Lemma remove_spec (s : cauchy_orset_t) (k : list Z) (x : cauchy_orset_entry_t) :
  wf s -> k <> [] -> In x (entries s) -> active_k k x = true ->
  exists s',
    cauchy_orset_remove (Some s) k = (CAUCHY_OK, Some s') /\
    wf s' /\ entries s' = map (tombstone k) (entries s).
Proof.
  intros [Hs Hp] Hk Hx Hact. unfold cauchy_orset_remove.
  rewrite (nonempty_length k Hk).
  set (idx := Z.to_nat (hash_data k mod num_buckets s)).
  pose proof (bucket_index_bound s (hash_data k) Hs) as Hidx. fold idx in Hidx.
  pose proof (lookup_total_Some _ _ Hidx) as Hchain.
  destruct (remove_chain_spec (buckets s !!! idx) (hash_data k) k
              (active_count s) false) as (a' & ->).
  (* every live entry for [k] sits in bucket [idx] *)
  assert (Hhome : forall i c y, buckets s !! i = Some c -> In y c ->
            active_k k y = true -> i = idx).
  { intros i c y Hc Hy [Hd _]%active_k_spec.
    destruct (Hp i c y Hc Hy) as [Hh ->]. unfold idx. now rewrite Hh, Hd. }
  assert (Hmap : map (fun e => if entry_matches (hash_data k) k e
                               then set_removed e else e) (buckets s !!! idx)
                 = map (tombstone k) (buckets s !!! idx)).
  { apply map_ext_in. intros y Hy. unfold tombstone.
    destruct (Hp idx _ y Hchain Hy) as [Hh _].
    now rewrite (entry_matches_placed k y Hh). }
  assert (Hfound : existsb (entry_matches (hash_data k) k) (buckets s !!! idx) = true).
  { apply in_entries_chain in Hx as (i & c & Hc & Hin).
    pose proof (Hhome i c x Hc Hin Hact) as ->.
    rewrite Hchain in Hc. injection Hc as <-.
    apply existsb_exists. exists x. split; [exact Hin|].
    destruct (Hp idx _ x Hchain Hin) as [Hh _].
    now rewrite (entry_matches_placed k x Hh). }
  rewrite Hfound, Hmap. simpl.
  eexists. split; [reflexivity|].
  assert (Hbks : <[idx := map (tombstone k) (buckets s !!! idx)]> (buckets s)
                 = map (map (tombstone k)) (buckets s)).
  { symmetry. apply map_chains_insert; [exact Hidx|].
    intros i c Hc Hi. rewrite <- (map_id c) at 2. apply map_ext_in.
    intros y Hy. unfold tombstone.
    destruct (active_k k y) eqn:A; [|reflexivity].
    destruct Hi. now apply (Hhome i c y Hc Hy). }
  split.
  - split.
    + destruct Hs as [Hnb Hlen]. split; simpl; [exact Hnb|].
      now rewrite length_insert.
    + intros i c y. cbn [buckets num_buckets]. rewrite Hbks.
      intros Hc Hy.
      assert (exists c0, buckets s !! i = Some c0 /\ c = map (tombstone k) c0)
        as (c0 & Hc0 & ->).
      { clear -Hc. revert i Hc. induction (buckets s) as [|b bks IH];
          intros [|i] Hc; simpl in *; try discriminate.
        - injection Hc as <-. eauto.
        - apply IH in Hc. exact Hc. }
      apply in_map_iff in Hy as (y0 & <- & Hy0).
      destruct (Hp i c0 y0 Hc0 Hy0) as [Hh Hi].
      unfold tombstone. destruct (active_k k y0); simpl; auto.
  - unfold entries. cbn [buckets]. rewrite Hbks. now rewrite concat_map.
Qed.

(** *** What the merged state shows for [k] *)

Lemma chain_has_true (chain : list cauchy_orset_entry_t) (h : Z) (d : list Z)
  (x : cauchy_orset_entry_t) :
  In x chain -> entry_matches h d x = true -> chain_has chain h d = true.
Proof.
  induction chain as [|e chain IH]; intros Hx Hm; [destruct Hx|].
  simpl. destruct (entry_matches h d e) eqn:E; [reflexivity|].
  destruct Hx as [->|Hx]; [congruence | now apply IH].
Qed.

Lemma contains_true (s : cauchy_orset_t) (k : list Z) (x : cauchy_orset_entry_t) :
  wf s -> k <> [] -> In x (entries s) -> active_k k x = true ->
  cauchy_orset_contains (Some s) k = true.
Proof.
  intros [Hs Hp] Hk Hx Hact. unfold cauchy_orset_contains.
  rewrite (nonempty_length k Hk).
  apply in_entries_chain in Hx as (i & c & Hc & Hin).
  destruct (Hp i c x Hc Hin) as [Hh Hi].
  pose proof Hact as [Hd _]%active_k_spec.
  rewrite Hh, Hd in Hi. rewrite <- Hi, (list_lookup_total_correct _ _ _ Hc).
  apply (chain_has_true c _ _ x Hin).
  rewrite entry_matches_placed; [exact Hact | now rewrite Hh, Hd].
Qed.

Lemma settled_shows (s : cauchy_orset_t) (k : list Z) (T2 : cauchy_uid_t) :
  k <> [] -> settled k T2 s ->
  cauchy_orset_contains (Some s) k = true /\
  map tag (List.filter (active_k k) (entries s)) = [T2].
Proof.
  intros Hk (Hwf & Ha & Ht).
  destruct (count_if_one _ _ Ha) as [x Hx].
  destruct (count_if_one _ _ Ht) as [z Hz].
  assert (Hzin : In z (List.filter (act_t2 k T2) (entries s)))
    by (rewrite Hz; now left).
  apply List.filter_In in Hzin as [Hzin Hzt].
  unfold act_t2 in Hzt. apply andb_true_iff in Hzt as [Hza Hzt].
  assert (Hzx : In z (List.filter (active_k k) (entries s)))
    by (apply List.filter_In; auto).
  rewrite Hx in Hzx. destruct Hzx as [->|[]].
  split.
  - now apply (contains_true s k z).
  - rewrite Hx. simpl. f_equal. now apply tagged_spec.
Qed.

(** *** A decision procedure for well-formedness *)

Fixpoint placed_from (nb : Z) (i : nat) (bks : list (list cauchy_orset_entry_t))
  : bool :=
  match bks with
  | [] => true
  | chain :: rest =>
      forallb (fun e => (hash e =? hash_data (data e)) &&
                        (Z.of_nat i =? hash e mod nb)) chain &&
      placed_from nb (S i) rest
  end.

Definition wf_check (s : cauchy_orset_t) : bool :=
  (0 <? num_buckets s) && (Z.of_nat (length (buckets s)) =? num_buckets s) &&
  placed_from (num_buckets s) 0 (buckets s).

Lemma placed_from_sound (nb : Z) (bks : list (list cauchy_orset_entry_t)) :
  forall i0 i chain e,
  placed_from nb i0 bks = true -> bks !! i = Some chain -> In e chain ->
  hash e = hash_data (data e) /\ Z.of_nat (i0 + i) = hash e mod nb.
Proof.
  induction bks as [|c bks IH]; intros i0 i chain e Hp Hc He; [discriminate|].
  simpl in Hp. apply andb_true_iff in Hp as [Hhere Hrest].
  destruct i as [|i]; simpl in Hc.
  - injection Hc as <-. rewrite forallb_forall in Hhere.
    specialize (Hhere e He). apply andb_true_iff in Hhere as [H1 H2].
    apply Z.eqb_eq in H1. apply Z.eqb_eq in H2. split; [exact H1|].
    now rewrite Nat.add_0_r.
  - destruct (IH (S i0) i chain e Hrest Hc He) as [H1 H2]. split; [exact H1|].
    rewrite <- H2. f_equal. lia.
Qed.

Lemma wf_check_sound (s : cauchy_orset_t) : wf_check s = true -> wf s.
Proof.
  unfold wf_check. intros [[Hnb Hlen]%andb_true_iff Hp]%andb_true_iff.
  apply Z.ltb_lt in Hnb. apply Z.eqb_eq in Hlen. split; [split; assumption|].
  intros i chain e Hc He.
  destruct (placed_from_sound _ _ 0%nat i chain e Hp Hc He) as [H1 H2].
  split; [exact H1|]. simpl in H2. lia.
Qed.

(** *** Add wins *)

(** C1.  Let [R1] hold a live entry for [k] under tag [T0], and let [R2]
    hold that entry as its only live entry for [k] and its only entry tagged
    [T0]; let the tag [T2] that the next add on [R2] mints occur in neither
    set.  After [cauchy_orset_remove(k)] on [R1] and [cauchy_orset_add(k)] on
    [R2], both [cauchy_orset_merge(R1, R2)] and [cauchy_orset_merge(R2, R1)]
    return [CAUCHY_OK] (the allocator providing an entry for each source
    entry) and leave a state where [cauchy_orset_contains(k)] is true and the
    entries for [k] that are not tombstones are exactly one, tagged [T2]. *)
Theorem orset_add_wins (R1 R2 : cauchy_orset_t) (k : list Z) (T0 : cauchy_uid_t)
  (avail : nat) :
  let e0 := {| data := k; hash := hash_data k; tag := T0; removed := false |} in
  let T2 := minted R2 in
  k <> [] -> wf R1 -> wf R2 ->
  In e0 (entries R1) ->
  List.filter (active_k k) (entries R2) = [e0] ->
  count_if (tagged T0) (entries R2) = 1%nat ->
  (forall x, In x (entries R1) -> tag x <> T2) ->
  (forall x, In x (entries R2) -> tag x <> T2) ->
  (length (entries R1) <= avail)%nat ->
  (length (entries R2) < avail)%nat ->
  exists R1' R2' m12 m21,
    cauchy_orset_remove (Some R1) k = (CAUCHY_OK, Some R1') /\
    cauchy_orset_add (Some R2) k true = (CAUCHY_OK, Some R2') /\
    cauchy_orset_merge (Some R1') (Some R2') avail = (CAUCHY_OK, Some m12) /\
    cauchy_orset_merge (Some R2') (Some R1') avail = (CAUCHY_OK, Some m21) /\
    cauchy_orset_contains (Some m12) k = true /\
    cauchy_orset_contains (Some m21) k = true /\
    map tag (List.filter (active_k k) (entries m12)) = [T2] /\
    map tag (List.filter (active_k k) (entries m21)) = [T2].
Proof.
  intros e0 T2 Hk Hwf1 Hwf2 H1 H2 HU HF1 HF2 Hm1 Hm2.
  assert (Hact0 : active_k k e0 = true) by (now apply active_k_spec).
  assert (H0in2 : In e0 (entries R2)).
  { assert (In e0 (List.filter (active_k k) (entries R2))) by (rewrite H2; now left).
    now apply List.filter_In in H. }
  assert (HT : T2 <> T0) by (intros E; now apply (HF2 e0 H0in2)).
  (* the two local operations *)
  destruct (remove_spec R1 k e0 Hwf1 Hk H1 Hact0) as (R1' & Hrem & Hwf1' & Hent1).
  pose proof (add_spec R2 k Hk) as Hadd. fold T2 in Hadd.
  set (idx2 := Z.to_nat (hash_data k mod num_buckets R2)) in *.
  set (R2' := push_entry R2 idx2 (e2 k T2) (wrap64 (entry_count R2 + 1))
                (wrap64 (active_count R2 + 1)) (wrap64 (timestamp R2 + 1))) in *.
  pose proof (bucket_index_bound R2 (hash_data k) (proj1 Hwf2)) as Hidx2.
  fold idx2 in Hidx2.
  assert (Hwf2' : wf R2') by (apply (wf_push R2 (e2 k T2)); [exact Hwf2 | reflexivity]).
  pose proof (entries_push R2 idx2 (e2 k T2) (wrap64 (entry_count R2 + 1))
                (wrap64 (active_count R2 + 1)) (wrap64 (timestamp R2 + 1)) Hidx2)
    as Hent2.
  fold R2' in Hent2.
  pose proof (entries_take_drop R2 idx2) as Hsplit2.
  set (a := concat (take idx2 (buckets R2))) in *.
  set (b := concat (drop idx2 (buckets R2))) in *.
  (* both merges run to completion *)
  assert (Hm12 : cauchy_orset_merge (Some R1') (Some R2') avail =
                 (CAUCHY_OK, Some (fold_left merge_step (entries R2') R1'))).
  { apply merge_ok; [exact (proj1 Hwf2')|].
    rewrite Hent2, length_app. simpl. rewrite Hsplit2, length_app in Hm2. lia. }
  assert (Hm21 : cauchy_orset_merge (Some R2') (Some R1') avail =
                 (CAUCHY_OK, Some (fold_left merge_step (entries R1') R2'))).
  { apply merge_ok; [exact (proj1 Hwf1')|]. now rewrite Hent1, length_map. }
  exists R1', R2', (fold_left merge_step (entries R2') R1'),
         (fold_left merge_step (entries R1') R2').
  split; [exact Hrem|]. split; [exact Hadd|].
  split; [exact Hm12|]. split; [exact Hm21|].
  (* the tombstone of [T0] is in [R1'] *)
  assert (Htomb0 : tombstone k e0 = e0r k T0)
    by (unfold tombstone; now rewrite Hact0).
  assert (H0r : In (e0r k T0) (entries R1')).
  { rewrite Hent1, <- Htomb0. now apply in_map. }
  (* the source entries of either merge *)
  assert (Hbenign : forall x, In x (entries R2) -> benign k T0 T2 x).
  { intros x Hx. destruct Hwf2 as [_ Hp2].
    apply in_entries_chain in Hx as Hx'. destruct Hx' as (i & c & Hc & Hin).
    split; [apply (Hp2 i c x Hc Hin)|]. split; [now apply HF2|].
    intros Hd. destruct (removed x) eqn:Hr; [now left | right].
    assert (In x (List.filter (active_k k) (entries R2)))
      by (apply List.filter_In; split; [exact Hx | now apply active_k_spec]).
    rewrite H2 in H. destruct H as [<-|[]]. reflexivity. }
  assert (Hquiet : forall y, In y (entries R1') -> quiet k T2 y).
  { intros y Hy. rewrite Hent1 in Hy. apply in_map_iff in Hy as (x & <- & Hx).
    destruct Hwf1 as [_ Hp1].
    apply in_entries_chain in Hx as Hx'. destruct Hx' as (i & c & Hc & Hin).
    destruct (Hp1 i c x Hc Hin) as [Hh _]. specialize (HF1 x Hx).
    unfold tombstone. destruct (active_k k x) eqn:A.
    - repeat split; auto.
    - repeat split; auto. intros Hd. destruct (removed x) eqn:Hr; [reflexivity|].
      assert (active_k k x = true) by (now apply active_k_spec). congruence. }
  (* merge(R1, R2) *)
  assert (S12 : settled k T2 (fold_left merge_step (entries R2') R1')).
  { assert (Haw : awaiting k T0 T2 R1').
    { split; [exact Hwf1'|]. unfold cnt. rewrite Hent1, !count_if_map.
      split; [|split].
      - apply count_if_zero. intros x _. unfold tombstone.
        destruct (active_k k x) eqn:A; [apply active_k_set_removed | exact A].
      - apply count_if_zero. intros x Hx. unfold tombstone.
        destruct (active_k k x); apply tagged_false; simpl; now apply HF1.
      - rewrite <- count_if_map, <- Hent1.
        apply (count_if_pos _ _ (e0r k T0) H0r). now apply keyed_spec. }
    rewrite Hent2, fold_left_app. cbn [fold_left].
    apply (fold_invariant
             (fun d => settled k T2 d /\ (1 <= cnt (key0 k T0) d)%nat)
             (benign k T0 T2)).
    - intros d e. apply settled_step.
    - intros x Hx. apply Hbenign. rewrite Hsplit2. apply in_app_iff. now right.
    - apply awaiting_e2.
      apply (fold_invariant (awaiting k T0 T2) (benign k T0 T2)).
      + intros d e. apply awaiting_step.
      + intros x Hx. apply Hbenign. rewrite Hsplit2. apply in_app_iff. now left.
      + exact Haw. }
  (* merge(R2, R1) *)
  assert (S21 : settled k T2 (fold_left merge_step (entries R1') R2')).
  { assert (Hpe : pending k T0 T2 R2').
    { split; [exact Hwf2'|]. unfold R2'. rewrite !cnt_push by exact Hidx2.
      assert (Z1 : cnt (act_t2 k T2) R2 = 0%nat).
      { apply count_if_zero. intros x Hx. apply act_t2_false. now apply HF2. }
      assert (Z2 : cnt (act_other k T0) R2 = 0%nat).
      { apply count_if_zero. intros x Hx. unfold act_other.
        destruct (active_k k x) eqn:A; [|reflexivity]. simpl.
        assert (In x (List.filter (active_k k) (entries R2)))
          by (apply List.filter_In; auto).
        rewrite H2 in H. destruct H as [<-|[]].
        apply negb_false_iff. now apply keyed_spec. }
      assert (Z3 : cnt (key0 k T0) R2 = 1%nat).
      { assert (cnt (key0 k T0) R2 <= count_if (tagged T0) (entries R2))%nat.
        { apply count_if_le. intros x _ [_ K]%keyed_spec. now apply tagged_spec. }
        assert (1 <= cnt (key0 k T0) R2)%nat.
        { apply (count_if_pos _ _ e0 H0in2). now apply keyed_spec. }
        lia. }
      assert (E1 : act_t2 k T2 (e2 k T2) = true).
      { unfold act_t2. apply andb_true_iff. split.
        - now apply active_k_spec.
        - now apply tagged_spec. }
      assert (E3 : key0 k T0 (e2 k T2) = false).
      { destruct (key0 k T0 (e2 k T2)) eqn:K; [|reflexivity].
        apply keyed_spec in K as [_ K]. simpl in K. congruence. }
      assert (E2 : act_other k T0 (e2 k T2) = true).
      { unfold act_other. rewrite E3. apply andb_true_iff. split; [|reflexivity].
        now apply active_k_spec. }
      rewrite Z1, Z2, Z3, E1, E2, E3. simpl. repeat split. }
    apply in_split in H0r as (l1 & l2 & Hl).
    rewrite Hl, fold_left_app. cbn [fold_left].
    apply (cleared_settled k T0 T2).
    apply (fold_invariant (cleared k T0 T2) (quiet k T2)).
    - intros d e. now apply cleared_step.
    - intros x Hx. apply Hquiet. rewrite Hl. apply in_app_iff. right. now right.
    - apply pending_e0r; [exact HT|].
      apply (fold_invariant (pending k T0 T2) (quiet k T2)).
      + intros d e. now apply pending_step.
      + intros x Hx. apply Hquiet. rewrite Hl. apply in_app_iff. now left.
      + exact Hpe. }
  destruct (settled_shows _ k T2 Hk S12) as [C12 G12].
  destruct (settled_shows _ k T2 Hk S21) as [C21 G21].
  auto.
Qed.

Lemma orset_add_wins_witness :
  minted scenario_R2 = cauchy_uid_create 2 1 /\
  exists R1' R2' m12 m21,
    cauchy_orset_remove (Some scenario_R1) str_k = (CAUCHY_OK, Some R1') /\
    cauchy_orset_add (Some scenario_R2) str_k true = (CAUCHY_OK, Some R2') /\
    cauchy_orset_merge (Some R1') (Some R2') 2 = (CAUCHY_OK, Some m12) /\
    cauchy_orset_merge (Some R2') (Some R1') 2 = (CAUCHY_OK, Some m21) /\
    cauchy_orset_contains (Some m12) str_k = true /\
    cauchy_orset_contains (Some m21) str_k = true /\
    map tag (List.filter (active_k str_k) (entries m12)) = [minted scenario_R2] /\
    map tag (List.filter (active_k str_k) (entries m21)) = [minted scenario_R2].
Proof.
  split; [reflexivity|].
  apply (orset_add_wins scenario_R1 scenario_R2 str_k (cauchy_uid_create 1 1) 2).
  - discriminate.
  - apply wf_check_sound. vm_compute. reflexivity.
  - apply wf_check_sound. vm_compute. reflexivity.
  - vm_compute. left. reflexivity.
  - vm_compute. reflexivity.
  - vm_compute. reflexivity.
  - intros x Hx. vm_compute in Hx. destruct Hx as [<-|[]]. vm_compute. discriminate.
  - intros x Hx. vm_compute in Hx. destruct Hx as [<-|[]]. vm_compute. discriminate.
  - vm_compute. lia.
  - vm_compute. lia.
Defined.

(** *** What [cauchy_orset_count] counts *)

Lemma nodup_length_set {A : Type} (dec : forall x y : A, {x = y} + {x <> y})
  (l l' : list A) :
  (forall x, In x l <-> In x l') ->
  length (nodup dec l) = length (nodup dec l').
Proof.
  intros H. apply Permutation_length.
  apply Stdlib.Sorting.Permutation.NoDup_Permutation; try apply List.NoDup_nodup.
  intros x. now rewrite !nodup_In.
Qed.

(** C7 fails on the code.  [active_count] counts entries, one per tag:
    where the set already holds a live entry for [k], another
    [cauchy_orset_add(k)] raises [cauchy_orset_count] by one although the
    number of distinct payloads with a live entry stays the same.  After
    add("k"), add("k") on an empty set the count is 2 for one payload. *)
Theorem orset_count_counts_tags (s : cauchy_orset_t) (k : list Z)
  (x : cauchy_orset_entry_t) :
  k <> [] -> shape s -> In x (entries s) -> active_k k x = true ->
  exists s',
    cauchy_orset_add (Some s) k true = (CAUCHY_OK, Some s') /\
    cauchy_orset_count (Some s') = wrap64 (cauchy_orset_count (Some s) + 1) /\
    distinct_payloads (entries s') = distinct_payloads (entries s).
Proof.
  intros Hk Hs Hx Hact. rewrite (add_spec s k Hk).
  eexists. split; [reflexivity|]. split; [reflexivity|].
  pose proof (bucket_index_bound s (hash_data k) Hs) as Hidx.
  rewrite entries_push by exact Hidx.
  rewrite (entries_take_drop s (Z.to_nat (hash_data k mod num_buckets s))).
  unfold distinct_payloads. apply nodup_length_set. intros d.
  set (a := concat (take (Z.to_nat (hash_data k mod num_buckets s)) (buckets s))).
  set (b := concat (drop (Z.to_nat (hash_data k mod num_buckets s)) (buckets s))).
  assert (Hab : In x (a ++ b)) by (unfold a, b; now rewrite <- entries_take_drop).
  apply active_k_spec in Hact as [Hd Hr].
  split; intros (y & <- & Hy)%in_map_iff; apply List.filter_In in Hy as [Hy Hl];
    apply in_app_iff in Hy.
  - destruct Hy as [Hy|[<-|Hy]].
    + apply in_map, List.filter_In. split; [apply in_app_iff; now left | exact Hl].
    + cbn [e2 data]. rewrite <- Hd.
      apply in_map, List.filter_In. split; [exact Hab | now rewrite Hr].
    + apply in_map, List.filter_In. split; [apply in_app_iff; now right | exact Hl].
  - apply in_map, List.filter_In. split; [|exact Hl].
    apply in_app_iff. destruct Hy as [Hy|Hy]; [now left | right; now right].
Qed.

Lemma orset_count_counts_tags_witness :
  exists s',
    cauchy_orset_add (Some scenario_R1) str_k true = (CAUCHY_OK, Some s') /\
    cauchy_orset_count (Some scenario_R1) = 1 /\
    distinct_payloads (entries scenario_R1) = 1%nat /\
    cauchy_orset_count (Some s') = 2 /\
    distinct_payloads (entries s') = 1%nat.
Proof.
  destruct (orset_count_counts_tags scenario_R1 str_k
              {| data := str_k; hash := hash_data str_k;
                 tag := cauchy_uid_create 1 1; removed := false |})
    as (s' & Hadd & Hcount & Hdistinct).
  - discriminate.
  - vm_compute. split; reflexivity.
  - vm_compute. left. reflexivity.
  - vm_compute. reflexivity.
  - exists s'. split; [exact Hadd|]. rewrite Hcount, Hdistinct.
    vm_compute. repeat split; reflexivity.
Defined.

End ORSetFacts.

(** * Further properties of the operations *)

(** ** Counting loops over arrays *)

Module LoopFacts.

Lemma zrange_succ (n : Z) : 0 <= n -> zrange (n + 1) = zrange n ++ [n].
Proof.
  intros H. unfold zrange.
  replace (Z.to_nat (n + 1)) with (S (Z.to_nat n)) by lia.
  rewrite seq_S, map_app. simpl. rewrite Z2Nat.id by lia. reflexivity.
Qed.

Lemma for_loop_zero {S : Type} (body : S -> Z -> S) (s : S) :
  for_loop 0 body s = s.
Proof. reflexivity. Qed.

Lemma for_loop_succ {S : Type} (n : Z) (body : S -> Z -> S) (s : S) :
  0 <= n -> for_loop (n + 1) body s = body (for_loop n body s) n.
Proof.
  intros H. unfold for_loop. rewrite zrange_succ by exact H.
  rewrite fold_left_app. reflexivity.
Qed.

(** Induction on the bound of a counting loop. *)
Lemma bound_ind (P : Z -> Prop) :
  P 0 -> (forall n, 0 <= n -> P n -> P (n + 1)) -> forall n, 0 <= n -> P n.
Proof.
  intros H0 Hs. apply natlike_ind; [exact H0|].
  intros x Hx HP. apply (Hs x Hx HP).
Qed.

Definition sumZ (l : list Z) : Z := fold_right Z.add 0 l.

Lemma sumZ_app (l1 l2 : list Z) : sumZ (l1 ++ l2) = sumZ l1 + sumZ l2.
Proof. induction l1 as [|x l1 IH]; simpl; [|rewrite IH]; lia. Qed.

Lemma sumZ_nonneg (l : list Z) : Forall (fun x => 0 <= x) l -> 0 <= sumZ l.
Proof. induction 1; simpl; lia. Qed.

Lemma sumZ_insert (l : list Z) :
  forall (j : nat) (v : Z),
  (j < length l)%nat -> sumZ (<[j := v]> l) = sumZ l - l !!! j + v.
Proof.
  induction l as [|x l IH]; intros j v Hj; simpl in Hj; [lia|].
  destruct j as [|j]; simpl.
  - lia.
  - rewrite IH by lia. change ((x :: l) !!! S j) with (l !!! j). lia.
Qed.

Lemma sumZ_take_insert (l : list Z) (n j : nat) (v : Z) :
  (j < n <= length l)%nat ->
  sumZ (take n (<[j := v]> l)) = sumZ (take n l) - l !!! j + v.
Proof.
  intros H. rewrite take_insert_lt by lia.
  rewrite sumZ_insert by (rewrite length_take; lia).
  rewrite lookup_total_take_lt by lia. reflexivity.
Qed.

Lemma sumZ_pointwise_le (l1 l2 : list Z) :
  length l1 = length l2 ->
  (forall j, (j < length l1)%nat -> l1 !!! j <= l2 !!! j) ->
  sumZ l1 <= sumZ l2.
Proof.
  revert l2. induction l1 as [|x l1 IH]; intros [|y l2] Hlen H; simpl in *; try lia.
  pose proof (H 0%nat ltac:(lia)) as H0. cbn in H0.
  assert (sumZ l1 <= sumZ l2); [|lia].
  apply IH; [lia|]. intros j Hj. apply (H (S j)). lia.
Qed.

(** The summing loop of [cauchy_vclock_sum] and [cauchy_gcounter_value]. *)
Lemma sum_loop (l : list Z) (n : Z) :
  0 <= n <= Z.of_nat (length l) ->
  for_loop n (fun sum i => wrap64 (sum + l !!! Z.to_nat i)) 0
  = wrap64 (sumZ (take (Z.to_nat n) l)).
Proof.
  intros [Hn Hlen]. revert Hlen. pattern n. apply bound_ind; [| |exact Hn].
  - intros _. reflexivity.
  - clear n Hn. intros n Hn IH Hlen.
    rewrite for_loop_succ by exact Hn. rewrite IH by lia.
    replace (Z.to_nat (n + 1)) with (S (Z.to_nat n)) by lia.
    rewrite (take_S_r l (Z.to_nat n) (l !!! Z.to_nat n))
      by (apply list_lookup_lookup_total_lt; lia).
    rewrite sumZ_app. simpl. unfold wrap64.
    rewrite Z.add_0_r, Zplus_mod_idemp_l. reflexivity.
Qed.

Section Pointwise.
(** A loop whose iteration [i] replaces entry [i] by [upd i] of its old
    value updates every entry below the bound once and no other. *)
Variable upd : nat -> Z -> Z.
Variable body : list Z -> Z -> list Z.
Hypothesis body_spec : forall c i,
  0 <= i -> (Z.to_nat i < length c)%nat ->
  body c i = <[Z.to_nat i := upd (Z.to_nat i) (c !!! Z.to_nat i)]> c.

Lemma pointwise_loop (c : list Z) (n : Z) :
  0 <= n <= Z.of_nat (length c) ->
  length (for_loop n body c) = length c /\
  forall j : nat,
    for_loop n body c !!! j = if Z.of_nat j <? n then upd j (c !!! j) else c !!! j.
Proof.
  intros [Hn Hlen]. revert Hlen. pattern n. apply bound_ind; [| |exact Hn].
  - intros _. split; [reflexivity|]. intros j.
    destruct (Z.ltb_spec (Z.of_nat j) 0); [lia | reflexivity].
  - clear n Hn. intros n Hn IH Hlen. destruct IH as [IHl IHj]; [lia|].
    rewrite for_loop_succ by exact Hn.
    rewrite body_spec by (rewrite ?IHl; lia).
    split; [rewrite length_insert; exact IHl|].
    intros j. destruct (decide (j = Z.to_nat n)) as [->|Hne].
    + rewrite list_lookup_total_insert_eq by (rewrite IHl; lia).
      rewrite IHj. rewrite Z2Nat.id by lia. rewrite Z.ltb_irrefl.
      destruct (Z.ltb_spec n (n + 1)); [reflexivity | lia].
    + rewrite list_lookup_total_insert_ne by congruence.
      rewrite IHj.
      destruct (Z.ltb_spec (Z.of_nat j) n), (Z.ltb_spec (Z.of_nat j) (n + 1));
        try reflexivity; lia.
Qed.

End Pointwise.

Lemma insert_same (c : list Z) (i : nat) :
  (i < length c)%nat -> <[i := c !!! i]> c = c.
Proof. intros H. apply list_insert_id, list_lookup_lookup_total_lt, H. Qed.

Lemma wrap64_small (z : Z) : 0 <= z < 2 ^ 64 -> wrap64 z = z.
Proof. intros H. apply Z.mod_small, H. Qed.

Lemma wrap64_range (z : Z) : 0 <= wrap64 z < 2 ^ 64.
Proof. apply Z.mod_pos_bound. lia. Qed.

End LoopFacts.

(** ** UIDs *)

Module UidFacts.

Lemma uid_compare_cases (a b : cauchy_uid_t) :
  (cauchy_uid_compare a b = -1 /\
   (uid_timestamp a < uid_timestamp b \/
    (uid_timestamp a = uid_timestamp b /\ uid_node_id a < uid_node_id b))) \/
  (cauchy_uid_compare a b = 0 /\
   uid_timestamp a = uid_timestamp b /\ uid_node_id a = uid_node_id b) \/
  (cauchy_uid_compare a b = 1 /\
   (uid_timestamp b < uid_timestamp a \/
    (uid_timestamp a = uid_timestamp b /\ uid_node_id b < uid_node_id a))).
Proof.
  unfold cauchy_uid_compare.
  destruct (Z.eqb_spec (uid_timestamp a) (uid_timestamp b)),
    (Z.ltb_spec (uid_timestamp a) (uid_timestamp b)),
    (Z.eqb_spec (uid_node_id a) (uid_node_id b)),
    (Z.ltb_spec (uid_node_id a) (uid_node_id b)); cbn [negb]; lia.
Qed.

Lemma uid_fields_eq (a b : cauchy_uid_t) :
  a = b <-> uid_timestamp a = uid_timestamp b /\ uid_node_id a = uid_node_id b.
Proof.
  destruct a, b. cbn. split; [intros [= -> ->]; auto | intros [-> ->]; reflexivity].
Qed.

(** X1. [cauchy_uid_compare] is a total order on UIDs, timestamp first and
    node id second: it returns -1, 0 or 1, it returns 0 exactly when
    [cauchy_uid_equals] holds, swapping the arguments negates the result,
    and "less than" is transitive. *)
Theorem uid_compare_total_order (a b c : cauchy_uid_t) :
  (cauchy_uid_compare a b = -1 \/ cauchy_uid_compare a b = 0 \/
   cauchy_uid_compare a b = 1) /\
  (cauchy_uid_compare a b = 0 <-> cauchy_uid_equals a b = true) /\
  (cauchy_uid_compare a b = 0 <-> a = b) /\
  cauchy_uid_compare b a = - cauchy_uid_compare a b /\
  (cauchy_uid_compare a b = -1 <->
     uid_timestamp a < uid_timestamp b \/
     (uid_timestamp a = uid_timestamp b /\ uid_node_id a < uid_node_id b)) /\
  (cauchy_uid_compare a b = -1 -> cauchy_uid_compare b c = -1 ->
   cauchy_uid_compare a c = -1).
Proof.
  rewrite cauchy_uid_equals_spec, uid_fields_eq.
  pose proof (uid_compare_cases a b) as Hab.
  pose proof (uid_compare_cases b a) as Hba.
  pose proof (uid_compare_cases b c) as Hbc.
  pose proof (uid_compare_cases a c) as Hac.
  repeat split; intros; lia.
Qed.

Lemma uid_compare_total_order_witness :
  cauchy_uid_compare (cauchy_uid_create 1 5) (cauchy_uid_create 2 5) = -1 /\
  cauchy_uid_compare (cauchy_uid_create 2 5) (cauchy_uid_create 1 5) = 1.
Proof.
  pose proof (uid_compare_total_order (cauchy_uid_create 1 5)
                (cauchy_uid_create 2 5) (cauchy_uid_create 2 5))
    as (_ & _ & _ & Hs & Hlt & _).
  assert (H : cauchy_uid_compare (cauchy_uid_create 1 5) (cauchy_uid_create 2 5) = -1).
  { apply Hlt. right. split; [reflexivity | cbn; lia]. }
  split; [exact H | rewrite Hs, H; reflexivity].
Defined.

End UidFacts.

(** ** Vector clock operations *)

Module VClockOps.
Import VClock LoopFacts.

Lemma entry_range (vc : cauchy_vclock_t) (i : Z) :
  valid vc -> 0 <= i < CAUCHY_MAX_NODES ->
  0 <= entries vc !!! Z.to_nat i < 2 ^ 64.
Proof.
  intros (Hlen & Hrange & _) Hi.
  rewrite List.Forall_forall in Hrange. apply Hrange.
  apply list_elem_of_In, list_elem_of_lookup_total_2. lia.
Qed.

Lemma vclock_valid_init (n : Z) : 0 <= n -> valid (cauchy_vclock_init n).
Proof.
  intros Hn. unfold valid, cauchy_vclock_init. cbn [entries num_nodes].
  split; [apply length_replicate|]. split.
  - apply Forall_replicate. lia.
  - destruct (Z.leb_spec n CAUCHY_MAX_NODES); unfold CAUCHY_MAX_NODES in *; lia.
Qed.

Lemma vclock_valid_insert (vc : cauchy_vclock_t) (j : nat) (v : Z) :
  valid vc -> 0 <= v < 2 ^ 64 ->
  valid {| entries := <[j := v]> (entries vc); num_nodes := num_nodes vc |}.
Proof.
  intros (Hlen & Hrange & Hn) Hv. unfold valid. cbn [entries num_nodes].
  rewrite length_insert. split; [exact Hlen|]. split; [|exact Hn].
  apply Forall_insert; assumption.
Qed.

(** *** Reading and writing one entry *)

(** *** Increment and sum *)

Lemma sum_spec (vc : cauchy_vclock_t) :
  valid vc ->
  cauchy_vclock_sum (Some vc) =
  wrap64 (sumZ (take (Z.to_nat (num_nodes vc)) (entries vc))).
Proof.
  intros (Hlen & _ & Hn). unfold cauchy_vclock_sum.
  apply sum_loop. unfold CAUCHY_MAX_NODES in *. lia.
Qed.

Lemma increment_spec (vc : cauchy_vclock_t) (node : Z) :
  valid vc -> 0 <= node < num_nodes vc ->
  exists vc',
    cauchy_vclock_increment (Some vc) node = Some vc' /\
    valid vc' /\
    num_nodes vc' = num_nodes vc /\
    cauchy_vclock_get (Some vc') node =
      wrap64 (cauchy_vclock_get (Some vc) node + 1) /\
    (forall j, 0 <= j -> j <> node ->
       cauchy_vclock_get (Some vc') j = cauchy_vclock_get (Some vc) j) /\
    cauchy_vclock_sum (Some vc') = wrap64 (cauchy_vclock_sum (Some vc) + 1).
Proof.
  intros Hv Hnode. pose proof Hv as (Hlen & _ & Hn). unfold CAUCHY_MAX_NODES in *.
  unfold cauchy_vclock_increment.
  destruct (Z.geb_spec node (num_nodes vc)); [lia|].
  eexists. split; [reflexivity|].
  assert (Hv' : valid {| entries := <[Z.to_nat node :=
                           wrap64 (entries vc !!! Z.to_nat node + 1)]> (entries vc);
                         num_nodes := num_nodes vc |})
    by (apply vclock_valid_insert; [exact Hv | apply wrap64_range]).
  split; [exact Hv'|]. split; [reflexivity|].
  split; [|split].
  - unfold cauchy_vclock_get. cbn [num_nodes entries].
    destruct (Z.geb_spec node (num_nodes vc)); [lia|].
    apply list_lookup_total_insert_eq. lia.
  - intros j Hj Hne. unfold cauchy_vclock_get. cbn [num_nodes entries].
    destruct (Z.geb_spec j (num_nodes vc)); [reflexivity|].
    apply list_lookup_total_insert_ne. lia.
  - rewrite (sum_spec _ Hv'), (sum_spec _ Hv). cbn [num_nodes entries].
    rewrite sumZ_take_insert by lia.
    unfold wrap64. rewrite Zplus_mod_idemp_r, Zplus_mod_idemp_l.
    f_equal. lia.
Qed.

(** X2. [cauchy_vclock_increment] for a node id below [num_nodes] adds one
    (modulo 2^64) to that node's entry, leaves every other entry as it was,
    and adds one (modulo 2^64) to [cauchy_vclock_sum]. *)
Theorem vclock_increment_sum (vc : cauchy_vclock_t) (node : Z) :
  valid vc -> 0 <= node < num_nodes vc ->
  exists vc',
    cauchy_vclock_increment (Some vc) node = Some vc' /\
    valid vc' /\
    num_nodes vc' = num_nodes vc /\
    cauchy_vclock_get (Some vc') node =
      wrap64 (cauchy_vclock_get (Some vc) node + 1) /\
    (forall j, 0 <= j -> j <> node ->
       cauchy_vclock_get (Some vc') j = cauchy_vclock_get (Some vc) j) /\
    cauchy_vclock_sum (Some vc') = wrap64 (cauchy_vclock_sum (Some vc) + 1).
Proof. exact (increment_spec vc node). Qed.

Lemma vclock_increment_sum_witness :
  exists vc',
    cauchy_vclock_increment (Some (of_list [3; 2; 0])) 2 = Some vc' /\
    cauchy_vclock_get (Some vc') 2 =
      wrap64 (cauchy_vclock_get (Some (of_list [3; 2; 0])) 2 + 1) /\
    cauchy_vclock_sum (Some vc') =
      wrap64 (cauchy_vclock_sum (Some (of_list [3; 2; 0])) + 1).
Proof.
  assert (Hv : valid (of_list [3; 2; 0])).
  { apply VClockFacts.vclock_of_list_valid;
      [vm_compute; lia | repeat constructor; lia]. }
  destruct (vclock_increment_sum (of_list [3; 2; 0]) 2 Hv ltac:(cbn; lia))
    as (vc' & H1 & _ & _ & H2 & _ & H3).
  exists vc'. auto.
Defined.

(** *** Emptiness *)

Lemma is_empty_loop_true (vc : cauchy_vclock_t) (l : list Z) :
  is_empty_loop vc l = true <->
  forall i, In i l -> entries vc !!! Z.to_nat i = 0.
Proof.
  induction l as [|i l IH]; simpl.
  - split; [intros _ j [] | reflexivity].
  - destruct (Z.eqb_spec (entries vc !!! Z.to_nat i) 0) as [He|He]; cbn [negb].
    + rewrite IH. split.
      * intros H j [<-|Hj]; auto.
      * intros H j Hj. apply H. auto.
    + split; [discriminate|]. intros H. exfalso. apply He, H. auto.
Qed.

Lemma leq_below (a b : cauchy_vclock_t) :
  valid a -> valid b -> (leq a b = true <-> below a b).
Proof.
  intros Ha Hb. unfold leq, below.
  rewrite (VClockFacts.compare_flags a b).
  rewrite <- (VClockFacts.no_greater_iff a b Ha Hb).
  destruct (existsb (VClockFacts.lt_at a b) _), (existsb (VClockFacts.gt_at a b) _);
    split; congruence.
Qed.

Lemma equals_all_equal (a b : cauchy_vclock_t) :
  valid a -> valid b ->
  (cauchy_vclock_equals (Some a) (Some b) = true <-> all_equal a b).
Proof.
  intros Ha Hb. rewrite <- (VClockFacts.compare_equal_iff a b Ha Hb).
  unfold cauchy_vclock_equals.
  destruct (cauchy_vclock_compare (Some a) (Some b)); split; congruence.
Qed.

(** X3. [cauchy_vclock_is_empty] holds exactly when every entry below
    [num_nodes] is zero, which is exactly when the clock compares equal to
    a freshly initialised one; an empty clock has sum 0, and
    [cauchy_vclock_init] leaves an empty clock. *)
Theorem vclock_is_empty_spec (vc : cauchy_vclock_t) (n : Z) :
  valid vc -> 0 <= n ->
  (cauchy_vclock_is_empty (Some vc) = true <->
   forall i, 0 <= i < num_nodes vc -> entries vc !!! Z.to_nat i = 0) /\
  (cauchy_vclock_is_empty (Some vc) = true <->
   cauchy_vclock_equals (Some vc) (Some (cauchy_vclock_init n)) = true) /\
  (cauchy_vclock_is_empty (Some vc) = true -> cauchy_vclock_sum (Some vc) = 0) /\
  cauchy_vclock_is_empty (Some (cauchy_vclock_init n)) = true.
Proof.
  intros Hv Hn0. pose proof Hv as (Hlen & Hrange & Hn). unfold CAUCHY_MAX_NODES in *.
  assert (Hspec : cauchy_vclock_is_empty (Some vc) = true <->
    forall i, 0 <= i < num_nodes vc -> entries vc !!! Z.to_nat i = 0).
  { unfold cauchy_vclock_is_empty. rewrite is_empty_loop_true.
    split; intros H i Hi; apply H; apply elem_of_zrange; exact Hi. }
  assert (Hzero : forall i, 0 <= i < 64 ->
    entry_or_zero (cauchy_vclock_init n) i = 0).
  { intros i Hi. unfold entry_or_zero. destruct (_ <? _); [|reflexivity].
    cbn [cauchy_vclock_init entries]. apply lookup_total_replicate_2.
    unfold CAUCHY_MAX_NODES. lia. }
  split; [exact Hspec|]. split; [|split].
  - rewrite Hspec, (equals_all_equal _ _ Hv (vclock_valid_init n Hn0)).
    unfold all_equal, CAUCHY_MAX_NODES. split.
    + intros H i Hi. rewrite Hzero by exact Hi. unfold entry_or_zero.
      destruct (Z.ltb_spec i (num_nodes vc)); [apply H; lia | reflexivity].
    + intros H i Hi. specialize (H i ltac:(lia)). rewrite Hzero in H by lia.
      unfold entry_or_zero in H.
      destruct (Z.ltb_spec i (num_nodes vc)); [exact H | lia].
  - rewrite Hspec. intros H. rewrite (sum_spec _ Hv).
    assert (Hs : forall k : nat, (k <= Z.to_nat (num_nodes vc))%nat ->
      sumZ (take k (entries vc)) = 0).
    { induction k as [|k IH]; intros Hk; [reflexivity|].
      rewrite (take_S_r _ _ (entries vc !!! k))
        by (apply list_lookup_lookup_total_lt; lia).
      rewrite sumZ_app, IH by lia. simpl.
      specialize (H (Z.of_nat k) ltac:(lia)). rewrite Nat2Z.id in H. lia. }
    rewrite Hs by lia. reflexivity.
  - unfold cauchy_vclock_is_empty. apply is_empty_loop_true.
    intros i Hi. apply elem_of_zrange in Hi.
    pose proof (vclock_valid_init n Hn0) as (_ & _ & Hn').
    cbn [cauchy_vclock_init entries]. apply lookup_total_replicate_2.
    unfold CAUCHY_MAX_NODES in *. lia.
Qed.

Lemma vclock_is_empty_spec_witness :
  cauchy_vclock_is_empty (Some (cauchy_vclock_init 3)) = true /\
  (cauchy_vclock_is_empty (Some (of_list [0; 0])) = true <->
   cauchy_vclock_equals (Some (of_list [0; 0])) (Some (cauchy_vclock_init 3)) = true).
Proof.
  assert (Hv : valid (of_list [0; 0])).
  { apply VClockFacts.vclock_of_list_valid;
      [vm_compute; lia | repeat constructor; lia]. }
  pose proof (vclock_is_empty_spec (of_list [0; 0]) 3 Hv ltac:(lia))
    as (_ & H2 & _ & H4).
  split; [exact H4 | exact H2].
Defined.

(** *** Merge *)

Lemma vclock_merge_spec (a b : cauchy_vclock_t) :
  valid a -> valid b ->
  exists m,
    cauchy_vclock_merge (Some a) (Some b) = Some m /\
    valid m /\
    num_nodes m = Z.max (num_nodes a) (num_nodes b) /\
    forall i, 0 <= i < CAUCHY_MAX_NODES ->
      entries m !!! Z.to_nat i =
      if i <? num_nodes m
      then Z.max (entries a !!! Z.to_nat i) (entries b !!! Z.to_nat i)
      else entries a !!! Z.to_nat i.
Proof.
  intros Ha Hb. pose proof Ha as (Hla & Hra & Hna). pose proof Hb as (Hlb & Hrb & Hnb).
  unfold cauchy_vclock_merge.
  set (mx := if num_nodes a >? num_nodes b then num_nodes a else num_nodes b).
  assert (Hmx : mx = Z.max (num_nodes a) (num_nodes b))
    by (unfold mx; destruct (Z.gtb_spec (num_nodes a) (num_nodes b)); lia).
  assert (Hnum : (if num_nodes b >? num_nodes a then num_nodes b else num_nodes a)
                 = Z.max (num_nodes a) (num_nodes b))
    by (destruct (Z.gtb_spec (num_nodes b) (num_nodes a)); lia).
  clearbody mx.
  destruct (pointwise_loop
              (fun j x => if entries b !!! j >? x then entries b !!! j else x)
              (merge_body b)) with (c := entries a) (n := mx) as [Hl Hj].
  { intros c i Hi Hlt. unfold merge_body.
    destruct (entries b !!! Z.to_nat i >? c !!! Z.to_nat i);
      [reflexivity | symmetry; apply insert_same, Hlt]. }
  { unfold CAUCHY_MAX_NODES in *. lia. }
  eexists. split; [reflexivity|]. cbn [entries num_nodes]. rewrite Hnum.
  assert (Hval : forall i, 0 <= i < CAUCHY_MAX_NODES ->
    for_loop mx (merge_body b) (entries a) !!! Z.to_nat i =
    if i <? Z.max (num_nodes a) (num_nodes b)
    then Z.max (entries a !!! Z.to_nat i) (entries b !!! Z.to_nat i)
    else entries a !!! Z.to_nat i).
  { intros i Hi. rewrite Hj, Z2Nat.id, Hmx by lia.
    destruct (_ <? _); [|reflexivity].
    destruct (Z.gtb_spec (entries b !!! Z.to_nat i) (entries a !!! Z.to_nat i)); lia. }
  split; [|split; [reflexivity | exact Hval]].
  unfold valid. cbn [entries num_nodes]. rewrite Hl.
  split; [exact Hla|]. split; [|unfold CAUCHY_MAX_NODES in *; lia].
  apply List.Forall_forall. intros x Hx.
  apply list_elem_of_In, list_elem_of_lookup_total in Hx as (j & Hjl & <-).
  rewrite Hl in Hjl.
  specialize (Hval (Z.of_nat j) ltac:(unfold CAUCHY_MAX_NODES in *; lia)).
  rewrite Nat2Z.id in Hval. rewrite Hval.
  pose proof (entry_range a (Z.of_nat j) Ha ltac:(unfold CAUCHY_MAX_NODES in *; lia)).
  pose proof (entry_range b (Z.of_nat j) Hb ltac:(unfold CAUCHY_MAX_NODES in *; lia)).
  rewrite Nat2Z.id in *. destruct (_ <? _); lia.
Qed.

(** What the comparison loop reads from a merged clock. *)
Lemma merge_entry_or_zero (a b m : cauchy_vclock_t) (i : Z) :
  valid a -> valid b -> cauchy_vclock_merge (Some a) (Some b) = Some m ->
  0 <= i < CAUCHY_MAX_NODES ->
  entry_or_zero m i =
  if i <? Z.max (num_nodes a) (num_nodes b)
  then Z.max (entries a !!! Z.to_nat i) (entries b !!! Z.to_nat i) else 0.
Proof.
  intros Ha Hb Hm Hi.
  destruct (vclock_merge_spec a b Ha Hb) as (m' & Hm' & _ & Hnum & Hent).
  rewrite Hm in Hm'. injection Hm' as <-.
  unfold entry_or_zero. rewrite Hent by exact Hi. rewrite Hnum.
  destruct (_ <? _); reflexivity.
Qed.

Lemma zero_beyond_entry (a : cauchy_vclock_t) (i : Z) :
  zero_beyond a -> 0 <= i < CAUCHY_MAX_NODES ->
  entries a !!! Z.to_nat i = entry_or_zero a i.
Proof.
  intros Hz Hi. unfold entry_or_zero.
  destruct (Z.ltb_spec i (num_nodes a)); [reflexivity | apply Hz; lia].
Qed.

Lemma entry_or_zero_nonneg (a : cauchy_vclock_t) (i : Z) :
  valid a -> 0 <= i < CAUCHY_MAX_NODES -> 0 <= entry_or_zero a i.
Proof.
  intros Ha Hi. unfold entry_or_zero. pose proof (entry_range a i Ha Hi).
  destruct (_ <? _); lia.
Qed.

Lemma entry_or_zero_beyond (a : cauchy_vclock_t) (i : Z) :
  num_nodes a <= i -> entry_or_zero a i = 0.
Proof. intros H. unfold entry_or_zero. destruct (Z.ltb_spec i (num_nodes a)); [lia | reflexivity]. Qed.

(** For clocks that are zero beyond their counts, merge is the entry-wise
    maximum of what the comparison reads. *)
Lemma vclock_merge_max (a b m : cauchy_vclock_t) (i : Z) :
  valid a -> valid b -> zero_beyond a -> zero_beyond b ->
  cauchy_vclock_merge (Some a) (Some b) = Some m ->
  0 <= i < CAUCHY_MAX_NODES ->
  entry_or_zero m i = Z.max (entry_or_zero a i) (entry_or_zero b i).
Proof.
  intros Ha Hb Za Zb Hm Hi.
  rewrite (merge_entry_or_zero a b m i Ha Hb Hm Hi).
  rewrite (zero_beyond_entry a i Za Hi), (zero_beyond_entry b i Zb Hi).
  destruct (Z.ltb_spec i (Z.max (num_nodes a) (num_nodes b))); [reflexivity|].
  rewrite !entry_or_zero_beyond by lia. reflexivity.
Qed.

Lemma merge_zero_beyond (a b m : cauchy_vclock_t) :
  valid a -> valid b -> zero_beyond a -> zero_beyond b ->
  cauchy_vclock_merge (Some a) (Some b) = Some m -> zero_beyond m.
Proof.
  intros Ha Hb Za Zb Hm i Hi.
  destruct (vclock_merge_spec a b Ha Hb) as (m' & Hm' & _ & Hnum & Hent).
  rewrite Hm in Hm'. injection Hm' as <-.
  pose proof Ha as (_ & _ & Hna). pose proof Hb as (_ & _ & Hnb).
  rewrite Hent by lia.
  destruct (Z.ltb_spec i (num_nodes m)); [lia|]. apply Za. lia.
Qed.

(** X4. [cauchy_vclock_merge] yields an upper bound of both clocks under
    [cauchy_vclock_compare]: each input compares as equal to or before the
    merged clock.  For clocks whose entries beyond [num_nodes] are zero it
    is the least one: the merged clock is equal to or before every clock
    that both inputs are equal to or before. *)
Theorem vclock_merge_least_upper_bound (a b : cauchy_vclock_t) :
  valid a -> valid b ->
  exists m,
    cauchy_vclock_merge (Some a) (Some b) = Some m /\
    valid m /\
    num_nodes m = Z.max (num_nodes a) (num_nodes b) /\
    leq a m = true /\ leq b m = true /\
    (zero_beyond a -> zero_beyond b ->
     zero_beyond m /\
     forall c, valid c -> leq a c = true -> leq b c = true -> leq m c = true).
Proof.
  intros Ha Hb.
  destruct (vclock_merge_spec a b Ha Hb) as (m & Hm & Hvm & Hnum & Hent).
  exists m. split; [exact Hm|]. split; [exact Hvm|]. split; [exact Hnum|].
  pose proof Ha as (_ & _ & Hna). pose proof Hb as (_ & _ & Hnb).
  split; [|split].
  - apply (leq_below a m Ha Hvm). intros i Hi.
    rewrite (merge_entry_or_zero a b m i Ha Hb Hm Hi). unfold entry_or_zero.
    pose proof (entry_range b i Hb Hi).
    destruct (Z.ltb_spec i (num_nodes a)), (Z.ltb_spec i (Z.max (num_nodes a) (num_nodes b)));
      lia.
  - apply (leq_below b m Hb Hvm). intros i Hi.
    rewrite (merge_entry_or_zero a b m i Ha Hb Hm Hi). unfold entry_or_zero.
    pose proof (entry_range a i Ha Hi).
    destruct (Z.ltb_spec i (num_nodes b)), (Z.ltb_spec i (Z.max (num_nodes a) (num_nodes b)));
      lia.
  - intros Za Zb. split; [exact (merge_zero_beyond a b m Ha Hb Za Zb Hm)|].
    intros c Hc Hac Hbc.
    apply (leq_below a c Ha Hc) in Hac. apply (leq_below b c Hb Hc) in Hbc.
    apply (leq_below m c Hvm Hc). intros i Hi.
    rewrite (vclock_merge_max a b m i Ha Hb Za Zb Hm Hi).
    specialize (Hac i Hi). specialize (Hbc i Hi). lia.
Qed.

Lemma vclock_merge_least_upper_bound_witness :
  exists m,
    cauchy_vclock_merge (Some (of_list [3; 2; 0])) (Some (of_list [4; 1])) = Some m /\
    leq (of_list [3; 2; 0]) m = true /\ leq (of_list [4; 1]) m = true.
Proof.
  assert (Ha : valid (of_list [3; 2; 0])).
  { apply VClockFacts.vclock_of_list_valid;
      [vm_compute; lia | repeat constructor; lia]. }
  assert (Hb : valid (of_list [4; 1])).
  { apply VClockFacts.vclock_of_list_valid;
      [vm_compute; lia | repeat constructor; lia]. }
  destruct (vclock_merge_least_upper_bound _ _ Ha Hb)
    as (m & H1 & _ & _ & H2 & H3 & _).
  exists m. auto.
Defined.

(** X5. [cauchy_vclock_merge] is idempotent, and commutative and associative
    up to [cauchy_vclock_equals], on clocks whose entries beyond [num_nodes]
    are zero. *)
Theorem vclock_merge_semilattice (a b c : cauchy_vclock_t) :
  valid a -> valid b -> valid c ->
  zero_beyond a -> zero_beyond b -> zero_beyond c ->
  (exists aa,
     cauchy_vclock_merge (Some a) (Some a) = Some aa /\
     cauchy_vclock_equals (Some aa) (Some a) = true) /\
  (exists ab ba,
     cauchy_vclock_merge (Some a) (Some b) = Some ab /\
     cauchy_vclock_merge (Some b) (Some a) = Some ba /\
     cauchy_vclock_equals (Some ab) (Some ba) = true) /\
  (exists ab ab_c bc a_bc,
     cauchy_vclock_merge (Some a) (Some b) = Some ab /\
     cauchy_vclock_merge (Some ab) (Some c) = Some ab_c /\
     cauchy_vclock_merge (Some b) (Some c) = Some bc /\
     cauchy_vclock_merge (Some a) (Some bc) = Some a_bc /\
     cauchy_vclock_equals (Some ab_c) (Some a_bc) = true).
Proof.
  intros Ha Hb Hc Za Zb Zc.
  destruct (vclock_merge_spec a a Ha Ha) as (aa & Haa & Hvaa & _).
  destruct (vclock_merge_spec a b Ha Hb) as (ab & Hab & Hvab & _).
  destruct (vclock_merge_spec b a Hb Ha) as (ba & Hba & Hvba & _).
  destruct (vclock_merge_spec b c Hb Hc) as (bc & Hbc & Hvbc & _).
  pose proof (merge_zero_beyond a b ab Ha Hb Za Zb Hab) as Zab.
  pose proof (merge_zero_beyond b c bc Hb Hc Zb Zc Hbc) as Zbc.
  destruct (vclock_merge_spec ab c Hvab Hc) as (ab_c & Habc & Hvabc & _).
  destruct (vclock_merge_spec a bc Ha Hvbc) as (a_bc & Habc' & Hvabc' & _).
  split; [|split].
  - exists aa. split; [exact Haa|]. apply (equals_all_equal _ _ Hvaa Ha).
    intros i Hi. rewrite (vclock_merge_max a a aa i Ha Ha Za Za Haa Hi). lia.
  - exists ab, ba. split; [exact Hab|]. split; [exact Hba|].
    apply (equals_all_equal _ _ Hvab Hvba). intros i Hi.
    rewrite (vclock_merge_max a b ab i Ha Hb Za Zb Hab Hi).
    rewrite (vclock_merge_max b a ba i Hb Ha Zb Za Hba Hi). lia.
  - exists ab, ab_c, bc, a_bc. repeat (split; [assumption|]).
    apply (equals_all_equal _ _ Hvabc Hvabc'). intros i Hi.
    rewrite (vclock_merge_max ab c ab_c i Hvab Hc Zab Zc Habc Hi).
    rewrite (vclock_merge_max a bc a_bc i Ha Hvbc Za Zbc Habc' Hi).
    rewrite (vclock_merge_max a b ab i Ha Hb Za Zb Hab Hi).
    rewrite (vclock_merge_max b c bc i Hb Hc Zb Zc Hbc Hi). lia.
Qed.

Lemma of_list_zero_beyond (l : list Z) :
  (length l <= Z.to_nat CAUCHY_MAX_NODES)%nat -> zero_beyond (of_list l).
Proof.
  intros Hl i Hi. unfold of_list in *. cbn [entries num_nodes] in *.
  rewrite lookup_total_app_r by lia.
  apply lookup_total_replicate_2. unfold CAUCHY_MAX_NODES in *. lia.
Qed.

Lemma vclock_merge_semilattice_witness :
  exists ab ba,
    cauchy_vclock_merge (Some (of_list [3; 2; 0])) (Some (of_list [4; 1])) = Some ab /\
    cauchy_vclock_merge (Some (of_list [4; 1])) (Some (of_list [3; 2; 0])) = Some ba /\
    cauchy_vclock_equals (Some ab) (Some ba) = true.
Proof.
  assert (Ha : valid (of_list [3; 2; 0])).
  { apply VClockFacts.vclock_of_list_valid;
      [vm_compute; lia | repeat constructor; lia]. }
  assert (Hb : valid (of_list [4; 1])).
  { apply VClockFacts.vclock_of_list_valid;
      [vm_compute; lia | repeat constructor; lia]. }
  assert (Za : zero_beyond (of_list [3; 2; 0])) by (apply of_list_zero_beyond; vm_compute; lia).
  assert (Zb : zero_beyond (of_list [4; 1])) by (apply of_list_zero_beyond; vm_compute; lia).
  exact (proj1 (proj2 (vclock_merge_semilattice _ _ _ Ha Hb Ha Za Zb Za))).
Defined.

(** *** Minimum *)

Lemma min_spec (d s : cauchy_vclock_t) :
  valid d -> valid s ->
  exists m,
    cauchy_vclock_min (Some d) (Some s) = Some m /\
    valid m /\
    num_nodes m = num_nodes d /\
    forall i, 0 <= i < CAUCHY_MAX_NODES ->
      entries m !!! Z.to_nat i =
      if i <? Z.min (num_nodes d) (num_nodes s)
      then Z.min (entries d !!! Z.to_nat i) (entries s !!! Z.to_nat i)
      else entries d !!! Z.to_nat i.
Proof.
  intros Hd Hs. pose proof Hd as (Hld & Hrd & Hnd). pose proof Hs as (Hls & Hrs & Hns).
  unfold cauchy_vclock_min.
  set (mn := if num_nodes d <? num_nodes s then num_nodes d else num_nodes s).
  assert (Hmn : mn = Z.min (num_nodes d) (num_nodes s))
    by (unfold mn; destruct (Z.ltb_spec (num_nodes d) (num_nodes s)); lia).
  clearbody mn.
  destruct (pointwise_loop
              (fun j x => if entries s !!! j <? x then entries s !!! j else x)
              (min_body s)) with (c := entries d) (n := mn) as [Hl Hj].
  { intros c i Hi Hlt. unfold min_body.
    destruct (entries s !!! Z.to_nat i <? c !!! Z.to_nat i);
      [reflexivity | symmetry; apply insert_same, Hlt]. }
  { unfold CAUCHY_MAX_NODES in *. lia. }
  eexists. split; [reflexivity|]. cbn [entries num_nodes].
  assert (Hval : forall i, 0 <= i < CAUCHY_MAX_NODES ->
    for_loop mn (min_body s) (entries d) !!! Z.to_nat i =
    if i <? Z.min (num_nodes d) (num_nodes s)
    then Z.min (entries d !!! Z.to_nat i) (entries s !!! Z.to_nat i)
    else entries d !!! Z.to_nat i).
  { intros i Hi. rewrite Hj, Z2Nat.id, Hmn by lia.
    destruct (_ <? _); [|reflexivity].
    destruct (Z.ltb_spec (entries s !!! Z.to_nat i) (entries d !!! Z.to_nat i)); lia. }
  split; [|split; [reflexivity | exact Hval]].
  unfold valid. cbn [entries num_nodes]. rewrite Hl.
  split; [exact Hld|]. split; [|exact Hnd].
  apply List.Forall_forall. intros x Hx.
  apply list_elem_of_In, list_elem_of_lookup_total in Hx as (j & Hjl & <-).
  rewrite Hl in Hjl.
  specialize (Hval (Z.of_nat j) ltac:(unfold CAUCHY_MAX_NODES in *; lia)).
  rewrite Nat2Z.id in Hval. rewrite Hval.
  pose proof (entry_range d (Z.of_nat j) Hd ltac:(unfold CAUCHY_MAX_NODES in *; lia)).
  pose proof (entry_range s (Z.of_nat j) Hs ltac:(unfold CAUCHY_MAX_NODES in *; lia)).
  rewrite Nat2Z.id in *. destruct (_ <? _); lia.
Qed.

(** X6. [cauchy_vclock_min] keeps [dst->num_nodes] and yields a clock that
    is equal to or before [dst]; when [dst] has no more nodes than [src] it
    is also equal to or before [src], and it is the greatest such clock. *)
Theorem vclock_min_lower_bound (d s : cauchy_vclock_t) :
  valid d -> valid s ->
  exists m,
    cauchy_vclock_min (Some d) (Some s) = Some m /\
    valid m /\
    num_nodes m = num_nodes d /\
    leq m d = true /\
    (num_nodes d <= num_nodes s ->
     leq m s = true /\
     forall c, valid c -> leq c d = true -> leq c s = true -> leq c m = true).
Proof.
  intros Hd Hs.
  destruct (min_spec d s Hd Hs) as (m & Hm & Hvm & Hnum & Hent).
  exists m. split; [exact Hm|]. split; [exact Hvm|]. split; [exact Hnum|].
  pose proof Hd as (_ & _ & Hnd). pose proof Hs as (_ & _ & Hns).
  assert (Heoz : forall i, 0 <= i < CAUCHY_MAX_NODES ->
    entry_or_zero m i =
    if i <? num_nodes d
    then (if i <? num_nodes s
          then Z.min (entries d !!! Z.to_nat i) (entries s !!! Z.to_nat i)
          else entries d !!! Z.to_nat i)
    else 0).
  { intros i Hi. unfold entry_or_zero. rewrite Hnum, Hent by exact Hi.
    destruct (Z.ltb_spec i (num_nodes d)), (Z.ltb_spec i (num_nodes s)),
      (Z.ltb_spec i (Z.min (num_nodes d) (num_nodes s))); try reflexivity; lia. }
  split.
  - apply (leq_below m d Hvm Hd). intros i Hi. rewrite Heoz by exact Hi.
    unfold entry_or_zero.
    destruct (Z.ltb_spec i (num_nodes d)), (Z.ltb_spec i (num_nodes s)); lia.
  - intros Hle. split.
    + apply (leq_below m s Hvm Hs). intros i Hi. rewrite Heoz by exact Hi.
      unfold entry_or_zero. pose proof (entry_range s i Hs Hi).
      destruct (Z.ltb_spec i (num_nodes d)), (Z.ltb_spec i (num_nodes s)); lia.
    + intros c Hc Hcd Hcs.
      apply (leq_below c d Hc Hd) in Hcd. apply (leq_below c s Hc Hs) in Hcs.
      apply (leq_below c m Hc Hvm). intros i Hi. rewrite Heoz by exact Hi.
      specialize (Hcd i Hi). specialize (Hcs i Hi).
      set (x := entry_or_zero c i) in *. unfold entry_or_zero in Hcd, Hcs.
      destruct (Z.ltb_spec i (num_nodes d)), (Z.ltb_spec i (num_nodes s)); lia.
Qed.

Lemma vclock_min_lower_bound_witness :
  exists m,
    cauchy_vclock_min (Some (of_list [4; 1])) (Some (of_list [3; 2; 0])) = Some m /\
    leq m (of_list [4; 1]) = true.
Proof.
  assert (Ha : valid (of_list [3; 2; 0])).
  { apply VClockFacts.vclock_of_list_valid;
      [vm_compute; lia | repeat constructor; lia]. }
  assert (Hb : valid (of_list [4; 1])).
  { apply VClockFacts.vclock_of_list_valid;
      [vm_compute; lia | repeat constructor; lia]. }
  destruct (vclock_min_lower_bound _ _ Hb Ha) as (m & H1 & _ & _ & H2 & _).
  exists m. auto.
Defined.

End VClockOps.

(** ** Wire formats: what the decoders accept and what the encoders touch *)

Module WireFacts.
Import Mem MemFacts LoopFacts.

Lemma le_value_range (bs : list Z) :
  Forall is_byte bs -> 0 <= le_value bs < 256 ^ Z.of_nat (length bs).
Proof.
  induction 1 as [|b bs Hb _ IH]; [simpl; lia|].
  cbn [le_value length]. rewrite Nat2Z.inj_succ, Z.pow_succ_r by lia.
  unfold is_byte in Hb. nia.
Qed.

Lemma bytes_at_bytes (buf : list Z) (off n : nat) :
  Forall is_byte buf -> Forall is_byte (bytes_at buf off n).
Proof. intros H. unfold bytes_at. apply Forall_take, Forall_drop, H. Qed.

Lemma length_bytes_at (buf : list Z) (off n : nat) :
  (off + n <= length buf)%nat -> length (bytes_at buf off n) = n.
Proof. intros H. unfold bytes_at. rewrite length_take, length_drop. lia. Qed.

Lemma le_value_u32 (buf : list Z) (off : nat) :
  Forall is_byte buf -> 0 <= le_value (bytes_at buf off 4) < 2 ^ 32.
Proof.
  intros H. pose proof (le_value_range _ (bytes_at_bytes buf off 4 H)) as Hr.
  assert (length (bytes_at buf off 4) <= 4)%nat
    by (unfold bytes_at; rewrite length_take; lia).
  assert (256 ^ Z.of_nat (length (bytes_at buf off 4)) <= 256 ^ 4)
    by (apply Z.pow_le_mono_r; lia).
  change (2 ^ 32) with (256 ^ 4). lia.
Qed.

Lemma le_value_u64 (bs : list Z) :
  Forall is_byte bs -> 0 <= le_value (take 8 bs) < 2 ^ 64.
Proof.
  intros H. assert (Ht : Forall is_byte (take 8 bs)) by (apply Forall_take, H).
  pose proof (le_value_range _ Ht) as Hr.
  assert (length (take 8 bs) <= 8)%nat by (rewrite length_take; lia).
  assert (256 ^ Z.of_nat (length (take 8 bs)) <= 256 ^ 8)
    by (apply Z.pow_le_mono_r; lia).
  change (2 ^ 64) with (256 ^ 8). lia.
Qed.

Lemma bytes_u64s_words (n : nat) :
  forall bs, Forall is_byte bs ->
  length (bytes_u64s n bs) = n /\
  Forall (fun x => 0 <= x < 2 ^ 64) (bytes_u64s n bs).
Proof.
  induction n as [|n IH]; intros bs H; cbn [bytes_u64s]; [split; [reflexivity | constructor]|].
  destruct (IH (drop 8 bs)) as [Hl Hr]; [apply Forall_drop, H|].
  split; [simpl; rewrite Hl; reflexivity|].
  constructor; [apply le_value_u64, H | exact Hr].
Qed.

(** The array a decoder leaves behind: [n] decoded words, then the zeros of
    the initialised array. *)
Lemma store_zeros (n : nat) (words : list Z) :
  length words = n -> (n <= Z.to_nat CAUCHY_MAX_NODES)%nat ->
  Forall (fun x => 0 <= x < 2 ^ 64) words ->
  let arr := store_u64s (replicate (Z.to_nat CAUCHY_MAX_NODES) 0) words in
  length arr = Z.to_nat CAUCHY_MAX_NODES /\
  Forall (fun x => 0 <= x < 2 ^ 64) arr /\
  forall i, Z.of_nat n <= i < CAUCHY_MAX_NODES -> arr !!! Z.to_nat i = 0.
Proof.
  intros Hl Hn Hr arr. unfold arr, store_u64s.
  split; [|split].
  - rewrite length_app, length_drop, length_replicate. lia.
  - apply Forall_app. split; [exact Hr|].
    apply Forall_drop, Forall_replicate. lia.
  - intros i Hi. rewrite lookup_total_app_r by lia.
    rewrite lookup_total_drop. apply lookup_total_replicate_2. lia.
Qed.

(** A [memcpy] leaves the bytes beyond its range alone. *)
Lemma drop_memcpy_to (dst src : list Z) (off k : nat) :
  (off + length src <= k)%nat -> (off + length src <= length dst)%nat ->
  drop k (memcpy_to dst off src) = drop k dst.
Proof.
  intros Hk Hlen. unfold memcpy_to.
  rewrite drop_app_ge by (rewrite length_take; lia).
  rewrite length_take. rewrite drop_app_ge by lia.
  rewrite drop_drop. f_equal. lia.
Qed.

(** X7. The vector clock decoder accepts a buffer exactly when it holds the
    four count bytes, the count is at most [CAUCHY_MAX_NODES], and the
    entries fit in [buffer_size].  An accepted buffer yields a valid clock
    with that count whose entries beyond it are zero; a rejected one
    returns [CAUCHY_ERR_INVALID] and leaves the clock as it was. *)
Theorem vclock_deserialize_checked (vc0 : VClock.cauchy_vclock_t)
  (buf : list Z) (size : Z) :
  Forall is_byte buf -> 0 <= size <= Z.of_nat (length buf) ->
  let count := le_value (bytes_at buf 0 4) in
  let accepted := 4 <= size /\ count <= CAUCHY_MAX_NODES /\ 4 + count * 8 <= size in
  (accepted ->
   exists v,
     VClock.cauchy_vclock_deserialize (Some vc0) (Some buf) size
       = (CAUCHY_OK, Some v) /\
     VClock.valid v /\ VClock.zero_beyond v /\
     VClock.num_nodes v = count /\
     VClock.cauchy_vclock_serialized_size (Some v) <= size) /\
  (~ accepted ->
   VClock.cauchy_vclock_deserialize (Some vc0) (Some buf) size
     = (CAUCHY_ERR_INVALID, Some vc0)).
Proof.
  intros Hb Hsize count accepted. unfold accepted.
  pose proof (le_value_u32 buf 0 Hb) as Hc. fold count in Hc.
  unfold VClock.cauchy_vclock_deserialize. fold count.
  destruct (Z.ltb_spec size 4); [split; [lia | reflexivity]|].
  destruct (Z.gtb_spec count CAUCHY_MAX_NODES); [split; [lia | reflexivity]|].
  destruct (Z.ltb_spec size (4 + count * 8)); [split; [lia | reflexivity]|].
  split; [|lia]. intros _.
  eexists. split; [reflexivity|].
  cbn [VClock.cauchy_vclock_init VClock.entries VClock.num_nodes].
  rewrite SerializationFacts.init_num_nodes by lia.
  destruct (bytes_u64s_words (Z.to_nat count)
              (bytes_at buf 4 (Z.to_nat (count * 8)))
              (bytes_at_bytes _ _ _ Hb)) as [Hl Hr].
  destruct (store_zeros (Z.to_nat count) _ Hl ltac:(lia) Hr) as (Ha1 & Ha2 & Ha3).
  unfold VClock.valid, VClock.zero_beyond, VClock.cauchy_vclock_serialized_size.
  cbn [VClock.entries VClock.num_nodes].
  repeat split; try assumption; try lia.
  intros i Hi. apply Ha3. lia.
Qed.

Lemma vclock_deserialize_checked_witness :
  (exists v,
     VClock.cauchy_vclock_deserialize (Some (VClock.cauchy_vclock_init 0))
       (Some [1; 0; 0; 0; 7; 0; 0; 0; 0; 0; 0; 0]) 12 = (CAUCHY_OK, Some v) /\
     VClock.valid v /\ VClock.num_nodes v = 1) /\
  VClock.cauchy_vclock_deserialize (Some (VClock.cauchy_vclock_init 0))
    (Some [65; 0; 0; 0; 7; 0; 0; 0; 0; 0; 0; 0]) 12
    = (CAUCHY_ERR_INVALID, Some (VClock.cauchy_vclock_init 0)).
Proof.
  split.
  - destruct (vclock_deserialize_checked (VClock.cauchy_vclock_init 0)
                [1; 0; 0; 0; 7; 0; 0; 0; 0; 0; 0; 0] 12) as [H _].
    + repeat constructor; unfold is_byte; lia.
    + cbn. lia.
    + destruct H as (v & H1 & H2 & _ & H3 & _); [vm_compute; repeat split; discriminate|].
      exists v. auto.
  - apply (vclock_deserialize_checked (VClock.cauchy_vclock_init 0)
             [65; 0; 0; 0; 7; 0; 0; 0; 0; 0; 0; 0] 12).
    + repeat constructor; unfold is_byte; lia.
    + cbn. lia.
    + vm_compute. intros (_ & H & _). apply H. reflexivity.
Defined.

(** X8. The vector clock encoder writes nothing and returns 0 when
    [buffer_size] is below the serialized size; otherwise it returns the
    serialized size, keeps the buffer's length and leaves every byte from
    that offset on as it was. *)
Theorem vclock_serialize_bounds (v : VClock.cauchy_vclock_t)
  (buf : list Z) (size : Z) :
  VClock.valid v -> size <= Z.of_nat (length buf) ->
  let needed := VClock.cauchy_vclock_serialized_size (Some v) in
  needed = 4 + 8 * VClock.num_nodes v /\
  (size < needed ->
   VClock.cauchy_vclock_serialize (Some v) (Some buf) size = (0, Some buf)) /\
  (needed <= size ->
   exists buf',
     VClock.cauchy_vclock_serialize (Some v) (Some buf) size = (needed, Some buf') /\
     length buf' = length buf /\
     drop (Z.to_nat needed) buf' = drop (Z.to_nat needed) buf).
Proof.
  intros (Hlen & Hrange & Hn) Hsize needed. unfold needed.
  unfold VClock.cauchy_vclock_serialize, VClock.cauchy_vclock_serialized_size.
  split; [lia|]. split; intros H.
  - destruct (Z.ltb_spec size (4 + VClock.num_nodes v * 8)); [reflexivity | lia].
  - destruct (Z.ltb_spec size (4 + VClock.num_nodes v * 8)); [lia|].
    eexists. split; [reflexivity|].
    set (words := u64s_bytes (take (Z.to_nat (VClock.num_nodes v)) (VClock.entries v))).
    assert (Hw : length words = Z.to_nat (VClock.num_nodes v * 8)).
    { unfold words. rewrite length_u64s_bytes, length_take.
      unfold CAUCHY_MAX_NODES in *. lia. }
    assert (H1 : length (memcpy_to buf 0 (le_bytes 4 (VClock.num_nodes v)))
                 = length buf)
      by (apply length_memcpy_to; rewrite length_le_bytes; lia).
    split.
    + rewrite length_memcpy_to by lia. exact H1.
    + rewrite drop_memcpy_to by lia.
      apply drop_memcpy_to; rewrite length_le_bytes; lia.
Qed.

Lemma vclock_serialize_bounds_witness :
  VClock.cauchy_vclock_serialize (Some (VClock.of_list [3; 2; 1]))
    (Some (replicate 64 9)) 27 = (0, Some (replicate 64 9)) /\
  exists buf',
    VClock.cauchy_vclock_serialize (Some (VClock.of_list [3; 2; 1]))
      (Some (replicate 64 9)) 28 = (28, Some buf') /\
    length buf' = 64%nat.
Proof.
  assert (Hx : VClock.valid (VClock.of_list [3; 2; 1])).
  { apply VClockFacts.vclock_of_list_valid;
      [vm_compute; lia | repeat constructor; lia]. }
  split.
  - apply (vclock_serialize_bounds (VClock.of_list [3; 2; 1]) (replicate 64 9) 27 Hx);
      cbn; lia.
  - destruct (vclock_serialize_bounds (VClock.of_list [3; 2; 1]) (replicate 64 9) 28 Hx)
      as (_ & _ & H); [cbn; lia|].
    destruct H as (buf' & H1 & H2 & _); [cbn; lia|].
    exists buf'. split; [exact H1 | exact H2].
Defined.

End WireFacts.

(** ** G-Counter operations *)

Module GCounterOps.
Import GCounter LoopFacts.

Lemma count_range (g : cauchy_gcounter_t) (j : nat) :
  valid g -> (j < Z.to_nat CAUCHY_MAX_NODES)%nat -> 0 <= counts g !!! j < 2 ^ 64.
Proof.
  intros (Hlen & Hrange & _) Hj.
  rewrite List.Forall_forall in Hrange. apply Hrange.
  apply list_elem_of_In, list_elem_of_lookup_total_2. lia.
Qed.

Lemma gcounter_valid_insert (g : cauchy_gcounter_t) (j : nat) (v : Z) :
  valid g -> 0 <= v < 2 ^ 64 ->
  valid {| counts := <[j := v]> (counts g); num_nodes := num_nodes g |}.
Proof.
  intros (Hlen & Hrange & Hn) Hv. unfold valid. cbn [counts num_nodes].
  rewrite length_insert. split; [exact Hlen|]. split; [|exact Hn].
  apply Forall_insert; assumption.
Qed.

Lemma total_sumZ (g : cauchy_gcounter_t) :
  total g = sumZ (take (Z.to_nat (num_nodes g)) (counts g)).
Proof. reflexivity. Qed.

Lemma total_range (g : cauchy_gcounter_t) : valid g -> 0 <= total g.
Proof.
  intros (_ & Hrange & _). rewrite total_sumZ. apply sumZ_nonneg.
  apply Forall_take. eapply Forall_impl; [exact Hrange|]. simpl. intros; lia.
Qed.

Lemma value_spec (g : cauchy_gcounter_t) :
  valid g -> cauchy_gcounter_value (Some g) = wrap64 (total g).
Proof.
  intros (Hlen & _ & Hn). unfold cauchy_gcounter_value. rewrite total_sumZ.
  apply sum_loop. unfold CAUCHY_MAX_NODES in *. lia.
Qed.

Lemma gcounter_add_spec (g : cauchy_gcounter_t) (node delta : Z) :
  valid g -> 0 <= node < num_nodes g ->
  exists g',
    cauchy_gcounter_add (Some g) node delta = Some g' /\
    valid g' /\
    num_nodes g' = num_nodes g /\
    counts g' = <[Z.to_nat node := wrap64 (counts g !!! Z.to_nat node + delta)]>
                  (counts g) /\
    total g' = total g - counts g !!! Z.to_nat node
               + wrap64 (counts g !!! Z.to_nat node + delta).
Proof.
  intros Hv Hnode. pose proof Hv as (Hlen & _ & Hn). unfold CAUCHY_MAX_NODES in *.
  unfold cauchy_gcounter_add.
  destruct (Z.geb_spec node (num_nodes g)); [lia|].
  eexists. split; [reflexivity|].
  split; [apply gcounter_valid_insert; [exact Hv | apply wrap64_range]|].
  split; [reflexivity|]. split; [reflexivity|].
  rewrite !total_sumZ. cbn [counts num_nodes].
  apply sumZ_take_insert. lia.
Qed.

Lemma add_get (g : cauchy_gcounter_t) (node delta : Z) :
  valid g -> 0 <= node < num_nodes g ->
  exists g',
    cauchy_gcounter_add (Some g) node delta = Some g' /\
    valid g' /\
    num_nodes g' = num_nodes g /\
    cauchy_gcounter_get (Some g') node =
      wrap64 (cauchy_gcounter_get (Some g) node + delta) /\
    (forall j, 0 <= j -> j <> node ->
       cauchy_gcounter_get (Some g') j = cauchy_gcounter_get (Some g) j) /\
    cauchy_gcounter_value (Some g') =
      wrap64 (cauchy_gcounter_value (Some g) + delta).
Proof.
  intros Hv Hnode. pose proof Hv as (Hlen & _ & Hn). unfold CAUCHY_MAX_NODES in *.
  destruct (gcounter_add_spec g node delta Hv ltac:(lia)) as (g' & Hadd & Hv' & Hnum & Hc & Ht).
  exists g'. split; [exact Hadd|]. split; [exact Hv'|]. split; [exact Hnum|].
  unfold cauchy_gcounter_get. rewrite Hnum, Hc.
  split; [|split].
  - destruct (Z.geb_spec node (num_nodes g)); [lia|].
    apply list_lookup_total_insert_eq. lia.
  - intros j Hj Hne. destruct (Z.geb_spec j (num_nodes g)); [reflexivity|].
    apply list_lookup_total_insert_ne. lia.
  - rewrite (value_spec _ Hv'), (value_spec _ Hv), Ht.
    unfold wrap64. rewrite Zplus_mod_idemp_r, Zplus_mod_idemp_l.
    f_equal. lia.
Qed.

(** X9. [cauchy_gcounter_add] for a node id below [num_nodes] adds [delta]
    (modulo 2^64) to that node's count and to [cauchy_gcounter_value] and
    leaves the other counts alone; for a node id at or beyond [num_nodes]
    it changes nothing.  [cauchy_gcounter_increment] is the addition of 1. *)
Theorem gcounter_add_value (g : cauchy_gcounter_t) (node delta : Z) :
  valid g -> 0 <= node ->
  (node < num_nodes g ->
   exists g',
     cauchy_gcounter_add (Some g) node delta = Some g' /\
     valid g' /\
     cauchy_gcounter_get (Some g') node =
       wrap64 (cauchy_gcounter_get (Some g) node + delta) /\
     (forall j, 0 <= j -> j <> node ->
        cauchy_gcounter_get (Some g') j = cauchy_gcounter_get (Some g) j) /\
     cauchy_gcounter_value (Some g') =
       wrap64 (cauchy_gcounter_value (Some g) + delta)) /\
  (num_nodes g <= node ->
   cauchy_gcounter_add (Some g) node delta = Some g /\
   cauchy_gcounter_increment (Some g) node = Some g) /\
  cauchy_gcounter_increment (Some g) node = cauchy_gcounter_add (Some g) node 1.
Proof.
  intros Hv Hnode. pose proof Hv as (Hlen & _ & Hn). unfold CAUCHY_MAX_NODES in *.
  split; [|split].
  - intros Hlt.
    destruct (add_get g node delta Hv ltac:(lia))
      as (g' & Hadd & Hv' & _ & Hget & Hother & Hval).
    exists g'. auto.
  - intros Hge. unfold cauchy_gcounter_add, cauchy_gcounter_increment.
    destruct (Z.geb_spec node (num_nodes g)); [auto | lia].
  - reflexivity.
Qed.

Lemma gcounter_add_value_witness :
  exists g',
    cauchy_gcounter_add (Some (of_list [5; 3; 0])) 1 4 = Some g' /\
    cauchy_gcounter_value (Some g') =
      wrap64 (cauchy_gcounter_value (Some (of_list [5; 3; 0])) + 4).
Proof.
  assert (Hv : valid (of_list [5; 3; 0])).
  { apply GCounterFacts.gcounter_of_list_valid;
      [vm_compute; lia | repeat constructor; lia]. }
  destruct (gcounter_add_value (of_list [5; 3; 0]) 1 4 Hv ltac:(lia)) as [H _].
  destruct H as (g' & H1 & _ & _ & _ & H2); [cbn; lia|].
  exists g'. auto.
Defined.

(** *** Merge *)

Lemma gcounter_merge_spec (d s : cauchy_gcounter_t) :
  valid d -> valid s ->
  exists m,
    cauchy_gcounter_merge (Some d) (Some s) = Some m /\
    valid m /\
    num_nodes m = Z.max (num_nodes d) (num_nodes s) /\
    forall j : nat, (j < Z.to_nat CAUCHY_MAX_NODES)%nat ->
      counts m !!! j =
      if Z.of_nat j <? num_nodes s
      then Z.max (counts d !!! j) (counts s !!! j)
      else counts d !!! j.
Proof.
  intros Hd Hs. pose proof Hd as (Hld & Hrd & Hnd). pose proof Hs as (Hls & Hrs & Hns).
  unfold cauchy_gcounter_merge.
  set (mx := if num_nodes d >? num_nodes s then num_nodes d else num_nodes s).
  assert (Hmx : mx = Z.max (num_nodes d) (num_nodes s))
    by (unfold mx; destruct (Z.gtb_spec (num_nodes d) (num_nodes s)); lia).
  assert (Hnum : (if num_nodes s >? num_nodes d then num_nodes s else num_nodes d)
                 = Z.max (num_nodes d) (num_nodes s))
    by (destruct (Z.gtb_spec (num_nodes s) (num_nodes d)); lia).
  clearbody mx.
  destruct (pointwise_loop
              (fun j x => if (Z.of_nat j <? num_nodes s) && (counts s !!! j >? x)
                          then counts s !!! j else x)
              (merge_body s)) with (c := counts d) (n := mx) as [Hl Hj].
  { intros c i Hi Hlt. unfold merge_body. rewrite Z2Nat.id by lia.
    destruct ((i <? num_nodes s) && (counts s !!! Z.to_nat i >? c !!! Z.to_nat i));
      [reflexivity | symmetry; apply insert_same, Hlt]. }
  { unfold CAUCHY_MAX_NODES in *. lia. }
  eexists. split; [reflexivity|]. cbn [counts num_nodes]. rewrite Hnum.
  assert (Hval : forall j : nat, (j < Z.to_nat CAUCHY_MAX_NODES)%nat ->
    for_loop mx (merge_body s) (counts d) !!! j =
    if Z.of_nat j <? num_nodes s
    then Z.max (counts d !!! j) (counts s !!! j)
    else counts d !!! j).
  { intros j Hjlt. rewrite Hj, Hmx.
    destruct (Z.ltb_spec (Z.of_nat j) (num_nodes s)),
      (Z.ltb_spec (Z.of_nat j) (Z.max (num_nodes d) (num_nodes s)));
      cbn [andb]; try reflexivity; try lia.
    destruct (Z.gtb_spec (counts s !!! j) (counts d !!! j)); lia. }
  split; [|split; [reflexivity | exact Hval]].
  unfold valid. cbn [counts num_nodes]. rewrite Hl.
  split; [exact Hld|]. split; [|unfold CAUCHY_MAX_NODES in *; lia].
  apply List.Forall_forall. intros x Hx.
  apply list_elem_of_In, list_elem_of_lookup_total in Hx as (j & Hjl & <-).
  rewrite Hl in Hjl. rewrite Hval by lia.
  pose proof (count_range d j Hd ltac:(lia)).
  pose proof (count_range s j Hs ltac:(lia)).
  destruct (_ <? _); lia.
Qed.

Lemma get_spec (g : cauchy_gcounter_t) (i : Z) :
  cauchy_gcounter_get (Some g) i = if i <? num_nodes g then counts g !!! Z.to_nat i else 0.
Proof.
  unfold cauchy_gcounter_get.
  destruct (Z.geb_spec i (num_nodes g)), (Z.ltb_spec i (num_nodes g)); try reflexivity; lia.
Qed.

Lemma sumZ_take_zeros (l : list Z) (n : nat) :
  forall k : nat,
  (n <= k <= length l)%nat ->
  (forall j, (n <= j < k)%nat -> l !!! j = 0) ->
  sumZ (take k l) = sumZ (take n l).
Proof.
  induction k as [|k IH]; intros Hk Hz.
  - replace n with 0%nat by lia. reflexivity.
  - destruct (decide (n = S k)) as [->|Hne]; [reflexivity|].
    rewrite (take_S_r l k (l !!! k)) by (apply list_lookup_lookup_total_lt; lia).
    rewrite sumZ_app, IH; [|lia|intros j Hj; apply Hz; lia].
    simpl. rewrite (Hz k) by lia. lia.
Qed.

Lemma merge_idem (d : cauchy_gcounter_t) :
  valid d -> cauchy_gcounter_merge (Some d) (Some d) = Some d.
Proof.
  intros Hd. destruct (gcounter_merge_spec d d Hd Hd) as (dd & Hdd & Hvdd & Hnumdd & Hentdd).
  rewrite Hdd. f_equal. pose proof Hd as (Hld & _ & _).
  destruct dd as [cdd ndd], d as [cd nd].
  cbn [counts num_nodes] in *. f_equal; [|lia].
  destruct Hvdd as (Hldd & _ & _). cbn [counts] in Hldd.
  apply list_eq_same_length with (n := Z.to_nat CAUCHY_MAX_NODES); [lia | lia |].
  intros j x y Hj Hx Hy.
  apply list_lookup_total_correct in Hx, Hy. subst x y.
  rewrite Hentdd by exact Hj. destruct (_ <? _); lia.
Qed.

Lemma gcounter_merge_max (d s : cauchy_gcounter_t) :
  valid d -> valid s -> zero_beyond d -> zero_beyond s ->
  exists m,
    cauchy_gcounter_merge (Some d) (Some s) = Some m /\
    valid m /\ zero_beyond m /\
    num_nodes m = Z.max (num_nodes d) (num_nodes s) /\
    forall j : nat, (j < Z.to_nat CAUCHY_MAX_NODES)%nat ->
      counts m !!! j = Z.max (counts d !!! j) (counts s !!! j).
Proof.
  intros Hd Hs Zd Zs.
  destruct (gcounter_merge_spec d s Hd Hs) as (m & Hm & Hvm & Hnum & Hent).
  pose proof Hd as (Hld & _ & Hnd). pose proof Hs as (Hls & _ & Hns).
  assert (Hmax : forall j : nat, (j < Z.to_nat CAUCHY_MAX_NODES)%nat ->
    counts m !!! j = Z.max (counts d !!! j) (counts s !!! j)).
  { intros j Hj. rewrite Hent by exact Hj.
    destruct (Z.ltb_spec (Z.of_nat j) (num_nodes s)); [reflexivity|].
    specialize (Zs (Z.of_nat j) ltac:(lia)). rewrite Nat2Z.id in Zs.
    pose proof (count_range d j Hd Hj). lia. }
  exists m. repeat (split; [assumption|]). split; [|split; assumption].
  intros i Hi. rewrite Hmax by lia. rewrite Zd, Zs by lia. reflexivity.
Qed.

Lemma merge_commutes (a b : cauchy_gcounter_t) :
  valid a -> valid b -> zero_beyond a -> zero_beyond b ->
  exists ab ba,
    cauchy_gcounter_merge (Some a) (Some b) = Some ab /\
    cauchy_gcounter_merge (Some b) (Some a) = Some ba /\
    valid ab /\ valid ba /\
    cauchy_gcounter_equals (Some ab) (Some ba) = true.
Proof.
  intros Ha Hb Za Zb.
  destruct (gcounter_merge_max a b Ha Hb Za Zb) as (ab & Hab & Hvab & _ & Nab & Cab).
  destruct (gcounter_merge_max b a Hb Ha Zb Za) as (ba & Hba & Hvba & _ & Nba & Cba).
  exists ab, ba. repeat (split; [assumption|]).
  unfold cauchy_gcounter_equals.
  destruct (Z.eqb_spec (num_nodes ab) (num_nodes ba)); [|lia]. cbn [negb].
  apply GCounterFacts.equals_loop_true. intros i Hi. apply elem_of_zrange in Hi.
  destruct Hvab as (_ & _ & ?). unfold CAUCHY_MAX_NODES in *.
  rewrite Cab, Cba by lia. lia.
Qed.

(** X10. [cauchy_gcounter_merge] never lowers a count: every node's count
    in the merged counter is at least its count in either input, so is the
    sum of the counts, and so is [cauchy_gcounter_value] as long as the
    merged sum stays below 2^64.  Merging a counter into itself changes
    nothing. *)
Theorem gcounter_merge_monotone (d s : cauchy_gcounter_t) :
  valid d -> valid s -> zero_beyond d -> zero_beyond s ->
  exists m,
    cauchy_gcounter_merge (Some d) (Some s) = Some m /\
    valid m /\ zero_beyond m /\
    (forall i, 0 <= i ->
       cauchy_gcounter_get (Some d) i <= cauchy_gcounter_get (Some m) i /\
       cauchy_gcounter_get (Some s) i <= cauchy_gcounter_get (Some m) i) /\
    total d <= total m /\ total s <= total m /\
    (total m < 2 ^ 64 ->
     cauchy_gcounter_value (Some d) <= cauchy_gcounter_value (Some m) /\
     cauchy_gcounter_value (Some s) <= cauchy_gcounter_value (Some m)) /\
    cauchy_gcounter_merge (Some d) (Some d) = Some d.
Proof.
  intros Hd Hs Zd Zs.
  destruct (gcounter_merge_max d s Hd Hs Zd Zs) as (m & Hm & Hvm & Zm & Hnum & Hmax).
  pose proof Hd as (Hld & _ & Hnd). pose proof Hs as (Hls & _ & Hns).
  pose proof Hvm as (Hlm & _ & Hnm).
  assert (Htot : forall g, valid g -> zero_beyond g ->
    total g = sumZ (take (Z.to_nat CAUCHY_MAX_NODES) (counts g))).
  { intros g (Hlg & _ & Hng) Zg. rewrite total_sumZ. symmetry.
    apply sumZ_take_zeros; [lia|].
    intros j Hj. specialize (Zg (Z.of_nat j) ltac:(lia)).
    rewrite Nat2Z.id in Zg. exact Zg. }
  assert (Hle : forall g, valid g ->
    (forall j : nat, (j < Z.to_nat CAUCHY_MAX_NODES)%nat ->
       counts g !!! j <= counts m !!! j) ->
    zero_beyond g -> total g <= total m).
  { intros g Hg Hgm Zg. rewrite (Htot g Hg Zg), (Htot m Hvm Zm).
    destruct Hg as (Hlg & _ & _).
    apply sumZ_pointwise_le; rewrite !length_take; [lia|].
    intros j Hj. rewrite !lookup_total_take_lt by lia. apply Hgm. lia. }
  assert (Hdm : total d <= total m)
    by (apply Hle; [exact Hd | intros j Hj; rewrite Hmax by exact Hj; lia | exact Zd]).
  assert (Hsm : total s <= total m)
    by (apply Hle; [exact Hs | intros j Hj; rewrite Hmax by exact Hj; lia | exact Zs]).
  exists m. split; [exact Hm|]. split; [exact Hvm|]. split; [exact Zm|].
  split; [|split; [exact Hdm|split; [exact Hsm|split]]].
  - intros i Hi. rewrite !get_spec, Hnum.
    destruct (Z.ltb_spec i (num_nodes d)), (Z.ltb_spec i (num_nodes s)),
      (Z.ltb_spec i (Z.max (num_nodes d) (num_nodes s))); try lia;
      rewrite Hmax by (unfold CAUCHY_MAX_NODES in *; lia);
      pose proof (count_range d (Z.to_nat i) Hd ltac:(unfold CAUCHY_MAX_NODES in *; lia));
      pose proof (count_range s (Z.to_nat i) Hs ltac:(unfold CAUCHY_MAX_NODES in *; lia));
      lia.
  - intros Hsmall.
    pose proof (total_range d Hd). pose proof (total_range s Hs).
    rewrite !value_spec by assumption.
    rewrite !wrap64_small by lia. lia.
  - apply merge_idem, Hd.
Qed.

Lemma gcounter_merge_monotone_witness :
  exists m,
    cauchy_gcounter_merge (Some (of_list [5; 3; 0])) (Some (of_list [0; 7; 2])) = Some m /\
    total (of_list [5; 3; 0]) <= total m /\
    total (of_list [0; 7; 2]) <= total m.
Proof.
  assert (Ha : valid (of_list [5; 3; 0])).
  { apply GCounterFacts.gcounter_of_list_valid;
      [vm_compute; lia | repeat constructor; lia]. }
  assert (Hb : valid (of_list [0; 7; 2])).
  { apply GCounterFacts.gcounter_of_list_valid;
      [vm_compute; lia | repeat constructor; lia]. }
  destruct (gcounter_merge_monotone _ _ Ha Hb
              (GCounterFacts.gcounter_of_list_zero_beyond _)
              (GCounterFacts.gcounter_of_list_zero_beyond _))
    as (m & H1 & _ & _ & _ & H2 & H3 & _).
  exists m. auto.
Defined.

(** *** Comparison *)

(** The counter read as a vector clock: the two comparison functions run
    the same loop. *)
Definition as_clock (g : cauchy_gcounter_t) : VClock.cauchy_vclock_t :=
  {| VClock.entries := counts g; VClock.num_nodes := num_nodes g |}.

Lemma compare_as_clock (a b : cauchy_gcounter_t) :
  cauchy_gcounter_compare (Some a) (Some b) =
  VClock.cauchy_vclock_compare (Some (as_clock a)) (Some (as_clock b)).
Proof. reflexivity. Qed.

Lemma valid_as_clock (g : cauchy_gcounter_t) : valid g -> VClock.valid (as_clock g).
Proof. intros H. exact H. Qed.

(** X11. [cauchy_gcounter_compare] orders two counters by their counts,
    counts at or beyond a side's [num_nodes] reading as zero: [EQUAL] when
    all agree, [HAPPENS_BEFORE] when none of [a] exceeds [b]'s and one is
    below, [HAPPENS_AFTER] for the converse, [CONCURRENT] otherwise.
    Counters that [cauchy_gcounter_equals] accepts compare [EQUAL], and an
    increment that does not wrap moves a counter strictly forward. *)
Theorem gcounter_compare_order (a b : cauchy_gcounter_t) (node : Z) :
  valid a -> valid b ->
  let le x y := forall i, 0 <= i < CAUCHY_MAX_NODES ->
                  count_or_zero x i <= count_or_zero y i in
  let lt_somewhere x y := exists i, 0 <= i < CAUCHY_MAX_NODES /\
                            count_or_zero x i < count_or_zero y i in
  (cauchy_gcounter_compare (Some a) (Some b) = CAUCHY_EQUAL <->
     le a b /\ le b a) /\
  (cauchy_gcounter_compare (Some a) (Some b) = CAUCHY_HAPPENS_BEFORE <->
     le a b /\ lt_somewhere a b) /\
  (cauchy_gcounter_compare (Some a) (Some b) = CAUCHY_HAPPENS_AFTER <->
     le b a /\ lt_somewhere b a) /\
  (cauchy_gcounter_compare (Some a) (Some b) = CAUCHY_CONCURRENT <->
     lt_somewhere a b /\ lt_somewhere b a) /\
  (cauchy_gcounter_equals (Some a) (Some b) = true ->
   cauchy_gcounter_compare (Some a) (Some b) = CAUCHY_EQUAL) /\
  (0 <= node < num_nodes a -> counts a !!! Z.to_nat node + 1 < 2 ^ 64 ->
   cauchy_gcounter_compare (Some a) (cauchy_gcounter_increment (Some a) node)
     = CAUCHY_HAPPENS_BEFORE).
Proof.
  intros Ha Hb le lt_somewhere. subst le lt_somewhere. cbv beta.
  pose proof (valid_as_clock a Ha) as Hca. pose proof (valid_as_clock b Hb) as Hcb.
  assert (Hdec : forall x y, valid x -> valid y ->
    (exists i, 0 <= i < CAUCHY_MAX_NODES /\ count_or_zero x i < count_or_zero y i) \/
    (forall i, 0 <= i < CAUCHY_MAX_NODES -> count_or_zero y i <= count_or_zero x i)).
  { intros x y Hx Hy.
    pose proof (VClockFacts.a_less_iff (as_clock x) (as_clock y) Hx Hy) as H1.
    pose proof (VClockFacts.no_less_iff (as_clock x) (as_clock y) Hx Hy) as H2.
    destruct (existsb _ _); [left; apply H1; reflexivity
                            | right; apply H2; reflexivity]. }
  split; [|split; [|split; [|split; [|split]]]].
  - rewrite compare_as_clock, (VClockFacts.compare_equal_iff _ _ Hca Hcb). split.
    + intros H. split; intros i Hi; specialize (H i Hi);
        change (count_or_zero a i = count_or_zero b i) in H; lia.
    + intros [H1 H2] i Hi. specialize (H1 i Hi). specialize (H2 i Hi).
      change (count_or_zero a i = count_or_zero b i). lia.
  - exact (VClockFacts.compare_before_iff _ _ Hca Hcb).
  - exact (VClockFacts.compare_after_iff _ _ Hca Hcb).
  - rewrite compare_as_clock, (VClockFacts.compare_concurrent_iff _ _ Hca Hcb). split.
    + intros (H1 & H2 & H3).
      destruct (Hdec a b Ha Hb) as [Hab|Hab], (Hdec b a Hb Ha) as [Hba|Hba]; auto.
      * exfalso. apply H2. split; [exact Hba | exact Hab].
      * exfalso. apply H3. split; [exact Hab | exact Hba].
      * exfalso. apply H1. intros i Hi. specialize (Hab i Hi). specialize (Hba i Hi).
        change (count_or_zero a i = count_or_zero b i). lia.
    + intros [(i & Hi & H1) (j & Hj & H2)]. split; [|split].
      * intros H. specialize (H i Hi).
        change (count_or_zero a i = count_or_zero b i) in H. lia.
      * intros [H _]. specialize (H j Hj).
        change (count_or_zero a j <= count_or_zero b j) in H. lia.
      * intros [H _]. specialize (H i Hi).
        change (count_or_zero b i <= count_or_zero a i) in H. lia.
  - intros Heq. unfold cauchy_gcounter_equals in Heq.
    destruct (Z.eqb_spec (num_nodes a) (num_nodes b)) as [Hn|]; [|discriminate].
    cbn [negb] in Heq. rewrite GCounterFacts.equals_loop_true in Heq.
    rewrite compare_as_clock. apply (VClockFacts.compare_equal_iff _ _ Hca Hcb).
    intros i Hi. change (count_or_zero a i = count_or_zero b i).
    unfold count_or_zero. rewrite <- Hn.
    destruct (Z.ltb_spec i (num_nodes a)); [|reflexivity].
    apply Heq, elem_of_zrange. lia.
  - intros Hnode Hsmall.
    destruct (add_get a node 1 Ha Hnode) as (a' & Hadd & Hva' & _ & Hget & Hother & _).
    change (cauchy_gcounter_increment (Some a) node)
      with (cauchy_gcounter_add (Some a) node 1).
    rewrite Hadd, compare_as_clock.
    apply (VClockFacts.compare_before_iff _ _ Hca (valid_as_clock a' Hva')).
    assert (Hnum : num_nodes a' = num_nodes a).
    { unfold cauchy_gcounter_add in Hadd.
      destruct (node >=? num_nodes a); injection Hadd as <-; reflexivity. }
    assert (Hcz : forall x i, VClock.entry_or_zero (as_clock x) i
                              = cauchy_gcounter_get (Some x) i)
      by (intros; rewrite get_spec; reflexivity).
    pose proof (count_range a (Z.to_nat node) Ha
                  ltac:(destruct Ha as (_ & _ & ?); unfold CAUCHY_MAX_NODES in *; lia)) as Hr.
    assert (Hnew : cauchy_gcounter_get (Some a') node
                   = cauchy_gcounter_get (Some a) node + 1).
    { rewrite Hget, get_spec.
      destruct (Z.ltb_spec node (num_nodes a)); [|lia].
      apply wrap64_small. lia. }
    split.
    + intros i Hi. rewrite !Hcz.
      destruct (Z.eq_dec i node) as [->|Hne]; [lia|].
      rewrite Hother by lia. lia.
    + exists node. rewrite !Hcz.
      destruct Ha as (_ & _ & ?). unfold CAUCHY_MAX_NODES in *. lia.
Qed.

Lemma gcounter_compare_order_witness :
  cauchy_gcounter_compare (Some (of_list [5; 3; 0]))
    (cauchy_gcounter_increment (Some (of_list [5; 3; 0])) 2) = CAUCHY_HAPPENS_BEFORE.
Proof.
  assert (Ha : valid (of_list [5; 3; 0])).
  { apply GCounterFacts.gcounter_of_list_valid;
      [vm_compute; lia | repeat constructor; lia]. }
  apply (gcounter_compare_order (of_list [5; 3; 0]) (of_list [5; 3; 0]) 2 Ha Ha);
    [cbn; lia | vm_compute; reflexivity].
Defined.

End GCounterOps.

(** ** PN-Counter *)

Module PNCounterFacts.
Import PNCounter LoopFacts.

Lemma to_i64_small (z : Z) : 0 <= z < 2 ^ 63 -> to_i64 z = z.
Proof. intros H. unfold to_i64. destruct (Z.ltb_spec z (2 ^ 63)); lia. Qed.

Lemma value_small (g : GCounter.cauchy_gcounter_t) :
  GCounter.valid g -> GCounter.total g < 2 ^ 63 ->
  GCounter.cauchy_gcounter_value (Some g) = GCounter.total g.
Proof.
  intros Hg Hsmall. rewrite (GCounterOps.value_spec g Hg).
  pose proof (GCounterOps.total_range g Hg). apply wrap64_small. lia.
Qed.

(** X12. [cauchy_pncounter_add] changes [cauchy_pncounter_value] by exactly
    [delta], positive or negative, for a node id below both [num_nodes] and
    sums that stay below 2^63; for a node id at or beyond both it changes
    nothing.  Increment and decrement are the additions of 1 and -1. *)
Theorem pncounter_add_value (pn : cauchy_pncounter_t) (node delta : Z) :
  valid pn -> 0 <= node -> - 2 ^ 63 <= delta < 2 ^ 63 ->
  (node < GCounter.num_nodes (positive pn) ->
   node < GCounter.num_nodes (negative pn) ->
   GCounter.total (positive pn) + Z.abs delta < 2 ^ 63 ->
   GCounter.total (negative pn) + Z.abs delta < 2 ^ 63 ->
   cauchy_pncounter_value (cauchy_pncounter_add (Some pn) node delta) =
   cauchy_pncounter_value (Some pn) + delta) /\
  (GCounter.num_nodes (positive pn) <= node ->
   GCounter.num_nodes (negative pn) <= node ->
   cauchy_pncounter_add (Some pn) node delta = Some pn) /\
  cauchy_pncounter_increment (Some pn) node = cauchy_pncounter_add (Some pn) node 1 /\
  cauchy_pncounter_decrement (Some pn) node = cauchy_pncounter_add (Some pn) node (-1).
Proof.
  intros [Hp Hn] Hnode Hdelta. split; [|split; [|split]].
  - intros Hlp Hln Hsp Hsn.
    pose proof (GCounterOps.total_range _ Hp) as Htp.
    pose proof (GCounterOps.total_range _ Hn) as Htn.
    pose proof (value_small _ Hp ltac:(lia)) as Hvp.
    pose proof (value_small _ Hn ltac:(lia)) as Hvn.
    unfold cauchy_pncounter_add, cauchy_pncounter_value.
    destruct (Z.geb_spec delta 0) as [Hpos|Hneg]; cbn [positive negative].
    + destruct (GCounterOps.add_get (positive pn) node delta Hp ltac:(lia))
        as (g' & Hadd & Hv' & _ & _ & _ & Hval).
      rewrite Hadd. cbn [default from_option id]. rewrite Hval, Hvp, Hvn.
      rewrite wrap64_small by lia.
      rewrite !to_i64_small by lia. lia.
    + destruct (GCounterOps.add_get (negative pn) node (wrap64 (- delta)) Hn ltac:(lia))
        as (g' & Hadd & Hv' & _ & _ & _ & Hval).
      rewrite Hadd. cbn [default from_option id]. rewrite Hval, Hvp, Hvn.
      rewrite (wrap64_small (- delta)) by lia.
      rewrite wrap64_small by lia.
      rewrite !to_i64_small by lia. lia.
  - intros Hgp Hgn. unfold cauchy_pncounter_add, GCounter.cauchy_gcounter_add.
    destruct (Z.geb_spec node (GCounter.num_nodes (positive pn))); [|lia].
    destruct (Z.geb_spec node (GCounter.num_nodes (negative pn))); [|lia].
    destruct pn. destruct (delta >=? 0); reflexivity.
  - reflexivity.
  - reflexivity.
Qed.

Lemma pncounter_add_value_witness :
  cauchy_pncounter_value
    (cauchy_pncounter_add (Some (cauchy_pncounter_init 3)) 1 (-5)) =
  cauchy_pncounter_value (Some (cauchy_pncounter_init 3)) + (-5).
Proof.
  assert (Hv : valid (cauchy_pncounter_init 3)).
  { split; exact (VClockOps.vclock_valid_init 3 ltac:(lia)). }
  apply (pncounter_add_value (cauchy_pncounter_init 3) 1 (-5) Hv);
    first [lia | vm_compute; reflexivity | vm_compute; split; discriminate].
Defined.

(** *** Merge *)

(** X13. [cauchy_pncounter_merge] is idempotent, and commutative up to
    [cauchy_pncounter_equals], on counters whose counts beyond [num_nodes]
    are zero. *)
Theorem pncounter_merge_commutative (a b : cauchy_pncounter_t) :
  valid a -> valid b ->
  GCounter.zero_beyond (positive a) -> GCounter.zero_beyond (negative a) ->
  GCounter.zero_beyond (positive b) -> GCounter.zero_beyond (negative b) ->
  exists ab ba,
    cauchy_pncounter_merge (Some a) (Some b) = Some ab /\
    cauchy_pncounter_merge (Some b) (Some a) = Some ba /\
    valid ab /\ valid ba /\
    cauchy_pncounter_equals (Some ab) (Some ba) = true /\
    cauchy_pncounter_merge (Some a) (Some a) = Some a.
Proof.
  intros [Hap Han] [Hbp Hbn] Zap Zan Zbp Zbn.
  destruct (GCounterOps.merge_commutes _ _ Hap Hbp Zap Zbp)
    as (p1 & p2 & Hp1 & Hp2 & Hvp1 & Hvp2 & Hpe).
  destruct (GCounterOps.merge_commutes _ _ Han Hbn Zan Zbn)
    as (n1 & n2 & Hn1 & Hn2 & Hvn1 & Hvn2 & Hne).
  unfold cauchy_pncounter_merge.
  rewrite Hp1, Hp2, Hn1, Hn2, !GCounterOps.merge_idem by assumption.
  cbn [default from_option id].
  eexists _, _. split; [reflexivity|]. split; [reflexivity|].
  split; [split; assumption|]. split; [split; assumption|].
  split; [|destruct a; reflexivity].
  unfold cauchy_pncounter_equals. cbn [positive negative].
  rewrite Hpe, Hne. reflexivity.
Qed.

Lemma pncounter_merge_commutative_witness :
  exists ab ba,
    cauchy_pncounter_merge
      (Some (mk_pncounter (GCounter.of_list [5; 3; 0]) (GCounter.of_list [1; 0; 0])))
      (Some (mk_pncounter (GCounter.of_list [0; 7; 2]) (GCounter.of_list [0; 4; 0])))
      = Some ab /\
    cauchy_pncounter_merge
      (Some (mk_pncounter (GCounter.of_list [0; 7; 2]) (GCounter.of_list [0; 4; 0])))
      (Some (mk_pncounter (GCounter.of_list [5; 3; 0]) (GCounter.of_list [1; 0; 0])))
      = Some ba /\
    cauchy_pncounter_equals (Some ab) (Some ba) = true.
Proof.
  assert (Hv : forall l1 l2, (length l1 <= 3)%nat -> (length l2 <= 3)%nat ->
    Forall (fun x => 0 <= x < 2 ^ 64) l1 -> Forall (fun x => 0 <= x < 2 ^ 64) l2 ->
    valid (mk_pncounter (GCounter.of_list l1) (GCounter.of_list l2))).
  { intros l1 l2 Hl1 Hl2 Hr1 Hr2.
    split; apply GCounterFacts.gcounter_of_list_valid; try assumption;
      unfold CAUCHY_MAX_NODES; lia. }
  destruct (pncounter_merge_commutative
              (mk_pncounter (GCounter.of_list [5; 3; 0]) (GCounter.of_list [1; 0; 0]))
              (mk_pncounter (GCounter.of_list [0; 7; 2]) (GCounter.of_list [0; 4; 0]))
              ltac:(apply Hv; [simpl; lia | simpl; lia | repeat constructor; lia
                              | repeat constructor; lia])
              ltac:(apply Hv; [simpl; lia | simpl; lia | repeat constructor; lia
                              | repeat constructor; lia])
              (GCounterFacts.gcounter_of_list_zero_beyond _)
              (GCounterFacts.gcounter_of_list_zero_beyond _)
              (GCounterFacts.gcounter_of_list_zero_beyond _)
              (GCounterFacts.gcounter_of_list_zero_beyond _))
    as (ab & ba & H1 & H2 & _ & _ & H3 & _).
  exists ab, ba. auto.
Defined.

(** *** Wire format *)

Import Mem MemFacts.

Lemma bytes_at_take (b : list Z) (m off k : nat) :
  (off + k <= m)%nat -> bytes_at (take m b) off k = bytes_at b off k.
Proof.
  intros H. unfold bytes_at.
  replace m with (off + (m - off))%nat by lia.
  rewrite <- take_drop_commute, take_take.
  f_equal. lia.
Qed.

Lemma bytes_at_prefix (b1 b2 : list Z) (m off k : nat) :
  take m b1 = take m b2 -> (off + k <= m)%nat ->
  bytes_at b1 off k = bytes_at b2 off k.
Proof.
  intros Heq H. rewrite <- (bytes_at_take b1 m off k H), Heq.
  apply bytes_at_take, H.
Qed.

(** The G-Counter decoder reads only the bytes its size check covers. *)
Lemma gcounter_deserialize_frame (g : GCounter.cauchy_gcounter_t)
  (b1 b2 : list Z) (n size : Z) (y : option GCounter.cauchy_gcounter_t) :
  GCounter.cauchy_gcounter_deserialize (Some g) (Some b1) n = (CAUCHY_OK, y) ->
  take (Z.to_nat n) b1 = take (Z.to_nat n) b2 -> n <= size ->
  GCounter.cauchy_gcounter_deserialize (Some g) (Some b2) size = (CAUCHY_OK, y).
Proof.
  unfold GCounter.cauchy_gcounter_deserialize. intros H Heq Hsize.
  destruct (Z.ltb_spec n 4); [discriminate|].
  rewrite <- (bytes_at_prefix b1 b2 (Z.to_nat n) 0 4 Heq) by lia.
  set (num := le_value (bytes_at b1 0 4)) in *.
  destruct (Z.gtb_spec num CAUCHY_MAX_NODES); [discriminate|].
  destruct (Z.ltb_spec n (4 + num * 8)); [discriminate|].
  destruct (Z.ltb_spec size 4); [lia|].
  destruct (Z.ltb_spec size (4 + num * 8)); [lia|].
  destruct (Z_le_gt_dec 0 num) as [Hnum|Hnum].
  - rewrite <- (bytes_at_prefix b1 b2 (Z.to_nat n) 4 (Z.to_nat (num * 8)) Heq) by lia.
    exact H.
  - replace (Z.to_nat (num * 8)) with 0%nat in * by lia.
    unfold bytes_at in *. rewrite !take_0 in *. exact H.
Qed.

Lemma gcounter_serialize_ok (g : GCounter.cauchy_gcounter_t)
  (buf : list Z) (size : Z) :
  GCounter.valid g ->
  GCounter.cauchy_gcounter_serialized_size (Some g) <= size <= Z.of_nat (length buf) ->
  exists buf',
    GCounter.cauchy_gcounter_serialize (Some g) (Some buf) size =
      (GCounter.cauchy_gcounter_serialized_size (Some g), Some buf') /\
    length buf' = length buf.
Proof.
  intros (Hlen & _ & Hn) Hsize.
  unfold GCounter.cauchy_gcounter_serialize, GCounter.cauchy_gcounter_serialized_size in *.
  destruct (Z.ltb_spec size (4 + GCounter.num_nodes g * 8)); [lia|].
  eexists. split; [reflexivity|].
  assert (H1 : length (memcpy_to buf 0 (le_bytes 4 (GCounter.num_nodes g)))
               = length buf)
    by (apply length_memcpy_to; rewrite length_le_bytes; lia).
  rewrite length_memcpy_to; [exact H1|].
  rewrite H1, length_u64s_bytes, length_take. unfold CAUCHY_MAX_NODES in *. lia.
Qed.

(** X14. Serializing a PN-Counter into a buffer that is large enough and
    deserializing the bytes written yields a counter that
    [cauchy_pncounter_equals] accepts as equal; the byte count returned is
    [cauchy_pncounter_serialized_size]. *)
Theorem pncounter_roundtrip (x x0 : cauchy_pncounter_t) (buf : list Z) (size : Z) :
  valid x ->
  cauchy_pncounter_serialized_size (Some x) <= size <= Z.of_nat (length buf) ->
  exists buf' y,
    cauchy_pncounter_serialize (Some x) (Some buf) size
      = (cauchy_pncounter_serialized_size (Some x), Some buf') /\
    length buf' = length buf /\
    cauchy_pncounter_deserialize (Some x0) (Some buf')
      (cauchy_pncounter_serialized_size (Some x)) = (CAUCHY_OK, Some y) /\
    cauchy_pncounter_equals (Some x) (Some y) = true.
Proof.
  intros [Hp Hn] Hsize.
  pose proof Hp as (_ & _ & Hnp). pose proof Hn as (_ & _ & Hnn).
  unfold cauchy_pncounter_serialized_size,
    GCounter.cauchy_gcounter_serialized_size in Hsize.
  set (P := 4 + GCounter.num_nodes (positive x) * 8) in *.
  set (N := 4 + GCounter.num_nodes (negative x) * 8) in *.
  assert (HP : GCounter.cauchy_gcounter_serialized_size (Some (positive x)) = P)
    by reflexivity.
  assert (HN : GCounter.cauchy_gcounter_serialized_size (Some (negative x)) = N)
    by reflexivity.
  (* the two encoders *)
  destruct (SerializationFacts.gcounter_roundtrip (positive x) (positive x0) buf size Hp)
    as (n1 & b1 & y1 & Hs1 & _ & Hd1 & He1 & Hnum1 & _); [rewrite HP; lia|].
  destruct (gcounter_serialize_ok (positive x) buf size Hp) as (b1' & Hs1' & Hl1);
    [rewrite HP; lia|].
  rewrite Hs1 in Hs1'. injection Hs1' as Hn1 <-.
  change (n1 = P) in Hn1. subst n1.
  destruct (SerializationFacts.gcounter_roundtrip (negative x) (negative x0)
              (drop (Z.to_nat P) b1) (size - P) Hn)
    as (n2 & r & y2 & Hs2 & _ & Hd2 & He2 & _);
    [rewrite HN, length_drop; lia|].
  destruct (gcounter_serialize_ok (negative x) (drop (Z.to_nat P) b1) (size - P) Hn)
    as (r' & Hs2' & Hl2); [rewrite HN, length_drop; lia|].
  rewrite Hs2 in Hs2'. injection Hs2' as Hn2 <-.
  change (n2 = N) in Hn2. subst n2.
  set (buf2 := take (Z.to_nat P) b1 ++ r).
  assert (Hser : cauchy_pncounter_serialize (Some x) (Some buf) size
                 = (P + N, Some buf2)).
  { unfold cauchy_pncounter_serialize, cauchy_pncounter_serialized_size.
    rewrite HP, HN. destruct (Z.ltb_spec size (P + N)); [lia|].
    rewrite Hs1. destruct (Z.eqb_spec P 0); [lia|].
    cbn [default from_option id]. rewrite Hs2.
    destruct (Z.eqb_spec N 0); [lia|]. reflexivity. }
  assert (Hlt : length (take (Z.to_nat P) b1) = Z.to_nat P)
    by (rewrite length_take; lia).
  assert (Hdes : cauchy_pncounter_deserialize (Some x0) (Some buf2) (P + N)
                 = (CAUCHY_OK, Some {| positive := y1; negative := y2 |})).
  { unfold cauchy_pncounter_deserialize.
    destruct (Z.ltb_spec (P + N) (4 * 2)); [lia|].
    rewrite (gcounter_deserialize_frame (positive x0) b1 buf2 P (P + N) (Some y1) Hd1);
      [| unfold buf2; rewrite take_app_length' by (first [exact Hlt | symmetry; exact Hlt]);
         reflexivity
       | lia].
    cbn [default from_option id positive negative].
    unfold GCounter.cauchy_gcounter_serialized_size. rewrite Hnum1. fold P.
    replace (P + N - P) with N by lia.
    unfold buf2. rewrite drop_app_length' by (first [exact Hlt | symmetry; exact Hlt]).
    rewrite Hd2. reflexivity. }
  exists buf2, {| positive := y1; negative := y2 |}.
  unfold cauchy_pncounter_serialized_size. rewrite HP, HN.
  split; [exact Hser|]. split; [|split; [exact Hdes|]].
  - unfold buf2. rewrite length_app, Hlt, Hl2, length_drop. lia.
  - unfold cauchy_pncounter_equals. cbn [positive negative].
    rewrite He1, He2. reflexivity.
Qed.


Lemma pncounter_roundtrip_witness :
  exists buf' y,
    cauchy_pncounter_serialize
      (Some (mk_pncounter (GCounter.of_list [5; 3]) (GCounter.of_list [1; 0])))
      (Some (replicate 64 0)) 64 = (40, Some buf') /\
    cauchy_pncounter_deserialize (Some (cauchy_pncounter_init 0)) (Some buf') 40
      = (CAUCHY_OK, Some y) /\
    cauchy_pncounter_equals
      (Some (mk_pncounter (GCounter.of_list [5; 3]) (GCounter.of_list [1; 0])))
      (Some y) = true.
Proof.
  assert (Hv : valid (mk_pncounter (GCounter.of_list [5; 3]) (GCounter.of_list [1; 0]))).
  { split; cbn [positive negative]; apply GCounterFacts.gcounter_of_list_valid;
      first [simpl; unfold CAUCHY_MAX_NODES; lia | repeat constructor; lia]. }
  destruct (pncounter_roundtrip
              (mk_pncounter (GCounter.of_list [5; 3]) (GCounter.of_list [1; 0]))
              (cauchy_pncounter_init 0) (replicate 64 0) 64 Hv)
    as (buf' & y & H1 & _ & H2 & H3); [vm_compute; split; discriminate|].
  exists buf', y.
  change (cauchy_pncounter_serialized_size
            (Some (mk_pncounter (GCounter.of_list [5; 3]) (GCounter.of_list [1; 0]))))
    with 40 in H1, H2.
  split; [exact H1|]. split; [exact H2 | exact H3].
Defined.

End PNCounterFacts.

(** ** LWW-Register: typed accessors, merge and decoder *)

Module LWWOps.
Import LWW Mem MemFacts LoopFacts.

Lemma get_after_set (r' : cauchy_lww_register_t) (size : Z) (bytes : list Z) :
  value_size r' = size -> 0 < size ->
  take (Z.to_nat size) (value r') = take (Z.to_nat size) bytes ->
  cauchy_lww_get (Some r') = Some (take (Z.to_nat size) bytes).
Proof.
  intros Hs Hpos Ht. unfold cauchy_lww_get. rewrite Hs.
  destruct (Z.eqb_spec size 0); [lia|]. rewrite Ht. reflexivity.
Qed.

(** X15. A [u64] written with [cauchy_lww_set_u64] under a stamp that the
    register accepts is what [cauchy_lww_get_u64] reads back, and the
    register then has a value; under a stamp it does not accept the
    register is unchanged.  [cauchy_lww_get_u64] returns 0 for a register
    whose value is not eight bytes long. *)
Theorem lww_u64_roundtrip (r : cauchy_lww_register_t) (v ts node : Z) :
  0 <= v < 2 ^ 64 ->
  (lex_gt ts node (timestamp r) (node_id r) ->
   exists r',
     cauchy_lww_set_u64 (Some r) v ts node = (CAUCHY_OK, Some r') /\
     cauchy_lww_get_u64 (Some r') = v /\
     cauchy_lww_has_value (Some r') = true /\
     cauchy_lww_timestamp (Some r') = ts) /\
  (lex_le ts node (timestamp r) (node_id r) ->
   cauchy_lww_set_u64 (Some r) v ts node = (CAUCHY_OK, Some r)) /\
  (value_size r <> 8 -> cauchy_lww_get_u64 (Some r) = 0).
Proof.
  intros Hv. split; [|split].
  - intros Hgt. unfold cauchy_lww_set_u64.
    destruct (LWWFacts.set_accepts r (Some (le_bytes 8 v)) 8 ts node
                ltac:(unfold CAUCHY_LWW_MAX_VALUE_SIZE; lia) Hgt)
      as (r' & Hset & Hsize & Hts & _ & Hbytes).
    exists r'. split; [exact Hset|].
    specialize (Hbytes _ eq_refl ltac:(rewrite length_le_bytes; lia)).
    split; [|split].
    + unfold cauchy_lww_get_u64.
      rewrite (get_after_set r' 8 (le_bytes 8 v) Hsize ltac:(lia) Hbytes), Hsize.
      cbn [Z.eqb Pos.eqb negb].
      rewrite take_take. cbn [Z.to_nat Pos.to_nat Pos.iter_op Init.Nat.add Nat.min].
      rewrite (take_ge (le_bytes 8 v)) by (rewrite length_le_bytes; simpl; lia).
      apply le_value_le_bytes. exact Hv.
    + unfold cauchy_lww_has_value. rewrite Hsize. reflexivity.
    + exact Hts.
  - intros Hle. unfold cauchy_lww_set_u64.
    apply LWWFacts.set_drops; [unfold CAUCHY_LWW_MAX_VALUE_SIZE; lia | exact Hle].
  - intros Hne. unfold cauchy_lww_get_u64, cauchy_lww_get.
    destruct (value_size r =? 0); [reflexivity|].
    destruct (Z.eqb_spec (value_size r) 8); [contradiction | reflexivity].
Qed.

Lemma lww_u64_roundtrip_witness :
  exists r',
    cauchy_lww_set_u64 (Some cauchy_lww_init) 1234567890123 5 2 = (CAUCHY_OK, Some r') /\
    cauchy_lww_get_u64 (Some r') = 1234567890123.
Proof.
  destruct (lww_u64_roundtrip cauchy_lww_init 1234567890123 5 2 ltac:(lia)) as [H _].
  destruct H as (r' & H1 & H2 & _); [left; cbn; lia|].
  exists r'. auto.
Defined.

(** *** Strings *)

Lemma strlen_le (s : list Z) : (strlen s <= length s)%nat.
Proof. induction s as [|c s IH]; simpl; [lia|]. destruct (c =? 0); simpl; lia. Qed.

(** A buffer that agrees with a terminated string up to and including its
    NUL holds the same string. *)
Lemma strlen_prefix (s : list Z) :
  forall a : list Z,
  (strlen s < length s)%nat ->
  take (strlen s + 1) a = take (strlen s + 1) s ->
  strlen a = strlen s.
Proof.
  induction s as [|c s IH]; intros a Hlt Heq; [simpl in Hlt; lia|].
  cbn [strlen] in *. destruct (Z.eqb_spec c 0) as [->|Hc].
  - destruct a as [|x a]; [discriminate|]. cbn in Heq. injection Heq as ->.
    reflexivity.
  - cbn [length] in Hlt. destruct a as [|x a]; [discriminate|].
    cbn [Nat.add take] in Heq. injection Heq as -> Heq.
    cbn [strlen]. destruct (Z.eqb_spec c 0); [contradiction|].
    f_equal. apply IH; [lia | exact Heq].
Qed.

(** X16. A NUL-terminated string of at most 255 characters written with
    [cauchy_lww_set_string] under an accepted stamp is the string found at
    the pointer [cauchy_lww_get_string] returns; a longer string is refused
    with [CAUCHY_ERR_FULL] and the register is unchanged; a NULL string
    under an accepted stamp empties the register. *)
Theorem lww_string_roundtrip (r : cauchy_lww_register_t) (s : list Z)
  (ts node : Z) :
  (strlen s < length s)%nat ->
  lex_gt ts node (timestamp r) (node_id r) ->
  (Z.of_nat (strlen s) + 1 <= CAUCHY_LWW_MAX_VALUE_SIZE ->
   exists r' buf,
     cauchy_lww_set_string (Some r) (Some s) ts node = (CAUCHY_OK, Some r') /\
     cauchy_lww_get_string (Some r') = Some buf /\
     c_string buf = c_string s) /\
  (Z.of_nat (strlen s) + 1 > CAUCHY_LWW_MAX_VALUE_SIZE ->
   cauchy_lww_set_string (Some r) (Some s) ts node = (CAUCHY_ERR_FULL, Some r)) /\
  (exists r',
     cauchy_lww_set_string (Some r) None ts node = (CAUCHY_OK, Some r') /\
     cauchy_lww_get_string (Some r') = None /\
     cauchy_lww_has_value (Some r') = false).
Proof.
  intros Hterm Hgt. split; [|split].
  - intros Hfit. unfold cauchy_lww_set_string.
    set (size := Z.of_nat (strlen s) + 1) in *.
    destruct (LWWFacts.set_accepts r (Some s) size ts node Hfit Hgt)
      as (r' & Hset & Hsize & _ & _ & Hbytes).
    specialize (Hbytes _ eq_refl ltac:(unfold size; lia)).
    exists r', (value r'). split; [exact Hset|]. split.
    + unfold cauchy_lww_get_string. rewrite Hsize.
      destruct (Z.eqb_spec size 0); [unfold size in *; lia | reflexivity].
    + replace (Z.to_nat size) with (strlen s + 1)%nat in Hbytes by (unfold size; lia).
      unfold c_string. rewrite (strlen_prefix s (value r') Hterm Hbytes).
      exact Hbytes.
  - intros Hbig. unfold cauchy_lww_set_string, cauchy_lww_set.
    destruct (Z.gtb_spec (Z.of_nat (strlen s) + 1) CAUCHY_LWW_MAX_VALUE_SIZE);
      [reflexivity | lia].
  - unfold cauchy_lww_set_string.
    destruct (LWWFacts.set_accepts r None 0 ts node
                ltac:(unfold CAUCHY_LWW_MAX_VALUE_SIZE; lia) Hgt)
      as (r' & Hset & Hsize & _).
    exists r'. split; [exact Hset|].
    unfold cauchy_lww_get_string, cauchy_lww_has_value. rewrite Hsize.
    split; reflexivity.
Qed.

Lemma lww_string_roundtrip_witness :
  exists r' buf,
    cauchy_lww_set_string (Some cauchy_lww_init) (Some v1) 5 2 = (CAUCHY_OK, Some r') /\
    cauchy_lww_get_string (Some r') = Some buf /\
    c_string buf = v1.
Proof.
  destruct (lww_string_roundtrip cauchy_lww_init v1 5 2) as [H _].
  - cbn. lia.
  - left. cbn. lia.
  - destruct H as (r' & buf & H1 & H2 & H3); [vm_compute; discriminate|].
    exists r', buf. split; [exact H1|]. split; [exact H2|exact H3].
Defined.

(** *** Merge *)

Definition newer (x y : cauchy_lww_register_t) : bool :=
  (timestamp y >? timestamp x) ||
  ((timestamp y =? timestamp x) && (node_id y >? node_id x)).

Lemma merge_newer (x y : cauchy_lww_register_t) :
  cauchy_lww_merge (Some x) (Some y) = Some (if newer x y then y else x).
Proof. unfold cauchy_lww_merge, newer. destruct (_ || _); reflexivity. Qed.

Lemma newer_spec (x y : cauchy_lww_register_t) :
  newer x y = true <->
  timestamp x < timestamp y \/ (timestamp x = timestamp y /\ node_id x < node_id y).
Proof.
  unfold newer.
  rewrite orb_true_iff, andb_true_iff, !Z.gtb_ltb, !Z.ltb_lt, Z.eqb_eq. lia.
Qed.

Lemma newer_false (x y : cauchy_lww_register_t) :
  newer x y = false <->
  timestamp y < timestamp x \/ (timestamp x = timestamp y /\ node_id y <= node_id x).
Proof. rewrite <- not_true_iff_false, newer_spec. lia. Qed.

(** X17. [cauchy_lww_merge] returns one of its two arguments, the source
    when its (timestamp, node id) pair is the greater.  It is idempotent
    and associative, and it is commutative whenever the two registers carry
    different (timestamp, node id) pairs; with equal pairs each side keeps
    its own register. *)
Theorem lww_merge_semilattice (a b c : cauchy_lww_register_t) :
  cauchy_lww_merge (Some a) (Some a) = Some a /\
  cauchy_lww_merge (cauchy_lww_merge (Some a) (Some b)) (Some c) =
    cauchy_lww_merge (Some a) (cauchy_lww_merge (Some b) (Some c)) /\
  (timestamp a <> timestamp b \/ node_id a <> node_id b ->
   cauchy_lww_merge (Some a) (Some b) = cauchy_lww_merge (Some b) (Some a)) /\
  (timestamp a = timestamp b -> node_id a = node_id b ->
   cauchy_lww_merge (Some a) (Some b) = Some a /\
   cauchy_lww_merge (Some b) (Some a) = Some b).
Proof.
  split; [|split; [|split]].
  - rewrite merge_newer. destruct (newer a a); reflexivity.
  - rewrite (merge_newer a b), (merge_newer b c).
    destruct (newer a b) eqn:Hab, (newer b c) eqn:Hbc;
      rewrite !merge_newer, ?Hab, ?Hbc; try reflexivity.
    + destruct (newer a c) eqn:Hac; [reflexivity|].
      apply newer_spec in Hab, Hbc. apply newer_false in Hac. lia.
    + destruct (newer a c) eqn:Hac; [|reflexivity].
      apply newer_false in Hab, Hbc. apply newer_spec in Hac. lia.
  - intros Hne. rewrite !merge_newer.
    destruct (newer a b) eqn:Hab, (newer b a) eqn:Hba; try reflexivity.
    + apply newer_spec in Hab, Hba. lia.
    + apply newer_false in Hab, Hba. lia.
  - intros Hts Hnode. rewrite !merge_newer.
    destruct (newer a b) eqn:Hab; [apply newer_spec in Hab; lia|].
    destruct (newer b a) eqn:Hba; [apply newer_spec in Hba; lia|].
    split; reflexivity.
Qed.

Lemma lww_merge_semilattice_witness :
  cauchy_lww_merge (Some (mk_lww (replicate 256 0) 0 1 1))
    (Some (mk_lww (replicate 256 7) 1 2 1))
  = cauchy_lww_merge (Some (mk_lww (replicate 256 7) 1 2 1))
      (Some (mk_lww (replicate 256 0) 0 1 1)).
Proof.
  destruct (lww_merge_semilattice (mk_lww (replicate 256 0) 0 1 1)
              (mk_lww (replicate 256 7) 1 2 1) (mk_lww (replicate 256 0) 0 1 1))
    as (_ & _ & H & _).
  apply H. left. cbn. discriminate.
Defined.

(** *** Decoder *)

Import WireFacts.

Lemma le_value_u64_at (buf : list Z) (off : nat) :
  Forall is_byte buf -> 0 <= le_value (bytes_at buf off 8) < 2 ^ 64.
Proof.
  intros H. unfold bytes_at. apply le_value_u64. apply Forall_drop, H.
Qed.

(** X18. The register decoder accepts a buffer exactly when it holds the
    24 header bytes, the size field is at most 256 and the value fits in
    [size]; the register then carries the buffer's stamp, size and value
    bytes and is valid.  A buffer shorter than the header leaves the
    register as it was.  A buffer rejected for its size field still has its
    three header fields stored into the register, whose value bytes stay. *)
Theorem lww_deserialize_checked (r0 : cauchy_lww_register_t)
  (buf : list Z) (size : Z) :
  valid r0 -> Forall is_byte buf -> 0 <= size <= Z.of_nat (length buf) ->
  let ts := le_value (bytes_at buf 0 8) in
  let node := le_value (bytes_at buf 8 8) in
  let vs := le_value (bytes_at buf 16 8) in
  (24 <= size -> vs <= CAUCHY_LWW_MAX_VALUE_SIZE -> 24 + vs <= size ->
   exists r,
     cauchy_lww_deserialize (Some r0) (Some buf) size = (CAUCHY_OK, Some r) /\
     valid r /\ timestamp r = ts /\ node_id r = node /\ value_size r = vs /\
     take (Z.to_nat vs) (value r) = bytes_at buf 24 (Z.to_nat vs)) /\
  (size < 24 ->
   cauchy_lww_deserialize (Some r0) (Some buf) size = (CAUCHY_ERR_INVALID, Some r0)) /\
  (24 <= size -> CAUCHY_LWW_MAX_VALUE_SIZE < vs \/ size < 24 + vs ->
   cauchy_lww_deserialize (Some r0) (Some buf) size =
   (CAUCHY_ERR_INVALID,
    Some {| value := value r0; value_size := vs; timestamp := ts; node_id := node |})).
Proof.
  intros (Hlen & Hvs0 & Hts0 & Hnode0) Hb Hsize ts node vs.
  pose proof (le_value_u64_at buf 0 Hb) as Hts. fold ts in Hts.
  pose proof (le_value_u64_at buf 8 Hb) as Hnode. fold node in Hnode.
  pose proof (le_value_u64_at buf 16 Hb) as Hvs. fold vs in Hvs.
  unfold cauchy_lww_deserialize. cbv zeta. cbn [value_size value timestamp node_id].
  fold ts node vs. change (8 + 8 + 8) with 24.
  split; [|split].
  - intros H24 Hmax Hfit.
    destruct (Z.ltb_spec size 24); [lia|].
    destruct (Z.gtb_spec vs CAUCHY_LWW_MAX_VALUE_SIZE); [lia|].
    destruct (Z.ltb_spec size (24 + vs)); [lia|].
    unfold CAUCHY_LWW_MAX_VALUE_SIZE in *.
    destruct (Z.gtb_spec vs 0).
    + eexists. split; [reflexivity|]. cbn [value_size value timestamp node_id].
      assert (Hl : length (bytes_at buf 24 (Z.to_nat vs)) = Z.to_nat vs)
        by (apply length_bytes_at; lia).
      unfold valid. cbn [value_size value timestamp node_id].
      rewrite length_memcpy_to by (rewrite Hl, Hlen; lia).
      repeat split; try assumption; try lia.
      rewrite <- Hl at 1. apply LWWFacts.memcpy_to_prefix.
    + exists {| value := value r0; value_size := vs; timestamp := ts; node_id := node |}.
      split; [reflexivity|]. unfold valid. cbn [value_size value timestamp node_id].
      replace (Z.to_nat vs) with 0%nat by lia.
      repeat split; try assumption; try lia.
  - intros Hshort. destruct (Z.ltb_spec size 24); [reflexivity | lia].
  - intros H24 Hbad. destruct (Z.ltb_spec size 24); [lia|].
    destruct (Z.gtb_spec vs CAUCHY_LWW_MAX_VALUE_SIZE); [reflexivity|].
    destruct (Z.ltb_spec size (24 + vs)); [reflexivity | lia].
Qed.

Lemma lww_deserialize_checked_witness :
  cauchy_lww_deserialize (Some cauchy_lww_init)
    (Some [7; 0; 0; 0; 0; 0; 0; 0; 3; 0; 0; 0; 0; 0; 0; 0; 44; 1; 0; 0; 0; 0; 0; 0; 1; 2]) 26
  = (CAUCHY_ERR_INVALID,
     Some {| value := value cauchy_lww_init; value_size := 300;
             timestamp := 7; node_id := 3 |}).
Proof.
  assert (Hv : valid cauchy_lww_init).
  { unfold valid, cauchy_lww_init, CAUCHY_LWW_MAX_VALUE_SIZE.
    cbn [value value_size timestamp node_id].
    rewrite length_replicate. lia. }
  apply (lww_deserialize_checked cauchy_lww_init
           [7; 0; 0; 0; 0; 0; 0; 0; 3; 0; 0; 0; 0; 0; 0; 0; 44; 1; 0; 0; 0; 0; 0; 0; 1; 2] 26 Hv).
  - repeat constructor; unfold is_byte; lia.
  - cbn. lia.
  - lia.
  - left. vm_compute. reflexivity.
Defined.

End LWWOps.

(** ** Node context: timestamps and UID sequences *)

Module ContextOps.
Import Context LoopFacts.

Lemma gen_uid_step (c : cauchy_context_t) :
  VClock.valid (local_clock c) ->
  0 <= node_id c < VClock.num_nodes (local_clock c) ->
  exists c',
    cauchy_context_gen_uid (Some c) =
      (cauchy_uid_create (node_id c)
         (wrap64 (cauchy_context_get_timestamp (Some c) + 1)), Some c') /\
    VClock.valid (local_clock c') /\
    node_id c' = node_id c /\
    VClock.num_nodes (local_clock c') = VClock.num_nodes (local_clock c) /\
    op_counter c' = wrap64 (op_counter c + 1) /\
    cauchy_context_get_timestamp (Some c') =
      wrap64 (cauchy_context_get_timestamp (Some c) + 1).
Proof.
  intros Hv Hnode.
  destruct (VClockOps.increment_spec (local_clock c) (node_id c) Hv Hnode)
    as (vc' & Hinc & Hv' & Hnum & Hget & _).
  unfold cauchy_context_gen_uid, cauchy_context_get_timestamp.
  rewrite Hinc. cbn [default from_option id node_id local_clock op_counter].
  eexists. split; [rewrite Hget; reflexivity|].
  cbn [node_id local_clock op_counter]. auto.
Qed.

Lemma lookup_map {A B : Type} (f : A -> B) (l : list A) :
  forall i : nat, map f l !! i = f <$> (l !! i).
Proof.
  induction l as [|x l IH]; intros [|i]; cbn; try reflexivity. apply IH.
Qed.

Lemma NoDup_map_seq {B : Type} (f : nat -> B) (a n : nat) :
  (forall i j, f i = f j -> i = j) -> List.NoDup (map f (seq a n)).
Proof.
  intros Hinj. revert a. induction n as [|n IH]; intros a; cbn [seq map].
  - constructor.
  - constructor; [|apply IH].
    rewrite in_map_iff. intros (k & Hk & Hin).
    apply Hinj in Hk. apply in_seq in Hin. lia.
Qed.

Lemma timestamp_range (c : cauchy_context_t) :
  VClock.valid (local_clock c) ->
  0 <= node_id c < VClock.num_nodes (local_clock c) ->
  0 <= cauchy_context_get_timestamp (Some c) < 2 ^ 64.
Proof.
  intros Hv Hnode. unfold cauchy_context_get_timestamp, VClock.cauchy_vclock_get.
  destruct (Z.geb_spec (node_id c) (VClock.num_nodes (local_clock c))); [lia|].
  apply VClockOps.entry_range; [exact Hv|].
  destruct Hv as (_ & _ & ?). lia.
Qed.

Lemma gen_uids_spec (m : nat) :
  forall c0,
  VClock.valid (local_clock c0) ->
  0 <= node_id c0 < VClock.num_nodes (local_clock c0) ->
  0 <= op_counter c0 < 2 ^ 64 ->
  cauchy_context_get_timestamp (Some c0) + Z.of_nat m < 2 ^ 64 ->
  exists c1,
    gen_uids m (Some c0) =
      (map (fun k => cauchy_uid_create (node_id c0)
                       (cauchy_context_get_timestamp (Some c0) + Z.of_nat k))
           (seq 1 m), Some c1) /\
    cauchy_context_get_timestamp (Some c1)
      = cauchy_context_get_timestamp (Some c0) + Z.of_nat m /\
    op_counter c1 = wrap64 (op_counter c0 + Z.of_nat m).
Proof.
  induction m as [|m IH]; intros c0 Hv0 Hn0 Hop0 Hs0.
  - exists c0. cbn [gen_uids seq map]. split; [reflexivity|].
    split; [lia|]. rewrite Z.add_0_r, wrap64_small by exact Hop0. reflexivity.
  - pose proof (timestamp_range c0 Hv0 Hn0) as Hr.
    destruct (gen_uid_step c0 Hv0 Hn0) as (c' & Hstep & Hv' & Hnode' & Hnum' & Hop' & Hts').
    rewrite wrap64_small in Hts' by lia.
    rewrite wrap64_small in Hstep by lia.
    destruct (IH c' Hv' ltac:(rewrite Hnode', Hnum'; exact Hn0)
                ltac:(rewrite Hop'; apply wrap64_range)
                ltac:(rewrite Hts'; lia)) as (c1 & Hgen & Hts1 & Hop1).
    exists c1. cbn [gen_uids]. rewrite Hstep, Hgen.
    split; [|split; [lia|]].
    + f_equal. cbn [seq map]. change (Z.of_nat 1) with 1.
      rewrite <- (seq_shift m 1), map_map.
      apply (f_equal (cons _)). apply map_ext. intros k.
      rewrite Hnode', Hts'. f_equal. lia.
    + rewrite Hop1, Hop'. unfold wrap64.
      rewrite Zplus_mod_idemp_l. f_equal. lia.
Qed.

(** X19. On a context whose node id is below the clock's [num_nodes], [n]
    consecutive calls of [cauchy_context_gen_uid] return the UIDs with the
    context's node id and the timestamps t+1, ..., t+n, where t is the
    timestamp before the first call, as long as t+n does not wrap: the UIDs
    strictly increase under [cauchy_uid_compare], so no two are equal.  The
    calls add [n] to [op_counter] and leave the timestamp at t+n. *)
Theorem gen_uid_sequence (n : nat) (c : cauchy_context_t) :
  VClock.valid (local_clock c) ->
  0 <= node_id c < VClock.num_nodes (local_clock c) ->
  0 <= op_counter c < 2 ^ 64 ->
  cauchy_context_get_timestamp (Some c) + Z.of_nat n < 2 ^ 64 ->
  let t := cauchy_context_get_timestamp (Some c) in
  let us := fst (gen_uids n (Some c)) in
  let ctx' := snd (gen_uids n (Some c)) in
  us = map (fun k => cauchy_uid_create (node_id c) (t + Z.of_nat k)) (seq 1 n) /\
  (forall i j u v, us !! i = Some u -> us !! j = Some v -> (i < j)%nat ->
     cauchy_uid_compare u v = -1) /\
  List.NoDup us /\
  cauchy_context_get_timestamp ctx' = t + Z.of_nat n /\
  (op_counter <$> ctx') = Some (wrap64 (op_counter c + Z.of_nat n)).
Proof.
  intros Hv Hnode Hop Hsmall t us ctx'.
  destruct (gen_uids_spec n c Hv Hnode Hop Hsmall) as (c1 & Hgen & Hts & Hop1).
  subst us ctx'. rewrite Hgen. cbn [fst snd]. fold t.
  split; [reflexivity|]. split; [|split; [|split]].
  - intros i j u v Hi Hj Hij.
    rewrite lookup_map in Hi, Hj.
    destruct (seq 1 n !! i) as [ki|] eqn:Ei; [|discriminate].
    destruct (seq 1 n !! j) as [kj|] eqn:Ej; [|discriminate].
    apply lookup_seq in Ei as [-> _]. apply lookup_seq in Ej as [-> _].
    injection Hi as <-. injection Hj as <-.
    match goal with |- cauchy_uid_compare ?u ?v = _ =>
      pose proof (UidFacts.uid_compare_cases u v) as Hc end.
    unfold cauchy_uid_create in *. cbn [uid_timestamp uid_node_id] in Hc. lia.
  - apply NoDup_map_seq. intros i j [= H]. lia.
  - exact Hts.
  - cbn. rewrite Hop1. reflexivity.
Qed.

Lemma gen_uid_sequence_witness :
  fst (gen_uids 3 (cauchy_context_create 7)) =
  [cauchy_uid_create 7 1; cauchy_uid_create 7 2; cauchy_uid_create 7 3].
Proof.
  pose proof (gen_uid_sequence 3
                (mk_context 7 (VClock.cauchy_vclock_init CAUCHY_MAX_NODES) 0)) as H.
  cbv zeta in H. destruct H as (Hus & _).
  - apply VClockOps.vclock_valid_init. unfold CAUCHY_MAX_NODES. lia.
  - vm_compute. split; [discriminate | reflexivity].
  - cbn [op_counter]. lia.
  - vm_compute. reflexivity.
  - exact Hus.
Defined.

(** *** Ticks and received clocks *)

Lemma tick_beyond_num_nodes (vc : VClock.cauchy_vclock_t) (node : Z) :
  VClock.num_nodes vc <= node ->
  VClock.cauchy_vclock_increment (Some vc) node = Some vc /\
  VClock.cauchy_vclock_get (Some vc) node = 0.
Proof.
  intros H. unfold VClock.cauchy_vclock_increment, VClock.cauchy_vclock_get.
  destruct (Z.geb_spec node (VClock.num_nodes vc)); [split; reflexivity | lia].
Qed.

(** X20. For a context whose clock is valid with zero entries beyond
    [num_nodes], as [cauchy_context_create] leaves it, and a remote clock
    of the same kind: [cauchy_context_tick] adds one (modulo 2^64) to the
    context's own timestamp when the node id is below the clock's
    [num_nodes]; when it is not, the call changes nothing and the timestamp
    reads 0.  [cauchy_context_merge_clock] raises [num_nodes] to the larger
    of the two; it leaves the timestamp one above the larger of the old
    timestamp and the remote clock's entry for this node (modulo 2^64) when
    the node id is below that [num_nodes], and at 0 when it is not; every
    other entry becomes the larger of the two clocks' entries.  Neither
    call touches [op_counter]. *)
Theorem context_merge_clock_advances (c : cauchy_context_t)
  (remote : VClock.cauchy_vclock_t) :
  VClock.valid (local_clock c) -> VClock.valid remote ->
  VClock.zero_beyond (local_clock c) -> VClock.zero_beyond remote ->
  0 <= node_id c ->
  let t := cauchy_context_get_timestamp (Some c) in
  let n := VClock.num_nodes (local_clock c) in
  let n' := Z.max n (VClock.num_nodes remote) in
  (exists c',
     cauchy_context_tick (Some c) = Some c' /\
     op_counter c' = op_counter c /\
     (node_id c < n ->
      cauchy_context_get_timestamp (Some c') = wrap64 (t + 1)) /\
     (n <= node_id c -> c' = c /\ t = 0)) /\
  (exists c',
     cauchy_context_merge_clock (Some c) (Some remote) = Some c' /\
     node_id c' = node_id c /\ op_counter c' = op_counter c /\
     VClock.valid (local_clock c') /\
     VClock.num_nodes (local_clock c') = n' /\
     (node_id c < n' ->
      cauchy_context_get_timestamp (Some c') =
        wrap64 (Z.max t (VClock.cauchy_vclock_get (Some remote) (node_id c)) + 1)) /\
     (n' <= node_id c -> cauchy_context_get_timestamp (Some c') = 0) /\
     forall j, 0 <= j < CAUCHY_MAX_NODES -> j <> node_id c ->
       VClock.cauchy_vclock_get (Some (local_clock c')) j =
       Z.max (VClock.cauchy_vclock_get (Some (local_clock c)) j)
             (VClock.cauchy_vclock_get (Some remote) j)).
Proof.
  intros Hv Hr Zl Zr Hnode t n n'. split.
  - destruct (Z.lt_ge_cases (node_id c) n) as [Hin|Hout].
    + destruct (VClockOps.increment_spec (local_clock c) (node_id c) Hv
                  ltac:(unfold n in Hin; lia))
        as (vc' & Hinc & _ & _ & Hget & _).
      unfold cauchy_context_tick. rewrite Hinc. cbn [default from_option id].
      eexists. split; [reflexivity|].
      unfold cauchy_context_get_timestamp. cbn [local_clock node_id op_counter].
      split; [reflexivity|]. split; [intros _; exact Hget | lia].
    + destruct (tick_beyond_num_nodes (local_clock c) (node_id c) Hout) as [Hinc Hget].
      unfold cauchy_context_tick. rewrite Hinc. cbn [default from_option id].
      exists c. split; [destruct c; reflexivity|].
      split; [reflexivity|]. split; [lia|]. intros _. split; [reflexivity | exact Hget].
  - destruct (VClockOps.vclock_merge_spec (local_clock c) remote Hv Hr)
      as (m & Hm & Hvm & Hnum & Hent).
    pose proof Hv as (_ & _ & Hnl). pose proof Hr as (_ & _ & Hnr).
    assert (Hgm : forall j, 0 <= j < CAUCHY_MAX_NODES ->
      VClock.cauchy_vclock_get (Some m) j =
      Z.max (VClock.cauchy_vclock_get (Some (local_clock c)) j)
            (VClock.cauchy_vclock_get (Some remote) j)).
    { intros j Hj. unfold VClock.cauchy_vclock_get. rewrite Hnum.
      pose proof (VClockOps.entry_range (local_clock c) j Hv Hj).
      pose proof (VClockOps.entry_range remote j Hr Hj).
      destruct (Z.geb_spec j (Z.max (VClock.num_nodes (local_clock c))
                                     (VClock.num_nodes remote))),
        (Z.geb_spec j (VClock.num_nodes (local_clock c))),
        (Z.geb_spec j (VClock.num_nodes remote)); try lia;
        rewrite Hent by exact Hj; rewrite Hnum;
        destruct (Z.ltb_spec j (Z.max (VClock.num_nodes (local_clock c))
                                       (VClock.num_nodes remote))); try lia;
        try (rewrite (Zr j) by lia); try (rewrite (Zl j) by lia); lia. }
    unfold cauchy_context_merge_clock. rewrite Hm. cbn [default from_option id].
    destruct (Z.lt_ge_cases (node_id c) n') as [Hin|Hout].
    + destruct (VClockOps.increment_spec m (node_id c) Hvm
                  ltac:(unfold n', n in Hin; lia))
        as (vc' & Hinc & Hv' & Hnum' & Hget & Hother & _).
      rewrite Hinc. cbn [default from_option id].
      eexists. split; [reflexivity|]. cbn [local_clock node_id op_counter].
      split; [reflexivity|]. split; [reflexivity|]. split; [exact Hv'|].
      split; [rewrite Hnum', Hnum; reflexivity|].
      split; [|split; [lia|]].
      * intros _. unfold cauchy_context_get_timestamp at 1.
        cbn [local_clock node_id].
        rewrite Hget, Hgm by (unfold n', n in Hin; lia). reflexivity.
      * intros j Hj Hne. rewrite Hother by lia. apply Hgm, Hj.
    + destruct (tick_beyond_num_nodes m (node_id c) ltac:(unfold n', n in Hout; lia))
        as [Hinc Hget].
      rewrite Hinc. cbn [default from_option id].
      eexists. split; [reflexivity|]. cbn [local_clock node_id op_counter].
      split; [reflexivity|]. split; [reflexivity|]. split; [exact Hvm|].
      split; [exact Hnum|]. split; [lia|].
      split; [intros _; exact Hget|].
      intros j Hj _. apply Hgm, Hj.
Qed.

Lemma context_merge_clock_advances_witness :
  (exists c',
     cauchy_context_merge_clock
       (Some (mk_context 1 (VClock.of_list [3; 2; 0]) 0)) (Some (VClock.of_list [4; 6]))
       = Some c' /\
     cauchy_context_get_timestamp (Some c') = 7) /\
  cauchy_context_tick (cauchy_context_create 64) = cauchy_context_create 64 /\
  exists c',
    cauchy_context_merge_clock (cauchy_context_create 64) (Some (VClock.of_list [4; 6]))
      = Some c' /\
    cauchy_context_get_timestamp (Some c') = 0.
Proof.
  assert (Ha : VClock.valid (VClock.of_list [3; 2; 0])).
  { apply VClockFacts.vclock_of_list_valid;
      [vm_compute; lia | repeat constructor; lia]. }
  assert (Hb : VClock.valid (VClock.of_list [4; 6])).
  { apply VClockFacts.vclock_of_list_valid;
      [vm_compute; lia | repeat constructor; lia]. }
  assert (Za : VClock.zero_beyond (VClock.of_list [3; 2; 0]))
    by (apply VClockOps.of_list_zero_beyond; vm_compute; lia).
  assert (Zb : VClock.zero_beyond (VClock.of_list [4; 6]))
    by (apply VClockOps.of_list_zero_beyond; vm_compute; lia).
  assert (Hc : VClock.valid (VClock.cauchy_vclock_init CAUCHY_MAX_NODES))
    by (apply VClockOps.vclock_valid_init; unfold CAUCHY_MAX_NODES; lia).
  assert (Zc : VClock.zero_beyond (VClock.cauchy_vclock_init CAUCHY_MAX_NODES)).
  { intros i Hi. cbn in Hi. unfold CAUCHY_MAX_NODES in Hi. lia. }
  split; [|split].
  - destruct (context_merge_clock_advances
                (mk_context 1 (VClock.of_list [3; 2; 0]) 0) (VClock.of_list [4; 6])
                Ha Hb Za Zb ltac:(cbn; lia))
      as (_ & c' & H1 & _ & _ & _ & _ & H2 & _).
    exists c'. split; [exact H1|]. rewrite H2 by (cbn; lia). reflexivity.
  - destruct (context_merge_clock_advances
                (mk_context 64 (VClock.cauchy_vclock_init CAUCHY_MAX_NODES) 0)
                (VClock.of_list [4; 6]) Hc Hb Zc Zb ltac:(cbn; lia))
      as ((c' & H1 & _ & _ & H2) & _).
    destruct (H2 ltac:(vm_compute; discriminate)) as [-> _]. exact H1.
  - destruct (context_merge_clock_advances
                (mk_context 64 (VClock.cauchy_vclock_init CAUCHY_MAX_NODES) 0)
                (VClock.of_list [4; 6]) Hc Hb Zc Zb ltac:(cbn; lia))
      as (_ & c' & H1 & _ & _ & _ & _ & _ & H2 & _).
    exists c'. split; [exact H1 | apply H2; vm_compute; discriminate].
Defined.

End ContextOps.

(** ** G-Set: membership, cardinality and merge *)

Module GSetOps.
Import GSet GSetFacts LoopFacts.

Lemma gset_nonempty_length (d : list Z) : d <> [] -> (length d =? 0)%nat = false.
Proof. destruct d; [contradiction | reflexivity]. Qed.

Lemma empty_length (d : list Z) : (length d =? 0)%nat = true -> d = [].
Proof. destruct d; [reflexivity | discriminate]. Qed.

Lemma elem_matches_spec (h : Z) (d : list Z) (e : cauchy_gset_elem_t) :
  elem_matches h d e = true <-> hash e = h /\ data e = d.
Proof.
  unfold elem_matches. rewrite andb_true_iff, Z.eqb_eq, same_bytes_spec. tauto.
Qed.

Lemma chain_has_spec (chain : list cauchy_gset_elem_t) (h : Z) (d : list Z) :
  chain_has chain h d = true <-> exists e, In e chain /\ hash e = h /\ data e = d.
Proof.
  induction chain as [|x chain IH]; cbn [chain_has].
  - split; [discriminate | intros (e & [] & _)].
  - destruct (elem_matches h d x) eqn:Hm.
    + split; [|reflexivity]. intros _. exists x.
      split; [left; reflexivity | apply elem_matches_spec, Hm].
    + rewrite IH. split.
      * intros (e & He & H). exists e. split; [right; exact He | exact H].
      * intros (e & [<-|He] & H); [|exists e; auto].
        apply elem_matches_spec in H. congruence.
Qed.

Lemma bucket_bound (s : cauchy_gset_t) (h : Z) :
  valid s -> (Z.to_nat (h mod num_buckets s) < length (buckets s))%nat.
Proof.
  intros [Hnb Hlen]. pose proof (Z.mod_pos_bound h (num_buckets s) Hnb). lia.
Qed.

Lemma in_elements (s : cauchy_gset_t) (e : cauchy_gset_elem_t) :
  In e (elements s) <-> exists i chain, buckets s !! i = Some chain /\ In e chain.
Proof.
  unfold elements. rewrite in_concat. split.
  - intros (chain & Hc & He).
    apply list_elem_of_In, list_elem_of_lookup in Hc as [i Hi]. eauto.
  - intros (i & chain & Hi & He). exists chain. split; [|exact He].
    apply list_elem_of_In, list_elem_of_lookup. eauto.
Qed.

(** Membership as the elements decide it. *)
Lemma contains_spec (s : cauchy_gset_t) (d : list Z) :
  valid s -> placed s -> d <> [] ->
  (cauchy_gset_contains (Some s) d = true <->
   exists e, In e (elements s) /\ data e = d).
Proof.
  intros Hv Hp Hd. unfold cauchy_gset_contains.
  rewrite (gset_nonempty_length d Hd), chain_has_spec.
  pose proof (bucket_bound s (hash_data d) Hv) as Hb.
  split.
  - intros (e & He & _ & Hdata). exists e. split; [|exact Hdata].
    apply in_elements. eexists _, _. split; [|exact He].
    apply list_lookup_lookup_total_lt, Hb.
  - intros (e & He & Hdata). apply in_elements in He as (i & chain & Hi & He).
    destruct (Hp i chain e Hi He) as [Hh Hidx].
    exists e. rewrite Hh, Hdata. split; [|auto].
    rewrite Hdata in Hh. rewrite Hh in Hidx. rewrite <- Hidx.
    rewrite (list_lookup_total_correct _ _ _ Hi). exact He.
Qed.

Lemma contains_nonempty (s : cauchy_gset_t) (d : list Z) :
  cauchy_gset_contains (Some s) d = true -> d <> [].
Proof. intros H ->. discriminate. Qed.

Lemma add_cases (s : cauchy_gset_t) (d : list Z) (ok : bool) :
  d <> [] ->
  cauchy_gset_add (Some s) d ok =
  if cauchy_gset_contains (Some s) d then (CAUCHY_OK, Some s)
  else if ok then (CAUCHY_OK, Some (inserted s d))
  else (CAUCHY_ERR_NOMEM, Some s).
Proof.
  intros Hd. unfold cauchy_gset_add, cauchy_gset_contains, inserted.
  rewrite (gset_nonempty_length d Hd).
  destruct (chain_has _ _ _); [reflexivity|]. destruct ok; reflexivity.
Qed.

Lemma valid_inserted (s : cauchy_gset_t) (d : list Z) :
  valid s -> valid (inserted s d).
Proof.
  intros [Hnb Hlen]. unfold valid, inserted. cbn [buckets num_buckets].
  rewrite length_insert. auto.
Qed.

Lemma elements_inserted (s : cauchy_gset_t) (d : list Z) :
  valid s ->
  let idx := Z.to_nat (hash_data d mod num_buckets s) in
  elements (inserted s d) =
  concat (take idx (buckets s)) ++
  {| data := d; hash := hash_data d |} :: concat (drop idx (buckets s)).
Proof.
  intros Hv idx. pose proof (bucket_bound s (hash_data d) Hv) as Hb. fold idx in Hb.
  unfold elements, inserted. cbn [buckets]. fold idx.
  rewrite ORSetFacts.concat_insert by exact Hb.
  f_equal. cbn [app]. f_equal.
  rewrite (drop_S _ _ _ (list_lookup_lookup_total_lt _ _ Hb)). reflexivity.
Qed.

Lemma elements_split (s : cauchy_gset_t) (idx : nat) :
  elements s = concat (take idx (buckets s)) ++ concat (drop idx (buckets s)).
Proof. unfold elements. rewrite <- concat_app, take_drop. reflexivity. Qed.

Lemma in_elements_inserted (s : cauchy_gset_t) (d : list Z) (e : cauchy_gset_elem_t) :
  valid s ->
  (In e (elements (inserted s d)) <->
   e = {| data := d; hash := hash_data d |} \/ In e (elements s)).
Proof.
  intros Hv. rewrite (elements_inserted s d Hv).
  rewrite (elements_split s (Z.to_nat (hash_data d mod num_buckets s))).
  rewrite !in_app_iff. cbn [In]. intuition congruence.
Qed.

Lemma placed_inserted (s : cauchy_gset_t) (d : list Z) :
  valid s -> placed s -> placed (inserted s d).
Proof.
  intros Hv Hp i chain e Hi He.
  pose proof (bucket_bound s (hash_data d) Hv) as Hb.
  unfold inserted in Hi. cbn [buckets num_buckets] in *.
  destruct (decide (i = Z.to_nat (hash_data d mod num_buckets s))) as [->|Hne].
  - rewrite list_lookup_insert_eq in Hi by exact Hb. injection Hi as <-.
    destruct He as [<-|He]; [cbn; auto|].
    apply (Hp _ _ e (list_lookup_lookup_total_lt _ _ Hb) He).
  - rewrite list_lookup_insert_ne in Hi by congruence.
    apply (Hp i chain e Hi He).
Qed.

Lemma contains_inserted (s : cauchy_gset_t) (d d' : list Z) :
  valid s -> d <> [] ->
  cauchy_gset_contains (Some (inserted s d)) d' =
  if decide (d' = d) then true else cauchy_gset_contains (Some s) d'.
Proof.
  intros Hv Hd. pose proof (bucket_bound s (hash_data d) Hv) as Hb.
  unfold cauchy_gset_contains, inserted. cbn [buckets num_buckets].
  destruct (decide (d' = d)) as [->|Hne].
  - rewrite (gset_nonempty_length d Hd).
    rewrite list_lookup_total_insert_eq by exact Hb.
    cbn [chain_has]. unfold elem_matches. cbn [hash data].
    rewrite Z.eqb_refl. rewrite (proj2 (same_bytes_spec d d) eq_refl). reflexivity.
  - destruct (length d' =? 0)%nat; [reflexivity|].
    destruct (decide (Z.to_nat (hash_data d' mod num_buckets s)
                      = Z.to_nat (hash_data d mod num_buckets s))) as [He|He].
    + rewrite He, list_lookup_total_insert_eq by exact Hb.
      cbn [chain_has]. unfold elem_matches at 1. cbn [hash data].
      destruct (same_bytes d d') eqn:Hs;
        [apply same_bytes_spec in Hs; congruence|].
      rewrite andb_false_r. reflexivity.
    + rewrite list_lookup_total_insert_ne by congruence. reflexivity.
Qed.

(** X21. [cauchy_gset_add] of a payload the set already contains returns
    [CAUCHY_OK] and leaves the set as it is.  Adding a new payload needs
    memory: without it the call returns [CAUCHY_ERR_NOMEM] and the set is
    unchanged; with it the set contains the payload afterwards, contains
    every other payload exactly when it did before, and [count] has grown
    by one.  An empty payload is refused with [CAUCHY_ERR_INVALID]. *)
Theorem gset_add_contains (s : cauchy_gset_t) (d d' : list Z) :
  valid s -> d <> [] ->
  (cauchy_gset_contains (Some s) d = true ->
   forall ok, cauchy_gset_add (Some s) d ok = (CAUCHY_OK, Some s)) /\
  (cauchy_gset_contains (Some s) d = false ->
   cauchy_gset_add (Some s) d false = (CAUCHY_ERR_NOMEM, Some s) /\
   exists s',
     cauchy_gset_add (Some s) d true = (CAUCHY_OK, Some s') /\
     valid s' /\
     cauchy_gset_contains (Some s') d = true /\
     (d' <> d ->
      cauchy_gset_contains (Some s') d' = cauchy_gset_contains (Some s) d') /\
     cauchy_gset_count (Some s') = wrap64 (cauchy_gset_count (Some s) + 1)) /\
  (forall ok, cauchy_gset_add (Some s) [] ok = (CAUCHY_ERR_INVALID, Some s)) /\
  cauchy_gset_contains (Some s) [] = false.
Proof.
  intros Hv Hd. split; [|split; [|split]].
  - intros Hc ok. rewrite (add_cases s d ok Hd), Hc. reflexivity.
  - intros Hc. rewrite !(add_cases s d _ Hd), Hc. split; [reflexivity|].
    exists (inserted s d). split; [reflexivity|].
    split; [apply valid_inserted, Hv|].
    rewrite !(contains_inserted s d _ Hv Hd).
    split; [|split].
    + destruct (decide (d = d)); [reflexivity | contradiction].
    + intros Hne. destruct (decide (d' = d)); [contradiction | reflexivity].
    + reflexivity.
  - reflexivity.
  - reflexivity.
Qed.

Lemma gset_add_contains_witness :
  exists s',
    cauchy_gset_add (Some (cauchy_gset_init 0)) TwoPSet.str_x true
      = (CAUCHY_OK, Some s') /\
    cauchy_gset_contains (Some s') TwoPSet.str_x = true /\
    cauchy_gset_count (Some s') = 1.
Proof.
  assert (Hv : valid (cauchy_gset_init 0)) by (split; [reflexivity | reflexivity]).
  destruct (gset_add_contains (cauchy_gset_init 0) TwoPSet.str_x [] Hv
              ltac:(discriminate)) as (_ & H & _).
  destruct H as (_ & s' & H1 & _ & H2 & _ & H3); [reflexivity|].
  exists s'. auto.
Defined.

(** *** The invariant *)

Lemma gset_valid_init (c : Z) : 0 <= c -> valid (cauchy_gset_init c).
Proof.
  intros Hc. unfold valid, cauchy_gset_init. cbn [buckets num_buckets].
  rewrite length_replicate.
  destruct (Z.eqb_spec c 0); lia.
Qed.

Lemma elements_init (c : Z) : elements (cauchy_gset_init c) = [].
Proof.
  unfold elements, cauchy_gset_init. cbn [buckets].
  induction (Z.to_nat (if c =? 0 then 16 else c)) as [|n IH]; [reflexivity|].
  cbn. exact IH.
Qed.

Lemma inv_init (c : Z) : 0 <= c -> inv (cauchy_gset_init c).
Proof.
  intros Hc. unfold inv. rewrite elements_init.
  split; [apply gset_valid_init, Hc|]. split; [|split; [constructor|split]].
  - intros i chain e Hi He. unfold cauchy_gset_init in Hi. cbn [buckets] in Hi.
    apply lookup_replicate in Hi as [-> _]. destruct He.
  - intros e [].
  - reflexivity.
Qed.

Lemma inv_inserted (s : cauchy_gset_t) (d : list Z) :
  inv s -> d <> [] -> cauchy_gset_contains (Some s) d = false ->
  inv (inserted s d).
Proof.
  intros (Hv & Hp & Hnd & Hne & Hcount) Hd Hc.
  assert (Hfresh : ~ In d (map data (elements s))).
  { rewrite in_map_iff. intros (e & He & Hin).
    assert (cauchy_gset_contains (Some s) d = true)
      by (apply (contains_spec s d Hv Hp Hd); eauto).
    congruence. }
  split; [apply valid_inserted, Hv|].
  split; [apply placed_inserted; assumption|].
  rewrite (elements_inserted s d Hv).
  rewrite (elements_split s (Z.to_nat (hash_data d mod num_buckets s))) in *.
  split; [|split].
  - rewrite map_app in *. cbn [map data].
    eapply Stdlib.Sorting.Permutation.Permutation_NoDup;
      [apply Permutation_middle|].
    constructor; [exact Hfresh | exact Hnd].
  - intros e He. rewrite in_app_iff in He. cbn [In] in He.
    destruct He as [He|[<-|He]]; [| exact Hd |];
      apply Hne; rewrite in_app_iff; auto.
  - unfold inserted. cbn [count]. rewrite Hcount, !length_app. cbn [length].
    unfold wrap64. rewrite Zplus_mod_idemp_l. f_equal. lia.
Qed.

Lemma inv_add (s : cauchy_gset_t) (d : list Z) (ok : bool) :
  inv s ->
  exists s',
    snd (cauchy_gset_add (Some s) d ok) = Some s' /\ inv s' /\
    (fst (cauchy_gset_add (Some s) d ok) = CAUCHY_OK -> d <> [] /\
     forall d', cauchy_gset_contains (Some s') d' =
                if decide (d' = d) then true else cauchy_gset_contains (Some s) d').
Proof.
  intros Hinv. destruct d as [|b d].
  - exists s. split; [reflexivity|]. split; [exact Hinv|]. discriminate.
  - set (p := b :: d). assert (Hp : p <> []) by discriminate.
    rewrite (add_cases s p ok Hp).
    destruct (cauchy_gset_contains (Some s) p) eqn:Hc.
    + exists s. split; [reflexivity|]. split; [exact Hinv|]. intros _.
      split; [exact Hp|]. intros d'.
      destruct (decide (d' = p)) as [->|]; [exact Hc | reflexivity].
    + destruct ok.
      * exists (inserted s p). split; [reflexivity|].
        split; [apply inv_inserted; assumption|]. intros _.
        split; [exact Hp|]. intros d'.
        apply contains_inserted; [apply Hinv | exact Hp].
      * exists s. split; [reflexivity|]. split; [exact Hinv|]. discriminate.
Qed.

(** X22. [cauchy_gset_init] establishes and [cauchy_gset_add] keeps, whatever
    it returns, the invariant of the table: every element sits in the
    bucket of its payload's FNV-1a hash, no payload is stored twice, none is
    empty, and [count] is the number of stored payloads (modulo 2^64). *)
Theorem gset_count_is_cardinality (s : cauchy_gset_t) (d : list Z) (ok : bool)
  (capacity : Z) :
  (0 <= capacity ->
   inv (cauchy_gset_init capacity) /\
   cauchy_gset_count (Some (cauchy_gset_init capacity)) = 0 /\
   cauchy_gset_is_empty (Some (cauchy_gset_init capacity)) = true) /\
  (inv s ->
   exists s',
     snd (cauchy_gset_add (Some s) d ok) = Some s' /\ inv s' /\
     cauchy_gset_count (Some s') = wrap64 (Z.of_nat (length (elements s'))) /\
     List.NoDup (map data (elements s'))).
Proof.
  split.
  - intros Hc. split; [apply inv_init, Hc|]. split; reflexivity.
  - intros Hinv. destruct (inv_add s d ok Hinv) as (s' & Hs' & Hinv' & _).
    exists s'. split; [exact Hs'|]. split; [exact Hinv'|].
    destruct Hinv' as (_ & _ & Hnd & _ & Hcount). auto.
Qed.

Lemma gset_count_is_cardinality_witness :
  exists s',
    snd (cauchy_gset_add (Some (cauchy_gset_init 0)) TwoPSet.str_x true) = Some s' /\
    inv s' /\
    cauchy_gset_count (Some s') = wrap64 (Z.of_nat (length (elements s'))).
Proof.
  destruct (gset_count_is_cardinality (cauchy_gset_init 0) TwoPSet.str_x true 0)
    as [H0 H].
  destruct (H (proj1 (H0 ltac:(lia)))) as (s' & H1 & H2 & H3 & _).
  exists s'. auto.
Defined.

(** *** Merge *)

(** One source element added to [dst] with memory at hand. *)
Definition add_elem (dst : cauchy_gset_t) (e : cauchy_gset_elem_t) : cauchy_gset_t :=
  default dst (snd (cauchy_gset_add (Some dst) (data e) true)).

Lemma all_true_tl (outcomes : list bool) (n : nat) :
  all_true outcomes (S n) -> hd false outcomes = true /\ all_true (tl outcomes) n.
Proof.
  intros [Hlen Hall]. destruct outcomes as [|o outcomes]; [simpl in Hlen; lia|].
  split.
  - specialize (Hall 0%nat ltac:(lia)). cbn in Hall. cbn. congruence.
  - split; [simpl in *; lia|]. intros i Hi. apply (Hall (S i)). lia.
Qed.

Lemma all_true_le (outcomes : list bool) (n m : nat) :
  all_true outcomes n -> (m <= n)%nat -> all_true outcomes m.
Proof. intros [Hlen Hall] Hm. split; [lia|]. intros i Hi. apply Hall. lia. Qed.

Lemma add_ok (dst : cauchy_gset_t) (e : cauchy_gset_elem_t) :
  data e <> [] ->
  cauchy_gset_add (Some dst) (data e) true = (CAUCHY_OK, Some (add_elem dst e)).
Proof.
  intros Hd. unfold add_elem. rewrite (add_cases dst (data e) true Hd).
  destruct (cauchy_gset_contains (Some dst) (data e)); reflexivity.
Qed.

Lemma gset_merge_chain_fold (chain : list cauchy_gset_elem_t) :
  forall dst outcomes,
  (forall e, In e chain -> data e <> []) ->
  all_true outcomes (length chain) ->
  exists outcomes',
    merge_chain (Some dst) chain outcomes =
      (CAUCHY_OK, Some (fold_left add_elem chain dst), outcomes') /\
    forall n, all_true outcomes (length chain + n) -> all_true outcomes' n.
Proof.
  induction chain as [|e chain IH]; intros dst outcomes Hne Hall.
  - exists outcomes. split; [reflexivity|]. intros n Hn. exact Hn.
  - cbn [merge_chain fold_left length] in *.
    destruct (all_true_tl _ _ Hall) as [Hhd Htl].
    rewrite Hhd, (add_ok dst e) by (apply Hne; left; reflexivity).
    destruct (IH (add_elem dst e) (tl outcomes)) as (outcomes' & Hm & Hrest);
      [intros x Hx; apply Hne; right; exact Hx | exact Htl |].
    exists outcomes'. split; [exact Hm|].
    intros n Hn. apply Hrest. apply (all_true_tl outcomes (length chain + n)), Hn.
Qed.

Lemma gset_merge_buckets_fold (src : cauchy_gset_t) (indices : list Z) :
  forall dst outcomes,
  let chains := map (fun i => buckets src !!! Z.to_nat i) indices in
  (forall e, In e (concat chains) -> data e <> []) ->
  all_true outcomes (length (concat chains)) ->
  exists outcomes',
    merge_buckets (Some dst) src indices outcomes =
      (CAUCHY_OK, Some (fold_left add_elem (concat chains) dst), outcomes').
Proof.
  induction indices as [|i rest IH]; intros dst outcomes chains Hne Hall.
  - exists outcomes. reflexivity.
  - subst chains. cbn [map concat merge_buckets] in *.
    rewrite length_app in Hall.
    destruct (gset_merge_chain_fold (buckets src !!! Z.to_nat i) dst outcomes)
      as (outcomes1 & Hm & Hrest);
      [intros e He; apply Hne, in_app_iff; left; exact He
      | apply (all_true_le _ _ _ Hall); lia |].
    rewrite Hm, fold_left_app.
    apply IH; [intros e He; apply Hne, in_app_iff; right; exact He|].
    apply Hrest, Hall.
Qed.

Lemma gset_chains_zrange (s : cauchy_gset_t) :
  valid s ->
  map (fun i => buckets s !!! Z.to_nat i) (zrange (num_buckets s)) = buckets s.
Proof.
  intros [Hnb Hlen]. unfold zrange. rewrite map_map.
  replace (Z.to_nat (num_buckets s)) with (length (buckets s)) by lia.
  etransitivity; [|apply ORSetFacts.lookups_seq].
  apply map_ext. intros j. rewrite Nat2Z.id. reflexivity.
Qed.

Lemma gset_merge_ok (dst src : cauchy_gset_t) (outcomes : list bool) :
  valid src -> (forall e, In e (elements src) -> data e <> []) ->
  all_true outcomes (length (elements src)) ->
  cauchy_gset_merge (Some dst) (Some src) outcomes =
  (CAUCHY_OK, Some (fold_left add_elem (elements src) dst)).
Proof.
  intros Hv Hne Hall. unfold cauchy_gset_merge.
  destruct (gset_merge_buckets_fold src (zrange (num_buckets src)) dst outcomes)
    as (outcomes' & Hm); rewrite ?(gset_chains_zrange src Hv); try assumption.
  rewrite (gset_chains_zrange src Hv) in Hm. rewrite Hm. reflexivity.
Qed.

Lemma fold_add_elem (l : list cauchy_gset_elem_t) :
  forall dst,
  inv dst -> (forall e, In e l -> data e <> []) ->
  inv (fold_left add_elem l dst) /\
  forall d, cauchy_gset_contains (Some (fold_left add_elem l dst)) d =
            cauchy_gset_contains (Some dst) d ||
            existsb (fun e => same_bytes (data e) d) l.
Proof.
  induction l as [|e l IH]; intros dst Hinv Hne; cbn [fold_left existsb].
  - split; [exact Hinv|]. intros d. rewrite orb_false_r. reflexivity.
  - destruct (inv_add dst (data e) true Hinv) as (s' & Hs' & Hinv' & Hc).
    assert (Hadd : add_elem dst e = s') by (unfold add_elem; rewrite Hs'; reflexivity).
    rewrite Hadd.
    destruct (IH s' Hinv' ltac:(intros x Hx; apply Hne; right; exact Hx)) as [Hi Hd].
    split; [exact Hi|]. intros d. rewrite Hd.
    destruct Hc as [_ Hc].
    { rewrite (add_ok dst e) by (apply Hne; left; reflexivity). reflexivity. }
    rewrite Hc. destruct (decide (d = data e)) as [->|Hned].
    + rewrite (proj2 (same_bytes_spec _ _) eq_refl), !orb_true_r. reflexivity.
    + destruct (same_bytes (data e) d) eqn:Hs;
        [apply same_bytes_spec in Hs; congruence|].
      reflexivity.
Qed.

Lemma existsb_elements (s : cauchy_gset_t) (d : list Z) :
  inv s ->
  existsb (fun e => same_bytes (data e) d) (elements s) =
  cauchy_gset_contains (Some s) d.
Proof.
  intros (Hv & Hp & _ & Hne & _).
  destruct (existsb _ _) eqn:He.
  - apply existsb_exists in He as (e & Hin & Hs). apply same_bytes_spec in Hs.
    symmetry. apply (contains_spec s d Hv Hp); [|eauto].
    rewrite <- Hs. apply Hne, Hin.
  - destruct (cauchy_gset_contains (Some s) d) eqn:Hc; [|reflexivity].
    apply (contains_spec s d Hv Hp (contains_nonempty s d Hc)) in Hc
      as (e & Hin & Hd).
    assert (existsb (fun e => same_bytes (data e) d) (elements s) = true)
      by (apply existsb_exists; exists e; split;
          [exact Hin | apply same_bytes_spec, Hd]).
    congruence.
Qed.

Lemma merge_union (dst src : cauchy_gset_t) (outcomes : list bool) :
  inv dst -> inv src -> all_true outcomes (length (elements src)) ->
  exists m,
    cauchy_gset_merge (Some dst) (Some src) outcomes = (CAUCHY_OK, Some m) /\
    inv m /\
    forall d, cauchy_gset_contains (Some m) d =
              cauchy_gset_contains (Some dst) d || cauchy_gset_contains (Some src) d.
Proof.
  intros Hd Hs Hall. pose proof Hs as (Hv & _ & _ & Hne & _).
  exists (fold_left add_elem (elements src) dst).
  split; [apply gset_merge_ok; assumption|].
  destruct (fold_add_elem (elements src) dst Hd Hne) as [Hi Hc].
  split; [exact Hi|]. intros d. rewrite Hc, (existsb_elements src d Hs). reflexivity.
Qed.

Lemma merge_chain_nomem (chain : list cauchy_gset_elem_t) (dst : cauchy_gset_t) :
  (forall e, In e chain -> data e <> []) ->
  merge_chain (Some dst) chain [] =
  (if forallb (fun e => cauchy_gset_contains (Some dst) (data e)) chain
   then CAUCHY_OK else CAUCHY_ERR_NOMEM, Some dst, []).
Proof.
  induction chain as [|e chain IH]; intros Hne; [reflexivity|].
  cbn [merge_chain forallb hd tl].
  rewrite (add_cases dst (data e) false) by (apply Hne; left; reflexivity).
  destruct (cauchy_gset_contains (Some dst) (data e)); [|reflexivity].
  apply IH. intros x Hx. apply Hne. right. exact Hx.
Qed.

Lemma merge_buckets_nomem (src : cauchy_gset_t) (indices : list Z)
  (dst : cauchy_gset_t) :
  let chains := map (fun i => buckets src !!! Z.to_nat i) indices in
  (forall e, In e (concat chains) -> data e <> []) ->
  merge_buckets (Some dst) src indices [] =
  (if forallb (fun e => cauchy_gset_contains (Some dst) (data e)) (concat chains)
   then CAUCHY_OK else CAUCHY_ERR_NOMEM, Some dst, []).
Proof.
  induction indices as [|i rest IH]; intros chains Hne; [reflexivity|].
  subst chains. cbn [map concat merge_buckets] in *.
  rewrite merge_chain_nomem
    by (intros e He; apply Hne, in_app_iff; left; exact He).
  rewrite forallb_app.
  destruct (forallb _ (buckets src !!! Z.to_nat i)); [|reflexivity].
  apply IH. intros e He. apply Hne, in_app_iff. right. exact He.
Qed.

Lemma gset_merge_nomem (dst src : cauchy_gset_t) :
  inv src ->
  (exists e, In e (elements src) /\
             cauchy_gset_contains (Some dst) (data e) = false) ->
  cauchy_gset_merge (Some dst) (Some src) [] = (CAUCHY_ERR_NOMEM, Some dst).
Proof.
  intros Hs (e & He & Hc). pose proof Hs as (Hv & _ & _ & Hne & _).
  unfold cauchy_gset_merge.
  rewrite (merge_buckets_nomem src (zrange (num_buckets src)) dst)
    by (rewrite (gset_chains_zrange src Hv); exact Hne).
  rewrite (gset_chains_zrange src Hv). fold (elements src).
  destruct (forallb _ (elements src)) eqn:Hall; [|reflexivity].
  rewrite forallb_forall in Hall. specialize (Hall e He). congruence.
Qed.

(** X23. [cauchy_gset_merge] with memory for every source element returns
    [CAUCHY_OK] and leaves in [dst] the union: the merged set contains a
    payload exactly when [dst] or [src] did, and it keeps the table's
    invariant.  With no memory at all and a source element that [dst]
    lacks, the first such element makes the merge stop with
    [CAUCHY_ERR_NOMEM]. *)
Theorem gset_merge_union (dst src : cauchy_gset_t) (outcomes : list bool) :
  inv dst -> inv src ->
  (all_true outcomes (length (elements src)) ->
   exists m,
     cauchy_gset_merge (Some dst) (Some src) outcomes = (CAUCHY_OK, Some m) /\
     inv m /\
     forall d, cauchy_gset_contains (Some m) d =
               cauchy_gset_contains (Some dst) d ||
               cauchy_gset_contains (Some src) d) /\
  ((exists e, In e (elements src) /\
              cauchy_gset_contains (Some dst) (data e) = false) ->
   cauchy_gset_merge (Some dst) (Some src) [] = (CAUCHY_ERR_NOMEM, Some dst)).
Proof.
  intros Hd Hs. split; [apply merge_union; assumption|].
  apply gset_merge_nomem, Hs.
Qed.

Lemma all_true_replicate (n : nat) : all_true (replicate n true) n.
Proof.
  split; [rewrite length_replicate; lia|].
  intros i Hi. apply lookup_replicate_2, Hi.
Qed.

Lemma gset_merge_union_witness :
  exists m,
    cauchy_gset_merge (Some (cauchy_gset_init 0))
      (Some (inserted (cauchy_gset_init 4) TwoPSet.str_x)) [true]
      = (CAUCHY_OK, Some m) /\
    cauchy_gset_contains (Some m) TwoPSet.str_x = true.
Proof.
  assert (Hd : inv (cauchy_gset_init 0)) by (apply inv_init; lia).
  assert (Hs : inv (inserted (cauchy_gset_init 4) TwoPSet.str_x)).
  { apply inv_inserted; [apply inv_init; lia | discriminate | reflexivity]. }
  destruct (gset_merge_union (cauchy_gset_init 0)
              (inserted (cauchy_gset_init 4) TwoPSet.str_x) [true] Hd Hs) as [H _].
  destruct H as (m & H1 & _ & H2).
  - apply (all_true_replicate 1).
  - exists m. split; [exact H1|]. rewrite H2. reflexivity.
Defined.

(** *** Subset and equality *)

Lemma subset_chain_forallb (chain : list cauchy_gset_elem_t) (b : option cauchy_gset_t) :
  subset_chain chain b = forallb (fun e => cauchy_gset_contains b (data e)) chain.
Proof.
  induction chain as [|e chain IH]; [reflexivity|]. cbn [subset_chain forallb].
  destruct (cauchy_gset_contains b (data e)); [exact IH | reflexivity].
Qed.

Lemma subset_buckets_forallb (a : cauchy_gset_t) (b : option cauchy_gset_t)
  (indices : list Z) :
  subset_buckets a b indices =
  forallb (fun e => cauchy_gset_contains b (data e))
    (concat (map (fun i => buckets a !!! Z.to_nat i) indices)).
Proof.
  induction indices as [|i rest IH]; [reflexivity|].
  cbn [subset_buckets map concat]. rewrite forallb_app, subset_chain_forallb.
  destruct (forallb _ (buckets a !!! Z.to_nat i)); [exact IH | reflexivity].
Qed.

Lemma subset_spec (a b : cauchy_gset_t) :
  inv a ->
  (cauchy_gset_subset (Some a) (Some b) = true <->
   forall d, cauchy_gset_contains (Some a) d = true ->
             cauchy_gset_contains (Some b) d = true).
Proof.
  intros Ha. pose proof Ha as (Hv & Hp & _ & Hne & _).
  unfold cauchy_gset_subset.
  rewrite subset_buckets_forallb, (gset_chains_zrange a Hv), forallb_forall.
  fold (elements a). split.
  - intros H d Hc.
    apply (contains_spec a d Hv Hp (contains_nonempty a d Hc)) in Hc as (e & He & <-).
    apply H, He.
  - intros H e He. apply H. apply (contains_spec a (data e) Hv Hp (Hne e He)). eauto.
Qed.

Lemma same_members_length (a b : cauchy_gset_t) :
  inv a -> inv b ->
  (forall d, cauchy_gset_contains (Some a) d = cauchy_gset_contains (Some b) d) ->
  length (elements a) = length (elements b).
Proof.
  intros Ha Hb Hsame.
  pose proof Ha as (Hva & Hpa & Hnda & Hnea & _).
  pose proof Hb as (Hvb & Hpb & Hndb & Hneb & _).
  rewrite <- (length_map data (elements a)), <- (length_map data (elements b)).
  apply Permutation_length.
  apply Stdlib.Sorting.Permutation.NoDup_Permutation; try assumption.
  intros d. rewrite !in_map_iff. split.
  - intros (e & <- & He).
    assert (Hc : cauchy_gset_contains (Some b) (data e) = true).
    { rewrite <- Hsame. apply (contains_spec a _ Hva Hpa (Hnea e He)). eauto. }
    apply (contains_spec b _ Hvb Hpb (Hnea e He)) in Hc as (e' & He' & Hd). eauto.
  - intros (e & <- & He).
    assert (Hc : cauchy_gset_contains (Some a) (data e) = true).
    { rewrite Hsame. apply (contains_spec b _ Hvb Hpb (Hneb e He)). eauto. }
    apply (contains_spec a _ Hva Hpa (Hneb e He)) in Hc as (e' & He' & Hd). eauto.
Qed.

Lemma equals_spec (a b : cauchy_gset_t) :
  inv a -> inv b ->
  (cauchy_gset_equals (Some a) (Some b) = true <->
   forall d, cauchy_gset_contains (Some a) d = cauchy_gset_contains (Some b) d).
Proof.
  intros Ha Hb. unfold cauchy_gset_equals. split.
  - destruct (negb (count a =? count b)); [discriminate|].
    rewrite andb_true_iff, (subset_spec a b Ha), (subset_spec b a Hb).
    intros [Hab Hba] d.
    destruct (cauchy_gset_contains (Some a) d) eqn:Ca,
      (cauchy_gset_contains (Some b) d) eqn:Cb; try reflexivity.
    + apply Hab in Ca. congruence.
    + apply Hba in Cb. congruence.
  - intros Hsame.
    pose proof (same_members_length a b Ha Hb Hsame) as Hlen.
    pose proof Ha as (_ & _ & _ & _ & Hca). pose proof Hb as (_ & _ & _ & _ & Hcb).
    rewrite Hca, Hcb, Hlen, Z.eqb_refl. cbn [negb].
    apply andb_true_iff. split.
    + apply (subset_spec a b Ha). intros d Hd. rewrite <- Hsame. exact Hd.
    + apply (subset_spec b a Hb). intros d Hd. rewrite Hsame. exact Hd.
Qed.

(** X24. On tables that keep the invariant, [cauchy_gset_subset] holds
    exactly when every payload of the first set is in the second, and
    [cauchy_gset_equals] exactly when the two sets contain the same
    payloads. *)
Theorem gset_equals_same_members (a b : cauchy_gset_t) :
  inv a -> inv b ->
  (cauchy_gset_subset (Some a) (Some b) = true <->
   forall d, cauchy_gset_contains (Some a) d = true ->
             cauchy_gset_contains (Some b) d = true) /\
  (cauchy_gset_equals (Some a) (Some b) = true <->
   forall d, cauchy_gset_contains (Some a) d = cauchy_gset_contains (Some b) d) /\
  cauchy_gset_equals (Some a) (Some a) = true.
Proof.
  intros Ha Hb. split; [apply subset_spec, Ha|].
  split; [apply equals_spec; assumption|].
  apply (equals_spec a a Ha Ha). reflexivity.
Qed.

Lemma gset_equals_same_members_witness :
  cauchy_gset_equals (Some (inserted (cauchy_gset_init 4) TwoPSet.str_x))
    (Some (inserted (cauchy_gset_init 4) TwoPSet.str_x)) = true.
Proof.
  assert (Hs : inv (inserted (cauchy_gset_init 4) TwoPSet.str_x)).
  { apply inv_inserted; [apply inv_init; lia | discriminate | reflexivity]. }
  apply (gset_equals_same_members _ _ Hs Hs).
Defined.

Lemma length_add_elem (dst : cauchy_gset_t) (e : cauchy_gset_elem_t) :
  valid dst ->
  valid (add_elem dst e) /\
  (length (elements (add_elem dst e)) <= length (elements dst) + 1)%nat.
Proof.
  intros Hv. unfold add_elem. destruct (data e) as [|b d] eqn:Hd.
  - cbn. split; [exact Hv | lia].
  - rewrite (add_cases dst (b :: d) true) by discriminate.
    destruct (cauchy_gset_contains (Some dst) (b :: d)); cbn [snd default from_option id].
    + split; [exact Hv | lia].
    + split; [apply valid_inserted, Hv|].
      rewrite (elements_inserted dst (b :: d) Hv).
      rewrite (elements_split dst (Z.to_nat (hash_data (b :: d) mod num_buckets dst))).
      rewrite !length_app. cbn [length]. lia.
Qed.

Lemma length_fold_add_elem (l : list cauchy_gset_elem_t) :
  forall dst, valid dst ->
  (length (elements (fold_left add_elem l dst)) <= length (elements dst) + length l)%nat.
Proof.
  induction l as [|e l IH]; intros dst Hv; cbn [fold_left length]; [lia|].
  destruct (length_add_elem dst e Hv) as [Hv' Hl].
  specialize (IH (add_elem dst e) Hv'). lia.
Qed.

Lemma fold_add_elem_present (l : list cauchy_gset_elem_t) (dst : cauchy_gset_t) :
  (forall e, In e l -> cauchy_gset_contains (Some dst) (data e) = true) ->
  fold_left add_elem l dst = dst.
Proof.
  induction l as [|e l IH]; intros H; [reflexivity|]. cbn [fold_left].
  assert (Hadd : add_elem dst e = dst).
  { unfold add_elem. pose proof (H e ltac:(left; reflexivity)) as Hc.
    rewrite (add_cases dst (data e) true (contains_nonempty dst _ Hc)), Hc.
    reflexivity. }
  rewrite Hadd. apply IH. intros x Hx. apply H. right. exact Hx.
Qed.

Lemma merge_length (dst src m : cauchy_gset_t) (o : list bool) :
  inv dst -> inv src -> all_true o (length (elements src)) ->
  cauchy_gset_merge (Some dst) (Some src) o = (CAUCHY_OK, Some m) ->
  (length (elements m) <= length (elements dst) + length (elements src))%nat.
Proof.
  intros Hd Hs Ho Hm. pose proof Hs as (Hv & _ & _ & Hne & _).
  rewrite (gset_merge_ok dst src o Hv Hne Ho) in Hm. injection Hm as <-.
  apply length_fold_add_elem, Hd.
Qed.

(** X25. [cauchy_gset_merge] is a join up to [cauchy_gset_equals]: merging
    in either order gives equal sets, merging a set into itself changes
    nothing, merging three sets in either grouping gives equal sets, and
    both inputs are subsets of the result. *)
Theorem gset_merge_semilattice (a b c : cauchy_gset_t) (o : list bool) :
  inv a -> inv b -> inv c ->
  all_true o (length (elements a) + length (elements b) + length (elements c)) ->
  (exists ab ba,
     cauchy_gset_merge (Some a) (Some b) o = (CAUCHY_OK, Some ab) /\
     cauchy_gset_merge (Some b) (Some a) o = (CAUCHY_OK, Some ba) /\
     cauchy_gset_equals (Some ab) (Some ba) = true /\
     cauchy_gset_subset (Some a) (Some ab) = true /\
     cauchy_gset_subset (Some b) (Some ab) = true) /\
  cauchy_gset_merge (Some a) (Some a) o = (CAUCHY_OK, Some a) /\
  (exists ab ab_c bc a_bc,
     cauchy_gset_merge (Some a) (Some b) o = (CAUCHY_OK, Some ab) /\
     cauchy_gset_merge (Some ab) (Some c) o = (CAUCHY_OK, Some ab_c) /\
     cauchy_gset_merge (Some b) (Some c) o = (CAUCHY_OK, Some bc) /\
     cauchy_gset_merge (Some a) (Some bc) o = (CAUCHY_OK, Some a_bc) /\
     cauchy_gset_equals (Some ab_c) (Some a_bc) = true).
Proof.
  intros Ha Hb Hc Ho.
  destruct (merge_union a b o Ha Hb ltac:(apply (all_true_le _ _ _ Ho); lia))
    as (ab & Hab & Iab & Cab).
  destruct (merge_union b a o Hb Ha ltac:(apply (all_true_le _ _ _ Ho); lia))
    as (ba & Hba & Iba & Cba).
  destruct (merge_union b c o Hb Hc ltac:(apply (all_true_le _ _ _ Ho); lia))
    as (bc & Hbc & Ibc & Cbc).
  destruct (merge_union ab c o Iab Hc ltac:(apply (all_true_le _ _ _ Ho); lia))
    as (ab_c & Habc & Iabc & Cabc).
  split; [|split].
  - exists ab, ba. repeat (split; [assumption|]). split; [|split].
    + apply (equals_spec ab ba Iab Iba). intros d. rewrite Cab, Cba. apply orb_comm.
    + apply (subset_spec a ab Ha). intros d Hd. rewrite Cab, Hd. reflexivity.
    + apply (subset_spec b ab Hb). intros d Hd. rewrite Cab, Hd. apply orb_true_r.
  - pose proof Ha as (Hv & Hp & _ & Hne & _).
    rewrite (gset_merge_ok a a o Hv Hne ltac:(apply (all_true_le _ _ _ Ho); lia)).
    rewrite fold_add_elem_present; [reflexivity|].
    intros e He. apply (contains_spec a _ Hv Hp (Hne e He)). eauto.
  - pose proof (merge_length b c bc o Hb Hc
                  ltac:(apply (all_true_le _ _ _ Ho); lia) Hbc) as Hl.
    destruct (merge_union a bc o Ha Ibc ltac:(apply (all_true_le _ _ _ Ho); lia))
      as (a_bc & Habc' & Iabc' & Cabc').
    exists ab, ab_c, bc, a_bc. repeat (split; [assumption|]).
    apply (equals_spec ab_c a_bc Iabc Iabc'). intros d.
    rewrite Cabc, Cabc', Cab, Cbc. symmetry. apply orb_assoc.
Qed.

Lemma gset_merge_semilattice_witness :
  exists ab ba,
    cauchy_gset_merge (Some (cauchy_gset_init 0))
      (Some (inserted (cauchy_gset_init 4) TwoPSet.str_x)) [true]
      = (CAUCHY_OK, Some ab) /\
    cauchy_gset_merge (Some (inserted (cauchy_gset_init 4) TwoPSet.str_x))
      (Some (cauchy_gset_init 0)) [true]
      = (CAUCHY_OK, Some ba) /\
    cauchy_gset_equals (Some ab) (Some ba) = true.
Proof.
  assert (Hd : inv (cauchy_gset_init 0)) by (apply inv_init; lia).
  assert (Hs : inv (inserted (cauchy_gset_init 4) TwoPSet.str_x)).
  { apply inv_inserted; [apply inv_init; lia | discriminate | reflexivity]. }
  destruct (gset_merge_semilattice (cauchy_gset_init 0)
              (inserted (cauchy_gset_init 4) TwoPSet.str_x)
              (cauchy_gset_init 0) [true] Hd Hs Hd) as (H & _).
  - rewrite !elements_init. apply (all_true_replicate 1).
  - destruct H as (ab & ba & H1 & H2 & H3 & _). exists ab, ba. auto.
Defined.

(** *** What [cauchy_gset_add] and [cauchy_gset_merge] never undo *)

Lemma add_keeps (s : cauchy_gset_t) (d x : list Z) (ok : bool) :
  valid s ->
  exists s',
    snd (cauchy_gset_add (Some s) d ok) = Some s' /\ valid s' /\
    (cauchy_gset_contains (Some s) x = true ->
     cauchy_gset_contains (Some s') x = true).
Proof.
  intros Hv. destruct d as [|b d].
  - exists s. split; [reflexivity|]. split; [exact Hv | auto].
  - set (p := b :: d). assert (Hp : p <> []) by discriminate.
    rewrite (add_cases s p ok Hp).
    destruct (cauchy_gset_contains (Some s) p);
      [exists s; split; [reflexivity|]; split; [exact Hv | auto]|].
    destruct ok; [|exists s; split; [reflexivity|]; split; [exact Hv | auto]].
    exists (inserted s p). split; [reflexivity|].
    split; [apply valid_inserted, Hv|]. intros Hx.
    rewrite (contains_inserted s p x Hv Hp).
    destruct (decide (x = p)); [reflexivity | exact Hx].
Qed.

Lemma merge_chain_keeps (chain : list cauchy_gset_elem_t) (x : list Z) :
  forall dst outcomes,
  valid dst ->
  exists d',
    snd (fst (merge_chain (Some dst) chain outcomes)) = Some d' /\ valid d' /\
    (cauchy_gset_contains (Some dst) x = true ->
     cauchy_gset_contains (Some d') x = true).
Proof.
  induction chain as [|e chain IH]; intros dst outcomes Hv.
  - exists dst. split; [reflexivity|]. split; [exact Hv | auto].
  - cbn [merge_chain].
    destruct (add_keeps dst (data e) x (hd false outcomes) Hv) as (s' & Hs & Hv' & Hk).
    destruct (cauchy_gset_add (Some dst) (data e) (hd false outcomes)) as [res o].
    cbn [snd] in Hs. subst o.
    destruct res;
      try (exists s'; split; [reflexivity|]; split; [exact Hv' | exact Hk]).
    destruct (IH s' (tl outcomes) Hv') as (d' & Hd & Hvd & Hkd).
    exists d'. split; [exact Hd|]. split; [exact Hvd | auto].
Qed.

Lemma merge_buckets_keeps (src : cauchy_gset_t) (indices : list Z) (x : list Z) :
  forall dst outcomes,
  valid dst ->
  exists d',
    snd (fst (merge_buckets (Some dst) src indices outcomes)) = Some d' /\
    valid d' /\
    (cauchy_gset_contains (Some dst) x = true ->
     cauchy_gset_contains (Some d') x = true).
Proof.
  induction indices as [|i rest IH]; intros dst outcomes Hv.
  - exists dst. split; [reflexivity|]. split; [exact Hv | auto].
  - cbn [merge_buckets].
    destruct (merge_chain_keeps (buckets src !!! Z.to_nat i) x dst outcomes Hv)
      as (s' & Hs & Hv' & Hk).
    destruct (merge_chain (Some dst) (buckets src !!! Z.to_nat i) outcomes)
      as [[res o] outcomes'].
    cbn [fst snd] in Hs. subst o.
    destruct res;
      try (exists s'; split; [reflexivity|]; split; [exact Hv' | exact Hk]).
    destruct (IH s' outcomes' Hv') as (d' & Hd & Hvd & Hkd).
    exists d'. split; [exact Hd|]. split; [exact Hvd | auto].
Qed.

(** Whatever the source and the allocator's answers, [cauchy_gset_merge]
    leaves a table of the right shape that contains what [dst] contained. *)
Lemma merge_keeps (dst : cauchy_gset_t) (src : option cauchy_gset_t)
  (outcomes : list bool) (x : list Z) :
  valid dst ->
  exists d',
    snd (cauchy_gset_merge (Some dst) src outcomes) = Some d' /\ valid d' /\
    (cauchy_gset_contains (Some dst) x = true ->
     cauchy_gset_contains (Some d') x = true).
Proof.
  intros Hv. unfold cauchy_gset_merge. destruct src as [s|].
  - destruct (merge_buckets_keeps s (zrange (num_buckets s)) x dst outcomes Hv)
      as (d' & Hd & Hvd & Hk).
    destruct (merge_buckets (Some dst) s (zrange (num_buckets s)) outcomes)
      as [[res o] outcomes'].
    cbn [fst snd] in Hd. subst o.
    exists d'. split; [reflexivity|]. split; [exact Hvd | exact Hk].
  - exists dst. split; [reflexivity|]. split; [exact Hv | auto].
Qed.

End GSetOps.

(** ** 2P-Set: the count and the tombstone *)

Module TwoPSetFacts.
Import GSet GSetFacts TwoPSet.

Lemma wrap64_succ (c n : Z) : wrap64 (wrap64 (c + 1) + n) = wrap64 (c + (1 + n)).
Proof. unfold wrap64. rewrite Zplus_mod_idemp_l. f_equal. lia. Qed.

(** With fuel beyond the number of pending elements the loop runs until the
    iterator is exhausted, and counts the live ones. *)
Lemma count_loop_spec (s : cauchy_2pset_t) (fuel : nat) :
  forall it c,
  GSet.valid (added s) -> settled (added s) it ->
  0 <= bucket_idx it < num_buckets (added s) ->
  (length (pending (added s) it) < fuel)%nat ->
  0 <= c < 2 ^ 64 ->
  count_loop fuel s it c =
  wrap64 (c + Z.of_nat (length (List.filter (live s) (pending (added s) it)))).
Proof.
  induction fuel as [|fuel IH]; intros it c Hv Hs Hidx Hfuel Hc; [lia|].
  pose proof (iter_next_spec (added s) it Hv Hs Hidx) as Hnext.
  cbn [count_loop].
  destruct (pending (added s) it) as [|e rest] eqn:Hp.
  - rewrite Hnext. simpl. unfold wrap64. rewrite Z.add_0_r, Z.mod_small; lia.
  - destruct Hnext as (it' & -> & Hp' & Hs' & Hidx').
    simpl in Hfuel. cbn [List.filter].
    rewrite IH; try assumption.
    + rewrite Hp'. unfold live at 2.
      destruct (cauchy_gset_contains (Some (removed s)) (data e)); simpl.
      * reflexivity.
      * rewrite wrap64_succ. f_equal. lia.
    + rewrite Hp'. lia.
    + destruct (negb _); [|assumption].
      unfold wrap64. apply Z.mod_pos_bound. lia.
Qed.

Lemma count_spec (s : cauchy_2pset_t) :
  valid s ->
  cauchy_2pset_count (Some s) =
  wrap64 (Z.of_nat (length (List.filter (live s) (elements (added s))))).
Proof.
  intros [Ha Hr]. unfold cauchy_2pset_count.
  destruct (iter_init_spec (added s) Ha) as (Hp & Hs & Hidx).
  rewrite count_loop_spec; try assumption.
  - now rewrite Hp.
  - rewrite Hp. lia.
  - lia.
Qed.

(** *** The tombstone survives every call *)

Lemma do_call_keeps (x : list Z) (c : cauchy_2pset_call) (s : cauchy_2pset_t) :
  valid s -> cauchy_gset_contains (Some (removed s)) x = true ->
  exists s',
    do_call (Some s) c = Some s' /\ valid s' /\
    cauchy_gset_contains (Some (removed s')) x = true.
Proof.
  intros [Ha Hr] Hx. destruct c as [d ok|d ok|src oa or]; cbn [do_call].
  - unfold cauchy_2pset_add.
    destruct (cauchy_gset_contains (Some (removed s)) d);
      [exists s; split; [reflexivity|]; split; [split; assumption | exact Hx]|].
    destruct (GSetOps.add_keeps (added s) d x ok Ha) as (a' & Hadd & Ha' & _).
    destruct (cauchy_gset_add (Some (added s)) d ok) as [res o].
    cbn [snd] in Hadd. subst o. cbn [snd default from_option id].
    eexists. split; [reflexivity|]. split; [split; assumption | exact Hx].
  - unfold cauchy_2pset_remove.
    destruct (negb (cauchy_gset_contains (Some (added s)) d));
      [exists s; split; [reflexivity|]; split; [split; assumption | exact Hx]|].
    destruct (GSetOps.add_keeps (removed s) d x ok Hr) as (r' & Hadd & Hr' & Hk).
    destruct (cauchy_gset_add (Some (removed s)) d ok) as [res o].
    cbn [snd] in Hadd. subst o. cbn [snd default from_option id].
    eexists. split; [reflexivity|]. split; [split; assumption | apply Hk, Hx].
  - unfold cauchy_2pset_merge. destruct src as [src|];
      [|exists s; split; [reflexivity|]; split; [split; assumption | exact Hx]].
    destruct (GSetOps.merge_keeps (added s) (Some (added src)) oa x Ha)
      as (a' & Hm & Ha' & _).
    destruct (cauchy_gset_merge (Some (added s)) (Some (added src)) oa) as [res o].
    cbn [snd] in Hm. subst o. cbn [default from_option id added removed].
    destruct (GSetOps.merge_keeps (removed s) (Some (removed src)) or x Hr)
      as (r' & Hm & Hr' & Hk).
    destruct res;
      try (eexists; split; [reflexivity|]; split; [split; assumption | exact Hx]).
    destruct (cauchy_gset_merge (Some (removed s)) (Some (removed src)) or)
      as [res2 o].
    cbn [snd] in Hm. subst o. cbn [snd default from_option id].
    eexists. split; [reflexivity|]. split; [split; assumption | apply Hk, Hx].
Qed.

Lemma live_without (s : cauchy_2pset_t) (x : list Z) :
  cauchy_gset_contains (Some (removed s)) x = true ->
  List.filter (live s) (elements (added s)) =
  List.filter (fun e => live s e && negb (same_bytes (data e) x))
    (elements (added s)).
Proof.
  intros Hx. apply List.filter_ext. intros e. unfold live.
  destruct (same_bytes (data e) x) eqn:E; cbn [negb].
  - apply same_bytes_spec in E. rewrite E, Hx. reflexivity.
  - now rewrite andb_true_r.
Qed.

Lemma do_calls_keep (x : list Z) (calls : list cauchy_2pset_call) :
  forall s,
  valid s -> cauchy_gset_contains (Some (removed s)) x = true ->
  exists s',
    do_calls calls (Some s) = Some s' /\ valid s' /\
    cauchy_gset_contains (Some (removed s')) x = true.
Proof.
  induction calls as [|c calls IH]; intros s Hv Hx.
  - exists s. split; [reflexivity|]. split; assumption.
  - destruct (do_call_keeps x c s Hv Hx) as (s1 & H1 & Hv1 & Hx1).
    destruct (IH s1 Hv1 Hx1) as (s' & Hrun & Hv' & Hx').
    exists s'. split; [|split; assumption].
    unfold do_calls in *. cbn [fold_left]. rewrite H1. exact Hrun.
Qed.

(** C6.  In a 2P-Set whose [removed] G-Set contains [x],
    [cauchy_2pset_add(x)] returns [CAUCHY_OK] and leaves the state as it
    was, however often it is called; [cauchy_2pset_contains(x)] is false; and
    [cauchy_2pset_count] is the number of elements of [added] that are not in
    [removed], to which no element with payload [x] contributes.  The
    sequence add("x"), remove("x"), add("x") on an empty set ends with
    contains("x") false and count 0.  The tombstone is permanent: after any
    sequence of [cauchy_2pset_add], [cauchy_2pset_remove] and
    [cauchy_2pset_merge] calls, with any payloads, any source sets and any
    answers of the allocator, [removed] still contains [x], so in the state
    reached [x] is not contained, [cauchy_2pset_add(x)] changes nothing and
    no element with payload [x] contributes to [cauchy_2pset_count]. *)
Theorem twopset_tombstone_permanent (s : cauchy_2pset_t) (x : list Z) :
  valid s ->
  cauchy_gset_contains (Some (removed s)) x = true ->
  (forall alloc_ok,
     cauchy_2pset_add (Some s) x alloc_ok = (CAUCHY_OK, Some s)) /\
  (forall outcomes : list bool,
     fold_left (fun st ok => snd (cauchy_2pset_add st x ok)) outcomes (Some s)
       = Some s) /\
  cauchy_2pset_contains (Some s) x = false /\
  cauchy_2pset_count (Some s) =
    wrap64 (Z.of_nat (length (List.filter (live s) (elements (added s))))) /\
  List.filter (live s) (elements (added s)) =
    List.filter (fun e => live s e && negb (same_bytes (data e) x))
           (elements (added s)) /\
  (let s1 := snd (cauchy_2pset_add (Some (cauchy_2pset_init 0)) str_x true) in
   let s2 := snd (cauchy_2pset_remove s1 str_x true) in
   let s3 := snd (cauchy_2pset_add s2 str_x true) in
   cauchy_2pset_contains s1 str_x = true /\
   cauchy_2pset_contains s3 str_x = false /\
   cauchy_2pset_count s3 = 0) /\
  (forall calls : list cauchy_2pset_call,
   exists s',
     do_calls calls (Some s) = Some s' /\
     valid s' /\
     cauchy_gset_contains (Some (removed s')) x = true /\
     cauchy_2pset_contains (Some s') x = false /\
     (forall alloc_ok,
        cauchy_2pset_add (Some s') x alloc_ok = (CAUCHY_OK, Some s')) /\
     cauchy_2pset_count (Some s') =
       wrap64 (Z.of_nat (length
         (List.filter (fun e => live s' e && negb (same_bytes (data e) x))
            (elements (added s')))))).
Proof.
  intros Hv Hx.
  assert (Hadd : forall ok, cauchy_2pset_add (Some s) x ok = (CAUCHY_OK, Some s)).
  { intros ok. unfold cauchy_2pset_add. now rewrite Hx. }
  split; [exact Hadd|]. split; [|split; [|split; [|split; [|split]]]].
  - intros outcomes. induction outcomes as [|ok l IH]; [reflexivity|].
    cbn [fold_left]. rewrite Hadd. exact IH.
  - unfold cauchy_2pset_contains. rewrite Hx. apply andb_false_r.
  - now apply count_spec.
  - apply live_without, Hx.
  - vm_compute. repeat split.
  - intros calls.
    destruct (do_calls_keep x calls s Hv Hx) as (s' & Hrun & Hv' & Hx').
    exists s'. split; [exact Hrun|]. split; [exact Hv'|]. split; [exact Hx'|].
    split; [unfold cauchy_2pset_contains; rewrite Hx'; apply andb_false_r|].
    split; [intros ok; unfold cauchy_2pset_add; now rewrite Hx'|].
    rewrite (count_spec s' Hv'), (live_without s' x Hx'). reflexivity.
Qed.

Lemma twopset_tombstone_permanent_witness :
  let s := default (cauchy_2pset_init 0)
             (snd (cauchy_2pset_remove
                     (snd (cauchy_2pset_add (Some (cauchy_2pset_init 0)) str_x true))
                     str_x true)) in
  cauchy_2pset_add (Some s) str_x true = (CAUCHY_OK, Some s) /\
  cauchy_2pset_contains (Some s) str_x = false /\
  cauchy_2pset_count (Some s) = 0 /\
  cauchy_2pset_contains
    (do_calls [call_add [121; 0] true; call_remove [121; 0] true;
               call_merge (Some (cauchy_2pset_init 4)) [] [];
               call_add str_x true] (Some s)) str_x = false.
Proof.
  intros s.
  assert (Hv : valid s) by (vm_compute; repeat split; reflexivity).
  assert (Hx : cauchy_gset_contains (Some (removed s)) str_x = true)
    by (vm_compute; reflexivity).
  destruct (twopset_tombstone_permanent s str_x Hv Hx)
    as (H1 & _ & H2 & H3 & _ & _ & H4).
  split; [apply H1 | split; [exact H2|]].
  split; [rewrite H3; vm_compute; reflexivity|].
  destruct (H4 [call_add [121; 0] true; call_remove [121; 0] true;
                call_merge (Some (cauchy_2pset_init 4)) [] [];
                call_add str_x true]) as (s' & Hrun & _ & _ & Hc & _).
  rewrite Hrun. exact Hc.
Defined.

End TwoPSetFacts.

(** ** 2P-Set: removal and merge *)

Module TwoPSetOps.
Import GSet GSetOps TwoPSet.

Lemma twopset_inv_init (c : Z) : 0 <= c -> TwoPSet.inv (cauchy_2pset_init c).
Proof. intros Hc. split; apply inv_init, Hc. Qed.

(** X26. [cauchy_2pset_remove] of a payload that was never added returns
    [CAUCHY_ERR_NOTFOUND] and changes nothing.  Removing a payload that was
    added and not yet removed needs memory for the tombstone: without it
    the call returns [CAUCHY_ERR_NOMEM] and the set is unchanged; with it
    the payload is no longer contained, is recorded as removed and still as
    added, every other payload is contained exactly when it was before, and
    a later [cauchy_2pset_add] of the payload changes nothing. *)
Theorem twopset_remove_spec (s : cauchy_2pset_t) (d d' : list Z) :
  TwoPSet.inv s ->
  (cauchy_2pset_was_added (Some s) d = false ->
   forall ok, cauchy_2pset_remove (Some s) d ok = (CAUCHY_ERR_NOTFOUND, Some s)) /\
  (cauchy_2pset_contains (Some s) d = true ->
   cauchy_2pset_remove (Some s) d false = (CAUCHY_ERR_NOMEM, Some s) /\
   exists s',
     cauchy_2pset_remove (Some s) d true = (CAUCHY_OK, Some s') /\
     TwoPSet.inv s' /\
     cauchy_2pset_contains (Some s') d = false /\
     cauchy_2pset_was_removed (Some s') d = true /\
     cauchy_2pset_was_added (Some s') d = true /\
     (d' <> d ->
      cauchy_2pset_contains (Some s') d' = cauchy_2pset_contains (Some s) d') /\
     forall ok, cauchy_2pset_add (Some s') d ok = (CAUCHY_OK, Some s')).
Proof.
  intros [Ha Hr]. split.
  - intros Hw ok. unfold cauchy_2pset_was_added in Hw.
    unfold cauchy_2pset_remove. rewrite Hw. reflexivity.
  - intros Hc. unfold cauchy_2pset_contains in Hc.
    apply andb_true_iff in Hc as [Hadded Hrem]. apply negb_true_iff in Hrem.
    pose proof (contains_nonempty _ _ Hadded) as Hd.
    unfold cauchy_2pset_remove. rewrite Hadded. cbn [negb].
    rewrite !(add_cases (removed s) d _ Hd), Hrem. split; [destruct s; reflexivity|].
    eexists. split; [reflexivity|]. cbn [default from_option id].
    assert (Hin : cauchy_gset_contains (Some (inserted (removed s) d)) d = true).
    { rewrite (contains_inserted (removed s) d d (proj1 Hr) Hd).
      destruct (decide (d = d)); [reflexivity | contradiction]. }
    split; [split; [exact Ha | apply inv_inserted; assumption]|].
    unfold cauchy_2pset_contains, cauchy_2pset_was_removed, cauchy_2pset_was_added,
      cauchy_2pset_add.
    cbn [added removed]. rewrite Hin, Hadded.
    repeat split.
    intros Hne. rewrite (contains_inserted (removed s) d d' (proj1 Hr) Hd).
    destruct (decide (d' = d)); [contradiction | reflexivity].
Qed.

Lemma twopset_remove_spec_witness :
  let s := default (cauchy_2pset_init 0)
             (snd (cauchy_2pset_add (Some (cauchy_2pset_init 0)) str_x true)) in
  cauchy_2pset_remove (Some s) str_x false = (CAUCHY_ERR_NOMEM, Some s) /\
  exists s',
    cauchy_2pset_remove (Some s) str_x true = (CAUCHY_OK, Some s') /\
    cauchy_2pset_contains (Some s') str_x = false.
Proof.
  intros s.
  assert (Hs : TwoPSet.inv s).
  { split; [|apply inv_init; lia].
    apply (inv_inserted (cauchy_gset_init 0) str_x);
      [apply inv_init; lia | discriminate | reflexivity]. }
  destruct (twopset_remove_spec s str_x [] Hs) as [_ H].
  destruct H as (H1 & s' & H2 & _ & H3 & _); [reflexivity|].
  split; [exact H1|]. exists s'. split; [exact H2 | exact H3].
Defined.

(** X27. [cauchy_2pset_merge] with memory for every source element returns
    [CAUCHY_OK]; afterwards a payload is contained exactly when it was added
    in [dst] or [src] and removed in neither, so a removal seen by either
    replica wins.  Merging in the two orders gives sets that
    [cauchy_2pset_equals] accepts.  When the merge of the [added] tables runs
    out of memory the call returns [CAUCHY_ERR_NOMEM] before it looks at the
    [removed] tables: the removals of [src] are not taken over. *)
Theorem twopset_merge_remove_wins (a b : cauchy_2pset_t) (oa or : list bool) :
  TwoPSet.inv a -> TwoPSet.inv b ->
  (all_true oa (length (elements (added a)) + length (elements (added b))) ->
   all_true or (length (elements (removed a)) + length (elements (removed b))) ->
   exists ab ba,
     cauchy_2pset_merge (Some a) (Some b) oa or = (CAUCHY_OK, Some ab) /\
     cauchy_2pset_merge (Some b) (Some a) oa or = (CAUCHY_OK, Some ba) /\
     TwoPSet.inv ab /\
     (forall d, cauchy_2pset_contains (Some ab) d =
                (cauchy_2pset_was_added (Some a) d ||
                 cauchy_2pset_was_added (Some b) d) &&
                negb (cauchy_2pset_was_removed (Some a) d ||
                      cauchy_2pset_was_removed (Some b) d)) /\
     cauchy_2pset_equals (Some ab) (Some ba) = true) /\
  ((exists e, In e (elements (added b)) /\
              cauchy_gset_contains (Some (added a)) (data e) = false) ->
   cauchy_2pset_merge (Some a) (Some b) [] or = (CAUCHY_ERR_NOMEM, Some a)).
Proof.
  intros [Haa Har] [Hba Hbr]. split.
  - intros Hoa Hor.
    destruct (merge_union (added a) (added b) oa Haa Hba
                ltac:(apply (all_true_le _ _ _ Hoa); lia)) as (ma & Hma & Ima & Cma).
    destruct (merge_union (removed a) (removed b) or Har Hbr
                ltac:(apply (all_true_le _ _ _ Hor); lia)) as (mr & Hmr & Imr & Cmr).
    destruct (merge_union (added b) (added a) oa Hba Haa
                ltac:(apply (all_true_le _ _ _ Hoa); lia)) as (na & Hna & Ina & Cna).
    destruct (merge_union (removed b) (removed a) or Hbr Har
                ltac:(apply (all_true_le _ _ _ Hor); lia)) as (nr & Hnr & Inr & Cnr).
    exists {| added := ma; removed := mr |}, {| added := na; removed := nr |}.
    unfold cauchy_2pset_merge. rewrite Hma, Hna. cbn [default from_option id added removed].
    rewrite Hmr, Hnr. cbn [default from_option id].
    split; [reflexivity|]. split; [reflexivity|].
    split; [split; assumption|]. split.
    + intros d. unfold cauchy_2pset_contains, cauchy_2pset_was_added,
        cauchy_2pset_was_removed. cbn [added removed]. rewrite Cma, Cmr. reflexivity.
    + unfold cauchy_2pset_equals. cbn [added removed].
      apply andb_true_iff. split.
      * apply (equals_spec ma na Ima Ina). intros d. rewrite Cma, Cna. apply orb_comm.
      * apply (equals_spec mr nr Imr Inr). intros d. rewrite Cmr, Cnr. apply orb_comm.
  - intros Hex.
    pose proof (gset_merge_nomem (added a) (added b) Hba Hex) as Hm.
    unfold cauchy_2pset_merge. rewrite Hm. destruct a; reflexivity.
Qed.

Lemma twopset_merge_remove_wins_witness :
  let a := default (cauchy_2pset_init 0)
             (snd (cauchy_2pset_add (Some (cauchy_2pset_init 0)) str_x true)) in
  let b := default a (snd (cauchy_2pset_remove (Some a) str_x true)) in
  exists ab,
    cauchy_2pset_merge (Some a) (Some b) [true; true] [true]
      = (CAUCHY_OK, Some ab) /\
    cauchy_2pset_contains (Some a) str_x = true /\
    cauchy_2pset_contains (Some ab) str_x = false.
Proof.
  intros a b.
  assert (Hi : GSet.inv (inserted (cauchy_gset_init 0) str_x)).
  { apply (inv_inserted (cauchy_gset_init 0) str_x);
      [apply inv_init; lia | discriminate | reflexivity]. }
  assert (Ha : TwoPSet.inv a) by (split; [exact Hi | apply inv_init; lia]).
  assert (Hb : TwoPSet.inv b) by (split; exact Hi).
  destruct (twopset_merge_remove_wins a b [true; true] [true] Ha Hb) as [H _].
  destruct H as (ab & ba & H1 & _ & _ & H2 & _).
  - apply (all_true_replicate 2).
  - apply (all_true_replicate 1).
  - exists ab. split; [|split; [reflexivity|]].
    + exact H1.
    + rewrite H2. reflexivity.
Defined.

End TwoPSetOps.

(** ** OR-Set: membership, the counters and equality *)

Module ORSetOps.
Import ORSet ORSetFacts.

Lemma existsb_ext_in {A : Type} (P Q : A -> bool) (l : list A) :
  (forall x, In x l -> P x = Q x) -> existsb P l = existsb Q l.
Proof.
  induction l as [|y l IH]; intros H; [reflexivity|]. cbn [existsb].
  rewrite (H y) by (left; reflexivity). f_equal.
  apply IH. intros x Hx. apply H. right. exact Hx.
Qed.

Lemma existsb_none {A : Type} (l : list A) : existsb (fun _ => false) l = false.
Proof. induction l as [|y l IH]; [reflexivity | exact IH]. Qed.

Lemma existsb_compose {A B : Type} (P : B -> bool) (f : A -> B) (l : list A) :
  existsb P (map f l) = existsb (fun x => P (f x)) l.
Proof.
  induction l as [|y l IH]; [reflexivity|]. cbn [map existsb]. now rewrite IH.
Qed.

Lemma chain_has_existsb (chain : list cauchy_orset_entry_t) (h : Z) (d : list Z) :
  chain_has chain h d = existsb (entry_matches h d) chain.
Proof.
  induction chain as [|e chain IH]; [reflexivity|]. cbn [chain_has existsb].
  destruct (entry_matches h d e); [reflexivity | exact IH].
Qed.

(** A well-formed set contains [k] exactly when some entry for [k] is live. *)
Lemma orset_contains_spec (s : cauchy_orset_t) (k : list Z) :
  wf s -> k <> [] ->
  cauchy_orset_contains (Some s) k = existsb (active_k k) (entries s).
Proof.
  intros Hwf Hk. destruct (existsb (active_k k) (entries s)) eqn:E.
  - apply existsb_exists in E as (x & Hx & Hact).
    apply (contains_true s k x Hwf Hk Hx Hact).
  - destruct (cauchy_orset_contains (Some s) k) eqn:C; [|reflexivity].
    exfalso. destruct Hwf as [Hs Hp].
    unfold cauchy_orset_contains in C. rewrite (nonempty_length k Hk) in C.
    rewrite chain_has_existsb in C. apply existsb_exists in C as (x & Hx & Hm).
    pose proof (lookup_total_Some _ _ (bucket_index_bound s (hash_data k) Hs)) as Hc.
    destruct (Hp _ _ x Hc Hx) as [Hh _].
    rewrite (entry_matches_placed k x Hh) in Hm.
    assert (existsb (active_k k) (entries s) = true).
    { apply existsb_exists. exists x. split; [|exact Hm].
      apply (in_chain_entries s _ _ x Hc Hx). }
    congruence.
Qed.

Lemma active_k_other (k k' : list Z) (e : cauchy_orset_entry_t) :
  k' <> k -> data e = k -> active_k k' e = false.
Proof.
  intros Hne Hd. unfold active_k, is_k.
  destruct (same_bytes (data e) k') eqn:E; [|reflexivity].
  apply GSetFacts.same_bytes_spec in E. congruence.
Qed.

Lemma remove_chain_nomatch (chain : list cauchy_orset_entry_t) (h : Z) (d : list Z) :
  forall active found,
  existsb (entry_matches h d) chain = false ->
  remove_chain chain h d active found = (chain, active, found).
Proof.
  induction chain as [|e chain IH]; intros active found H; [reflexivity|].
  cbn [existsb] in H. apply orb_false_iff in H as [He Hrest].
  cbn [remove_chain]. rewrite He, (IH active found Hrest). reflexivity.
Qed.

Lemma orset_add_effect (s : cauchy_orset_t) (k : list Z) :
  wf s -> k <> [] ->
  exists s',
    cauchy_orset_add (Some s) k true = (CAUCHY_OK, Some s') /\
    wf s' /\
    cauchy_orset_contains (Some s') k = true /\
    (forall q, q <> k ->
       cauchy_orset_contains (Some s') q = cauchy_orset_contains (Some s) q) /\
    active_count s' = wrap64 (active_count s + 1) /\
    (forall e, In e (entries s') <-> e = e2 k (minted s) \/ In e (entries s)).
Proof.
  intros Hwf Hk. pose proof Hwf as [Hs Hp].
  pose proof (bucket_index_bound s (hash_data k) Hs) as Hidx.
  rewrite (add_spec s k Hk). eexists. split; [reflexivity|].
  set (e := e2 k (minted s)).
  set (s' := push_entry _ _ _ _ _ _).
  assert (Hwf' : wf s') by (apply (wf_push s e); [exact Hwf | reflexivity]).
  assert (Hc : forall q, q <> [] ->
            cauchy_orset_contains (Some s') q =
            active_k q e || cauchy_orset_contains (Some s) q).
  { intros q Hq. rewrite (orset_contains_spec s' q Hwf' Hq).
    rewrite (orset_contains_spec s q Hwf Hq).
    unfold s'. rewrite (entries_push s _ e _ _ _ Hidx).
    rewrite (entries_take_drop s (Z.to_nat (hash_data k mod num_buckets s))).
    rewrite !existsb_app. cbn [existsb].
    destruct (existsb (active_k q) (concat (take _ (buckets s))));
      destruct (active_k q e); reflexivity. }
  split; [exact Hwf'|]. split; [|split; [|split]].
  - rewrite (Hc k Hk).
    assert (Ha : active_k k e = true) by (apply active_k_spec; split; reflexivity).
    rewrite Ha. reflexivity.
  - intros q Hne. destruct q as [|b q]; [reflexivity|].
    rewrite Hc by discriminate.
    rewrite (active_k_other k (b :: q) e Hne eq_refl). reflexivity.
  - reflexivity.
  - intros x. apply in_entries_push, Hidx.
Qed.

(** X28. On a well-formed OR-Set, [cauchy_orset_add] of a non-empty payload
    without memory returns [CAUCHY_ERR_NOMEM] and changes nothing; with
    memory it returns [CAUCHY_OK], the set contains the payload afterwards
    and every other payload exactly when it did before.
    [cauchy_orset_remove] of a payload the set does not contain returns
    [CAUCHY_ERR_NOTFOUND] and changes nothing; of one it contains returns
    [CAUCHY_OK], after which the payload is not contained, every other
    payload is contained exactly when it was before, and no entry has been
    freed: the entries stay as tombstones. *)
Theorem orset_add_remove_contains (s : cauchy_orset_t) (k k' : list Z) :
  wf s -> k <> [] ->
  cauchy_orset_add (Some s) k false = (CAUCHY_ERR_NOMEM, Some s) /\
  (exists s',
     cauchy_orset_add (Some s) k true = (CAUCHY_OK, Some s') /\
     wf s' /\
     cauchy_orset_contains (Some s') k = true /\
     (k' <> k ->
      cauchy_orset_contains (Some s') k' = cauchy_orset_contains (Some s) k')) /\
  (cauchy_orset_contains (Some s) k = false ->
   cauchy_orset_remove (Some s) k = (CAUCHY_ERR_NOTFOUND, Some s)) /\
  (cauchy_orset_contains (Some s) k = true ->
   exists s',
     cauchy_orset_remove (Some s) k = (CAUCHY_OK, Some s') /\
     wf s' /\
     cauchy_orset_contains (Some s') k = false /\
     (k' <> k ->
      cauchy_orset_contains (Some s') k' = cauchy_orset_contains (Some s) k') /\
     length (entries s') = length (entries s) /\
     entry_count s' = entry_count s).
Proof.
  intros Hwf Hk. pose proof Hwf as [Hs Hp].
  pose proof (bucket_index_bound s (hash_data k) Hs) as Hidx.
  split; [|split; [|split]].
  - unfold cauchy_orset_add. rewrite (nonempty_length k Hk). reflexivity.
  - destruct (orset_add_effect s k Hwf Hk) as (s' & Ha & Hwf' & Hc & Hc' & _).
    exists s'. split; [exact Ha|]. split; [exact Hwf'|].
    split; [exact Hc | apply Hc'].
  - intros Hc. unfold cauchy_orset_contains in Hc.
    rewrite (nonempty_length k Hk), chain_has_existsb in Hc.
    unfold cauchy_orset_remove. rewrite (nonempty_length k Hk).
    rewrite (remove_chain_nomatch _ _ _ _ _ Hc).
    rewrite list_insert_id by (apply lookup_total_Some, Hidx).
    destruct s; reflexivity.
  - intros Hc. rewrite (orset_contains_spec s k Hwf Hk) in Hc.
    apply existsb_exists in Hc as (x & Hx & Hact).
    destruct (remove_spec s k x Hwf Hk Hx Hact) as (s' & Hrem & Hwf' & Hent).
    exists s'. split; [exact Hrem|]. split; [exact Hwf'|].
    split; [|split; [|split]].
    + rewrite (orset_contains_spec s' k Hwf' Hk), Hent, existsb_compose.
      rewrite (existsb_ext_in _ (fun _ => false)); [apply existsb_none|].
      intros y _. unfold tombstone. destruct (active_k k y) eqn:A;
        [apply active_k_set_removed | exact A].
    + intros Hne. destruct k' as [|b k']; [reflexivity|].
      rewrite (orset_contains_spec s' (b :: k') Hwf') by discriminate.
      rewrite (orset_contains_spec s (b :: k') Hwf) by discriminate.
      rewrite Hent, existsb_compose. apply existsb_ext_in.
      intros y _. unfold tombstone. destruct (active_k k y) eqn:A; [|reflexivity].
      apply active_k_spec in A as [Hd _].
      rewrite (active_k_other k (b :: k') y Hne Hd).
      apply (active_k_other k (b :: k') (set_removed y) Hne Hd).
    + rewrite Hent. apply length_map.
    + unfold cauchy_orset_remove in Hrem. rewrite (nonempty_length k Hk) in Hrem.
      destruct (remove_chain _ _ _ _ _) as [[c a] f]. injection Hrem as _ <-.
      reflexivity.
Qed.

Lemma orset_add_remove_contains_witness :
  (exists s',
     cauchy_orset_add (Some (cauchy_orset_init 0 1)) str_k true
       = (CAUCHY_OK, Some s') /\
     cauchy_orset_contains (Some s') str_k = true) /\
  cauchy_orset_remove (Some (cauchy_orset_init 0 1)) str_k
    = (CAUCHY_ERR_NOTFOUND, Some (cauchy_orset_init 0 1)) /\
  exists s',
    cauchy_orset_remove (Some scenario_R1) str_k = (CAUCHY_OK, Some s') /\
    cauchy_orset_contains (Some s') str_k = false.
Proof.
  assert (H0 : wf (cauchy_orset_init 0 1)) by (apply wf_check_sound; reflexivity).
  assert (H1 : wf scenario_R1) by (apply wf_check_sound; reflexivity).
  assert (Hk : str_k <> []) by discriminate.
  split; [|split].
  - destruct (orset_add_remove_contains (cauchy_orset_init 0 1) str_k [] H0 Hk)
      as (_ & (s' & Ha & _ & Hc & _) & _).
    exists s'. split; [exact Ha | exact Hc].
  - apply (orset_add_remove_contains (cauchy_orset_init 0 1) str_k [] H0 Hk).
    reflexivity.
  - destruct (orset_add_remove_contains scenario_R1 str_k [] H1 Hk)
      as (_ & _ & _ & H).
    destruct H as (s' & Hr & _ & Hc & _); [reflexivity|].
    exists s'. split; [exact Hr | exact Hc].
Defined.

(** *** The counters *)

Lemma wrap64_idem (z : Z) : wrap64 (wrap64 z) = wrap64 z.
Proof. unfold wrap64. apply Z.mod_mod. lia. Qed.

Lemma wrap64_bound (z : Z) : 0 <= wrap64 z < 2 ^ 64.
Proof. unfold wrap64. apply Z.mod_pos_bound. lia. Qed.

Lemma wrap64_plus_one (n : nat) :
  wrap64 (wrap64 (Z.of_nat n) + 1) = wrap64 (Z.of_nat (n + 1)).
Proof. unfold wrap64. rewrite Zplus_mod_idemp_l. f_equal. lia. Qed.

Lemma wrap64_minus (n m : nat) :
  (m <= n)%nat ->
  wrap64 (wrap64 (Z.of_nat n) - Z.of_nat m) = wrap64 (Z.of_nat (n - m)).
Proof. intros H. unfold wrap64. rewrite Zminus_mod_idemp_l. f_equal. lia. Qed.

Lemma count_if_all {A : Type} (l : list A) : count_if (fun _ => true) l = length l.
Proof.
  induction l as [|x l IH]; [reflexivity|].
  rewrite count_if_cons, IH. reflexivity.
Qed.

Lemma counted_init (capacity node : Z) :
  0 <= capacity -> counted (cauchy_orset_init capacity node).
Proof.
  intros Hc. unfold counted, shape, cauchy_orset_init, entries.
  cbn [buckets num_buckets active_count entry_count].
  assert (He : concat (replicate (Z.to_nat (if capacity =? 0 then 16 else capacity))
                         ([] : list cauchy_orset_entry_t)) = []).
  { induction (Z.to_nat _) as [|n IH]; [reflexivity | exact IH]. }
  rewrite He, length_replicate.
  destruct (Z.eqb_spec capacity 0); repeat split; lia.
Qed.

Lemma counted_push (s : cauchy_orset_t) (idx : nat) (e : cauchy_orset_entry_t)
  (ts : Z) :
  counted s -> (idx < length (buckets s))%nat ->
  counted (push_entry s idx e (wrap64 (entry_count s + 1))
             (if live e then wrap64 (active_count s + 1) else active_count s) ts).
Proof.
  intros ((Hnb & Hlen) & Ha & He) Hidx. split; [|split].
  - split; cbn [push_entry buckets num_buckets]; [exact Hnb|].
    rewrite length_insert. exact Hlen.
  - pose proof (cnt_push live s idx e (wrap64 (entry_count s + 1))
                  (if live e then wrap64 (active_count s + 1) else active_count s)
                  ts Hidx) as Hc.
    unfold cnt in Hc. rewrite Hc. cbn [push_entry active_count].
    rewrite Ha. destruct (live e); cbn [indicator].
    + apply wrap64_plus_one.
    + f_equal. f_equal. lia.
  - pose proof (cnt_push (fun _ => true) s idx e (wrap64 (entry_count s + 1))
                  (if live e then wrap64 (active_count s + 1) else active_count s)
                  ts Hidx) as Hc.
    unfold cnt in Hc. rewrite !count_if_all in Hc. rewrite Hc.
    cbn [push_entry entry_count indicator]. rewrite He. apply wrap64_plus_one.
Qed.

Lemma counted_add (s : cauchy_orset_t) (d : list Z) (ok : bool) :
  counted s ->
  exists s', snd (cauchy_orset_add (Some s) d ok) = Some s' /\ counted s'.
Proof.
  intros Hc. unfold cauchy_orset_add.
  destruct (length d =? 0)%nat; [exists s; auto|].
  destruct ok; cbn [negb]; [|exists s; auto].
  eexists. split; [reflexivity|].
  apply (counted_push s _ {| data := d; hash := hash_data d;
                             tag := cauchy_uid_create (node_id s)
                                      (wrap64 (timestamp s + 1));
                             removed := false |} _ Hc).
  apply bucket_index_bound, Hc.
Qed.

Lemma remove_chain_counts (chain : list cauchy_orset_entry_t) (h : Z) (d : list Z) :
  forall active found,
  0 <= active < 2 ^ 64 ->
  remove_chain chain h d active found =
  (map (fun e => if entry_matches h d e then set_removed e else e) chain,
   wrap64 (active - Z.of_nat (count_if (entry_matches h d) chain)),
   found || existsb (entry_matches h d) chain).
Proof.
  induction chain as [|e chain IH]; intros active found Ha.
  - cbn. rewrite orb_false_r. unfold wrap64.
    rewrite Z.sub_0_r, Z.mod_small by lia. reflexivity.
  - cbn [remove_chain map existsb]. rewrite count_if_cons.
    destruct (entry_matches h d e); cbn [indicator].
    + rewrite (IH (wrap64 (active - 1)) true (wrap64_bound _)).
      rewrite orb_true_r. f_equal. f_equal.
      unfold wrap64. rewrite Zminus_mod_idemp_l. f_equal. lia.
    + rewrite (IH active found Ha). reflexivity.
Qed.

Lemma live_after_remove (chain : list cauchy_orset_entry_t) (h : Z) (d : list Z) :
  (count_if live
     (map (fun e => if entry_matches h d e then set_removed e else e) chain)
   + count_if (entry_matches h d) chain = count_if live chain)%nat.
Proof.
  induction chain as [|e chain IH]; [reflexivity|].
  cbn [map]. rewrite !count_if_cons.
  destruct (entry_matches h d e) eqn:E; cbn [indicator].
  - unfold entry_matches in E. apply andb_true_iff in E as [E _].
    apply andb_true_iff in E as [E _].
    unfold live at 1 3. cbn [set_removed removed]. rewrite E. cbn [negb indicator]. lia.
  - lia.
Qed.

Lemma counted_remove (s : cauchy_orset_t) (d : list Z) :
  counted s ->
  exists s', snd (cauchy_orset_remove (Some s) d) = Some s' /\ counted s'.
Proof.
  intros Hc. pose proof Hc as (Hs & Ha & He). unfold cauchy_orset_remove.
  destruct (length d =? 0)%nat; [exists s; auto|].
  set (idx := Z.to_nat (hash_data d mod num_buckets s)).
  pose proof (bucket_index_bound s (hash_data d) Hs) as Hidx. fold idx in Hidx.
  rewrite remove_chain_counts by (rewrite Ha; apply wrap64_bound).
  eexists. split; [reflexivity|].
  set (f := fun e => if entry_matches (hash_data d) d e then set_removed e else e).
  set (chain := buckets s !!! idx).
  pose proof (live_after_remove chain (hash_data d) d) as Hl. fold f in Hl.
  assert (Hent : entries s = concat (take idx (buckets s)) ++ chain
                             ++ concat (drop (S idx) (buckets s)))
    by (apply concat_lookup, lookup_total_Some, Hidx).
  split; [|split].
  - destruct Hs as [Hnb Hlen]. split; cbn [buckets num_buckets]; [exact Hnb|].
    rewrite length_insert. exact Hlen.
  - unfold entries at 1. cbn [buckets active_count].
    rewrite concat_insert by exact Hidx.
    rewrite Ha, Hent, !count_if_app.
    rewrite wrap64_minus by lia. f_equal. f_equal. lia.
  - unfold entries at 1. cbn [buckets entry_count].
    rewrite concat_insert by exact Hidx.
    rewrite He, Hent, !length_app, length_map. reflexivity.
Qed.

Lemma counted_mark (d : cauchy_orset_t) (h : Z) (t : cauchy_uid_t) (pos : nat)
  (x : cauchy_orset_entry_t) :
  counted d -> find_entry_by_tag d h t = Some (pos, x) -> removed x = false ->
  counted (mark_removed d (Z.to_nat (h mod num_buckets d)) pos x).
Proof.
  intros (Hs & Ha & He) Hfind Hx.
  pose proof (bucket_index_bound d h Hs) as Hidx.
  destruct (find_entry_Some d h t pos x Hs Hfind) as (Hpos & _ & _).
  split; [|split].
  - destruct Hs as [Hnb Hlen]. split; cbn [mark_removed buckets num_buckets];
      [exact Hnb|]. rewrite length_insert. exact Hlen.
  - pose proof (cnt_mark live d _ pos x Hidx Hpos) as Hc. unfold cnt in Hc.
    unfold live at 2 4 in Hc. cbn [set_removed removed] in Hc.
    rewrite Hx in Hc. cbn [negb indicator] in Hc.
    cbn [mark_removed active_count]. rewrite Ha.
    change 1 with (Z.of_nat 1). rewrite wrap64_minus by lia.
    f_equal. f_equal. lia.
  - pose proof (cnt_mark (fun _ => true) d _ pos x Hidx Hpos) as Hc.
    unfold cnt in Hc. rewrite !count_if_all in Hc.
    cbn [mark_removed entry_count]. rewrite He. f_equal. f_equal.
    cbn [indicator] in Hc. lia.
Qed.

Lemma counted_insert (d : cauchy_orset_t) (e : cauchy_orset_entry_t) :
  counted d -> counted (insert_copy d e).
Proof.
  intros Hc. unfold insert_copy. cbn [removed].
  apply (counted_push d _ {| data := data e; hash := hash e; tag := tag e;
                             removed := removed e |} (timestamp d) Hc).
  apply bucket_index_bound, Hc.
Qed.

Lemma counted_merge_chain (chain : list cauchy_orset_entry_t) :
  forall dst avail,
  counted dst -> counted (snd (fst (merge_chain dst chain avail))).
Proof.
  induction chain as [|e chain IH]; intros dst avail Hc; [exact Hc|].
  cbn [merge_chain].
  destruct (find_entry_by_tag dst (hash e) (tag e)) as [[pos x]|] eqn:Hfind.
  - destruct (removed e && negb (removed x)) eqn:Hm.
    + apply andb_true_iff in Hm as [_ Hx]. apply negb_true_iff in Hx.
      apply IH. apply (counted_mark dst _ _ _ _ Hc Hfind Hx).
    + apply IH, Hc.
  - destruct avail as [|avail]; [exact Hc|].
    apply IH, counted_insert, Hc.
Qed.

Lemma counted_merge_buckets (src : cauchy_orset_t) (indices : list Z) :
  forall dst avail,
  counted dst -> counted (snd (fst (merge_buckets dst src indices avail))).
Proof.
  induction indices as [|i rest IH]; intros dst avail Hc; [exact Hc|].
  cbn [merge_buckets].
  pose proof (counted_merge_chain (buckets src !!! Z.to_nat i) dst avail Hc) as H.
  destruct (merge_chain dst (buckets src !!! Z.to_nat i) avail) as [[res d'] a'].
  cbn [fst snd] in H. destruct res; try exact H. apply IH, H.
Qed.

Lemma counted_merge (dst src : cauchy_orset_t) (avail : nat) :
  counted dst ->
  exists d', snd (cauchy_orset_merge (Some dst) (Some src) avail) = Some d' /\
             counted d'.
Proof.
  intros Hc. unfold cauchy_orset_merge.
  pose proof (counted_merge_buckets src (zrange (num_buckets src)) dst avail Hc) as H.
  destruct (merge_buckets dst src (zrange (num_buckets src)) avail) as [[res d'] a'].
  exists d'. split; [reflexivity | exact H].
Qed.

(** X29. [cauchy_orset_init] establishes, and [cauchy_orset_add],
    [cauchy_orset_remove] and [cauchy_orset_merge] keep, whatever they
    return, the agreement of the counters with the table: [active_count],
    which [cauchy_orset_count] returns, is the number of entries not marked
    removed, and [entry_count] the number of all entries, tombstones
    included (both modulo 2^64).  So while the table has fewer than 2^64
    entries, [cauchy_orset_is_empty] holds exactly when every entry is a
    tombstone. *)
Theorem orset_counters_track_entries (s : cauchy_orset_t) (capacity node : Z) :
  (0 <= capacity -> counted (cauchy_orset_init capacity node)) /\
  (counted s ->
   (forall d ok, exists s',
      snd (cauchy_orset_add (Some s) d ok) = Some s' /\ counted s') /\
   (forall d, exists s',
      snd (cauchy_orset_remove (Some s) d) = Some s' /\ counted s') /\
   (forall src avail, exists s',
      snd (cauchy_orset_merge (Some s) (Some src) avail) = Some s' /\ counted s') /\
   cauchy_orset_count (Some s) = wrap64 (Z.of_nat (count_if live (entries s))) /\
   (Z.of_nat (length (entries s)) < 2 ^ 64 ->
    (cauchy_orset_is_empty (Some s) = true <->
     forall e, In e (entries s) -> removed e = true))).
Proof.
  split; [apply counted_init|]. intros Hc.
  split; [intros d ok; apply counted_add, Hc|].
  split; [intros d; apply counted_remove, Hc|].
  split; [intros src avail; apply counted_merge, Hc|].
  destruct Hc as (_ & Ha & _). split; [exact Ha|].
  intros Hlen. unfold cauchy_orset_is_empty. rewrite Ha, Z.eqb_eq.
  assert (Hle : (count_if live (entries s) <= length (entries s))%nat)
    by (unfold count_if; apply List.filter_length_le).
  unfold wrap64. rewrite Z.mod_small by lia.
  split.
  - intros H0 e He.
    assert (Hz : count_if live (entries s) = 0%nat) by lia.
    pose proof (proj1 (count_if_zero live (entries s)) Hz e He) as Hl.
    unfold live in Hl. apply negb_false_iff in Hl. exact Hl.
  - intros H.
    assert (Hz : count_if live (entries s) = 0%nat).
    { apply count_if_zero. intros e He. unfold live. rewrite (H e He). reflexivity. }
    lia.
Qed.

Lemma orset_counters_track_entries_witness :
  counted (cauchy_orset_init 0 1) /\
  cauchy_orset_count (Some (cauchy_orset_init 0 1)) = 0 /\
  exists s',
    snd (cauchy_orset_add (Some (cauchy_orset_init 0 1)) str_k true) = Some s' /\
    counted s'.
Proof.
  destruct (orset_counters_track_entries (cauchy_orset_init 0 1) 0 1) as [H0 H].
  specialize (H0 ltac:(lia)). destruct (H H0) as (Hadd & _ & _ & Hcount & _).
  split; [exact H0|]. split; [rewrite Hcount; reflexivity|].
  apply Hadd.
Defined.

(** *** Equality *)

Lemma equals_chain_forallb (chain : list cauchy_orset_entry_t)
  (b : option cauchy_orset_t) :
  equals_chain chain b =
  forallb (fun e => removed e || cauchy_orset_contains b (data e)) chain.
Proof.
  induction chain as [|e chain IH]; [reflexivity|]. cbn [equals_chain forallb].
  destruct (removed e); cbn [negb andb orb]; [exact IH|].
  destruct (cauchy_orset_contains b (data e)); [exact IH | reflexivity].
Qed.

Lemma equals_buckets_forallb (a : cauchy_orset_t) (b : option cauchy_orset_t)
  (indices : list Z) :
  equals_buckets a b indices =
  forallb (fun e => removed e || cauchy_orset_contains b (data e))
    (concat (map (fun i => buckets a !!! Z.to_nat i) indices)).
Proof.
  induction indices as [|i rest IH]; [reflexivity|].
  cbn [equals_buckets map concat]. rewrite forallb_app, equals_chain_forallb.
  destruct (forallb _ (buckets a !!! Z.to_nat i)); [exact IH | reflexivity].
Qed.

Lemma orset_equals_spec (a b : cauchy_orset_t) :
  shape a ->
  (cauchy_orset_equals (Some a) (Some b) = true <->
   active_count a = active_count b /\
   forall e, In e (entries a) -> removed e = false ->
             cauchy_orset_contains (Some b) (data e) = true).
Proof.
  intros Ha. unfold cauchy_orset_equals.
  rewrite equals_buckets_forallb, (chains_zrange a Ha). fold (entries a).
  destruct (Z.eqb_spec (active_count a) (active_count b)) as [Heq|Hne]; cbn [negb].
  - rewrite forallb_forall. split.
    + intros H. split; [exact Heq|]. intros e He Hr.
      specialize (H e He). rewrite Hr in H. exact H.
    + intros [_ H] e He. destruct (removed e) eqn:Hr; [reflexivity|].
      apply (H e He Hr).
  - split; [discriminate | intros [H _]; contradiction].
Qed.

(** X30. [cauchy_orset_equals] accepts [a] and [b] exactly when their
    [active_count]s agree and [b] contains the payload of every live entry
    of [a]; it does not look for the payloads of [b] in [a].  Since
    [active_count] counts entries, the answer depends on the order of the
    arguments: after adding [k] twice to one copy of a set and [k] and a
    new payload [j] to another, the first equals the second but the second
    does not equal the first. *)
Theorem orset_equals_one_sided (a b s : cauchy_orset_t) (k j : list Z) :
  (shape a ->
   (cauchy_orset_equals (Some a) (Some b) = true <->
    active_count a = active_count b /\
    forall e, In e (entries a) -> removed e = false ->
              cauchy_orset_contains (Some b) (data e) = true)) /\
  (wf s -> (forall e, In e (entries s) -> data e <> []) ->
   k <> [] -> j <> [] -> j <> k ->
   cauchy_orset_contains (Some s) j = false ->
   let add2 x y :=
     snd (cauchy_orset_add (snd (cauchy_orset_add (Some s) x true)) y true) in
   cauchy_orset_equals (add2 k k) (add2 k j) = true /\
   cauchy_orset_equals (add2 k j) (add2 k k) = false).
Proof.
  split; [apply orset_equals_spec|].
  intros Hwf Hne Hk Hj Hjk Hcj add2. unfold add2.
  destruct (orset_add_effect s k Hwf Hk) as (s1 & -> & Hwf1 & C1 & C1' & A1 & E1).
  cbn [snd].
  destruct (orset_add_effect s1 k Hwf1 Hk) as (skk & -> & Hwfkk & Ckk & Ckk' & Akk & Ekk).
  destruct (orset_add_effect s1 j Hwf1 Hj) as (skj & -> & Hwfkj & Ckj & Ckj' & Akj & Ekj).
  cbn [snd].
  assert (Hk_in : cauchy_orset_contains (Some skj) k = true).
  { rewrite Ckj' by congruence. exact C1. }
  split.
  - apply (orset_equals_spec skk skj (proj1 Hwfkk)).
    split; [rewrite Akk, Akj; reflexivity|].
    intros e He Hr. apply Ekk in He as [->|He]; [exact Hk_in|].
    apply E1 in He as [->|He]; [exact Hk_in|].
    destruct (decide (data e = j)) as [Hd|Hd]; [rewrite Hd; exact Ckj|].
    rewrite (Ckj' _ Hd).
    destruct (decide (data e = k)) as [Hd'|Hd']; [rewrite Hd'; exact C1|].
    rewrite (C1' _ Hd').
    apply (contains_true s (data e) e Hwf (Hne e He) He).
    apply active_k_spec. split; [reflexivity | exact Hr].
  - destruct (cauchy_orset_equals (Some skj) (Some skk)) eqn:Heq; [|reflexivity].
    apply (orset_equals_spec skj skk (proj1 Hwfkj)) in Heq as [_ Hall].
    specialize (Hall (e2 j (minted s1)) (proj2 (Ekj _) (or_introl eq_refl)) eq_refl).
    cbn [e2 data] in Hall. rewrite (Ckk' j Hjk), (C1' j Hjk) in Hall. congruence.
Qed.

Lemma orset_equals_one_sided_witness :
  let add2 x y :=
    snd (cauchy_orset_add
           (snd (cauchy_orset_add (Some (cauchy_orset_init 0 1)) x true)) y true) in
  cauchy_orset_equals (add2 str_k str_k) (add2 str_k [106; 0]) = true /\
  cauchy_orset_equals (add2 str_k [106; 0]) (add2 str_k str_k) = false.
Proof.
  apply (orset_equals_one_sided (cauchy_orset_init 0 1) (cauchy_orset_init 0 1)
           (cauchy_orset_init 0 1) str_k [106; 0]).
  - apply wf_check_sound. reflexivity.
  - intros e He. vm_compute in He. destruct He.
  - discriminate.
  - discriminate.
  - discriminate.
  - reflexivity.
Defined.

End ORSetOps.
